(** * Puzzle platform: Sudoku, word ladder, solver and move history

    A shallow embedding of [sudoku_puzzle.py], [word_ladder_puzzle.py],
    [solver.py] and of the history and the actions of [controller.py],
    with the properties of the specification stated over it.

    Conventions of the embedding.
    - A Python [str] is a [string]; a cell of a Sudoku grid is a [string]
      (the empty string for an empty square).
    - Lengths and list indices are [nat]: every index expression of the
      source is a digit value, an element of a [range] or a sum of those,
      so no negative index occurs.  The depth bound of [hint_by_depth]
      is an arbitrary Python [int], hence a [Z].
    - A call that can raise returns a [result]; the constructors of [exn]
      are the Python exception classes the source can raise.
    - Recursive searches whose termination depends on the puzzle take a
      [fuel]; [None] means that the fuel ran out, never a Python value.
    - A state is a value wherever only what it holds matters.  Where the
      question is which methods change an object, the instances and
      their lists are objects of a heap ([PuzzleObjects]). *)

From Stdlib Require Import String Ascii List ZArith Lia Bool Permutation.
From Stdlib Require Import Sorting.Sorted Sorting.Mergesort Orders.
From Stdlib Require DecimalString.
From stdpp Require Import base tactics option list strings.

Import ListNotations.
Local Open Scope string_scope.
Local Open Scope list_scope.

(** ** Exceptions and fallible computations *)

Inductive exn : Type :=
  | ValueError
  | IndexError
  | UnboundLocalError.

Inductive result (A : Type) : Type :=
  | Ok (a : A)
  | Raise (e : exn).

Arguments Ok {A} a.
Arguments Raise {A} e.

Definition rbind {A B : Type} (r : result A) (k : A -> result B) : result B :=
  match r with
  | Ok a => k a
  | Raise e => Raise e
  end.

Notation "'let*' x ':=' r 'in' k" := (rbind r (fun x => k))
  (at level 10, x name, r at level 200, k at level 200).

(** A [for] loop whose body can raise: the accumulator is threaded through
    the elements from left to right and the first exception ends the loop. *)
Fixpoint for_each {A S : Type} (body : S -> A -> result S) (l : list A) (s : S)
  : result S :=
  match l with
  | [] => Ok s
  | x :: l' => let* s' := body s x in for_each body l' s'
  end.

(** A list comprehension whose element expression can raise. *)
Fixpoint map_result {A B : Type} (f : A -> result B) (l : list A) : result (list B) :=
  match l with
  | [] => Ok []
  | x :: l' => let* y := f x in let* ys := map_result f l' in Ok (y :: ys)
  end.

(** ** Python built-ins used by the source *)

(** [l[i]] for [i >= 0]. *)
Definition getitem {A : Type} (l : list A) (i : nat) : result A :=
  match nth_error l i with
  | Some x => Ok x
  | None => Raise IndexError
  end.

(** [l[i] = x] for [i >= 0]: the list after the assignment. *)
Definition setitem {A : Type} (l : list A) (i : nat) (x : A) : result (list A) :=
  if Nat.ltb i (length l) then Ok (<[i := x]> l)
  else Raise IndexError.

(** [x in l] on a list of strings. *)
Definition contains (x : string) (l : list string) : bool :=
  existsb (String.eqb x) l.

(** [l.index(x)]. *)
Fixpoint index (x : string) (l : list string) : result nat :=
  match l with
  | [] => Raise ValueError
  | y :: l' => if String.eqb y x then Ok 0 else let* i := index x l' in Ok (S i)
  end.

(** [l.remove(x)]: the list without the first occurrence of [x]. *)
Fixpoint remove (x : string) (l : list string) : result (list string) :=
  match l with
  | [] => Raise ValueError
  | y :: l' => if String.eqb y x then Ok l' else let* r := remove x l' in Ok (y :: r)
  end.

(** [range(start, stop, step)] for non-negative arguments; Python raises
    [ValueError] for a zero step. *)
Fixpoint range_from (count start step : nat) : list nat :=
  match count with
  | 0 => []
  | S c => start :: range_from c (start + step) step
  end.

Definition range_step (start stop step : nat) : result (list nat) :=
  match step with
  | 0 => Raise ValueError
  | S _ => Ok (range_from ((stop - start + step - 1) / step) start step)
  end.

(** [range(n)]. *)
Definition range (n : nat) : list nat := seq 0 n.

(** [str(i)] for a non-negative [int]. *)
Definition str_of_nat (i : nat) : string :=
  DecimalString.NilEmpty.string_of_uint (Nat.to_uint i).

(** [s[i]] on a string, [i >= 0]. *)
Definition str_getitem (s : string) (i : nat) : result string :=
  match String.get i s with
  | Some c => Ok (String c EmptyString)
  | None => Raise IndexError
  end.

(** [s[-1]]. *)
Definition str_last (s : string) : result string :=
  match String.length s with
  | 0 => Raise IndexError
  | S k => str_getitem s k
  end.

(** [int(s)] for a string [s] of one character: the digit's value, or
    [ValueError].  (Among the characters below code point 256 only
    ['0'] to ['9'] are decimal digits.) *)
Definition int_of_char (s : string) : result nat :=
  match s with
  | String c EmptyString =>
      let k := nat_of_ascii c in
      if andb (Nat.leb 48 k) (Nat.leb k 57) then Ok (k - 48) else Raise ValueError
  | _ => Raise ValueError
  end.

(** [sorted(l)] and [l.sort()] on strings: Python compares strings by code
    point, which is [String.leb]; the order is total and antisymmetric, so
    the sorted list does not depend on the sorting algorithm. *)
Module StringOrder <: TotalLeBool.

Definition t := string.

Definition leb (x y : string) : bool := String.leb x y.

Lemma leb_total (x y : string) : leb x y = true \/ leb y x = true.
Proof. apply String.leb_total. Qed.

End StringOrder.

Module StringSort := Sort StringOrder.

Definition sorted (l : list string) : list string := StringSort.sort l.

(** Equality of two lists of strings, [l1 == l2]. *)
Fixpoint list_eqb (l1 l2 : list string) : bool :=
  match l1, l2 with
  | [], [] => true
  | x :: l1', y :: l2' => andb (String.eqb x y) (list_eqb l1' l2')
  | _, _ => false
  end.

(** [s.rstrip()]: the characters Python counts as white space, below code
    point 256. *)
Definition is_space (c : ascii) : bool :=
  let k := nat_of_ascii c in
  orb (andb (Nat.leb 9 k) (Nat.leb k 13))
      (orb (andb (Nat.leb 28 k) (Nat.leb k 32)) (orb (Nat.eqb k 133) (Nat.eqb k 160))).

Fixpoint rstrip (s : string) : string :=
  match s with
  | EmptyString => EmptyString
  | String c s' =>
      match rstrip s' with
      | EmptyString => if is_space c then EmptyString else String c EmptyString
      | r => String c r
      end
  end.

(** [c * k] for a one-character string. *)
Fixpoint str_repeat (c : string) (k : nat) : string :=
  match k with
  | 0 => EmptyString
  | S k' => c +:+ str_repeat c k'
  end.

(** ** Sudoku puzzle *)

Module SudokuPuzzle.

Definition CHARS : string := "ABCDEFGHIJKLMNOPQRSTUVWXYZ".

Abbreviation grid := (list (list string)).

Record t : Type := mk { _n : nat; _grid : grid }.

(** [SudokuPuzzle(grid)]. *)
Definition __init__ (g : grid) : t := {| _n := length g; _grid := g |}.

(** [list(CHARS[:n])]. *)
Definition letters (n : nat) : list string :=
  map (fun c => String c EmptyString) (firstn n (list_ascii_of_string CHARS)).

(** [int(sqrt(n))]; exact on the sizes a board can have. *)
Definition isqrt (n : nat) : nat := Nat.sqrt n.

(** The first [r] of [range(0, n, m)] with [x in range(r, r + m)], or
    nothing when the loop ends without assigning. *)
Definition first_block (starts : list nat) (m x : nat) : option nat :=
  List.find (fun r => andb (Nat.leb r x) (Nat.ltb x (r + m))) starts.

Definition _find_subsquare (self : t) (row_index col_index : nat)
  : result (nat * nat * nat) :=
  let m := isqrt (_n self) in
  let* rs := range_step 0 (_n self) m in
  let row := first_block rs m row_index in
  let* cs := range_step 0 (_n self) m in
  let col := first_block cs m col_index in
  match row, col with
  | Some r, Some c => Ok (r, c, m)
  | _, _ => Raise UnboundLocalError
  end.

(** The body of the loop over the candidate letters in
    [_possible_letters]: [dl] is [delete_letters]. *)
Definition scan_letter (self : t) (row_index col_index r c m : nat)
    (dl : list string) (letter : string) : result (list string) :=
  let* row := getitem (_grid self) row_index in
  if contains letter row then Ok (dl ++ [letter])
  else
    let* dl1 := for_each (fun dl i =>
                let* rw := getitem (_grid self) i in
                let* cell := getitem rw col_index in
                if String.eqb letter cell then Ok (dl ++ [letter]) else Ok dl)
              (range (_n self)) dl in
    for_each (fun dl j =>
      for_each (fun dl k =>
        let* rw := getitem (_grid self) (r + j) in
        let* cell := getitem rw (c + k) in
        if andb (String.eqb letter cell) (negb (contains letter dl))
        then Ok (dl ++ [letter]) else Ok dl)
      (range m) dl)
    (range m) dl1.

Definition _possible_letters (self : t) (row_index col_index : nat)
  : result (list string) :=
  let possible_letters := letters (_n self) in
  let* sq := _find_subsquare self row_index col_index in
  let '(r, c, m) := sq in
  let* delete_letters :=
     for_each (scan_letter self row_index col_index r c m) possible_letters [] in
  for_each (fun pl letter => remove letter pl) delete_letters possible_letters.

(** [_extend]: the rows are copied, then one cell of the copy is assigned. *)
Definition _extend (self : t) (letter : string) (row_index col_index : nat)
  : result t :=
  let new_grid := _grid self in
  let* row := getitem new_grid row_index in
  let* row' := setitem row col_index letter in
  let* new_grid' := setitem new_grid row_index row' in
  Ok (__init__ new_grid').

(** [__str__]. *)
Definition divider (n m j : nat) : string :=
  if andb (Nat.eqb ((j + 1) mod m) 0) (negb (Nat.eqb (j + 1) n)) then "|" else "".

Definition newline : string := String (ascii_of_nat 10) EmptyString.

Definition __str__ (self : t) : result string :=
  let n := _n self in
  let m := isqrt n in
  let s := "  " in
  let s := fold_left (fun s col => s +:+ str_of_nat (col mod 10) +:+ divider n m col)
                     (range n) s in
  let s := s +:+ newline +:+ " " +:+ str_repeat "-" (n + m) +:+ newline in
  for_each (fun s i =>
      let s := s +:+ str_of_nat (i mod 10) +:+ "|" in
      let* s := for_each (fun s j =>
                  let* row := getitem (_grid self) i in
                  let* cell := getitem row j in
                  let s := if String.eqb cell "" then s +:+ " " else s +:+ cell in
                  Ok (s +:+ divider n m j))
                (range n) s in
      let s := rstrip s in
      let s := s +:+ newline in
      Ok (if andb (Nat.eqb ((i + 1) mod m) 0) (negb (Nat.eqb (i + 1) n))
          then s +:+ " " +:+ str_repeat "-" (n + m) +:+ newline else s))
    (range n) s.

(** [is_solved]: the four groups of checks, in the order of the source;
    [all_rows ok rows] is a loop that returns [False] at the first row
    failing [ok]. *)
Definition is_perm_of_letters (n : nat) (items : list string) : bool :=
  list_eqb (sorted items) (letters n).

Definition column (self : t) (i : nat) : result (list string) :=
  map_result (fun row => getitem row i) (_grid self).

Definition subsquare (self : t) (x y m : nat) : result (list string) :=
  let* rows := map_result (fun i =>
                 map_result (fun j =>
                   let* row := getitem (_grid self) (x + i) in
                   getitem row (y + j))
                 (range m))
               (range m) in
  Ok (concat rows).

(** A loop [for x in xs: if not check(x): return False]: [Ok true] when
    the loop runs to its end. *)
Fixpoint all_pass {A : Type} (check : A -> result bool) (xs : list A) : result bool :=
  match xs with
  | [] => Ok true
  | x :: xs' =>
      let* b := check x in
      if b then all_pass check xs' else Ok false
  end.

Definition is_solved (self : t) : result bool :=
  let n := _n self in
  let* full := all_pass (fun row => Ok (negb (contains "" row))) (_grid self) in
  if negb full then Ok false else
  let* rows_ok := all_pass (fun row => Ok (is_perm_of_letters n row)) (_grid self) in
  if negb rows_ok then Ok false else
  let* cols_ok := all_pass (fun i =>
                    let* col := column self i in Ok (is_perm_of_letters n col))
                  (range n) in
  if negb cols_ok then Ok false else
  let m := isqrt n in
  let* xs := range_step 0 n m in
  all_pass (fun x =>
      let* ys := range_step 0 n m in
      all_pass (fun y =>
          let* items := subsquare self x y m in
          Ok (is_perm_of_letters n items))
        ys)
    xs.

(** The search for the first empty cell in [extensions]. *)
Fixpoint first_empty (self : t) (rows : list nat) : result (option (nat * nat)) :=
  match rows with
  | [] => Ok None
  | i :: rest =>
      let* row := getitem (_grid self) i in
      if contains "" row then let* j := index "" row in Ok (Some (i, j))
      else first_empty self rest
  end.

Definition extensions (self : t) : result (list t) :=
  let* cell := first_empty self (range (_n self)) in
  match cell with
  | None => Ok []
  | Some (row_index, col_index) =>
      let* ls := _possible_letters self row_index col_index in
      map_result (fun letter => _extend self letter row_index col_index) ls
  end.

Definition move (self : t) (mv : string) : result t :=
  let* c1 := str_getitem mv 1 in
  let* row_index := int_of_char c1 in
  let* c4 := str_getitem mv 4 in
  let* col_index := int_of_char c4 in
  let* letter := str_last mv in
  let* possible_letters := _possible_letters self row_index col_index in
  if orb (negb (Nat.ltb row_index (_n self))) (negb (Nat.ltb col_index (_n self)))
  then Raise ValueError
  else if negb (contains letter possible_letters) then Raise ValueError
  else
    let* row := getitem (_grid self) row_index in
    let* cell := getitem row col_index in
    if negb (String.eqb cell "") then Raise ValueError
    else _extend self letter row_index col_index.

(** The inner loop of [generate_strings] on row [i]: the first column at
    which the two rows differ, with the new cell; [IndexError] when a row
    is too short. *)
Fixpoint first_diff (row new_row : list string) (n j : nat)
  : result (option (nat * string)) :=
  match n with
  | 0 => Ok None
  | S n' =>
      let* a := getitem row j in
      let* b := getitem new_row j in
      if negb (String.eqb a b) then Ok (Some (j, b))
      else first_diff row new_row n' (S j)
  end.

Definition generate_strings (self new_puzzle : t) : result string :=
  let* found :=
     for_each (fun (acc : option (nat * nat * string)) i =>
        let* row := getitem (_grid self) i in
        let* new_row := getitem (_grid new_puzzle) i in
        let* d := first_diff row new_row (_n self) 0 in
        match d with
        | Some (j, ch) => Ok (Some (i, j, ch))
        | None => Ok acc
        end)
      (range (_n self)) None in
  match found with
  | Some (row_index, col_index, ch) =>
      Ok ("(" +:+ str_of_nat row_index +:+ ", " +:+ str_of_nat col_index +:+ ") -> " +:+ ch)
  | None => Raise UnboundLocalError
  end.

End SudokuPuzzle.



(** ** Word ladder puzzle *)

(** Python lists are mutable and can be shared.  The one list of the
    source that is shared between objects and appended to afterwards is
    the accumulator of [solve_in_breadth], handed to every successor by
    [add_tried_words].  Such lists live in a [store]; an object refers to
    one by its location. *)
Abbreviation loc := nat.
Abbreviation store := (list (list string)).

Definition deref (h : store) (l : loc) : list string := nth l h [].

(** [l = []]: a new list, at a location not used before. *)
Definition alloc (h : store) : loc * store := (length h, h ++ [[]]).

(** [l.append(x)]. *)
Definition append (h : store) (l : loc) (x : string) : store :=
  <[l := deref h l ++ [x]]> h.

(** [s[:i]] and [s[i:]] for [i >= 0]. *)
Fixpoint str_take (i : nat) (s : string) : string :=
  match i, s with
  | S i', String c s' => String c (str_take i' s')
  | _, _ => EmptyString
  end.

Fixpoint str_drop (i : nat) (s : string) : string :=
  match i, s with
  | S i', String _ s' => str_drop i' s'
  | _, _ => s
  end.

Module WordLadderPuzzle.

(** The field [_tried_words].  [__init__] binds it to a list of its own,
    which no method appends to or hands out: as long as the field refers
    to that list it is empty ([Own]).  [add_tried_words] rebinds the field
    to the caller's list ([Ref l]). *)
Inductive tried_ref : Type :=
  | Own
  | Ref (l : loc).

Record t : Type := mk {
  _words : list string;
  _start : string;
  _target : string;
  _used_words : list string;
  _tried_words : tried_ref
}.

Section WithWordFile.

(** The lines of [wordsEn.txt], each after [strip()]. *)
Variable wordfile : list string.

(** [WordLadderPuzzle(start, target, used_words)]. *)
Definition __init__ (start target : string) (used_words : list string) : t :=
  {| _words := List.filter (fun line => Nat.eqb (String.length line) (String.length start))
                      wordfile;
     _start := start;
     _target := target;
     _used_words := used_words ++ [start];
     _tried_words := Own |}.

(** [tuple(self._tried_words)]. *)
Definition tried (h : store) (self : t) : list string :=
  match _tried_words self with
  | Own => []
  | Ref l => deref h l
  end.

Definition __str__ (self : t) : result string :=
  let s := "word chain: " +:+ String (ascii_of_nat 10) EmptyString in
  let s := fold_left (fun s word => s +:+ word +:+ " -> ")
                     (removelast (_used_words self)) s in
  match _used_words self with
  | [] => Raise IndexError
  | w :: ws =>
      Ok (s +:+ List.last ws w +:+ String (ascii_of_nat 10) EmptyString
            +:+ "target word: " +:+ _target self)
  end.

Definition is_solved (self : t) : bool := String.eqb (_start self) (_target self).

(** [s[:i] + s[i+1:]]. *)
Definition without (i : nat) (s : string) : string :=
  str_take i s +:+ str_drop (S i) s.

Definition _possible_words (h : store) (self : t) : list string :=
  let new_words :=
    flat_map (fun word =>
        if negb (contains word (_used_words self ++ tried h self)) then
          flat_map (fun i =>
              if String.eqb (without i word) (without i (_start self))
              then [word] else [])
            (range (String.length (_start self)))
        else [])
      (_words self) in
  sorted new_words.

Definition _extend (self : t) (word : string) : t :=
  __init__ word (_target self) (_used_words self).

Definition extensions (h : store) (self : t) : list t :=
  map (_extend self) (_possible_words h self).

Definition move (h : store) (self : t) (mv : string) : result t :=
  let possible_words := _possible_words h self in
  if negb (contains mv possible_words) then Raise ValueError
  else Ok (_extend self mv).

Definition generate_strings (self new_puzzle : t) : string := _start new_puzzle.

(** [add_tried_words] assigns a field of [self]: the receiver after the
    call. *)
Definition add_tried_words (self : t) (tried_words : loc) : t :=
  {| _words := _words self;
     _start := _start self;
     _target := _target self;
     _used_words := _used_words self;
     _tried_words := Ref tried_words |}.

Definition used_words (self : t) : list string := _used_words self.

Definition start_word (self : t) : string := _start self.

End WithWordFile.

End WordLadderPuzzle.


(** ** The two classes, their instances as objects *)

(** A method that changes an object changes it for everyone who holds a
    reference to it.  To say which methods do, the instances and the
    lists they refer to are objects of a heap here, and a method is a
    function on heaps: it can make objects and assign to the ones there
    are.  Strings, integers and tuples cannot be changed and are
    values.  A list that a method makes and no object or result refers
    to ([delete_letters], [new_words]) stays a value as well, so that a
    method reads its instance with the function of [SudokuPuzzle] or
    [WordLadderPuzzle] applied to what the heap holds. *)
Module PuzzleObjects.

Inductive object : Type :=
  | ListOfStr (items : list string)
  | ListOfLists (items : list loc)
  | SudokuObject (_n : nat) (_grid : loc)
  | WordLadderObject (_words : loc) (_start _target : string)
      (_used_words : list string) (_tried_words : loc).

Abbreviation heap := (list object).

(** A computation on the heap that can raise; the heap after it holds
    what was made and assigned before the exception. *)
Definition M (A : Type) : Type := heap -> result A * heap.

Definition ret {A : Type} (a : A) : M A := fun h => (Ok a, h).

Definition mbind {A B : Type} (c : M A) (k : A -> M B) : M B :=
  fun h =>
    match c h with
    | (Ok a, h1) => k a h1
    | (Raise e, h1) => (Raise e, h1)
    end.

Notation "'let&' x ':=' c 'in' k" := (mbind c (fun x => k))
  (at level 10, x name, c at level 200, k at level 200).

(** A computation that only reads. *)
Definition reading {A : Type} (f : heap -> result A) : M A := fun h => (f h, h).

(** A new object, at a location not used before. *)
Definition new (o : object) : M loc := fun h => (Ok (length h), h ++ [o]).

(** An assignment to the object at [l]. *)
Definition assign (l : loc) (o : object) : M unit := fun h => (Ok tt, <[l := o]> h).

(** A list comprehension whose element expression makes objects. *)
Fixpoint map_M {A B : Type} (f : A -> M B) (l : list A) : M (list B) :=
  match l with
  | [] => ret []
  | x :: l' =>
      let& y := f x in
      let& ys := map_M f l' in
      ret (y :: ys)
  end.

(** What a list holds. *)
Definition strings (h : heap) (l : loc) : list string :=
  match h !! l with
  | Some (ListOfStr items) => items
  | _ => []
  end.

Definition lists (h : heap) (l : loc) : list loc :=
  match h !! l with
  | Some (ListOfLists items) => items
  | _ => []
  end.

(** *** [SudokuPuzzle] *)

(** [self._grid], the rows of the grid. *)
Definition rows_of (h : heap) (self : loc) : list loc :=
  match h !! self with
  | Some (SudokuObject _ grid) => lists h grid
  | _ => []
  end.

(** What the methods read of [self]. *)
Definition sudoku_self (h : heap) (self : loc) : SudokuPuzzle.t :=
  match h !! self with
  | Some (SudokuObject n _) =>
      {| SudokuPuzzle._n := n; SudokuPuzzle._grid := map (strings h) (rows_of h self) |}
  | _ => {| SudokuPuzzle._n := 0; SudokuPuzzle._grid := [] |}
  end.

(** [SudokuPuzzle(grid)]: the object refers to the list it was given. *)
Definition sudoku_init (grid : loc) : M loc :=
  let& n := reading (fun h => Ok (length (lists h grid))) in
  new (SudokuObject n grid).

(** [[row.copy() for row in self._grid]]: each copy is a new list. *)
Fixpoint copy_rows (rows : list loc) : M (list loc) :=
  match rows with
  | [] => ret []
  | row :: rest =>
      let& items := reading (fun h => Ok (strings h row)) in
      let& copy := new (ListOfStr items) in
      let& copies := copy_rows rest in
      ret (copy :: copies)
  end.

(** [_extend]: the assignment is to a row of [new_grid]. *)
Definition sudoku_extend (self : loc) (letter : string) (row_index col_index : nat)
  : M loc :=
  let& rows := reading (fun h => Ok (rows_of h self)) in
  let& copies := copy_rows rows in
  let& new_grid := new (ListOfLists copies) in
  let& row := reading (fun h => getitem (lists h new_grid) row_index) in
  let& changed := reading (fun h => setitem (strings h row) col_index letter) in
  let& _ := assign row (ListOfStr changed) in
  sudoku_init new_grid.

(** [is_solved], [__str__] and [generate_strings] hold no assignment to
    a field or to an item of a list and call no method of a list;
    [sorted(row)] makes a list and leaves [row] as it is. *)
Definition sudoku_is_solved (self : loc) : M bool :=
  reading (fun h => SudokuPuzzle.is_solved (sudoku_self h self)).

Definition sudoku_str (self : loc) : M string :=
  reading (fun h => SudokuPuzzle.__str__ (sudoku_self h self)).

Definition sudoku_generate_strings (self new_puzzle : loc) : M string :=
  reading (fun h =>
    SudokuPuzzle.generate_strings (sudoku_self h self) (sudoku_self h new_puzzle)).

(** [extensions]: the search for the first empty cell ([in], [index])
    and [_possible_letters] read the grid; the objects are made by
    [_extend], once for each letter. *)
Definition sudoku_extensions (self : loc) : M (list loc) :=
  let& cell := reading (fun h =>
      SudokuPuzzle.first_empty (sudoku_self h self)
        (range (SudokuPuzzle._n (sudoku_self h self)))) in
  match cell with
  | None => ret []
  | Some (row_index, col_index) =>
      let& letters := reading (fun h =>
          SudokuPuzzle._possible_letters (sudoku_self h self) row_index col_index) in
      map_M (fun letter => sudoku_extend self letter row_index col_index) letters
  end.

(** [move]: all that comes before the call of [_extend] reads. *)
Definition sudoku_move (self : loc) (mv : string) : M loc :=
  let& cell := reading (fun h =>
      let* c1 := str_getitem mv 1 in
      let* row_index := int_of_char c1 in
      let* c4 := str_getitem mv 4 in
      let* col_index := int_of_char c4 in
      let* letter := str_last mv in
      let self_ := sudoku_self h self in
      let* possible_letters := SudokuPuzzle._possible_letters self_ row_index col_index in
      if orb (negb (Nat.ltb row_index (SudokuPuzzle._n self_)))
             (negb (Nat.ltb col_index (SudokuPuzzle._n self_)))
      then Raise ValueError
      else if negb (contains letter possible_letters) then Raise ValueError
      else
        let* row := getitem (SudokuPuzzle._grid self_) row_index in
        let* cell := getitem row col_index in
        if negb (String.eqb cell "") then Raise ValueError
        else Ok (letter, row_index, col_index)) in
  let '(letter, row_index, col_index) := cell in
  sudoku_extend self letter row_index col_index.

(** *** [WordLadderPuzzle] *)

(** The lists of strings of a heap, as the store the methods of
    [WordLadderPuzzle] read [_tried_words] from. *)
Definition lists_of_str (h : heap) : store :=
  map (fun o => match o with ListOfStr items => items | _ => [] end) h.

(** What the methods read of [self]. *)
Definition ladder_self (h : heap) (self : loc) : WordLadderPuzzle.t :=
  match h !! self with
  | Some (WordLadderObject words start target used_words tried_words) =>
      {| WordLadderPuzzle._words := strings h words;
         WordLadderPuzzle._start := start;
         WordLadderPuzzle._target := target;
         WordLadderPuzzle._used_words := used_words;
         WordLadderPuzzle._tried_words := WordLadderPuzzle.Ref tried_words |}
  | _ => WordLadderPuzzle.__init__ [] "" "" []
  end.

Section WithWordFile.

Variable wordfile : list string.

(** [WordLadderPuzzle(start, target, used_words)]: the object, then the
    list it fills with the words of the file and binds to [_words], then
    the empty list it binds to [_tried_words]. *)
Definition ladder_init (start target : string) (used_words : list string) : M loc :=
  fun h =>
    let self := length h in
    let made := WordLadderPuzzle.__init__ wordfile start target used_words in
    (Ok self,
     h ++ [WordLadderObject (self + 1) start target
             (WordLadderPuzzle._used_words made) (self + 2);
           ListOfStr (WordLadderPuzzle._words made);
           ListOfStr []]).

Definition ladder_extend (self : loc) (word : string) : M loc :=
  let& this := reading (fun h => Ok (ladder_self h self)) in
  ladder_init word (WordLadderPuzzle._target this) (WordLadderPuzzle._used_words this).

(** [is_solved], [__str__] and [generate_strings] read fields. *)
Definition ladder_is_solved (self : loc) : M bool :=
  reading (fun h => Ok (WordLadderPuzzle.is_solved (ladder_self h self))).

Definition ladder_str (self : loc) : M string :=
  reading (fun h => WordLadderPuzzle.__str__ (ladder_self h self)).

Definition ladder_generate_strings (self new_puzzle : loc) : M string :=
  reading (fun h =>
    Ok (WordLadderPuzzle.generate_strings (ladder_self h self) (ladder_self h new_puzzle))).

(** [extensions] and [move]: [_possible_words] reads [_words],
    [_used_words] and [_tried_words] and sorts the list it made. *)
Definition ladder_extensions (self : loc) : M (list loc) :=
  let& new_words := reading (fun h =>
      Ok (WordLadderPuzzle._possible_words (lists_of_str h) (ladder_self h self))) in
  map_M (fun word => ladder_extend self word) new_words.

Definition ladder_move (self : loc) (mv : string) : M loc :=
  let& possible_words := reading (fun h =>
      Ok (WordLadderPuzzle._possible_words (lists_of_str h) (ladder_self h self))) in
  if negb (contains mv possible_words) then reading (fun _ => Raise ValueError)
  else ladder_extend self mv.

(** [add_tried_words]: an assignment to a field of [self]. *)
Definition ladder_add_tried_words (self : loc) (tried_words : loc) : M unit :=
  let& this := reading (fun h => Ok (h !! self)) in
  match this with
  | Some (WordLadderObject words start target used_words _) =>
      assign self (WordLadderObject words start target used_words tried_words)
  | _ => ret tt
  end.

(** *** A call of a method *)

Inductive method : Type :=
  | IsSolved
  | Extensions
  | Move (mv : string)
  | GenerateStrings (new_puzzle : loc)
  | Str
  | AddTriedWords (tried_words : loc).

Inductive value : Type :=
  | NoValue
  | Bool (b : bool)
  | Text (s : string)
  | Instance (o : loc)
  | Instances (os : list loc).

Definition returning {A : Type} (f : A -> value) (c : M A) : M value :=
  let& a := c in ret (f a).

(** The class of an object. *)
Inductive class : Type := SudokuPuzzleClass | WordLadderPuzzleClass.

Definition class_of (h : heap) (l : loc) : option class :=
  match h !! l with
  | Some (SudokuObject _ _) => Some SudokuPuzzleClass
  | Some (WordLadderObject _ _ _ _ _) => Some WordLadderPuzzleClass
  | _ => None
  end.

(** [self.m(...)], the method looked up in the class of [self]; nothing
    where the program has no such call: [self] is no puzzle, the
    argument of [generate_strings] is no puzzle of the class of [self],
    or the class has no such method. *)
Definition call (self : loc) (m : method) (h : heap) : option (result value * heap) :=
  match class_of h self with
  | Some SudokuPuzzleClass =>
      match m with
      | IsSolved => Some (returning Bool (sudoku_is_solved self) h)
      | Extensions => Some (returning Instances (sudoku_extensions self) h)
      | Move mv => Some (returning Instance (sudoku_move self mv) h)
      | GenerateStrings new_puzzle =>
          match class_of h new_puzzle with
          | Some SudokuPuzzleClass =>
              Some (returning Text (sudoku_generate_strings self new_puzzle) h)
          | _ => None
          end
      | Str => Some (returning Text (sudoku_str self) h)
      | AddTriedWords _ => None
      end
  | Some WordLadderPuzzleClass =>
      match m with
      | IsSolved => Some (returning Bool (ladder_is_solved self) h)
      | Extensions => Some (returning Instances (ladder_extensions self) h)
      | Move mv => Some (returning Instance (ladder_move self mv) h)
      | GenerateStrings new_puzzle =>
          match class_of h new_puzzle with
          | Some WordLadderPuzzleClass =>
              Some (returning Text (ladder_generate_strings self new_puzzle) h)
          | _ => None
          end
      | Str => Some (returning Text (ladder_str self) h)
      | AddTriedWords tried_words =>
          Some (returning (fun _ => NoValue) (ladder_add_tried_words self tried_words) h)
      end
  | None => None
  end.

End WithWordFile.

End PuzzleObjects.

(** ** Solver *)

(** A search that can run out of fuel ([None]) or raise. *)
Definition search (A : Type) : Type := option (result A).

Definition sret {A : Type} (a : A) : search A := Some (Ok a).

Definition lift {A : Type} (r : result A) : search A := Some r.

Definition sbind {A B : Type} (c : search A) (k : A -> search B) : search B :=
  match c with
  | None => None
  | Some (Raise e) => Some (Raise e)
  | Some (Ok a) => k a
  end.

Notation "'let!' x ':=' c 'in' k" := (sbind c (fun x => k))
  (at level 10, x name, c at level 200, k at level 200).

Module Solver.

(** A puzzle is an object of one of the two classes; method calls
    dispatch on the class. *)
Inductive puzzle : Type :=
  | Sudoku (s : SudokuPuzzle.t)
  | WordLadder (w : WordLadderPuzzle.t).

(** What [solve] and [solve_in_breadth] hand back: a string, a puzzle or
    [None]. *)
Inductive answer : Type :=
  | AStr (s : string)
  | APuzzle (p : puzzle)
  | ANone.

(** The depth-first functions use a puzzle through [is_solved],
    [extensions] and [generate_strings] only. *)
Section DepthFirst.

Context {S : Type}.
Variable is_solved : S -> result bool.
Variable extensions : S -> result (list S).
Variable generate_strings : S -> S -> result string.

(** [solve_depth]; a puzzle object is truthy (neither class defines
    [__bool__] or [__len__]), so [if state:] tests for [None]. *)
Fixpoint solve_depth (fuel : nat) (puzzle : S) : search (option S) :=
  match fuel with
  | 0 => None
  | Datatypes.S fuel' =>
      let! solved := lift (is_solved puzzle) in
      if solved then sret (Some puzzle)
      else
        let! exts := lift (extensions puzzle) in
        (fix loop (l : list S) : search (option S) :=
           match l with
           | [] => sret None
           | new_state :: l' =>
               let! state := solve_depth fuel' new_state in
               match state with
               | Some st => sret (Some st)
               | None => loop l'
               end
           end) exts
  end.

Fixpoint solve_complete (fuel : nat) (puzzle : S) : search (list S) :=
  match fuel with
  | 0 => None
  | Datatypes.S fuel' =>
      let! solved := lift (is_solved puzzle) in
      if solved then sret [puzzle]
      else
        let! exts := lift (extensions puzzle) in
        (fix loop (l : list S) (solutions : list S) : search (list S) :=
           match l with
           | [] => sret solutions
           | new_state :: l' =>
               let! found := solve_complete fuel' new_state in
               match found with
               | [] => loop l' solutions
               | _ :: _ =>
                   let! again := solve_complete fuel' new_state in
                   loop l' (solutions ++ again)
               end
           end) exts []
  end.

Fixpoint solve_in_depth (fuel : nat) (puzzle : S) (n : Z) : search bool :=
  match fuel with
  | 0 => None
  | Datatypes.S fuel' =>
      let! solved := lift (is_solved puzzle) in
      if solved then sret true
      else if Z.eqb n 0 then sret false
      else
        let! exts := lift (extensions puzzle) in
        (fix loop (l : list S) : search bool :=
           match l with
           | [] => sret false
           | extension :: l' =>
               let! sol := solve_in_depth fuel' extension (n - 1) in
               if sol then sret sol else loop l'
           end) exts
  end.

(** [valid_state]: with the bound at [0] the answer is whether the
    state has a successor; when no branch returns, the function falls
    through to its last line. *)
Fixpoint valid_state (fuel : nat) (puzzle : S) (n : Z) : search bool :=
  match fuel with
  | 0 => None
  | Datatypes.S fuel' =>
      if Z.eqb n 0 then
        let! exts := lift (extensions puzzle) in
        if Nat.ltb 0 (length exts) then sret true else sret false
      else
        let! exts := lift (extensions puzzle) in
        (fix loop (l : list S) : search bool :=
           match l with
           | [] => sret false
           | extension :: l' =>
               let! sol := valid_state fuel' extension (n - 1) in
               if sol then sret sol else loop l'
           end) exts
  end.

Definition already_solved : string := "Already at a solution!".
Definition no_extensions : string := "No possible extensions!".

Fixpoint hint_loop (fuel : nat) (puzzle : S) (n : Z) (l : list S) : search string :=
  match l with
  | [] => sret no_extensions
  | extension :: l' =>
      let! ok := solve_in_depth fuel extension (n - 1) in
      if ok then lift (generate_strings puzzle extension)
      else hint_loop fuel puzzle n l'
  end.

Definition hint_by_depth (fuel : nat) (puzzle : S) (n : Z) : search string :=
  let! solved := lift (is_solved puzzle) in
  if solved then sret already_solved
  else
    let! exts := lift (extensions puzzle) in
    hint_loop fuel puzzle n exts.

End DepthFirst.

(** The breadth-first functions are written for [WordLadderPuzzle]. *)
Section BreadthFirst.

Variable wordfile : list string.

Import WordLadderPuzzle.

(** The state of the [while] loop: the store, which holds the list
    [used_words] at location [acc], and the queue. *)
Record bfs_state : Type := mk_bfs { bs_store : store; bs_queue : list WordLadderPuzzle.t }.

Inductive outcome : Type :=
  | Return (r : result (bool * answer))
  | Continue.

(** The [for] loop over the successors of the state taken off the queue. *)
Fixpoint visit (puzzle : WordLadderPuzzle.t) (hint : bool) (acc : loc)
    (exts : list WordLadderPuzzle.t) (st : bfs_state) : outcome * bfs_state :=
  match exts with
  | [] => (Continue, st)
  | extension0 :: exts' =>
      let extension := add_tried_words extension0 acc in
      if is_solved extension then
        if hint then
          let chain := used_words extension in
          (Return (let* i := index (start_word puzzle) chain in
                   let* w := getitem chain (i + 1) in
                   Ok (true, AStr w)), st)
        else (Return (Ok (true, APuzzle (WordLadder extension))), st)
      else
        visit puzzle hint acc exts'
          {| bs_store := append (bs_store st) acc (generate_strings puzzle extension);
             bs_queue := bs_queue st ++ [extension] |}
  end.

(** One iteration of the [while] loop. *)
Definition bfs_step (puzzle : WordLadderPuzzle.t) (hint : bool) (acc : loc)
    (st : bfs_state) : outcome * bfs_state :=
  match bs_queue st with
  | [] => (Return (Ok (false, ANone)), st)
  | p :: queue' =>
      visit puzzle hint acc (extensions wordfile (bs_store st) p)
        {| bs_store := bs_store st; bs_queue := queue' |}
  end.

Fixpoint bfs_loop (fuel : nat) (puzzle : WordLadderPuzzle.t) (hint : bool) (acc : loc)
    (st : bfs_state) : search (bool * answer) :=
  match fuel with
  | 0 => None
  | Datatypes.S fuel' =>
      match bfs_step puzzle hint acc st with
      | (Return r, _) => Some r
      | (Continue, st') => bfs_loop fuel' puzzle hint acc st'
      end
  end.

(** The state on entry to the [while] loop. *)
Definition bfs_init (h : store) (puzzle : WordLadderPuzzle.t) : loc * bfs_state :=
  let '(acc, h') := alloc h in
  (acc, {| bs_store := h'; bs_queue := [puzzle] |}).

Definition solve_in_breadth (fuel : nat) (h : store) (puzzle : WordLadderPuzzle.t)
    (hint : bool) : search (bool * answer) :=
  let '(acc, st) := bfs_init h puzzle in
  bfs_loop fuel puzzle hint acc st.

Definition solve_breadth (fuel : nat) (h : store) (puzzle : WordLadderPuzzle.t)
  : search answer :=
  let! solution := solve_in_breadth fuel h puzzle false in
  if fst solution then sret (snd solution) else sret ANone.

Definition hint_by_breadth (fuel : nat) (h : store) (puzzle : WordLadderPuzzle.t)
  : search answer :=
  if is_solved puzzle then sret (AStr already_solved)
  else
    let! solution := solve_in_breadth fuel h puzzle true in
    if fst solution then sret (snd solution) else sret (AStr no_extensions).

End BreadthFirst.

Section Dispatch.

Variable wordfile : list string.
Variable h : store.

Definition is_solved (p : puzzle) : result bool :=
  match p with
  | Sudoku s => SudokuPuzzle.is_solved s
  | WordLadder w => Ok (WordLadderPuzzle.is_solved w)
  end.

Definition extensions (p : puzzle) : result (list puzzle) :=
  match p with
  | Sudoku s => let* l := SudokuPuzzle.extensions s in Ok (map Sudoku l)
  | WordLadder w => Ok (map WordLadder (WordLadderPuzzle.extensions wordfile h w))
  end.

(** [solve]: [type(puzzle) == SudokuPuzzle] selects the depth-first
    search, any other puzzle goes to the breadth-first one. *)
Definition solve (fuel : nat) (p : puzzle) : search answer :=
  match p with
  | Sudoku s =>
      let! r := solve_depth SudokuPuzzle.is_solved SudokuPuzzle.extensions fuel s in
      match r with
      | Some solution => sret (APuzzle (Sudoku solution))
      | None => sret ANone
      end
  | WordLadder w => solve_breadth wordfile fuel h w
  end.

End Dispatch.

End Solver.


(** ** Move history of the controller *)

(** The history is a graph of [_ControllerTree] objects that refer to
    each other; the controller holds references to its root and to the
    current node.  The objects live in a heap, a node is named by its
    location, and a new object takes the next free location. *)
Module Controller.

Section History.

(** The puzzle class in play, through the methods the controller calls. *)
Context {P : Type} `{!Inhabited P}.
Variable move : P -> string -> result P.
Variable str : P -> result string.
Variable is_solved : P -> result bool.

(** A [_ControllerTree] object. *)
Record tree : Type := mk_tree {
  _puzzle : P;
  _user_input : option string;
  _subtrees : list loc
}.

Abbreviation heap := (list tree).

(** The object at a location.  (No reference of a controller dangles, see
    [reachable_closed]; the default is never read.) *)
Definition node (hp : heap) (l : loc) : tree :=
  nth l hp {| _puzzle := inhabitant; _user_input := None; _subtrees := [] |}.

(** [_ControllerTree(puzzle, move)]. *)
Definition new_tree (hp : heap) (puzzle : P) (mv : option string) : loc * heap :=
  (length hp, hp ++ [{| _puzzle := puzzle; _user_input := mv; _subtrees := [] |}]).

(** [add_subtree]. *)
Definition add_subtree (hp : heap) (self subtree : loc) : heap :=
  let t := node hp self in
  <[self := {| _puzzle := _puzzle t; _user_input := _user_input t;
               _subtrees := _subtrees t ++ [subtree] |}]> hp.

(** The loop of [in_subtree]. *)
Fixpoint in_subtree_loop (hp : heap) (subtrees : list loc) (puzzle_state : P)
  : result (option loc) :=
  match subtrees with
  | [] => Ok None
  | subtree :: rest =>
      let* a := str (_puzzle (node hp subtree)) in
      let* b := str puzzle_state in
      if String.eqb a b then Ok (Some subtree)
      else in_subtree_loop hp rest puzzle_state
  end.

Definition in_subtree (hp : heap) (self : loc) (puzzle_state : P) : result (option loc) :=
  in_subtree_loop hp (_subtrees (node hp self)) puzzle_state.

(** [find_parent]; [self in family_tree._subtrees] compares objects by
    identity.  The recursion follows the references of the heap, hence the
    fuel. *)
Fixpoint find_parent (fuel : nat) (hp : heap) (self family_tree : loc)
  : option (option (loc * P)) :=
  match fuel with
  | 0 => None
  | S fuel' =>
      match _user_input (node hp self) with
      | None => Some None
      | Some _ =>
          if existsb (Nat.eqb self) (_subtrees (node hp family_tree))
          then Some (Some (family_tree, _puzzle (node hp family_tree)))
          else
            (fix loop (l : list loc) : option (option (loc * P)) :=
               match l with
               | [] => Some None
               | subtree :: l' =>
                   match find_parent fuel' hp self subtree with
                   | None => None
                   | Some (Some _) => find_parent fuel' hp self subtree
                   | Some None => loop l'
                   end
               end) (_subtrees (node hp family_tree))
      end
  end.

(** [return_subtrees]. *)
Definition return_subtrees (hp : heap) (self : loc) : list P * list (option string) :=
  (map (fun l => _puzzle (node hp l)) (_subtrees (node hp self)),
   map (fun l => _user_input (node hp l)) (_subtrees (node hp self))).

(** The fields of the controller, and the heap its trees live in. *)
Record t : Type := mk {
  puzzle : P;
  _tree : loc;
  _current_tree : loc;
  trees : heap
}.

(** [Controller(puzzle)], up to the start of the view. *)
Definition __init__ (p : P) : t :=
  let '(root, hp) := new_tree [] p None in
  {| puzzle := p; _tree := root; _current_tree := root; trees := hp |}.

(** [state]. *)
Definition state (c : t) : result string := str (puzzle c).

(** [_act_move]: what it returns or raises, and the controller after it.
    The assignment to [self._puzzle] comes first, so an exception raised
    after a successful [move] leaves the new puzzle in place.  The two
    calls of [in_subtree] see the same tree and the same puzzle; the
    result is bound once. *)
Definition _act_move (c : t) (action : string) : result (string * bool) * t :=
  match move (puzzle c) action with
  | Raise e => (Raise e, c)
  | Ok p =>
      let c1 := {| puzzle := p; _tree := _tree c;
                   _current_tree := _current_tree c; trees := trees c |} in
      match in_subtree (trees c1) (_current_tree c1) p with
      | Raise e => (Raise e, c1)
      | Ok found =>
          let c2 :=
            match found with
            | Some subtree =>
                {| puzzle := p; _tree := _tree c;
                   _current_tree := subtree; trees := trees c |}
            | None =>
                let '(new_subtree, hp) := new_tree (trees c) p (Some action) in
                {| puzzle := p; _tree := _tree c; _current_tree := new_subtree;
                   trees := add_subtree hp (_current_tree c) new_subtree |}
            end in
          (let* solved := is_solved p in
           if solved then Ok ("Congratulations, you solved it!", true)
           else let* s := state c2 in Ok (s, false),
           c2)
      end
  end.

(** [_act_undo]. *)
Definition _act_undo (fuel : nat) (c : t) : option (result (string * bool) * t) :=
  match find_parent fuel (trees c) (_current_tree c) (_tree c) with
  | None => None
  | Some (Some (parent, p)) =>
      let c' := {| puzzle := p; _tree := _tree c;
                   _current_tree := parent; trees := trees c |} in
      Some (let* s := state c' in Ok (s, false), c')
  | Some None => Some (Ok ("You have not made any moves.", false), c)
  end.

(** The controller changes through [_act_move] and [_act_undo] only; the
    other actions of [act] read it.  An exception of [_act_move] either
    is a [ValueError], which [act] catches, or ends the program: the
    controller at that point is the last one in both cases. *)
Inductive step : t -> t -> Prop :=
  | step_move c action r c' : _act_move c action = (r, c') -> step c c'
  | step_undo c fuel r c' : _act_undo fuel c = Some (r, c') -> step c c'.

Inductive reachable (p0 : P) : t -> Prop :=
  | reach_init : reachable p0 (__init__ p0)
  | reach_step c c' : reachable p0 c -> step c c' -> reachable p0 c'.

End History.

(** *** The actions of a game *)

(** The texts [act] reads as commands; every other text is a move. *)
Definition commands : list string :=
  ["exit"; ":SOLVE"; ":SOLVE-ALL"; ":UNDO"; ":ATTEMPTS"; ":HINT"; ":DISPLAY"].

(** A game is played on a puzzle of one of the two classes. *)
Definition puzzle_move (wordfile : list string) (h : store) (p : Solver.puzzle)
    (mv : string) : result Solver.puzzle :=
  match p with
  | Solver.Sudoku s => let* s' := SudokuPuzzle.move s mv in Ok (Solver.Sudoku s')
  | Solver.WordLadder w =>
      let* w' := WordLadderPuzzle.move wordfile h w mv in Ok (Solver.WordLadder w')
  end.

(** [str(puzzle)]. *)
Definition puzzle_str (p : Solver.puzzle) : result string :=
  match p with
  | Solver.Sudoku s => SudokuPuzzle.__str__ s
  | Solver.WordLadder w => WordLadderPuzzle.__str__ w
  end.

#[export] Instance puzzle_inhabited : Inhabited Solver.puzzle :=
  populate (Solver.Sudoku (SudokuPuzzle.__init__ [])).

(** What ends an action besides a return: an exception of the puzzle, or
    the [TypeError] of a concatenation of a string with something that is
    not a string. *)
Inductive error : Type :=
  | PuzzleError (e : exn)
  | TypeError.

Inductive reply (A : Type) : Type :=
  | Done (a : A)
  | Failed (e : error).

Arguments Done {A} a.
Arguments Failed {A} e.

(** The reply of a search of the solver. *)
Definition of_result {A : Type} (r : result A) : reply A :=
  match r with
  | Ok a => Done a
  | Raise e => Failed (PuzzleError e)
  end.

Section Actions.

Variable wordfile : list string.
Variable h : store.

Abbreviation game := (@t Solver.puzzle).

(** [_act_solve]. *)
Definition _act_solve (fuel : nat) (c : game) : search (string * bool) :=
  let! solution := Solver.solve wordfile h fuel (puzzle c) in
  match solution with
  | Solver.APuzzle p => let! s := lift (puzzle_str p) in sret (s, true)
  | Solver.AStr s => sret (s, true)
  | Solver.ANone => sret ("There are no solutions.", true)
  end.

(** [_act_solve_all]. *)
Definition _act_solve_all (fuel : nat) (c : game) : search (string * bool) :=
  let! solutions :=
    Solver.solve_complete Solver.is_solved (Solver.extensions wordfile h) fuel (puzzle c) in
  let! all_solutions :=
    lift (for_each (fun all solution =>
                      let* s := puzzle_str solution in
                      Ok (all +:+ s +:+ SudokuPuzzle.newline))
                   solutions "") in
  if negb (String.eqb all_solutions "") then sret (all_solutions, true)
  else sret ("There are no solutions.", true).

(** The loop of [_act_attempts]: the lines printed so far, then the
    reply.  The two lists of [return_subtrees] have the same length. *)
Fixpoint attempts_loop (states : list (Solver.puzzle * option string)) (out : list string)
  : reply (string * bool) * list string :=
  match states with
  | [] => (Done ("", false), out)
  | (puzzle_state, mv) :: rest =>
      match puzzle_str puzzle_state with
      | Raise e => (Failed (PuzzleError e), out)
      | Ok s =>
          match mv with
          | None => (Failed TypeError, out)
          | Some m =>
              attempts_loop rest
                (out ++ ["You attempted... " +:+ SudokuPuzzle.newline +:+ s
                         +:+ SudokuPuzzle.newline +:+ "Your move was '" +:+ m +:+ "'"
                         +:+ SudokuPuzzle.newline])
          end
      end
  end.

(** [_act_attempts]: the reply and the lines printed. *)
Definition _act_attempts (c : game) : reply (string * bool) * list string :=
  let '(puzzle_state, mv) := return_subtrees (trees c) (_current_tree c) in
  if Nat.eqb (length puzzle_state) 0
  then (Done ("You have never reached this state before.", false), [])
  else attempts_loop (combine puzzle_state mv) [].

(** [_act_hint]; [hint_by_depth] is called with its default bound. *)
Definition _act_hint (fuel : nat) (c : game) : search (reply (string * bool)) :=
  match puzzle c with
  | Solver.WordLadder w =>
      let! hint := Solver.hint_by_breadth wordfile fuel h w in
      match hint with
      | Solver.AStr s => sret (Done ("Try entering: " +:+ s, false))
      | _ => sret (Failed TypeError)
      end
  | Solver.Sudoku s =>
      let! hint := Solver.hint_by_depth SudokuPuzzle.is_solved SudokuPuzzle.extensions
                     SudokuPuzzle.generate_strings fuel s 100 in
      sret (Done ("Try entering: " +:+ hint, false))
  end.

(** [act]: the reply, the game after the action and the lines printed;
    [None] when a search ran out of fuel. *)
Definition act (fuel : nat) (c : game) (action : string)
  : option (reply (string * bool) * game * list string) :=
  if String.eqb action "exit" then Some (Done ("", true), c, [])
  else if String.eqb action ":SOLVE" then
    match _act_solve fuel c with
    | None => None
    | Some r => Some (of_result r, c, [])
    end
  else if String.eqb action ":SOLVE-ALL" then
    match _act_solve_all fuel c with
    | None => None
    | Some r => Some (of_result r, c, [])
    end
  else if String.eqb action ":UNDO" then
    match _act_undo puzzle_str fuel c with
    | None => None
    | Some (r, c') => Some (of_result r, c', [])
    end
  else if String.eqb action ":ATTEMPTS" then
    let '(r, out) := _act_attempts c in Some (r, c, out)
  else if String.eqb action ":HINT" then
    match _act_hint fuel c with
    | None => None
    | Some (Ok r) => Some (r, c, [])
    | Some (Raise e) => Some (Failed (PuzzleError e), c, [])
    end
  else if String.eqb action ":DISPLAY" then
    Some (of_result (let* s := puzzle_str (puzzle c) in Ok (s, false)), c, [])
  else
    match _act_move (puzzle_move wordfile h) puzzle_str Solver.is_solved c action with
    | (Ok r, c') => Some (Done r, c', [])
    | (Raise ValueError, c') =>
        Some (Done ("Sorry, that is not a valid move. Please try again.", false), c', [])
    | (Raise e, c') => Some (Failed (PuzzleError e), c', [])
    end.

End Actions.

End Controller.

(** * Specification-level notions *)

(** ** Sudoku boards *)

Module SudokuSpec.

Import SudokuPuzzle.

(** The content of the cell at row [i], column [j]. *)
Definition cell (g : grid) (i j : nat) : string := nth j (nth i g []) "".

(** A board of side [m * m]: [m * m] rows of [m * m] cells. *)
Definition wf_grid (g : grid) (m : nat) : bool :=
  andb (Nat.ltb 0 m)
    (andb (Nat.eqb (length g) (m * m))
          (forallb (fun row => Nat.eqb (length row) (m * m)) g)).

Definition row_of (g : grid) (i : nat) : list string := nth i g [].

Definition col_of (g : grid) (j : nat) : list string :=
  map (fun row => nth j row "") g.

(** The cells of the subsquare that holds the cell [(i, j)]. *)
Definition block_of (g : grid) (m i j : nat) : list string :=
  flat_map (fun a => map (fun b => cell g (i / m * m + a) (j / m * m + b)) (seq 0 m))
           (seq 0 m).

(** The letters of a group of cells, the empty cells left out. *)
Definition filled (cells : list string) : list string :=
  List.filter (fun c => negb (String.eqb c "")) cells.

Fixpoint distinct (l : list string) : bool :=
  match l with
  | [] => true
  | x :: l' => andb (negb (contains x l')) (distinct l')
  end.

(** No letter occurs twice in a row, in a column or in a subsquare. *)
Definition no_conflict (g : grid) (m : nat) : bool :=
  andb (forallb (fun i => distinct (filled (row_of g i))) (seq 0 (m * m)))
    (andb (forallb (fun j => distinct (filled (col_of g j))) (seq 0 (m * m)))
          (forallb (fun i => forallb (fun j => distinct (filled (block_of g m i j)))
                                     (seq 0 (m * m)))
                   (seq 0 (m * m)))).

(** [(i, j)] is the first empty cell in row-major order. *)
Definition before (i' j' i j : nat) : bool :=
  orb (Nat.ltb i' i) (andb (Nat.eqb i' i) (Nat.ltb j' j)).

Definition is_first_empty (g : grid) (i j : nat) : bool :=
  let n := length g in
  andb (andb (Nat.ltb i n) (Nat.ltb j n))
    (andb (String.eqb (cell g i j) "")
       (forallb (fun i' => forallb (fun j' =>
            implb (before i' j' i j) (negb (String.eqb (cell g i' j') "")))
          (seq 0 n)) (seq 0 n))).

Definition no_empty_cell (g : grid) : bool :=
  forallb (fun row => negb (contains "" row)) g.

(** A letter is a candidate for a cell when it occurs neither in the row,
    nor in the column, nor in the subsquare of the cell. *)
Definition absent (g : grid) (m i j : nat) (letter : string) : bool :=
  andb (negb (contains letter (row_of g i)))
    (andb (negb (contains letter (col_of g j)))
          (negb (contains letter (block_of g m i j)))).

Definition candidates (g : grid) (m i j : nat) : list string :=
  List.filter (absent g m i j) (letters (m * m)).

(** [g'] is [g] with the cell [(i, j)] set to [letter], and nothing else
    changed. *)
Definition filled_at (g : grid) (i j : nat) (letter : string) (g' : grid) : Prop :=
  length g' = length g /\
  (forall a, length (nth a g' []) = length (nth a g [])) /\
  forall a b, cell g' a b = if andb (Nat.eqb a i) (Nat.eqb b j) then letter else cell g a b.

(** Alphabetical order on strings. *)
Definition str_lt (a b : string) : Prop := String.ltb a b = true.

(** A solved board: every row, every column and every subsquare holds
    each of the first [m * m] letters once. *)
Definition latin (g : grid) (m : nat) : Prop :=
  (forall i, i < m * m -> Permutation (row_of g i) (letters (m * m))) /\
  (forall j, j < m * m -> Permutation (col_of g j) (letters (m * m))) /\
  (forall i j, i < m * m -> j < m * m -> Permutation (block_of g m i j) (letters (m * m))).

(** The checks of [is_solved] on a board of side [m * m], as one
    boolean. *)
Definition solved_b (g : grid) (m : nat) : bool :=
  andb (forallb (fun row => negb (contains "" row)) g)
    (andb (forallb (is_perm_of_letters (m * m)) g)
       (andb (forallb (fun j => is_perm_of_letters (m * m) (col_of g j)) (seq 0 (m * m)))
             (forallb (fun x => forallb (fun y => is_perm_of_letters (m * m) (block_of g m x y))
                                        (range_from m 0 m))
                      (range_from m 0 m)))).

(** The board with one cell assigned. *)
Definition set_cell (g : grid) (i j : nat) (x : string) : grid :=
  <[i := <[j := x]> (row_of g i)]> g.

(** The number of empty cells. *)
Definition empties (g : grid) : nat :=
  list_sum (map (fun row => length (List.filter (String.eqb "") row)) g).

(** No letter occurs twice in a column. *)
Definition cols_distinct (g : grid) (m : nat) : bool :=
  forallb (fun j => distinct (filled (col_of g j))) (seq 0 (m * m)).

(** [g'] is a solved board that keeps the letters of [g]. *)
Definition completes (g g' : grid) (m : nat) : Prop :=
  wf_grid g' m = true /\ latin g' m /\
  forall i j, i < m * m -> j < m * m -> cell g i j <> "" -> cell g' i j = cell g i j.

(** The boards the depth-first search walks through, and the measure its
    moves decrease. *)
Definition board_inv (m : nat) (s : SudokuPuzzle.t) : Prop :=
  s = __init__ (_grid s) /\ wf_grid (_grid s) m = true /\ cols_distinct (_grid s) m = true.

Definition board_mu (s : SudokuPuzzle.t) : nat := empties (_grid s).

End SudokuSpec.

(** ** Word ladder states *)

Module LadderSpec.

Import WordLadderPuzzle.

(** The number of positions at which two strings differ. *)
Fixpoint differences (a b : string) : nat :=
  match a, b with
  | String x a', String y b' => (if Ascii.eqb x y then 0 else 1) + differences a' b'
  | _, _ => 0
  end.

(** Same length, and exactly one position with different characters. *)
Definition one_letter_apart (a b : string) : bool :=
  andb (Nat.eqb (String.length a) (String.length b)) (Nat.eqb (differences a b) 1).

(** A state as the constructor makes it, with its field [_tried_words]
    as it is or rebound by [add_tried_words]. *)
Definition state_of (wordfile : list string) (start target : string)
    (used : list string) (tr : tried_ref) : t :=
  match tr with
  | Own => __init__ wordfile start target used
  | Ref l => add_tried_words (__init__ wordfile start target used) l
  end.

(** The vocabulary entries a state can move to. *)
Definition is_candidate (h : store) (self : t) (word : string) : bool :=
  andb (negb (contains word (_used_words self)))
    (andb (negb (contains word (tried h self)))
          (one_letter_apart word (_start self))).

Definition str_le (a b : string) : Prop := String.leb a b = true.

(** The positions [i] at which removing the character of both strings
    leaves equal strings. *)
Definition matches (w s : string) : list nat :=
  List.filter (fun i => String.eqb (without i w) (without i s)) (seq 0 (String.length s)).

(** The rungs of a ladder: each word of [ws] is an entry of the
    vocabulary one letter apart from the word before it, [prev] being
    the word before the first. *)
Fixpoint rungs (wordfile : list string) (prev : string) (ws : list string) : Prop :=
  match ws with
  | [] => True
  | w :: ws' => In w wordfile /\ one_letter_apart w prev = true /\ rungs wordfile w ws'
  end.

(** The state after the words [ws] were entered one after the other. *)
Definition climb (wordfile : list string) (q : t) (ws : list string) : t :=
  fold_left (_extend wordfile) ws q.

(** The words [ws] lead from the state [q] to its target without using a
    word twice. *)
Definition simple_ladder (wordfile : list string) (q : t) (ws : list string) : Prop :=
  rungs wordfile (_start q) ws /\ List.NoDup ws /\
  Forall (fun w => ~ In w (_used_words q)) ws /\
  List.last ws (_start q) = _target q.

(** The states a player reaches from [p] by moves. *)
Inductive played (wordfile : list string) (h : store) (p : t) : t -> Prop :=
  | played_start : played wordfile h p p
  | played_move q w q' :
      played wordfile h p q -> move wordfile h q w = Ok q' -> played wordfile h p q'.

End LadderSpec.

(** ** Bounded depth-first hints *)

Module DepthSpec.

Import Solver.

Section Spec.

Context {S : Type}.
Variable is_solved : S -> result bool.
Variable extensions : S -> result (list S).
Variable generate_strings : S -> S -> result string.

(** [reaches k s]: a solved state can be reached from [s] within [k]
    further moves. *)
Inductive reaches : Z -> S -> Prop :=
  | reaches_here k s :
      (0 <= k)%Z -> is_solved s = Ok true -> reaches k s
  | reaches_move k s es e :
      (0 < k)%Z -> is_solved s = Ok false -> extensions s = Ok es -> In e es ->
      reaches (k - 1) e -> reaches k s.

(** No call of [is_solved] or [extensions] raises within [k] moves of [s]. *)
Fixpoint safe (k : nat) (s : S) : bool :=
  match is_solved s with
  | Raise _ => false
  | Ok true => true
  | Ok false =>
      match k with
      | 0 => true
      | Datatypes.S k' =>
          match extensions s with
          | Raise _ => false
          | Ok es => forallb (safe k') es
          end
      end
  end.

(** What the specification says of [hint_by_depth]. *)
Definition hint_by_depth_spec (fuel : nat) (s : S) (limit : Z) : Prop :=
  (is_solved s = Ok true ->
     hint_by_depth is_solved extensions generate_strings fuel s limit
     = Some (Ok already_solved)) /\
  (is_solved s = Ok false ->
     forall es, extensions s = Ok es ->
       (forall pre e post, es = pre ++ e :: post ->
          (forall x, In x pre -> ~ reaches (limit - 1) x) ->
          reaches (limit - 1) e ->
          hint_by_depth is_solved extensions generate_strings fuel s limit
          = Some (generate_strings s e)) /\
       ((forall x, In x es -> ~ reaches (limit - 1) x) ->
          hint_by_depth is_solved extensions generate_strings fuel s limit
          = Some (Ok no_extensions))).

End Spec.

End DepthSpec.

(** ** Exhaustive search *)

Module SearchSpec.

Section Spec.

Context {S : Type}.
Variable is_solved : S -> result bool.
Variable extensions : S -> result (list S).

(** [leads s t]: the solved state [t] is reached from [s] by moves to
    successors, through states that are not solved. *)
Inductive leads : S -> S -> Prop :=
  | leads_here s : is_solved s = Ok true -> leads s s
  | leads_move s es e t :
      is_solved s = Ok false -> extensions s = Ok es -> In e es ->
      leads e t -> leads s t.

(** [plays k s]: [k] moves in a row can be made from [s]. *)
Inductive plays : nat -> S -> Prop :=
  | plays_none s : plays 0 s
  | plays_move k s es e :
      extensions s = Ok es -> In e es -> plays k e -> plays (Datatypes.S k) s.

End Spec.

End SearchSpec.

(** ** Breadth-first search *)

Module BreadthSpec.

Import Solver WordLadderPuzzle LadderSpec.

Section Spec.

Variable wordfile : list string.
Variable puzzle : WordLadderPuzzle.t.
Variable hint : bool.
Variable acc : loc.

(** The states of the [while] loop of one call, at the head of the
    loop. *)
Inductive loop_head (st0 : bfs_state) : bfs_state -> Prop :=
  | head_first : loop_head st0 st0
  | head_next st st' :
      loop_head st0 st ->
      bfs_step wordfile puzzle hint acc st = (Continue, st') ->
      loop_head st0 st'.

(** The words put on the queue so far: the word of the state the search
    starts from, then the words recorded in the accumulator. *)
Definition enqueued (st : bfs_state) : list string :=
  _start puzzle :: deref (bs_store st) acc.

(** No word was put on the queue twice, and the queue holds the states
    of the last words put on it. *)
Definition enqueued_once (st : bfs_state) : Prop :=
  List.NoDup (enqueued st) /\
  exists done, enqueued st = done ++ map _start (bs_queue st).

(** The state a successor becomes in the loop of [visit]. *)
Definition queued (q : WordLadderPuzzle.t) (w : string) : WordLadderPuzzle.t :=
  add_tried_words (_extend wordfile q w) acc.

End Spec.

(** Counting the entries of the word file that are not yet recorded. *)
Definition unrecorded (wordfile recorded : list string) : nat :=
  length (List.filter (fun w => negb (contains w recorded)) wordfile).

(** The invariant and the measure of the [while] loop, for a call on a
    state with the words [start] and [target] in the store [h0]: the
    accumulator is the list made first, at [length h0]. *)
Section Invariant.

Variable wordfile : list string.
Variable h0 : store.
Variables start target : string.

(** A state of the search: made by the constructor for the target of
    the search, with the first word on its path. *)
Definition on_path (q : WordLadderPuzzle.t) : Prop :=
  exists s u r, q = state_of wordfile s target u r /\ In start (u ++ [s]).

(** The invariant of the [while] loop: the accumulator is allocated, and
    every state of the queue refers to it, except the first state while
    nothing is recorded. *)
Definition inv (st : bfs_state) : Prop :=
  (length h0) < length (bs_store st) /\
  Forall on_path (bs_queue st) /\
  ((deref (bs_store st) (length h0) = [] /\ length (bs_queue st) <= 1) \/
   Forall (fun q => _tried_words q = Ref (length h0)) (bs_queue st)).

(** The measure that decreases at every iteration. *)
Definition potential (st : bfs_state) : nat :=
  unrecorded wordfile (deref (bs_store st) (length h0)) + length (bs_queue st).

End Invariant.

(** The search seen as a walk over the vocabulary, for a call on the
    state [WordLadderPuzzle(start, target, used)] in the store [h0]. *)
Section Walk.

Variable wordfile : list string.
Variable h0 : store.
Variables start target : string.
Variable used : list string.

(** The words recorded in the accumulator. *)
Definition recorded (st : bfs_state) : list string := deref (bs_store st) (length h0).

(** [v] can be entered after [u]. *)
Definition edge (u v : string) : Prop :=
  In v wordfile /\ one_letter_apart v u = true /\ ~ In v (used ++ [start]).

(** [q] is the state reached by entering the words [ws]. *)
Definition path_state (q : WordLadderPuzzle.t) (ws : list string) : Prop :=
  exists s u r,
    q = state_of wordfile s target u r /\ (r = Own \/ r = Ref (length h0)) /\
    u ++ [s] = (used ++ [start]) ++ ws.

(** Every state of the queue was reached by a ladder of recorded words;
    the target is not recorded; and the recorded words whose state was
    taken off the queue have all their neighbours recorded. *)
Definition walk_inv (st : bfs_state) : Prop :=
  Forall (fun q => exists ws,
            path_state q ws /\ rungs wordfile start ws /\ List.NoDup ws /\
            Forall (fun w => ~ In w (used ++ [start])) ws /\
            Forall (fun w => In w (recorded st)) ws) (bs_queue st) /\
  ~ In target (recorded st) /\
  forall u v, In u (start :: recorded st) -> edge u v ->
    In v (start :: recorded st) \/ exists q, In q (bs_queue st) /\ _start q = u.

(** What the loop over the successors of [q] returns when it meets the
    target. *)
Definition visit_answer (hint : bool) (q : WordLadderPuzzle.t) : result (bool * answer) :=
  if hint
  then let* i := index start (_used_words q ++ [_target q]) in
       let* w0 := getitem (_used_words q ++ [_target q]) (i + 1) in
       Ok (true, AStr w0)
  else Ok (true, APuzzle (WordLadder
                            (add_tried_words (_extend wordfile q (_target q)) (length h0)))).

(** What a successful search hands back: with [hint] the first word of a
    ladder to the target, without it the solved state of such a
    ladder. *)
Definition walk_answer (hint : bool) (a : answer) : Prop :=
  let p := WordLadderPuzzle.__init__ wordfile start target used in
  if hint
  then exists w ws, a = AStr w /\ simple_ladder wordfile p (w :: ws)
  else exists e ws,
         a = APuzzle (WordLadder e) /\ ws <> [] /\ is_solved e = true /\
         _used_words e = _used_words p ++ ws /\ simple_ladder wordfile p ws.

End Walk.

End BreadthSpec.

(** ** Move history *)

Module HistorySpec.

Import Controller.

Section Spec.

Context {P : Type} `{!Inhabited P}.
Variable move : P -> string -> result P.
Variable str : P -> result string.
Variable is_solved : P -> result bool.

(** The display string of the state a node holds. *)
Definition display (hp : list (@tree P)) (k : loc) : result string :=
  str (_puzzle (node hp k)).

(** The children of a node. *)
Definition children (hp : list (@tree P)) (l : loc) : list loc :=
  _subtrees (node hp l).

(** No two children of a node hold states with equal display strings. *)
Definition no_twins (hp : list (@tree P)) : Prop :=
  forall l, l < length hp -> List.NoDup (map (display hp) (children hp l)).

(** Every display string of the list is defined. *)
Definition shown (hp : list (@tree P)) (kids : list loc) : Prop :=
  Forall (fun k => exists d, display hp k = Ok d) kids.

(** Any number of actions. *)
Inductive steps : @t P -> @t P -> Prop :=
  | steps_refl c : steps c c
  | steps_next c c' c'' : steps c c' -> step move str is_solved c' c'' -> steps c c''.

(** No reference dangles. *)
Definition closed_heap (hp : list (@tree P)) : Prop :=
  forall l, l < length hp -> Forall (fun k => k < length hp) (children hp l).

(** Root and cursor are nodes of the heap, and so are all children. *)
Definition closed (c : @t P) : Prop :=
  _tree c < length (trees c) /\ _current_tree c < length (trees c) /\
  closed_heap (trees c).

(** The children of a node are all shown, unless there is only one. *)
Definition rendered (hp : list (@tree P)) : Prop :=
  forall l, l < length hp -> length (children hp l) <= 1 \/ shown hp (children hp l).

(** The invariant of the history: what every reachable controller
    satisfies. *)
Definition good (c : @t P) : Prop :=
  closed c /\ no_twins (trees c) /\ rendered (trees c).

(** The heap after a new child of [cur] was made for [p]. *)
Definition grown (hp : list (@tree P)) (cur : loc) (p : P) (action : string) : list (@tree P) :=
  add_subtree (hp ++ [{| _puzzle := p; _user_input := Some action; _subtrees := [] |}])
              cur (length hp).

(** A heap grows: nodes are added, and children are added to nodes;
    nothing else changes. *)
Definition grows (hp hp' : list (@tree P)) : Prop :=
  length hp <= length hp' /\
  forall l, l < length hp ->
    _puzzle (node hp' l) = _puzzle (node hp l) /\
    exists extra, children hp' l = children hp l ++ extra.

(** [descends hp k l]: the node [l] is below the node [k]. *)
Inductive descends (hp : list (@tree P)) : loc -> loc -> Prop :=
  | descends_child k l : In l (children hp k) -> descends hp k l
  | descends_below k c l : In c (children hp k) -> descends hp c l -> descends hp k l.

(** The history is a tree: the root is the first object made and the
    only node without user input; a child is younger than its parent and
    has no other parent; every other node is below the root. *)
Definition tree_heap (hp : list (@tree P)) : Prop :=
  _user_input (node hp 0) = None /\
  (forall l, 0 < l -> l < length hp -> exists a, _user_input (node hp l) = Some a) /\
  (forall k l, k < length hp -> In l (children hp k) -> k < l) /\
  (forall k k' l, k < length hp -> k' < length hp ->
     In l (children hp k) -> In l (children hp k') -> k = k') /\
  (forall l, 0 < l -> l < length hp -> descends hp 0 l).

Definition tree_shaped (c : @t P) : Prop := _tree c = 0 /\ tree_heap (trees c).

End Spec.

End HistorySpec.

(** ** Games *)

Module GameSpec.

Import Controller.

(** A word ladder state with a chain that is not empty, as the
    constructor makes it. *)
Definition ladder_made (p : Solver.puzzle) : Prop :=
  exists w, p = Solver.WordLadder w /\ WordLadderPuzzle._used_words w <> [].

(** A game on a word ladder: the current state and the states of the
    history are such states. *)
Definition ladder_game (c : @Controller.t Solver.puzzle) : Prop :=
  ladder_made (puzzle c) /\
  forall l, l < length (trees c) -> ladder_made (_puzzle (node (trees c) l)).

End GameSpec.

(** ** States and the heap *)

Module MutationSpec.

Import PuzzleObjects.

(** The references an object holds. *)
Definition references (o : object) : list loc :=
  match o with
  | ListOfStr _ => []
  | ListOfLists items => items
  | SudokuObject _ grid => [grid]
  | WordLadderObject words _ _ _ tried_words => [words; tried_words]
  end.

(** No object refers to an object that is not there. *)
Definition closed (h : heap) : Prop :=
  Forall (fun o => Forall (fun l => l < length h) (references o)) h.

(** What a state holds: the fields of the instance, with the content of
    the lists they refer to. *)
Inductive content : Type :=
  | Board (n : nat) (g : SudokuPuzzle.grid)
  | Ladder (words : list string) (start target : string) (used_words tried_words : list string).

Definition content_of (h : heap) (p : loc) : option content :=
  match h !! p with
  | Some (SudokuObject n grid) => Some (Board n (map (strings h) (lists h grid)))
  | Some (WordLadderObject words start target used_words tried_words) =>
      Some (Ladder (strings h words) start target used_words (strings h tried_words))
  | _ => None
  end.

(** What the states of the two classes hold, as the rest of this
    development has them. *)
Definition holds_board (s : SudokuPuzzle.t) : content :=
  Board (SudokuPuzzle._n s) (SudokuPuzzle._grid s).

Definition holds_ladder (st : store) (s : WordLadderPuzzle.t) : content :=
  Ladder (WordLadderPuzzle._words s) (WordLadderPuzzle._start s)
    (WordLadderPuzzle._target s) (WordLadderPuzzle._used_words s)
    (WordLadderPuzzle.tried st s).

(** What a state shows: its display string, and the states that
    [extensions] returns for it. *)
Definition display (wordfile : list string) (h : heap) (p : loc) : option (result string) :=
  match call wordfile p Str h with
  | Some (Ok (Text s), _) => Some (Ok s)
  | Some (Raise e, _) => Some (Raise e)
  | _ => None
  end.

Definition successors (wordfile : list string) (h : heap) (p : loc)
  : option (result (list (option content))) :=
  match call wordfile p Extensions h with
  | Some (Ok (Instances es), h') => Some (Ok (map (content_of h') es))
  | Some (Raise e, _) => Some (Raise e)
  | _ => None
  end.

(** The state [p] shows in [h'] what it showed in [h]. *)
Definition unchanged (wordfile : list string) (h h' : heap) (p : loc) : Prop :=
  display wordfile h' p = display wordfile h p /\
  successors wordfile h' p = successors wordfile h p.

(** The lists an instance refers to, through its fields and through its
    grid. *)
Definition parts (h : heap) (o : loc) : list loc :=
  match h !! o with
  | Some (SudokuObject _ grid) => grid :: lists h grid
  | Some (WordLadderObject words _ _ _ tried_words) => [words; tried_words]
  | _ => []
  end.

(** The instance [o] was made between [h] and [h'], with lists of its
    own. *)
Definition made_between (h h' : heap) (o : loc) : Prop :=
  class_of h' o <> None /\
  Forall (fun l => length h <= l < length h') (o :: parts h' o).

(** The instances a call returns. *)
Definition returned (r : result value) : list loc :=
  match r with
  | Ok (Instance o) => [o]
  | Ok (Instances os) => os
  | _ => []
  end.

(** The methods that are not [add_tried_words]. *)
Definition leaves_fields (m : method) : bool :=
  match m with
  | AddTriedWords _ => false
  | _ => true
  end.

End MutationSpec.

(** ** Sample boards and vocabularies *)

Module Samples.

Import SudokuPuzzle.

(** The board of the doctest of [extensions]. *)
Definition g4 : grid :=
  [["A";"B";"C";"D"]; ["C";"D";"A";"B"]; ["B";"A";"";""]; ["D";"C";"";""]].

(** A full board without conflict that is not solved: it uses [E], which
    is not among the first four letters. *)
Definition gE : grid :=
  [["A";"B";"C";"E"]; ["C";"E";"A";"B"]; ["B";"A";"E";"C"]; ["E";"C";"B";"A"]].

(** A board of side 16 whose first empty cell is [(0, 10)]. *)
Definition g16 : grid :=
  (["A";"B";"C";"D";"E";"F";"G";"H";"I";"J"] ++ repeat "" 6) :: repeat (repeat "" 16) 15.

(** The vocabulary of the second scenario of the specification, with a
    word of another length and one out of reach. *)
Definition vocab : list string := ["hot";"hit";"hat";"cat";"cot";"dog";"hits"].

(** The board [g4] filled in. *)
Definition g4_solved : grid :=
  [["A";"B";"C";"D"]; ["C";"D";"A";"B"]; ["B";"A";"D";"C"]; ["D";"C";"B";"A"]].

(** A board with [C] twice in the column of its first empty cell. *)
Definition g4_clash : grid :=
  [["A";"B";"C";"D"]; ["D";"A";"C";"B"]; ["B";"A";"";""]; ["C";"D";"";""]].

End Samples.

(** ** A sample game *)

Module HistorySamples.

Import Controller.

#[export] Instance wl_inhabited : Inhabited WordLadderPuzzle.t :=
  populate (WordLadderPuzzle.__init__ [] "" "" []).

(** A word ladder from "hit" to "cot" in play. *)
Definition ladder_move : WordLadderPuzzle.t -> string -> result WordLadderPuzzle.t :=
  WordLadderPuzzle.move Samples.vocab [].

Definition ladder_solved (p : WordLadderPuzzle.t) : result bool :=
  Ok (WordLadderPuzzle.is_solved p).

Definition ladder_start : WordLadderPuzzle.t :=
  WordLadderPuzzle.__init__ Samples.vocab "hit" "cot" [].

Definition c_start : @Controller.t WordLadderPuzzle.t := Controller.__init__ ladder_start.

(** The player enters "hot" ... *)
Definition c_moved : @Controller.t WordLadderPuzzle.t :=
  snd (@_act_move _ wl_inhabited ladder_move WordLadderPuzzle.__str__ ladder_solved
         c_start "hot").

(** ... and takes the move back. *)
Definition c_undone : @Controller.t WordLadderPuzzle.t :=
  match @_act_undo _ wl_inhabited WordLadderPuzzle.__str__ 5 c_moved with
  | Some (_, c) => c
  | None => c_moved
  end.

End HistorySamples.

(** ** Sample games of the platform *)

Module GameSamples.

Import Controller.

(** A game on the board [g4]. *)
Definition sudoku_game : @Controller.t Solver.puzzle :=
  Controller.__init__ (Solver.Sudoku (SudokuPuzzle.__init__ Samples.g4)).

(** A game on the ladder from "hit" to "cot". *)
Definition ladder_first : Solver.puzzle :=
  Solver.WordLadder (WordLadderPuzzle.__init__ Samples.vocab "hit" "cot" []).

Definition ladder_play : @Controller.t Solver.puzzle := Controller.__init__ ladder_first.

(** The same game after the player entered "hot". *)
Definition ladder_play_hot : @Controller.t Solver.puzzle :=
  snd (Controller._act_move (Controller.puzzle_move Samples.vocab [])
         Controller.puzzle_str Solver.is_solved ladder_play "hot").

End GameSamples.

(** ** Sample heaps *)

Module HeapSamples.

Import PuzzleObjects.

(** The rows of the board [g4], the grid at 4 and a puzzle on it at 5. *)
Definition sudoku_heap : heap :=
  map ListOfStr Samples.g4 ++ [ListOfLists [0; 1; 2; 3]; SudokuObject 4 4].

(** A list of two words at 0, and at 1 a word ladder from "hit" to "cot"
    made after it. *)
Definition ladder_heap : heap :=
  snd (ladder_init Samples.vocab "hit" "cot" [] [ListOfStr ["hat"; "hot"]]).

End HeapSamples.

(** * Properties *)

(** ** Facts about the built-ins *)

Lemma rbind_Ok {A B : Type} (r : result A) (k : A -> result B) (b : B) :
  rbind r k = Ok b -> exists a, r = Ok a /\ k a = Ok b.
Proof. destruct r as [a|e]; simpl; [eauto | discriminate]. Qed.

Lemma contains_true (x : string) (l : list string) : contains x l = true <-> In x l.
Proof.
  unfold contains. rewrite existsb_exists. split.
  - intros (y & Hy & E). apply String.eqb_eq in E. now subst.
  - intros H. exists x. split; [assumption | apply String.eqb_refl].
Qed.

Lemma contains_false (x : string) (l : list string) : contains x l = false <-> ~ In x l.
Proof.
  rewrite <- contains_true. destruct (contains x l); split; congruence.
Qed.

Lemma getitem_Ok {A : Type} (l : list A) (i : nat) (x : A) :
  getitem l i = Ok x <-> nth_error l i = Some x.
Proof.
  unfold getitem. destruct (nth_error l i); split; congruence.
Qed.

Lemma getitem_lt {A : Type} (l : list A) (i : nat) (d : A) :
  i < length l -> getitem l i = Ok (nth i l d).
Proof.
  intros H. apply getitem_Ok. now apply nth_error_nth'.
Qed.

Lemma for_each_ext {A S : Type} (f g : S -> A -> result S) (l : list A) (s : S) :
  (forall s' x, In x l -> f s' x = g s' x) ->
  for_each f l s = for_each g l s.
Proof.
  revert s. induction l as [|x l IH]; intros s H; simpl; [reflexivity|].
  rewrite (H s x) by (left; reflexivity).
  destruct (g s x) as [s'|e]; simpl; [|reflexivity].
  apply IH. intros s'' y Hy. apply H. now right.
Qed.

(** A loop that appends [a] at every element that passes [p]. *)
Lemma for_each_count {A : Type} (p : A -> bool) (a : string) (l : list A)
    (dl : list string) :
  for_each (fun dl x => if p x then Ok (dl ++ [a]) else Ok dl) l dl
  = Ok (dl ++ repeat a (length (List.filter p l))).
Proof.
  revert dl. induction l as [|x l IH]; intros dl; simpl.
  - now rewrite app_nil_r.
  - destruct (p x); simpl; rewrite IH; [|reflexivity].
    now rewrite <- app_assoc.
Qed.

(** A loop that appends [a] at an element that passes [p] unless [a] is
    in the list already. *)
Lemma for_each_once {A : Type} (p : A -> bool) (a : string) (l : list A)
    (dl : list string) :
  for_each (fun dl x => if andb (p x) (negb (contains a dl))
                        then Ok (dl ++ [a]) else Ok dl) l dl
  = Ok (if andb (existsb p l) (negb (contains a dl)) then dl ++ [a] else dl).
Proof.
  revert dl. induction l as [|x l IH]; intros dl; simpl; [reflexivity|].
  destruct (p x) eqn:Hp; simpl.
  - destruct (contains a dl) eqn:Hc; simpl; rewrite IH.
    + rewrite Hc. now rewrite andb_false_r.
    + assert (Hin : contains a (dl ++ [a]) = true).
      { apply contains_true, in_or_app. right. now left. }
      rewrite Hin. now rewrite andb_false_r.
  - apply IH.
Qed.

Lemma remove_head_not_in (x y : string) (l : list string) :
  x <> y ->
  remove x (y :: l) = let* r := remove x l in Ok (y :: r).
Proof.
  intros H. simpl. destruct (String.eqb_spec y x); [congruence | reflexivity].
Qed.

Lemma for_each_remove_skip (y : string) (d l : list string) :
  ~ In y d ->
  for_each (fun pl x => remove x pl) d (y :: l)
  = let* r := for_each (fun pl x => remove x pl) d l in Ok (y :: r).
Proof.
  revert l. induction d as [|x d IH]; intros l Hy; [reflexivity|].
  cbn [for_each]. rewrite remove_head_not_in.
  2:{ intros ->. apply Hy. now left. }
  destruct (remove x l) as [r|e]; simpl; [|reflexivity].
  apply IH. intros H. apply Hy. now right.
Qed.

(** Removing, in order, the elements of a duplicate-free list that pass
    [p] leaves those that fail it. *)
Lemma for_each_remove_filter (p : string -> bool) (l : list string) :
  List.NoDup l ->
  for_each (fun pl x => remove x pl) (List.filter p l) l
  = Ok (List.filter (fun x => negb (p x)) l).
Proof.
  induction 1 as [|y l Hy Hnd IH]; [reflexivity|].
  simpl. destruct (p y) eqn:Hp; simpl.
  - rewrite String.eqb_refl. simpl. exact IH.
  - rewrite for_each_remove_skip.
    + rewrite IH. reflexivity.
    + intros H. apply filter_In in H. tauto.
Qed.

Lemma contains_map {A : Type} (x : string) (f : A -> string) (l : list A) :
  contains x (map f l) = existsb (fun a => String.eqb x (f a)) l.
Proof. unfold contains. induction l; simpl; congruence. Qed.

Lemma contains_flat_map {A : Type} (x : string) (f : A -> list string) (l : list A) :
  contains x (flat_map f l) = existsb (fun a => contains x (f a)) l.
Proof.
  unfold contains. induction l as [|a l IH]; simpl; [reflexivity|].
  now rewrite existsb_app, IH.
Qed.

Lemma nth_insert {A : Type} (l : list A) (i a : nat) (x d : A) :
  i < length l ->
  nth a (<[i := x]> l) d = if Nat.eqb a i then x else nth a l d.
Proof.
  intros Hi. rewrite !nth_lookup.
  destruct (Nat.eqb_spec a i) as [->|Hne].
  - now rewrite list_lookup_insert_eq.
  - now rewrite list_lookup_insert_ne by congruence.
Qed.

Lemma filter_eq {A : Type} (p q : A -> bool) (l : list A) :
  (forall a, p a = q a) -> List.filter p l = List.filter q l.
Proof. intros H. induction l as [|a l IH]; simpl; [reflexivity|]. now rewrite H, IH. Qed.

(** ** Sudoku: the subsquare of a cell *)

Module SudokuFacts.

Import SudokuPuzzle SudokuSpec Samples.

Lemma first_block_range (m : nat) (Hm : 0 < m) (k s x : nat) :
  first_block (range_from k s m) m x =
    if andb (Nat.leb s x) (Nat.ltb x (s + k * m))
    then Some (s + (x - s) / m * m) else None.
Proof.
  revert s. induction k as [|k IH]; intros s; simpl.
  - destruct (Nat.leb_spec s x); simpl; [|reflexivity].
    destruct (Nat.ltb_spec x (s + 0)); [lia | reflexivity].
  - unfold first_block in *. simpl.
    destruct (Nat.leb_spec s x) as [Hs|Hs]; simpl.
    + destruct (Nat.ltb_spec x (s + m)) as [Hx|Hx]; simpl.
      * destruct (Nat.ltb_spec x (s + (m + k * m))); [|lia].
        rewrite Nat.div_small by lia. f_equal. lia.
      * rewrite IH.
        destruct (Nat.leb_spec (s + m) x); [|lia]. simpl.
        destruct (Nat.ltb_spec x (s + m + k * m));
          destruct (Nat.ltb_spec x (s + (m + k * m))); try lia; [|reflexivity].
        f_equal.
        replace (x - s) with ((x - (s + m)) + 1 * m) by lia.
        rewrite Nat.div_add by lia. lia.
    + rewrite IH.
      destruct (Nat.leb_spec (s + m) x); [lia | reflexivity].
Qed.

Lemma range_step_square (m : nat) :
  0 < m -> range_step 0 (m * m) m = Ok (range_from m 0 m).
Proof.
  intros Hm. unfold range_step. destruct m as [|m']; [lia|].
  f_equal. f_equal.
  replace (S m' * S m' - 0 + S m' - 1) with (S m' - 1 + S m' * S m') by lia.
  rewrite Nat.div_add by lia. rewrite Nat.div_small by lia. reflexivity.
Qed.

(** On a board of side [m * m], [_find_subsquare] returns the corner of
    the block of the cell when both indices are on the board, and fails on
    its unassigned local variable otherwise. *)
Lemma find_subsquare_square (g : grid) (m i j : nat) :
  0 < m -> length g = m * m ->
  _find_subsquare (__init__ g) i j =
    if andb (Nat.ltb i (m * m)) (Nat.ltb j (m * m))
    then Ok (i / m * m, j / m * m, m)
    else Raise UnboundLocalError.
Proof.
  intros Hm Hn. unfold _find_subsquare, __init__, isqrt. simpl.
  rewrite Hn, Nat.sqrt_square, range_step_square by assumption. simpl.
  rewrite !first_block_range by assumption. simpl. rewrite !Nat.sub_0_r.
  destruct (Nat.ltb i (m * m)), (Nat.ltb j (m * m)); reflexivity.
Qed.

Lemma wf_grid_inv (g : grid) (m : nat) :
  wf_grid g m = true ->
  0 < m /\ length g = m * m /\ forall i, i < m * m -> length (nth i g []) = m * m.
Proof.
  unfold wf_grid. intros H.
  apply andb_prop in H as [H1 H]. apply andb_prop in H as [H2 H3].
  apply Nat.ltb_lt in H1. apply Nat.eqb_eq in H2.
  split; [assumption|]. split; [assumption|].
  intros i Hi. rewrite forallb_forall in H3.
  apply Nat.eqb_eq, H3, nth_In. lia.
Qed.

Lemma getitem_row (g : grid) (m i : nat) :
  wf_grid g m = true -> i < m * m -> getitem g i = Ok (row_of g i).
Proof.
  intros H Hi. apply wf_grid_inv in H as (_ & Hn & _).
  apply getitem_lt. lia.
Qed.

Lemma getitem_cell (g : grid) (m i j : nat) :
  wf_grid g m = true -> i < m * m -> j < m * m ->
  getitem (row_of g i) j = Ok (cell g i j).
Proof.
  intros H Hi Hj. apply wf_grid_inv in H as (_ & Hn & Hr).
  apply getitem_lt. unfold row_of. rewrite Hr; lia.
Qed.

Lemma col_of_cells (g : grid) (j : nat) :
  map (fun i => cell g i j) (seq 0 (length g)) = col_of g j.
Proof.
  unfold col_of, cell. induction g as [|row g IH]; [reflexivity|].
  cbn [length]. rewrite <- cons_seq, <- seq_shift, map_cons, map_map.
  cbn [nth map]. f_equal. exact IH.
Qed.

Lemma block_in_range (m i a : nat) : i < m * m -> a < m -> i / m * m + a < m * m.
Proof.
  intros Hi Ha.
  assert (i / m < m) by (apply Nat.Div0.div_lt_upper_bound; lia).
  nia.
Qed.

(** A letter occurs at most once in a group without conflict. *)
Lemma distinct_count (x : string) (l : list string) :
  distinct (filled l) = true -> x <> "" ->
  length (List.filter (String.eqb x) l) <= 1.
Proof.
  intros Hd Hx. induction l as [|y l IH]; simpl; [lia|].
  simpl in Hd. destruct (String.eqb_spec y "") as [->|Hy]; simpl in Hd.
  - destruct (String.eqb_spec x ""); [congruence|]. now apply IH.
  - apply andb_prop in Hd as [Hc Hd]. apply negb_true_iff in Hc.
    destruct (String.eqb_spec x y) as [->|Hxy]; [|now apply IH].
    simpl. 
    assert (E : List.filter (String.eqb y) l = []).
    { apply contains_false in Hc.
      destruct (List.filter (String.eqb y) l) as [|z r] eqn:E; [reflexivity|].
      exfalso. assert (Hz : In z (List.filter (String.eqb y) l)) by (rewrite E; now left).
      apply filter_In in Hz as [Hz Hz']. apply String.eqb_eq in Hz'. subst z.
      apply Hc. unfold filled. apply filter_In. split; [assumption|].
      destruct (String.eqb_spec y ""); [congruence | reflexivity]. }
    rewrite E. simpl. lia.
Qed.

Lemma filter_eqb_contains (x : string) (l : list string) :
  contains x l = negb (Nat.eqb (length (List.filter (String.eqb x) l)) 0).
Proof.
  unfold contains. induction l as [|y l IH]; simpl; [reflexivity|].
  destruct (String.eqb x y); simpl; [reflexivity | exact IH].
Qed.

Lemma existsb_eq {A : Type} (f g : A -> bool) (l : list A) :
  (forall a, f a = g a) -> existsb f l = existsb g l.
Proof. intros H. induction l as [|a l IH]; simpl; [reflexivity|]. now rewrite H, IH. Qed.

Lemma filter_map_length {A B : Type} (q : B -> bool) (f : A -> B) (l : list A) :
  length (List.filter (fun a => q (f a)) l) = length (List.filter q (map f l)).
Proof.
  induction l as [|a l IH]; simpl; [reflexivity|].
  destruct (q (f a)); simpl; congruence.
Qed.

(** The body of the loop of [_possible_letters], on a board without
    conflict in the column of the cell: the letter is appended to
    [delete_letters] exactly when it is not [absent]. *)
Lemma scan_letter_spec (g : grid) (m i j : nat) (dl : list string) (letter : string) :
  wf_grid g m = true -> i < m * m -> j < m * m ->
  distinct (filled (col_of g j)) = true ->
  letter <> "" -> ~ In letter dl ->
  scan_letter (__init__ g) i j (i / m * m) (j / m * m) m dl letter
  = Ok (if absent g m i j letter then dl else dl ++ [letter]).
Proof.
  intros Hwf Hi Hj Hcol Hl Hdl.
  pose proof (wf_grid_inv g m Hwf) as (Hm & Hn & Hrows).
  unfold scan_letter, __init__; cbn [_grid _n].
  rewrite (getitem_row g m i Hwf Hi). cbn [rbind].
  unfold absent.
  destruct (contains letter (row_of g i)) eqn:Hrow; cbn [negb andb]; [reflexivity|].
  rewrite for_each_ext with
    (g := fun dl i' => if String.eqb letter (cell g i' j) then Ok (dl ++ [letter]) else Ok dl).
  2:{ intros s' x Hx. apply in_seq in Hx.
      rewrite (getitem_row g m x Hwf) by lia. cbn [rbind].
      rewrite (getitem_cell g m x j Hwf) by lia. reflexivity. }
  rewrite (for_each_count (fun i' => String.eqb letter (cell g i' j))). cbn [rbind].
  rewrite (filter_map_length (String.eqb letter) (fun i' => cell g i' j)).
  unfold range. rewrite Hn at 1. rewrite <- Hn, col_of_cells.
  pose proof (distinct_count letter (col_of g j) Hcol Hl) as Hle.
  rewrite (filter_eqb_contains letter (col_of g j)).
  set (k := length (List.filter (String.eqb letter) (col_of g j))) in *.
  rewrite for_each_ext with
    (g := fun dl a =>
            if andb (existsb (fun b => String.eqb letter (cell g (i / m * m + a) (j / m * m + b)))
                             (seq 0 m))
                    (negb (contains letter dl))
            then Ok (dl ++ [letter]) else Ok dl).
  2:{ intros s' a Ha. apply in_seq in Ha.
      rewrite for_each_ext with
        (g := fun dl b =>
                if andb (String.eqb letter (cell g (i / m * m + a) (j / m * m + b)))
                        (negb (contains letter dl))
                then Ok (dl ++ [letter]) else Ok dl).
      2:{ intros s'' b Hb. apply in_seq in Hb.
          rewrite (getitem_row g m (i / m * m + a) Hwf) by (apply block_in_range; lia).
          cbn [rbind].
          rewrite (getitem_cell g m (i / m * m + a) (j / m * m + b) Hwf)
            by (apply block_in_range; lia).
          reflexivity. }
      rewrite (for_each_once (fun b => String.eqb letter (cell g (i / m * m + a) (j / m * m + b)))).
      destruct (andb _ _); reflexivity. }
  rewrite (for_each_once
             (fun a => existsb (fun b => String.eqb letter (cell g (i / m * m + a) (j / m * m + b)))
                               (seq 0 m))).
  assert (Hblock : existsb (fun a => existsb (fun b =>
                       String.eqb letter (cell g (i / m * m + a) (j / m * m + b))) (seq 0 m))
                     (seq 0 m) = contains letter (block_of g m i j)).
  { unfold block_of. rewrite contains_flat_map.
    apply existsb_eq. intros a. now rewrite contains_map. }
  unfold range. rewrite Hblock. f_equal.
  destruct k as [|[|k]]; [| |lia]; cbn [Nat.eqb negb andb repeat].
  - rewrite app_nil_r.
    assert (Hc : contains letter dl = false) by now apply contains_false.
    rewrite Hc. cbn [negb]. rewrite andb_true_r.
    destruct (contains letter (block_of g m i j)); reflexivity.
  - assert (Hc : contains letter (dl ++ [letter]) = true).
    { apply contains_true, in_or_app. right. now left. }
    rewrite Hc. cbn [negb]. now rewrite andb_false_r.
Qed.

Lemma In_firstn {A : Type} (n : nat) (l : list A) (x : A) : In x (firstn n l) -> In x l.
Proof.
  revert n. induction l as [|y l IH]; intros [|n]; simpl; try tauto.
  intros [H|H]; [now left | right; eauto].
Qed.

Lemma NoDup_firstn {A : Type} (n : nat) (l : list A) : List.NoDup l -> List.NoDup (firstn n l).
Proof.
  revert n. induction l as [|x l IH]; intros [|n] H; simpl; try constructor.
  - inversion H; subst. intros Hin. apply In_firstn in Hin. contradiction.
  - inversion H; subst. now apply IH.
Qed.

Lemma StronglySorted_firstn {A : Type} (R : A -> A -> Prop) (n : nat) (l : list A) :
  StronglySorted R l -> StronglySorted R (firstn n l).
Proof.
  revert n. induction l as [|x l IH]; intros [|n] H; simpl; try constructor.
  - inversion H; subst. now apply IH.
  - inversion H; subst. rewrite List.Forall_forall in *. intros y Hy.
    apply In_firstn in Hy. auto.
Qed.

Lemma StronglySorted_filter {A : Type} (R : A -> A -> Prop) (p : A -> bool) (l : list A) :
  StronglySorted R l -> StronglySorted R (List.filter p l).
Proof.
  induction 1 as [|x l Hs IH Hf]; simpl; [constructor|].
  destruct (p x); [|assumption]. constructor; [assumption|].
  rewrite List.Forall_forall in *. intros y Hy. apply filter_In in Hy. apply Hf. tauto.
Qed.

Lemma letters_firstn (n : nat) : letters n = firstn n (letters 26).
Proof.
  unfold letters. rewrite <- firstn_map. f_equal.
Qed.

Lemma distinct_NoDup (l : list string) : distinct l = true -> List.NoDup l.
Proof.
  induction l as [|x l IH]; simpl; intros H; constructor.
  - apply andb_prop in H as [H _]. now apply contains_false, negb_true_iff.
  - apply andb_prop in H as [_ H]. auto.
Qed.

Lemma letters_NoDup (n : nat) : List.NoDup (letters n).
Proof.
  rewrite letters_firstn. apply NoDup_firstn, distinct_NoDup. reflexivity.
Qed.

Lemma letters_sorted (n : nat) : StronglySorted str_lt (letters n).
Proof.
  rewrite letters_firstn. apply StronglySorted_firstn.
  unfold str_lt. repeat (constructor; [|repeat (constructor; [reflexivity|])]); constructor.
Qed.

Lemma letters_nonempty (n : nat) (x : string) : In x (letters n) -> x <> "".
Proof.
  unfold letters. intros H. apply in_map_iff in H as (c & <- & _). discriminate.
Qed.

(** The loop over the candidate letters collects, in order, the letters
    that are not [absent]. *)
Lemma scan_all_spec (g : grid) (m i j : nat) (L dl : list string) :
  wf_grid g m = true -> i < m * m -> j < m * m ->
  distinct (filled (col_of g j)) = true ->
  List.NoDup L -> (forall x, In x L -> x <> "" /\ ~ In x dl) ->
  for_each (scan_letter (__init__ g) i j (i / m * m) (j / m * m) m) L dl
  = Ok (dl ++ List.filter (fun x => negb (absent g m i j x)) L).
Proof.
  intros Hwf Hi Hj Hcol Hnd. revert dl.
  induction Hnd as [|x L Hx Hnd IH]; intros dl HL; simpl.
  - now rewrite app_nil_r.
  - destruct (HL x (or_introl eq_refl)) as [Hne Hdl].
    rewrite scan_letter_spec by assumption. cbn [rbind].
    destruct (absent g m i j x); cbn [negb].
    + apply IH. intros y Hy. apply HL. now right.
    + rewrite IH.
      * now rewrite <- app_assoc.
      * intros y Hy. destruct (HL y (or_intror Hy)) as [Hy1 Hy2].
        split; [assumption|]. intros Hin. apply in_app_or in Hin as [Hin|[->|[]]]; auto.
Qed.

(** On a board without conflict in the column of the cell,
    [_possible_letters] returns the candidates of the cell. *)
Lemma possible_letters_spec (g : grid) (m i j : nat) :
  wf_grid g m = true -> i < m * m -> j < m * m ->
  distinct (filled (col_of g j)) = true ->
  _possible_letters (__init__ g) i j = Ok (candidates g m i j).
Proof.
  intros Hwf Hi Hj Hcol.
  pose proof (wf_grid_inv g m Hwf) as (Hm & Hn & _).
  unfold _possible_letters.
  rewrite (find_subsquare_square g m i j Hm Hn).
  destruct (Nat.ltb_spec i (m * m)); [|lia].
  destruct (Nat.ltb_spec j (m * m)); [|lia].
  cbn [andb rbind _n __init__]. rewrite Hn.
  rewrite scan_all_spec; try assumption.
  - cbn [rbind app]. rewrite for_each_remove_filter by apply letters_NoDup.
    unfold candidates. f_equal. apply filter_eq. intros a. apply negb_involutive.
  - apply letters_NoDup.
  - intros x Hx. split; [now apply letters_nonempty in Hx | intros []].
Qed.

Lemma index_first (x : string) (l : list string) (j : nat) :
  j < length l -> nth j l "" = x ->
  (forall j', j' < j -> nth j' l "" <> x) ->
  index x l = Ok j.
Proof.
  revert j. induction l as [|y l IH]; intros j Hj Hx Hbefore; simpl in *; [lia|].
  destruct j as [|j].
  - subst y. now rewrite String.eqb_refl.
  - destruct (String.eqb_spec y x) as [->|Hy].
    + exfalso. apply (Hbefore 0); [lia | reflexivity].
    + rewrite (IH j); [reflexivity | lia | assumption |].
      intros j' Hj'. apply (Hbefore (S j')). lia.
Qed.

Lemma is_first_empty_inv (g : grid) (i j : nat) :
  is_first_empty g i j = true ->
  i < length g /\ j < length g /\ cell g i j = "" /\
  forall i' j', i' < length g -> j' < length g ->
    i' < i \/ (i' = i /\ j' < j) -> cell g i' j' <> "".
Proof.
  unfold is_first_empty. intros H.
  apply andb_prop in H as [H1 H]. apply andb_prop in H1 as [Hi Hj].
  apply andb_prop in H as [Hc H].
  apply Nat.ltb_lt in Hi, Hj. apply String.eqb_eq in Hc.
  repeat split; try assumption.
  intros i' j' Hi' Hj' Hb.
  rewrite forallb_forall in H. specialize (H i'). rewrite in_seq in H.
  specialize (H ltac:(lia)). rewrite forallb_forall in H. specialize (H j').
  rewrite in_seq in H. specialize (H ltac:(lia)).
  assert (Hbef : before i' j' i j = true).
  { unfold before. destruct Hb as [Hb|[-> Hb]].
    - apply Nat.ltb_lt in Hb. now rewrite Hb.
    - rewrite Nat.eqb_refl. apply Nat.ltb_lt in Hb. rewrite Hb. now rewrite orb_true_r. }
  rewrite Hbef in H. simpl in H. apply negb_true_iff in H.
  now apply String.eqb_neq.
Qed.

Lemma first_empty_scan (g : grid) (m i j k s : nat) :
  wf_grid g m = true -> is_first_empty g i j = true ->
  s <= i -> i < s + k -> s + k <= m * m ->
  first_empty (__init__ g) (seq s k) = Ok (Some (i, j)).
Proof.
  intros Hwf Hfe.
  pose proof (wf_grid_inv g m Hwf) as (Hm & Hn & Hrows).
  pose proof (is_first_empty_inv g i j Hfe) as (Hi & Hj & Hc & Hbefore).
  revert s. induction k as [|k IH]; intros s Hs Hlt Hle; [lia|].
  cbn [seq first_empty __init__ _grid].
  rewrite (getitem_row g m s Hwf) by lia. cbn [rbind].
  destruct (Nat.eq_dec s i) as [->|Hne].
  - assert (Hin : contains "" (row_of g i) = true).
    { apply contains_true. unfold cell in Hc. rewrite <- Hc. apply nth_In.
      unfold row_of. rewrite Hrows; lia. }
    rewrite Hin. rewrite (index_first "" (row_of g i) j); [reflexivity | | exact Hc |].
    + unfold row_of. rewrite Hrows; lia.
    + intros j' Hj'. apply (Hbefore i j'); lia.
  - assert (Hout : contains "" (row_of g s) = false).
    { apply contains_false. intros Hin.
      apply (In_nth _ _ "") in Hin as (j' & Hj' & E).
      unfold row_of in Hj'. rewrite Hrows in Hj' by lia.
      apply (Hbefore s j'); [lia | lia | lia | exact E]. }
    rewrite Hout. apply IH; lia.
Qed.

Lemma first_empty_none (g : grid) (k s : nat) :
  no_empty_cell g = true -> s + k <= length g ->
  first_empty (__init__ g) (seq s k) = Ok None.
Proof.
  intros Hne. revert s. induction k as [|k IH]; intros s Hle; [reflexivity|].
  cbn [seq first_empty __init__ _grid].
  rewrite (getitem_lt g s []) by lia. cbn [rbind].
  unfold no_empty_cell in Hne. rewrite forallb_forall in Hne.
  specialize (Hne (nth s g []) ltac:(apply nth_In; lia)).
  apply negb_true_iff in Hne. rewrite Hne. apply IH. lia.
Qed.

(** [_extend] on a cell of the board. *)
Lemma extend_spec (g : grid) (m i j : nat) (letter : string) :
  wf_grid g m = true -> i < m * m -> j < m * m ->
  exists g', _extend (__init__ g) letter i j = Ok (__init__ g') /\
             filled_at g i j letter g'.
Proof.
  intros Hwf Hi Hj.
  pose proof (wf_grid_inv g m Hwf) as (Hm & Hn & Hrows).
  exists (<[i := <[j := letter]> (row_of g i)]> g).
  unfold _extend. cbn [__init__ _grid].
  rewrite (getitem_row g m i Hwf Hi). cbn [rbind].
  unfold setitem.
  assert (Hlen : length (row_of g i) = m * m) by (unfold row_of; now apply Hrows).
  rewrite Hlen, Hn.
  destruct (Nat.ltb_spec j (m * m)); [|lia].
  destruct (Nat.ltb_spec i (m * m)); [|lia].
  cbn [rbind]. split; [reflexivity|].
  unfold filled_at. split; [apply length_insert|]. split.
  - intros a. rewrite nth_insert by lia.
    destruct (Nat.eqb_spec a i) as [->|]; [|reflexivity].
    now rewrite length_insert.
  - intros a b. unfold cell. rewrite nth_insert by lia.
    destruct (Nat.eqb_spec a i) as [->|]; cbv match; [|reflexivity].
    rewrite nth_insert by lia. reflexivity.
Qed.

Lemma map_result_Forall2 {A B : Type} (f : A -> result B) (R : B -> A -> Prop)
    (l : list A) :
  (forall x, In x l -> exists y, f x = Ok y /\ R y x) ->
  exists ys, map_result f l = Ok ys /\ Forall2 R ys l.
Proof.
  induction l as [|x l IH]; intros H.
  - exists []. split; [reflexivity | constructor].
  - destruct (H x (or_introl eq_refl)) as (y & Hy & HR).
    destruct IH as (ys & Hys & HF); [intros z Hz; apply H; now right|].
    exists (y :: ys). simpl. rewrite Hy, Hys. split; [reflexivity | now constructor].
Qed.

Lemma no_conflict_col (g : grid) (m j : nat) :
  no_conflict g m = true -> j < m * m -> distinct (filled (col_of g j)) = true.
Proof.
  unfold no_conflict. intros H Hj.
  apply andb_prop in H as [_ H]. apply andb_prop in H as [H _].
  rewrite forallb_forall in H. apply H. apply in_seq. lia.
Qed.

(** C4.  On a board of side [m * m] without conflict: a full board has no
    successor, solved or not; otherwise the successors are, in the
    alphabetical order of the letters, one per letter of [CHARS[:n]] that
    occurs neither in the row, nor in the column, nor in the subsquare of
    the first empty cell, each being the board with that cell set to that
    letter and nothing else changed. *)
Theorem extensions_spec (g : grid) (m : nat) :
  wf_grid g m = true -> no_conflict g m = true ->
  (no_empty_cell g = true -> extensions (__init__ g) = Ok []) /\
  (forall i j, is_first_empty g i j = true ->
     StronglySorted str_lt (candidates g m i j) /\
     exists es, extensions (__init__ g) = Ok es /\
       Forall2 (fun e letter => _n e = length g /\ filled_at g i j letter (_grid e))
               es (candidates g m i j)).
Proof.
  intros Hwf Hnc.
  pose proof (wf_grid_inv g m Hwf) as (Hm & Hn & Hrows).
  split.
  - intros Hfull. unfold extensions, range. cbn [__init__ _n].
    rewrite first_empty_none by (assumption || lia). reflexivity.
  - intros i j Hfe.
    pose proof (is_first_empty_inv g i j Hfe) as (Hi & Hj & _).
    rewrite Hn in Hi, Hj.
    split; [apply StronglySorted_filter, letters_sorted|].
    unfold extensions, range. cbn [__init__ _n].
    change {| _n := length g; _grid := g |} with (__init__ g).
    rewrite (first_empty_scan g m i j (length g) 0) by (assumption || lia).
    cbn [rbind].
    rewrite (possible_letters_spec g m i j) by (try assumption; now apply (no_conflict_col g m)).
    cbn [rbind].
    apply map_result_Forall2. intros letter _.
    destruct (extend_spec g m i j letter Hwf Hi Hj) as (g' & Hg' & Hfill).
    exists (__init__ g'). split; [exact Hg'|].
    split; [|exact Hfill]. cbn [__init__ _n]. apply Hfill.
Qed.

Lemma extensions_spec_witness :
  (extensions (__init__ gE) = Ok [] /\ is_solved (__init__ gE) = Ok false) /\
  exists es, extensions (__init__ g4) = Ok es /\
    Forall2 (fun e letter => _n e = 4 /\ filled_at g4 2 2 letter (_grid e)) es ["D"].
Proof.
  split.
  - split; [|reflexivity].
    apply (proj1 (extensions_spec gE 2 eq_refl eq_refl)). reflexivity.
  - apply (proj2 (extensions_spec g4 2 eq_refl eq_refl) 2 2 eq_refl).
Defined.

(** C3 (the code departs from the claim).  On a board of side [m * m], a
    move text whose row or column digit is not below the side makes [move]
    fail in [_find_subsquare], on a local variable that was never
    assigned: the exception is [UnboundLocalError], not [ValueError]. *)
Theorem move_off_board_raises_UnboundLocalError
    (g : grid) (m : nat) (mv letter : string) (r c : nat) :
  0 < m -> length g = m * m ->
  (let* c1 := str_getitem mv 1 in int_of_char c1) = Ok r ->
  (let* c4 := str_getitem mv 4 in int_of_char c4) = Ok c ->
  str_last mv = Ok letter ->
  m * m <= r \/ m * m <= c ->
  move (__init__ g) mv = Raise UnboundLocalError.
Proof.
  intros Hm Hn Hr Hc Hl Hout. unfold move.
  destruct (str_getitem mv 1) as [c1|]; [|discriminate]. cbn [rbind] in *.
  rewrite Hr. cbn [rbind].
  destruct (str_getitem mv 4) as [c4|]; [|discriminate]. cbn [rbind] in *.
  rewrite Hc, Hl. cbn [rbind].
  unfold _possible_letters. rewrite (find_subsquare_square g m r c Hm Hn).
  destruct (Nat.ltb_spec r (m * m)), (Nat.ltb_spec c (m * m)); try reflexivity. lia.
Qed.

Lemma move_off_board_witness :
  move (__init__ g4) "(7, 2) -> C" = Raise UnboundLocalError.
Proof.
  apply (move_off_board_raises_UnboundLocalError g4 2 "(7, 2) -> C" "C" 7 2);
    try reflexivity; try lia.
Defined.

(** With both indices on the board, a filled cell and a letter that is
    not a candidate are refused with [ValueError]. *)
Lemma move_on_board (g : grid) (m : nat) (mv letter : string) (r c : nat) :
  wf_grid g m = true -> distinct (filled (col_of g c)) = true ->
  (let* c1 := str_getitem mv 1 in int_of_char c1) = Ok r ->
  (let* c4 := str_getitem mv 4 in int_of_char c4) = Ok c ->
  str_last mv = Ok letter ->
  r < m * m -> c < m * m ->
  move (__init__ g) mv =
    if negb (contains letter (candidates g m r c)) then Raise ValueError
    else if negb (String.eqb (cell g r c) "") then Raise ValueError
    else _extend (__init__ g) letter r c.
Proof.
  intros Hwf Hcol Hr Hc Hl Hrlt Hclt.
  pose proof (wf_grid_inv g m Hwf) as (Hm & Hn & Hrows).
  unfold move.
  destruct (str_getitem mv 1) as [c1|]; [|discriminate]. cbn [rbind] in *.
  rewrite Hr. cbn [rbind].
  destruct (str_getitem mv 4) as [c4|]; [|discriminate]. cbn [rbind] in *.
  rewrite Hc, Hl. cbn [rbind].
  rewrite (possible_letters_spec g m r c) by assumption. cbn [rbind __init__ _n _grid].
  rewrite Hn.
  destruct (Nat.ltb_spec r (m * m)); [|lia].
  destruct (Nat.ltb_spec c (m * m)); [|lia]. cbn [negb orb].
  destruct (negb (contains letter (candidates g m r c))); [reflexivity|].
  rewrite (getitem_row g m r Hwf) by assumption. cbn [rbind].
  rewrite (getitem_cell g m r c Hwf) by assumption. reflexivity.
Qed.

(** *** Round trip of a move through its text *)

Lemma str_of_digit (i : nat) :
  i < 10 -> str_of_nat i = String (ascii_of_nat (48 + i)) EmptyString.
Proof.
  intros H. do 10 (destruct i as [|i]; [reflexivity|]). lia.
Qed.

Lemma int_of_digit (i : nat) :
  i < 10 -> int_of_char (String (ascii_of_nat (48 + i)) EmptyString) = Ok i.
Proof.
  intros H. do 10 (destruct i as [|i]; [reflexivity|]). lia.
Qed.

(** Two equal rows show no difference. *)
Lemma first_diff_same (row : list string) (n j : nat) :
  j + n <= length row -> first_diff row row n j = Ok None.
Proof.
  revert j. induction n as [|n IH]; intros j H; [reflexivity|].
  cbn [first_diff]. rewrite (getitem_lt row j "") by lia. cbn [rbind].
  rewrite String.eqb_refl. cbn [negb]. apply IH. lia.
Qed.

(** A row and the same row with one more cell filled differ first at
    that cell. *)
Lemma first_diff_insert (row : list string) (letter : string) (c n j : nat) :
  nth c row "" <> letter -> j <= c -> c < j + n -> j + n <= length row ->
  first_diff row (<[c := letter]> row) n j = Ok (Some (c, letter)).
Proof.
  intros Hne. revert j. induction n as [|n IH]; intros j Hj Hc Hlen; [lia|].
  cbn [first_diff]. rewrite (getitem_lt row j "") by lia. cbn [rbind].
  rewrite (getitem_lt _ j "") by (rewrite length_insert; lia). cbn [rbind].
  rewrite nth_insert by lia.
  destruct (Nat.eqb_spec j c) as [->|Hjc].
  - destruct (String.eqb_spec (nth c row "") letter); [contradiction | reflexivity].
  - rewrite String.eqb_refl. cbn [negb]. apply IH; lia.
Qed.

(** [generate_strings] from a board to the board with one more cell
    filled names that cell and its letter. *)
Lemma generate_strings_extend (g : grid) (m i j : nat) (letter : string) :
  wf_grid g m = true -> i < m * m -> j < m * m -> cell g i j <> letter ->
  generate_strings (__init__ g) (__init__ (<[i := <[j := letter]> (row_of g i)]> g))
  = Ok ("(" +:+ str_of_nat i +:+ ", " +:+ str_of_nat j +:+ ") -> " +:+ letter).
Proof.
  intros Hwf Hi Hj Hne.
  pose proof (wf_grid_inv g m Hwf) as (Hm & Hn & Hrows).
  unfold generate_strings. cbn [__init__ _n _grid]. rewrite Hn.
  assert (Hloop : forall k s acc,
    s + k <= m * m ->
    for_each (fun (acc : option (nat * nat * string)) a =>
        let* row := getitem g a in
        let* new_row := getitem (<[i := <[j := letter]> (row_of g i)]> g) a in
        let* d := first_diff row new_row (m * m) 0 in
        match d with
        | Some (j0, ch) => Ok (Some (a, j0, ch))
        | None => Ok acc
        end) (seq s k) acc
    = Ok (if andb (Nat.leb s i) (Nat.ltb i (s + k)) then Some (i, j, letter) else acc)).
  { induction k as [|k IH]; intros s acc Hle.
    - cbn [seq for_each].
      destruct (Nat.leb_spec s i), (Nat.ltb_spec i (s + 0)); try reflexivity; lia.
    - cbn [seq for_each].
      rewrite (getitem_lt g s []) by lia. cbn [rbind].
      rewrite (getitem_lt _ s []) by (rewrite length_insert; lia). cbn [rbind].
      rewrite nth_insert by lia.
      destruct (Nat.eqb_spec s i) as [->|Hsi].
      + rewrite first_diff_insert; [| exact Hne | lia | lia |].
        2:{ fold (row_of g i). unfold row_of. rewrite Hrows; lia. }
        cbn [rbind]. rewrite IH by lia.
        destruct (Nat.leb_spec (S i) i); [lia|]. cbn [andb].
        destruct (Nat.leb_spec i i); [|lia].
        destruct (Nat.ltb_spec i (i + S k)); [reflexivity | lia].
      + rewrite first_diff_same by (rewrite Hrows; lia). cbn [rbind].
        rewrite IH by lia.
        destruct (Nat.leb_spec (S s) i), (Nat.leb_spec s i); cbn [andb]; try lia;
          [|reflexivity].
        destruct (Nat.ltb_spec i (S s + k)), (Nat.ltb_spec i (s + S k)); try lia; reflexivity. }
  unfold range. rewrite (Hloop (m * m) 0 None) by lia.
  destruct (Nat.ltb_spec i (0 + m * m)); [|lia]. reflexivity.
Qed.

(** The text of a move with indices of one digit is read back by
    [move]. *)
Lemma parse_move_text (i j : nat) (c : ascii) :
  i < 10 -> j < 10 ->
  let mv := "(" +:+ str_of_nat i +:+ ", " +:+ str_of_nat j +:+ ") -> "
              +:+ String c EmptyString in
  (let* c1 := str_getitem mv 1 in int_of_char c1) = Ok i /\
  (let* c4 := str_getitem mv 4 in int_of_char c4) = Ok j /\
  str_last mv = Ok (String c EmptyString).
Proof.
  intros Hi Hj. rewrite (str_of_digit i Hi), (str_of_digit j Hj). cbn.
  split; [|split]; try reflexivity.
  - apply (int_of_digit i Hi).
  - apply (int_of_digit j Hj).
Qed.

(** On a board of side at most nine (sides 4 and 9) every successor is
    reached again by the move [generate_strings] describes. *)
Lemma sudoku_round_trip (g : grid) (m i j : nat) :
  wf_grid g m = true -> no_conflict g m = true -> is_first_empty g i j = true ->
  m * m <= 10 ->
  exists es,
    extensions (__init__ g) = Ok es /\
    Forall (fun e => exists mv,
              generate_strings (__init__ g) e = Ok mv /\ move (__init__ g) mv = Ok e) es.
Proof.
  intros Hwf Hnc Hfe Hsmall.
  pose proof (wf_grid_inv g m Hwf) as (Hm & Hn & Hrows).
  pose proof (is_first_empty_inv g i j Hfe) as (Hi & Hj & Hcell & _).
  rewrite Hn in Hi, Hj.
  pose proof (no_conflict_col g m j Hnc Hj) as Hcol.
  unfold extensions, range. cbn [__init__ _n].
  change {| _n := length g; _grid := g |} with (__init__ g).
  rewrite (first_empty_scan g m i j (length g) 0) by (assumption || lia). cbn [rbind].
  rewrite (possible_letters_spec g m i j) by assumption. cbn [rbind].
  assert (Hall : forall ls, (forall x, In x ls -> In x (candidates g m i j)) ->
    exists es,
      map_result (fun letter => _extend (__init__ g) letter i j) ls = Ok es /\
      Forall (fun e => exists mv,
                generate_strings (__init__ g) e = Ok mv /\ move (__init__ g) mv = Ok e) es).
  { induction ls as [|letter ls IH]; intros Hsub.
    - exists []. split; [reflexivity | constructor].
    - destruct IH as (es & Hes & HF); [intros x Hx; apply Hsub; now right|].
      assert (Hcand : In letter (candidates g m i j)) by (apply Hsub; now left).
      assert (Hletter : exists c, letter = String c EmptyString).
      { unfold candidates in Hcand. apply filter_In in Hcand as [Hl _].
        unfold letters in Hl. apply in_map_iff in Hl as (c & <- & _). now exists c. }
      destruct Hletter as (c & ->).
      assert (Hext : _extend (__init__ g) (String c EmptyString) i j
                     = Ok (__init__ (<[i := <[j := String c EmptyString]> (row_of g i)]> g))).
      { unfold _extend. cbn [__init__ _grid].
        rewrite (getitem_row g m i Hwf Hi). cbn [rbind]. unfold setitem.
        assert (Hlen : length (row_of g i) = m * m) by (unfold row_of; now apply Hrows).
        rewrite Hlen, Hn.
        destruct (Nat.ltb_spec j (m * m)); [|lia].
        destruct (Nat.ltb_spec i (m * m)); [|lia]. reflexivity. }
      exists (__init__ (<[i := <[j := String c EmptyString]> (row_of g i)]> g) :: es).
      cbn [map_result]. rewrite Hext, Hes. cbn [rbind]. split; [reflexivity|].
      constructor; [|assumption].
      eexists. split.
      + apply (generate_strings_extend g m i j); try assumption.
        rewrite Hcell. discriminate.
      + destruct (parse_move_text i j c ltac:(lia) ltac:(lia)) as (P1 & P2 & P3).
        rewrite (move_on_board g m _ (String c EmptyString) i j Hwf Hcol P1 P2 P3 Hi Hj).
        assert (Hin : contains (String c EmptyString) (candidates g m i j) = true)
          by now apply contains_true.
        rewrite Hin, Hcell. cbn [negb String.eqb]. exact Hext. }
  apply Hall. auto.
Qed.

Example sudoku_round_trip_g4 :
  exists es,
    extensions (__init__ g4) = Ok es /\
    Forall (fun e => exists mv,
              generate_strings (__init__ g4) e = Ok mv /\ move (__init__ g4) mv = Ok e) es.
Proof.
  apply (sudoku_round_trip g4 2 2 2); [vm_compute; reflexivity .. | lia].
Defined.

(** C2 (the code departs from the claim).  On a board of side 16 whose
    first empty cell is in column 10, the text [generate_strings] returns
    for the first successor is refused by [move]: [move] reads one digit
    at fixed positions and so addresses the filled cell of column 1. *)
Theorem round_trip_fails_on_two_digit_column :
  wf_grid g16 4 = true /\ no_conflict g16 4 = true /\
  exists e rest,
    extensions (__init__ g16) = Ok (e :: rest) /\
    generate_strings (__init__ g16) e = Ok "(0, 10) -> K" /\
    move (__init__ g16) "(0, 10) -> K" = Raise ValueError.
Proof.
  split; [vm_compute; reflexivity|]. split; [vm_compute; reflexivity|].
  eexists. eexists. split; [vm_compute; reflexivity|].
  split; vm_compute; reflexivity.
Qed.

End SudokuFacts.

(** ** Word ladder: successors *)

Module LadderFacts.

Import WordLadderPuzzle LadderSpec Samples.

Lemma without_0 (x : ascii) (s : string) : without 0 (String x s) = s.
Proof. unfold without. simpl. now destruct s. Qed.

Lemma without_S (i : nat) (x : ascii) (s : string) :
  without (S i) (String x s) = String x (without i s).
Proof. reflexivity. Qed.

Lemma differences_0 (a b : string) :
  String.length a = String.length b -> (differences a b = 0 <-> a = b).
Proof.
  revert b. induction a as [|x a IH]; intros [|y b] Hlen; simpl in *; try lia.
  - tauto.
  - destruct (Ascii.eqb_spec x y) as [->|Hne]; cbn [Nat.add].
    + rewrite IH by lia. split; [now intros -> | now intros [= ->]].
    + split; [lia | intros [= -> _]; congruence].
Qed.

Lemma matches_cons (x y : ascii) (w s : string) :
  length (matches (String x w) (String y s)) =
    (if String.eqb w s then 1 else 0) +
    (if Ascii.eqb x y then length (matches w s) else 0).
Proof.
  unfold matches. cbn [String.length]. rewrite <- cons_seq, <- seq_shift.
  cbn [List.filter]. rewrite !without_0.
  assert (E : length (List.filter (fun i => String.eqb (without i (String x w)) (without i (String y s)))
                        (map S (seq 0 (String.length s))))
              = if Ascii.eqb x y
                then length (List.filter (fun i => String.eqb (without i w) (without i s))
                               (seq 0 (String.length s)))
                else 0).
  { induction (seq 0 (String.length s)) as [|i l IH]; cbn [map List.filter].
    - now destruct (Ascii.eqb x y).
    - rewrite !without_S. cbn [String.eqb].
      destruct (Ascii.eqb x y); [|exact IH].
      destruct (String.eqb (without i w) (without i s)); cbn [length]; now rewrite IH. }
  destruct (String.eqb w s); cbn [length]; rewrite E; lia.
Qed.

Lemma matches_count (w s : string) :
  String.length w = String.length s ->
  length (matches w s) =
    match differences w s with
    | 0 => String.length s
    | 1 => 1
    | _ => 0
    end.
Proof.
  revert s. induction w as [|x w IH]; intros [|y s] Hlen; simpl in Hlen; try lia.
  - reflexivity.
  - rewrite matches_cons. cbn [differences String.length].
    injection Hlen as Hlen. rewrite (IH s Hlen).
    pose proof (differences_0 w s Hlen) as H0.
    destruct (String.eqb_spec w s) as [E|E].
    + apply H0 in E. rewrite E. destruct (Ascii.eqb x y); reflexivity.
    + destruct (differences w s) as [|[|d]] eqn:Hd.
      * exfalso. apply E, H0. reflexivity.
      * destruct (Ascii.eqb x y); reflexivity.
      * destruct (Ascii.eqb x y); reflexivity.
Qed.

Lemma flat_map_if_repeat {A B : Type} (p : A -> bool) (b : B) (l : list A) :
  flat_map (fun a => if p a then [b] else []) l = repeat b (length (List.filter p l)).
Proof.
  induction l as [|a l IH]; simpl; [reflexivity|].
  destruct (p a); simpl; now rewrite IH.
Qed.

Lemma flat_map_if_filter {A : Type} (p : A -> bool) (l : list A) :
  flat_map (fun a => if p a then [a] else []) l = List.filter p l.
Proof.
  induction l as [|a l IH]; simpl; [reflexivity|].
  destruct (p a); simpl; now rewrite IH.
Qed.

Lemma flat_map_eq {A B : Type} (f g : A -> list B) (l : list A) :
  (forall a, In a l -> f a = g a) -> flat_map f l = flat_map g l.
Proof.
  induction l as [|a l IH]; intros H; simpl; [reflexivity|].
  rewrite (H a) by now left. rewrite IH; [reflexivity|]. intros; apply H; now right.
Qed.

Lemma contains_app (x : string) (l1 l2 : list string) :
  contains x (l1 ++ l2) = orb (contains x l1) (contains x l2).
Proof. unfold contains. apply existsb_app. Qed.

Lemma filter_filter {A : Type} (p q : A -> bool) (l : list A) :
  List.filter p (List.filter q l) = List.filter (fun a => andb (q a) (p a)) l.
Proof.
  induction l as [|a l IH]; simpl; [reflexivity|].
  destruct (q a); simpl; [destruct (p a)|]; now rewrite IH.
Qed.

(** Before sorting, [_possible_words] has collected the entries of the
    word file that are candidates, once each and in the order of the
    file. *)
Lemma possible_words_unsorted (wordfile : list string) (h : store)
    (start target : string) (used : list string) (tr : tried_ref) :
  let self := state_of wordfile start target used tr in
  _possible_words h self = sorted (List.filter (is_candidate h self) wordfile).
Proof.
  intros self. unfold _possible_words. f_equal.
  assert (Hs : _start self = start) by (destruct tr; reflexivity).
  assert (Hu : _used_words self = used ++ [start]) by (destruct tr; reflexivity).
  assert (Hw : _words self = List.filter (fun line =>
             Nat.eqb (String.length line) (String.length start)) wordfile)
    by (destruct tr; reflexivity).
  rewrite Hw.
  rewrite flat_map_eq with (g := fun word => if is_candidate h self word then [word] else []).
  - rewrite flat_map_if_filter, filter_filter. apply filter_eq. intros w.
    unfold is_candidate, one_letter_apart. rewrite Hs.
    destruct (Nat.eqb (String.length w) (String.length start)); cbn [andb];
      [reflexivity | now rewrite !andb_false_r].
  - intros w Hin. apply filter_In in Hin as [_ Hlen]. apply Nat.eqb_eq in Hlen.
    unfold is_candidate, one_letter_apart. rewrite contains_app, negb_orb.
    destruct (contains w (_used_words self)) eqn:Hcu; cbn [negb andb]; [reflexivity|].
    destruct (contains w (tried h self)); cbn [negb andb]; [reflexivity|].
    rewrite Hs, Hlen, Nat.eqb_refl. cbn [andb].
    rewrite (flat_map_if_repeat (fun i => String.eqb (without i w) (without i start))).
    unfold range.
    change (List.filter _ (seq 0 (String.length start))) with (matches w start).
    rewrite (matches_count w start Hlen).
    assert (Hne : differences w start <> 0).
    { rewrite (differences_0 w start Hlen). intros ->.
      apply contains_false in Hcu. apply Hcu. rewrite Hu.
      apply in_or_app. right. now left. }
    destruct (differences w start) as [|[|d]]; [congruence | reflexivity | reflexivity].
Qed.

(** C5.  The successors of a word ladder state are, one per entry and in
    alphabetical order of the new word, the entries of the vocabulary
    that are neither in [_used_words] nor in the list [_tried_words]
    refers to and differ from the current word in exactly one position
    (so without repetition when the vocabulary has none); each has the
    target of the source, and for [_used_words] that of the source, which
    ends in the current word, followed by the new word. *)
Theorem ladder_extensions_spec (wordfile : list string) (h : store)
    (start target : string) (used : list string) (tr : tried_ref) :
  let self := state_of wordfile start target used tr in
  let exts := extensions wordfile h self in
  Permutation (map _start exts) (List.filter (is_candidate h self) wordfile) /\
  (List.NoDup wordfile -> List.NoDup (map _start exts)) /\
  Sorted str_le (map _start exts) /\
  Forall (fun e => _target e = target /\
                   _used_words self = used ++ [start] /\
                   _used_words e = _used_words self ++ [_start e]) exts.
Proof.
  intros self exts.
  assert (Hst : map _start exts = _possible_words h self).
  { unfold exts, extensions. rewrite map_map. cbn [_extend __init__ _start]. apply map_id. }
  assert (Hperm : Permutation (map _start exts) (List.filter (is_candidate h self) wordfile)).
  { rewrite Hst. unfold self. rewrite possible_words_unsorted.
    symmetry. apply StringSort.Permuted_sort. }
  split; [exact Hperm|]. split; [|split].
  - intros Hnd. apply (Permutation_NoDup (Permutation_sym Hperm)).
    now apply List.NoDup_filter.
  - rewrite Hst. unfold self. rewrite possible_words_unsorted.
    apply StringSort.Sorted_sort.
  - apply List.Forall_forall. intros e He. unfold exts, extensions in He.
    apply in_map_iff in He as (w & <- & _).
    cbn [_extend __init__ _target _used_words _start].
    destruct tr; repeat split.
Qed.

Lemma ladder_extensions_witness :
  let self := state_of vocab "hit" "cot" [] Own in
  map _start (extensions vocab [] self) = ["hat"; "hot"] /\
  List.NoDup (map _start (extensions vocab [] self)).
Proof.
  split; [reflexivity|].
  apply (proj1 (proj2 (ladder_extensions_spec vocab [] "hit" "cot" [] Own))).
  repeat constructor; simpl; intuition discriminate.
Defined.
(** The text of a successor is its new word, and [move] on that word
    gives the successor back. *)
Lemma ladder_round_trip (wordfile : list string) (h : store) (s e : t) :
  In e (extensions wordfile h s) ->
  move wordfile h s (generate_strings s e) = Ok e.
Proof.
  unfold extensions, move, generate_strings. intros He.
  apply in_map_iff in He as (w & <- & Hw).
  cbn [_extend __init__ _start].
  apply contains_true in Hw. rewrite Hw. reflexivity.
Qed.

End LadderFacts.

(** ** Depth-first search and hints *)

Module SolverFacts.

Import Solver DepthSpec.

Section Facts.

Context {S : Type}.
Variable is_solved : S -> result bool.
Variable extensions : S -> result (list S).
Variable generate_strings : S -> S -> result string.

Local Abbreviation reaches := (reaches is_solved extensions).
Local Abbreviation safe := (safe is_solved extensions).
Local Abbreviation solve_in_depth := (solve_in_depth is_solved extensions).

(** Under [safe], the bounded search returns and decides [reaches]. *)
Lemma solve_in_depth_decides (k : nat) :
  forall (fuel : nat) (s : S),
    safe k s = true -> k < fuel ->
    exists b, solve_in_depth fuel s (Z.of_nat k) = Some (Ok b) /\
              (b = true <-> reaches (Z.of_nat k) s).
Proof.
  induction k as [|k IH]; intros fuel s Hsafe Hfuel;
    (destruct fuel as [|fuel]; [lia|]); cbn [Solver.solve_in_depth lift sbind];
    simpl in Hsafe; destruct (is_solved s) as [[|]|] eqn:Hs; try discriminate.
  - exists true. split; [reflexivity|]. split; [|reflexivity].
    intros _. now apply reaches_here.
  - exists false. cbn [Z.of_nat Z.eqb]. split; [reflexivity|].
    split; [discriminate|]. intros H. inversion H; subst; [congruence | lia].
  - exists true. split; [reflexivity|]. split; [|reflexivity].
    intros _. apply reaches_here; [lia | assumption].
  - destruct (Z.eqb_spec (Z.of_nat (Datatypes.S k)) 0) as [E|_]; [lia|].
    destruct (extensions s) as [es|] eqn:He; [|discriminate]. cbn [sbind].
    replace (Z.of_nat (Datatypes.S k) - 1)%Z with (Z.of_nat k) by lia.
    assert (Hloop : exists b,
      (fix loop (l : list S) : search bool :=
         match l with
         | [] => sret false
         | extension :: l' =>
             let! sol := solve_in_depth fuel extension (Z.of_nat k) in
             if sol then sret sol else loop l'
         end) es = Some (Ok b) /\
      (b = true <-> exists e, In e es /\ reaches (Z.of_nat k) e)).
    { clear He. induction es as [|e es IHes].
      - exists false. split; [reflexivity|]. split; [discriminate|]. intros (e & [] & _).
      - cbn [forallb] in Hsafe. apply andb_prop in Hsafe as [Hse Hses].
        destruct (IH fuel e Hse ltac:(lia)) as (b & Hb & Hbr). rewrite Hb. cbn [sbind].
        destruct b.
        + exists true. split; [reflexivity|]. split; [|reflexivity].
          intros _. exists e. split; [now left | now apply Hbr].
        + destruct (IHes Hses) as (b' & Hb' & Hbr'). exists b'. split; [exact Hb'|].
          rewrite Hbr'. split.
          * intros (x & Hx & Hr). exists x. split; [now right | assumption].
          * intros (x & [->|Hx] & Hr); [|now exists x].
            apply Hbr in Hr. discriminate. }
    destruct Hloop as (b & Hb & Hbr). exists b. split; [exact Hb|].
    rewrite Hbr. split.
    + intros (e & He' & Hr). eapply reaches_move; try eassumption; [lia|].
      now replace (Z.of_nat (Datatypes.S k) - 1)%Z with (Z.of_nat k) by lia.
    + intros H. inversion H; subst; [congruence|].
      match goal with Hx : extensions s = Ok ?l |- _ => rewrite He in Hx; injection Hx as <- end.
      exists e. split; [assumption|].
      now replace (Z.of_nat k) with (Z.of_nat (Datatypes.S k) - 1)%Z by lia.
Qed.

Lemma hint_loop_spec (fuel k : nat) (s : S) (limit : Z) (es : list S) :
  limit = (Z.of_nat k + 1)%Z -> k < fuel -> forallb (safe k) es = true ->
  (forall pre e post, es = pre ++ e :: post ->
     (forall x, In x pre -> ~ reaches (limit - 1) x) ->
     reaches (limit - 1) e ->
     hint_loop is_solved extensions generate_strings fuel s limit es
     = Some (generate_strings s e)) /\
  ((forall x, In x es -> ~ reaches (limit - 1) x) ->
     hint_loop is_solved extensions generate_strings fuel s limit es
     = Some (Ok no_extensions)).
Proof.
  intros -> Hfuel.
  replace (Z.of_nat k + 1 - 1)%Z with (Z.of_nat k) by lia.
  induction es as [|a es IH]; intros Hsafe.
  - split; [|reflexivity]. intros [|] ? ? E; discriminate.
  - cbn [forallb] in Hsafe. apply andb_prop in Hsafe as [Ha Hes].
    destruct (solve_in_depth_decides k fuel a Ha Hfuel) as (b & Hb & Hbr).
    destruct (IH Hes) as [IH1 IH2].
    cbn [hint_loop].
    replace (Z.of_nat k + 1 - 1)%Z with (Z.of_nat k) by lia.
    rewrite Hb. cbn [sbind]. split.
    + intros pre e post E Hpre He. destruct pre as [|p pre]; injection E as <- E.
      * apply Hbr in He. subst b. reflexivity.
      * destruct b.
        -- exfalso. apply (Hpre a); [now left | now apply Hbr].
        -- apply (IH1 pre e post E); [|assumption].
           intros x Hx. apply Hpre. now right.
    + intros Hnone. destruct b.
      * exfalso. apply (Hnone a); [now left | now apply Hbr].
      * apply IH2. intros x Hx. apply Hnone. now right.
Qed.

(** The bound at work.  For a bound [limit >= 1] and a state from which
    no call raises within [limit] moves: [hint_by_depth] returns the
    "already solved" text on a solved state; otherwise the description of
    the move to the first successor, in the order of [extensions], from
    which a solved state can be reached within [limit - 1] further moves;
    and the "no possible extensions" text when there is no such
    successor. *)
Theorem hint_by_depth_bounded (fuel : nat) (s : S) (limit : Z) :
  (1 <= limit)%Z -> Z.to_nat limit <= fuel ->
  safe (Z.to_nat limit) s = true ->
  hint_by_depth_spec is_solved extensions generate_strings fuel s limit.
Proof.
  intros Hlim Hfuel Hsafe.
  destruct (Z.to_nat limit) as [|k] eqn:Hk; [lia|].
  unfold hint_by_depth_spec, hint_by_depth.
  cbn [DepthSpec.safe] in Hsafe.
  destruct (is_solved s) as [[|]|] eqn:Hs; try discriminate; cbn [lift sbind].
  - split; [reflexivity | discriminate].
  - split; [discriminate|]. intros _ es He. rewrite He in Hsafe |- *. cbn [sbind].
    apply (hint_loop_spec fuel k s limit es); [lia | lia | assumption].
Qed.

(** What does not depend on the bound: the text on a solved state, and
    the text on a state without successors. *)
Lemma hint_by_depth_any_limit (fuel : nat) (s : S) (limit : Z) :
  (is_solved s = Ok true ->
   hint_by_depth is_solved extensions generate_strings fuel s limit
   = Some (Ok already_solved)) /\
  (is_solved s = Ok false -> extensions s = Ok [] ->
   hint_by_depth is_solved extensions generate_strings fuel s limit
   = Some (Ok no_extensions)).
Proof.
  unfold hint_by_depth. split.
  - intros ->. reflexivity.
  - intros -> ->. reflexivity.
Qed.

(** [solve_depth] finds nothing exactly when [solve_complete] collects
    nothing: both walk the successors in the same order, and the first
    stops at the first solution. *)
Lemma solve_depth_None_iff (fuel : nat) :
  forall s : S,
    Solver.solve_depth is_solved extensions fuel s = Some (Ok None) <->
    Solver.solve_complete is_solved extensions fuel s = Some (Ok []).
Proof.
  induction fuel as [|fuel IH]; intros s; [split; discriminate|].
  cbn [Solver.solve_depth Solver.solve_complete lift sbind].
  destruct (is_solved s) as [[|]|]; cbn [sbind sret]; [split; discriminate | | split; discriminate].
  destruct (extensions s) as [es|]; cbn [sbind]; [|split; discriminate].
  set (loopd := fix loop (l : list S) : search (option S) :=
         match l with
         | [] => sret None
         | new_state :: l' =>
             let! state := Solver.solve_depth is_solved extensions fuel new_state in
             match state with
             | Some st => sret (Some st)
             | None => loop l'
             end
         end).
  set (loopc := fix loop (l solutions : list S) : search (list S) :=
         match l with
         | [] => sret solutions
         | new_state :: l' =>
             let! found := Solver.solve_complete is_solved extensions fuel new_state in
             match found with
             | [] => loop l' solutions
             | _ :: _ =>
                 let! again := Solver.solve_complete is_solved extensions fuel new_state in
                 loop l' (solutions ++ again)
             end
         end).
  assert (Hgrow : forall l sols r, loopc l sols = Some (Ok r) -> length sols <= length r).
  { induction l as [|e l IHl]; intros sols r H; cbn in H.
    - injection H as <-. lia.
    - destruct (Solver.solve_complete is_solved extensions fuel e) as [[[|x xs]|]|];
        cbn in H; try discriminate.
      + now apply IHl.
      + apply IHl in H. rewrite length_app in H. lia. }
  assert (Hloop : forall l sols,
            loopc l sols = Some (Ok []) <-> sols = [] /\ loopd l = Some (Ok None)).
  { induction l as [|e l IHl]; intros sols; cbn.
    - unfold sret. split; [intros [= ->]; now split | intros [-> _]; reflexivity].
    - pose proof (IH e) as IHe.
      destruct (Solver.solve_complete is_solved extensions fuel e) as [[[|x xs]|]|] eqn:Hc;
        cbn [sbind].
      + rewrite (proj2 IHe eq_refl). cbn [sbind]. apply IHl.
      + split.
        * intros H. apply Hgrow in H. rewrite length_app in H. simpl in H. lia.
        * intros [_ H]. exfalso.
          destruct (Solver.solve_depth is_solved extensions fuel e) as [[[st|]|]|] eqn:Hd;
            cbn in H; try discriminate.
          discriminate (proj1 IHe eq_refl).
      + split; [discriminate|]. intros [_ H]. exfalso.
        destruct (Solver.solve_depth is_solved extensions fuel e) as [[[st|]|]|] eqn:Hd;
          cbn in H; try discriminate.
        discriminate (proj1 IHe eq_refl).
      + split; [discriminate|]. intros [_ H]. exfalso.
        destruct (Solver.solve_depth is_solved extensions fuel e) as [[[st|]|]|] eqn:Hd;
          cbn in H; try discriminate.
        discriminate (proj1 IHe eq_refl). }
  rewrite Hloop. tauto.
Qed.

End Facts.

End SolverFacts.

Module SolverExamples.

Import Solver DepthSpec SolverFacts Samples.

(** C6 (the code departs from the claim).  [solve_in_depth] tests its
    bound with [n == 0] only, and [hint_by_depth] hands it [n - 1]: with
    the bound 0 the search below a successor starts at [-1] and is not
    bounded at all.  On the board [g4], three moves away from its
    solution after the first move, [hint_by_depth] returns a move, where
    the claim has the "no possible extensions" text, no successor
    reaching a solved state within [-1] moves. *)
Lemma hint_by_depth_limit_zero :
  let s := SudokuPuzzle.__init__ g4 in
  hint_by_depth SudokuPuzzle.is_solved SudokuPuzzle.extensions
    SudokuPuzzle.generate_strings 10 s 0 = Some (Ok "(2, 2) -> D") /\
  ~ hint_by_depth_spec SudokuPuzzle.is_solved SudokuPuzzle.extensions
      SudokuPuzzle.generate_strings 10 s 0.
Proof.
  split; [vm_compute; reflexivity|].
  intros [_ H].
  destruct (SudokuPuzzle.extensions (SudokuPuzzle.__init__ g4)) as [es|] eqn:He;
    [|vm_compute in He; discriminate].
  destruct (H eq_refl es eq_refl) as [_ H2].
  assert (Hno : forall x, In x es ->
            ~ reaches SudokuPuzzle.is_solved SudokuPuzzle.extensions (0 - 1) x).
  { intros x _ Hr. inversion Hr; lia. }
  specialize (H2 Hno). vm_compute in H2. discriminate.
Qed.

Lemma hint_by_depth_bounded_witness :
  hint_by_depth_spec SudokuPuzzle.is_solved SudokuPuzzle.extensions
    SudokuPuzzle.generate_strings 10 (SudokuPuzzle.__init__ g4) 4.
Proof.
  apply hint_by_depth_bounded; [lia | vm_compute; lia | vm_compute; reflexivity].
Defined.

End SolverExamples.

(** ** Breadth-first search: the accumulator and termination *)

Module BreadthFacts.

Import Solver WordLadderPuzzle LadderSpec LadderFacts BreadthSpec.

Lemma deref_append (h : store) (acc l : loc) (x : string) :
  acc < length h ->
  deref (append h acc x) l = if Nat.eqb l acc then deref h acc ++ [x] else deref h l.
Proof.
  intros H. unfold append, deref at 1. rewrite !nth_lookup.
  destruct (Nat.eqb_spec l acc) as [->|Hne].
  - now rewrite list_lookup_insert_eq.
  - rewrite list_lookup_insert_ne by congruence. unfold deref. now rewrite nth_lookup.
Qed.

Lemma length_append (h : store) (acc : loc) (x : string) :
  length (append h acc x) = length h.
Proof. unfold append. apply length_insert. Qed.

Lemma index_in (x : string) (l : list string) :
  In x l -> exists i, index x l = Ok i /\ i < length l.
Proof.
  induction l as [|y l IH]; intros H; [destruct H|].
  simpl. destruct (String.eqb_spec y x) as [->|Hne].
  - exists 0. split; [reflexivity | lia].
  - destruct H as [H|H]; [congruence|].
    destruct (IH H) as (i & Hi & Hlt). exists (S i). rewrite Hi. split; [reflexivity | lia].
Qed.

Lemma index_app (x : string) (l l' : list string) :
  In x l -> exists i, index x (l ++ l') = Ok i /\ i < length l.
Proof.
  induction l as [|y l IH]; intros H; [destruct H|].
  simpl. destruct (String.eqb_spec y x) as [->|Hne].
  - exists 0. split; [reflexivity | lia].
  - destruct H as [H|H]; [congruence|].
    destruct (IH H) as (i & Hi & Hlt). exists (S i). rewrite Hi. split; [reflexivity | lia].
Qed.

Section Facts.

Variable wordfile : list string.
Variable puzzle : WordLadderPuzzle.t.
Variable hint : bool.
Variable acc : loc.

Local Abbreviation queued := (queued wordfile acc).

(** The loop over the successors appends, for a prefix [pw1] of the
    words, the word to the accumulator and the state to the queue; it
    runs to the end unless one of the words is the target. *)
Lemma visit_spec (q : WordLadderPuzzle.t) (pw : list string) :
  forall st : bfs_state,
    acc < length (bs_store st) ->
    In (_start puzzle) (_used_words q) ->
    exists pw1 pw2,
      pw = pw1 ++ pw2 /\
      let r := visit puzzle hint acc (map (_extend wordfile q) pw) st in
      deref (bs_store (snd r)) acc = deref (bs_store st) acc ++ pw1 /\
      length (bs_store (snd r)) = length (bs_store st) /\
      (forall l, l <> acc -> deref (bs_store (snd r)) l = deref (bs_store st) l) /\
      bs_queue (snd r) = bs_queue st ++ map (queued q) pw1 /\
      match fst r with
      | Continue => pw2 = []
      | Return res => In (_target q) pw /\ exists a, res = Ok (true, a)
      end.
Proof.
  induction pw as [|w pw IH]; intros st Hacc Hstart.
  - exists [], []. cbn. rewrite !app_nil_r. repeat split; reflexivity.
  - cbn [map visit].
    change (is_solved (add_tried_words (_extend wordfile q w) acc))
      with (String.eqb w (_target q)).
    destruct (String.eqb_spec w (_target q)) as [E|E].
    + exists [], (w :: pw).
      assert (Hres : exists a,
        (if hint
         then Return (let* i := index (start_word puzzle)
                                  (used_words (add_tried_words (_extend wordfile q w) acc)) in
                      let* w0 := getitem (used_words (add_tried_words (_extend wordfile q w) acc))
                                   (i + 1) in
                      Ok (true, AStr w0))
         else Return (Ok (true, APuzzle (WordLadder (add_tried_words (_extend wordfile q w) acc)))))
        = Return (Ok (true, a))).
      { destruct hint; [|eexists; reflexivity].
        cbn [used_words add_tried_words _extend __init__ _used_words start_word].
        destruct (index_app (_start puzzle) (_used_words q) [w] Hstart) as (i & Hi & Hlt).
        unfold start_word. rewrite Hi. cbn [rbind].
        rewrite (getitem_lt _ (i + 1) "") by (rewrite length_app; simpl; lia).
        eexists. reflexivity. }
      destruct Hres as (a & Hres).
      destruct hint; rewrite Hres || (injection Hres as <-); cbn;
        rewrite !app_nil_r; repeat split; eauto.
    + set (st1 := {| bs_store := append (bs_store st) acc
                                   (generate_strings puzzle (add_tried_words (_extend wordfile q w) acc));
                     bs_queue := bs_queue st ++ [add_tried_words (_extend wordfile q w) acc] |}).
      destruct (IH st1) as (pw1 & pw2 & Hpw & Hd & Hl & Ho & Hq & Hr).
      { cbn. now rewrite length_append. }
      { assumption. }
      exists (w :: pw1), pw2. split; [now rewrite Hpw|].
      cbn zeta in *. repeat split.
      * rewrite Hd. cbn [st1 bs_store]. rewrite deref_append by assumption.
        rewrite Nat.eqb_refl. cbn [generate_strings add_tried_words _extend __init__ _start].
        now rewrite <- app_assoc.
      * rewrite Hl. cbn [st1 bs_store]. apply length_append.
      * intros l Hne. rewrite Ho by assumption. cbn [st1 bs_store].
        rewrite deref_append by assumption.
        destruct (Nat.eqb_spec l acc); [congruence | reflexivity].
      * rewrite Hq. cbn [st1 bs_queue map]. now rewrite <- app_assoc.
      * destruct (fst (visit puzzle hint acc (map (_extend wordfile q) pw) st1));
          [|assumption].
        destruct Hr as [Hin Ha]. split; [now right | assumption].
Qed.

End Facts.

Lemma possible_words_perm (wordfile : list string) (h : store)
    (s t : string) (u : list string) (tr : tried_ref) :
  Permutation (_possible_words h (state_of wordfile s t u tr))
              (List.filter (is_candidate h (state_of wordfile s t u tr)) wordfile).
Proof.
  rewrite possible_words_unsorted. symmetry. apply StringSort.Permuted_sort.
Qed.

Lemma possible_words_candidate (wordfile : list string) (h : store)
    (s t : string) (u : list string) (tr : tried_ref) (w : string) :
  In w (_possible_words h (state_of wordfile s t u tr)) <->
  In w wordfile /\ is_candidate h (state_of wordfile s t u tr) w = true.
Proof.
  rewrite <- filter_In. split; apply Permutation_in;
    [|symmetry]; apply possible_words_perm.
Qed.

Lemma is_candidate_inv (h : store) (q : WordLadderPuzzle.t) (w : string) :
  is_candidate h q w = true ->
  ~ In w (_used_words q) /\ ~ In w (tried h q).
Proof.
  unfold is_candidate. intros H.
  apply andb_prop in H as [H1 H]. apply andb_prop in H as [H2 _].
  apply negb_true_iff in H1, H2. split; now apply contains_false.
Qed.

Lemma filter_length_le {A : Type} (p q : A -> bool) (l : list A) :
  (forall a, In a l -> p a = true -> q a = true) ->
  length (List.filter p l) <= length (List.filter q l).
Proof.
  induction l as [|a l IH]; intros H; simpl; [lia|].
  assert (IH' := IH (fun x Hx => H x (or_intror Hx))).
  destruct (p a) eqn:Hp.
  - rewrite (H a (or_introl eq_refl) Hp). simpl. lia.
  - destruct (q a); simpl; lia.
Qed.

Lemma filter_length_split {A : Type} (p q : A -> bool) (l : list A) :
  length (List.filter p l) =
  length (List.filter (fun a => andb (p a) (q a)) l) +
  length (List.filter (fun a => andb (p a) (negb (q a))) l).
Proof.
  induction l as [|a l IH]; simpl; [reflexivity|].
  destruct (p a), (q a); simpl; lia.
Qed.

(** Recording all the words a state can move to lowers the count by
    their number. *)
Lemma unrecorded_drop (wordfile recorded pw : list string) (cand : string -> bool) :
  Permutation pw (List.filter cand wordfile) ->
  (forall w, cand w = true -> ~ In w recorded) ->
  unrecorded wordfile (recorded ++ pw) + length pw <= unrecorded wordfile recorded.
Proof.
  intros Hperm Hfresh. unfold unrecorded.
  rewrite (filter_length_split (fun w => negb (contains w recorded)) cand wordfile).
  rewrite (Permutation_length Hperm).
  assert (H1 : length (List.filter cand wordfile) <=
               length (List.filter (fun a => andb (negb (contains a recorded)) (cand a)) wordfile)).
  { apply filter_length_le. intros w _ Hc. rewrite Hc, andb_true_r.
    apply negb_true_iff, contains_false. now apply Hfresh. }
  assert (H2 : length (List.filter (fun w => negb (contains w (recorded ++ pw))) wordfile) <=
               length (List.filter (fun a => andb (negb (contains a recorded)) (negb (cand a)))
                         wordfile)).
  { apply filter_length_le. intros w Hw Hn.
    apply negb_true_iff, contains_false in Hn.
    apply andb_true_intro. split.
    - apply negb_true_iff, contains_false. intros Hin. apply Hn, in_or_app. now left.
    - apply negb_true_iff. destruct (cand w) eqn:Hc; [|reflexivity].
      exfalso. apply Hn, in_or_app. right.
      apply (Permutation_in _ (Permutation_sym Hperm)). apply filter_In. now split. }
  lia.
Qed.

Section Search.

Variable wordfile : list string.
Variable h0 : store.
Variables start target : string.
Variable used : list string.
Variable tr : tried_ref.
Variable hint : bool.

Local Abbreviation p := (state_of wordfile start target used tr).
Local Abbreviation acc := (length h0).
Local Abbreviation st0 := ({| bs_store := h0 ++ [[]]; bs_queue := [p] |}).
Local Abbreviation step := (bfs_step wordfile p hint acc).
Local Abbreviation on_path := (on_path wordfile start target).
Local Abbreviation inv := (inv wordfile h0 start target).
Local Abbreviation potential := (potential wordfile h0).

Lemma state_of_start (s t : string) (u : list string) (r : tried_ref) :
  _start (state_of wordfile s t u r) = s.
Proof. now destruct r. Qed.

Lemma state_of_target (s t : string) (u : list string) (r : tried_ref) :
  _target (state_of wordfile s t u r) = t.
Proof. now destruct r. Qed.

Lemma state_of_used (s t : string) (u : list string) (r : tried_ref) :
  _used_words (state_of wordfile s t u r) = u ++ [s].
Proof. now destruct r. Qed.

Lemma inv_init : inv st0.
Proof.
  unfold inv. cbn [bs_store bs_queue]. split; [rewrite length_app; simpl; lia|].
  split.
  - constructor; [|constructor]. exists start, used, tr. split; [reflexivity|].
    apply in_or_app. right. now left.
  - left. split; [|simpl; lia]. unfold deref.
    rewrite app_nth2 by lia. now rewrite Nat.sub_diag.
Qed.

(** The words a state of the queue can move to were never put on the
    queue. *)
Lemma queue_fresh (st : bfs_state) (q : WordLadderPuzzle.t) (w : string) :
  inv st -> In q (bs_queue st) ->
  is_candidate (bs_store st) q w = true ->
  ~ In w (start :: deref (bs_store st) acc).
Proof.
  intros (Hacc & Hpath & Href) Hq Hc.
  apply is_candidate_inv in Hc as [Hu Ht].
  rewrite List.Forall_forall in Hpath. destruct (Hpath q Hq) as (s & u & r & -> & Hs).
  rewrite state_of_used in Hu.
  intros [<-|Hin]; [contradiction|].
  destruct Href as [[He _]|Href].
  - rewrite He in Hin. destruct Hin.
  - rewrite List.Forall_forall in Href. specialize (Href _ Hq).
    unfold tried in Ht. rewrite Href in Ht. contradiction.
Qed.

Lemma step_spec (st : bfs_state) (q : WordLadderPuzzle.t) (rest : list WordLadderPuzzle.t) :
  inv st -> bs_queue st = q :: rest ->
  exists pw1 pw2,
    _possible_words (bs_store st) q = pw1 ++ pw2 /\
    deref (bs_store (snd (step st))) acc = deref (bs_store st) acc ++ pw1 /\
    length (bs_store (snd (step st))) = length (bs_store st) /\
    bs_queue (snd (step st)) = rest ++ map (queued wordfile acc q) pw1 /\
    match fst (step st) with
    | Continue => pw2 = []
    | Return res => In (_target q) (_possible_words (bs_store st) q) /\
                    exists a, res = Ok (true, a)
    end.
Proof.
  intros Hinv Hq. pose proof Hinv as (Hacc & Hpath & _).
  rewrite Hq in Hpath. apply Forall_inv in Hpath as (s & u & r & Hqe & Hs).
  unfold bfs_step. rewrite Hq. unfold extensions.
  destruct (visit_spec wordfile p hint acc q (_possible_words (bs_store st) q)
              {| bs_store := bs_store st; bs_queue := rest |})
    as (pw1 & pw2 & Hpw & Hd & Hl & _ & Hqu & Hr).
  - exact Hacc.
  - rewrite state_of_start. subst q. now rewrite state_of_used.
  - exists pw1, pw2. cbn zeta in *. cbn [bs_store bs_queue] in *. tauto.
Qed.

Lemma inv_step (st : bfs_state) : inv st -> inv (snd (step st)).
Proof.
  intros Hinv. destruct (bs_queue st) as [|q rest] eqn:Hq.
  - unfold bfs_step. now rewrite Hq.
  - destruct (step_spec st q rest Hinv Hq) as (pw1 & pw2 & Hpw & Hd & Hl & Hqu & _).
    destruct Hinv as (Hacc & Hpath & Href). rewrite Hq in Hpath, Href.
    assert (Hqp : on_path q) by now apply Forall_inv in Hpath.
    apply Forall_inv_tail in Hpath.
    unfold inv. rewrite Hl, Hqu. split; [assumption|]. split.
    + apply Forall_app. split; [assumption|].
      apply List.Forall_forall. intros e He. apply in_map_iff in He as (w & <- & _).
      destruct Hqp as (s & u & r & -> & Hs).
      exists w, (u ++ [s]), (Ref acc). split.
      * unfold queued, _extend. now rewrite state_of_target, state_of_used.
      * apply in_or_app. now left.
    + right. apply Forall_app. split.
      * destruct Href as [[_ Hlen]|Href]; [|now apply Forall_inv_tail in Href].
        destruct rest; [constructor | simpl in Hlen; lia].
      * apply List.Forall_forall. intros e He. apply in_map_iff in He as (w & <- & _).
        reflexivity.
Qed.

Lemma potential_step (st st' : bfs_state) :
  inv st -> step st = (Continue, st') -> potential st' < potential st.
Proof.
  intros Hinv Hstep. destruct (bs_queue st) as [|q rest] eqn:Hq.
  - unfold bfs_step in Hstep. rewrite Hq in Hstep. discriminate.
  - destruct (step_spec st q rest Hinv Hq) as (pw1 & pw2 & Hpw & Hd & Hl & Hqu & Hr).
    rewrite Hstep in *. cbn [fst snd] in *. subst pw2. rewrite app_nil_r in Hpw.
    unfold potential. rewrite Hd, Hqu, Hq, length_app, length_map. cbn [length].
    pose proof Hinv as (_ & Hpath & _). rewrite Hq in Hpath.
    apply Forall_inv in Hpath as (s & u & r & -> & Hs).
    pose proof (unrecorded_drop wordfile (deref (bs_store st) acc) pw1
                  (is_candidate (bs_store st) (state_of wordfile s target u r))) as Hdrop.
    rewrite <- Hpw in Hdrop. specialize (Hdrop (possible_words_perm _ _ _ _ _ _)).
    assert (Hfresh : forall w,
              is_candidate (bs_store st) (state_of wordfile s target u r) w = true ->
              ~ In w (deref (bs_store st) acc)).
    { intros w Hc Hin.
      apply (queue_fresh st (state_of wordfile s target u r) w Hinv); [|assumption|now right].
      rewrite Hq. now left. }
    specialize (Hdrop Hfresh). rewrite Hpw in Hdrop. lia.
Qed.

(** The loop ends, with a result that does not depend on the fuel left
    over; when the search starts from its target the result is "no
    solution". *)
Lemma bfs_loop_terminates (n : nat) :
  forall st : bfs_state,
    inv st -> potential st < n ->
    exists b a,
      (forall fuel, n <= fuel -> bfs_loop wordfile fuel p hint acc st = Some (Ok (b, a))) /\
      (start = target -> (b, a) = (false, ANone)).
Proof.
  induction n as [|n IH]; intros st Hinv Hpot; [lia|].
  destruct (step st) as [o st'] eqn:Hstep. destruct o as [res|].
  - assert (Hres : exists b a, res = Ok (b, a) /\ (start = target -> (b, a) = (false, ANone))).
    { destruct (bs_queue st) as [|q rest] eqn:Hq.
      - unfold bfs_step in Hstep. rewrite Hq in Hstep. injection Hstep as <- _.
        exists false, ANone. split; [reflexivity | reflexivity].
      - destruct (step_spec st q rest Hinv Hq) as (pw1 & pw2 & _ & _ & _ & _ & Hr).
        rewrite Hstep in Hr. cbn [fst] in Hr. destruct Hr as (Hin & a & ->).
        exists true, a. split; [reflexivity|]. intros E. exfalso.
        pose proof Hinv as (_ & Hpath & _). rewrite Hq in Hpath.
        apply Forall_inv in Hpath as (s & u & r & -> & Hs).
        rewrite state_of_target in Hin.
        apply possible_words_candidate in Hin as [_ Hc].
        apply (queue_fresh st _ _ Hinv) in Hc; [|rewrite Hq; now left].
        apply Hc. left. exact E. }
    destruct Hres as (b & a & -> & Hsolved). exists b, a. split; [|exact Hsolved].
    intros [|fuel] Hfuel; [lia|]. cbn [bfs_loop]. now rewrite Hstep.
  - pose proof (potential_step st st' Hinv Hstep) as Hlt.
    pose proof (inv_step st Hinv) as Hinv'. rewrite Hstep in Hinv'. cbn [snd] in Hinv'.
    destruct (IH st' Hinv' ltac:(lia)) as (b & a & Hrun & Hsolved).
    exists b, a. split; [|exact Hsolved].
    intros [|fuel] Hfuel; [lia|]. cbn [bfs_loop]. rewrite Hstep. apply Hrun. lia.
Qed.

Lemma potential_init : potential st0 = length wordfile + 1.
Proof.
  unfold potential, unrecorded. cbn [bs_store bs_queue length].
  assert (He : deref (h0 ++ [[]]) acc = []).
  { unfold deref. rewrite app_nth2 by lia. now rewrite Nat.sub_diag. }
  rewrite He. f_equal. clear. induction wordfile as [|w l IH]; [reflexivity|].
  simpl. f_equal. exact IH.
Qed.

Lemma possible_words_NoDup (h : store) (s t : string) (u : list string) (r : tried_ref) :
  List.NoDup wordfile -> List.NoDup (_possible_words h (state_of wordfile s t u r)).
Proof.
  intros H. apply (Permutation_NoDup (Permutation_sym (possible_words_perm _ _ _ _ _ _))).
  now apply List.NoDup_filter.
Qed.

Lemma once_step (st : bfs_state) :
  List.NoDup wordfile -> inv st ->
  enqueued_once p acc st -> enqueued_once p acc (snd (step st)).
Proof.
  intros Hnd Hinv [Hdup (done & Hdone)].
  destruct (bs_queue st) as [|q rest] eqn:Hq.
  - unfold bfs_step. rewrite Hq. cbn [snd]. split; [assumption|].
    exists done. now rewrite Hq.
  - destruct (step_spec st q rest Hinv Hq) as (pw1 & pw2 & Hpw & Hd & _ & Hqu & _).
    unfold enqueued_once, enqueued in *. rewrite Hd, Hqu. rewrite state_of_start in *.
    pose proof Hinv as (_ & Hpath & _). rewrite Hq in Hpath.
    apply Forall_inv in Hpath as (s & u & r & Hqe & Hs).
    split.
    + rewrite app_comm_cons. apply List.NoDup_app; [assumption | |].
      * apply (NoDup_app_remove_r pw1 pw2). rewrite <- Hpw, Hqe.
        now apply possible_words_NoDup.
      * intros w Hw Hin.
        assert (Hc : is_candidate (bs_store st) q w = true).
        { rewrite Hqe. eapply possible_words_candidate. rewrite <- Hqe, Hpw.
          apply in_or_app. now left. }
        apply (queue_fresh st q w Hinv) in Hc; [contradiction|].
        rewrite Hq. now left.
    + exists (done ++ [_start q]). rewrite app_comm_cons, Hdone.
      rewrite !map_app, map_map. cbn [map queued _extend add_tried_words __init__ _start].
      rewrite map_id, <- !app_assoc. reflexivity.
Qed.

Lemma loop_head_inv (st : bfs_state) :
  loop_head wordfile p hint acc st0 st -> inv st.
Proof.
  induction 1 as [|st st' _ IH Hstep]; [apply inv_init|].
  apply inv_step in IH. now rewrite Hstep in IH.
Qed.

Lemma loop_head_once (st : bfs_state) :
  List.NoDup wordfile ->
  loop_head wordfile p hint acc st0 st -> enqueued_once p acc st.
Proof.
  intros Hnd. induction 1 as [|st st' Hhead IH Hstep].
  - unfold enqueued_once, enqueued. cbn [bs_store bs_queue].
    assert (He : deref (h0 ++ [[]]) acc = []).
    { unfold deref. rewrite app_nth2 by lia. now rewrite Nat.sub_diag. }
    rewrite He. split; [constructor; [intros []|constructor]|].
    exists []. reflexivity.
  - apply (once_step st Hnd (loop_head_inv st Hhead)) in IH. now rewrite Hstep in IH.
Qed.

End Search.

(** C7.  In one call of [solve_in_breadth] over a vocabulary without
    repetition, at every turn of the loop: the word of the first state
    and the words recorded in the accumulator, which are the words of the
    states put on the queue, are pairwise different; no state of the
    queue has a successor for one of them; and this still holds after the
    turn, whether it ran to its end or returned. *)
Theorem bfs_enqueues_each_word_once (wordfile : list string) (h0 : store)
    (start target : string) (used : list string) (tr : tried_ref) (hint : bool)
    (st : bfs_state) :
  let p := state_of wordfile start target used tr in
  let acc := fst (bfs_init h0 p) in
  List.NoDup wordfile ->
  loop_head wordfile p hint acc (snd (bfs_init h0 p)) st ->
  enqueued_once p acc st /\
  (forall q w, In q (bs_queue st) -> In w (_possible_words (bs_store st) q) ->
               ~ In w (enqueued p acc st)) /\
  enqueued_once p acc (snd (bfs_step wordfile p hint acc st)).
Proof.
  intros p acc Hnd Hhead. cbn in acc, Hhead. subst acc p.
  pose proof (loop_head_inv _ _ _ _ _ _ _ _ Hhead) as Hinv.
  pose proof (loop_head_once _ _ _ _ _ _ _ _ Hnd Hhead) as Honce.
  split; [exact Honce|]. split.
  - intros q w Hq Hw. unfold enqueued. rewrite state_of_start.
    apply (queue_fresh wordfile h0 start target st q w Hinv Hq).
    destruct Hinv as (_ & Hpath & _). rewrite List.Forall_forall in Hpath.
    destruct (Hpath q Hq) as (s & u & r & -> & _).
    now apply possible_words_candidate in Hw.
  - now apply once_step.
Qed.

Lemma bfs_enqueues_once_witness :
  let p := state_of Samples.vocab "hit" "cot" [] Own in
  let st1 := snd (bfs_step Samples.vocab p true 0 (snd (bfs_init [] p))) in
  enqueued p 0 st1 = ["hit"; "hat"; "hot"] /\
  enqueued_once p 0 st1.
Proof.
  split; [reflexivity|].
  apply (bfs_enqueues_each_word_once Samples.vocab [] "hit" "cot" [] Own true).
  - repeat constructor; simpl; intuition discriminate.
  - apply head_first.
Defined.

(** C8.  [solve_in_breadth] returns, without raising, once the fuel
    exceeds the length of the word file by two, and so do
    [hint_by_breadth] and [solve] on a word ladder; the value does not
    depend on the fuel. *)
Theorem solve_in_breadth_terminates (wordfile : list string) (h0 : store)
    (start target : string) (used : list string) (tr : tried_ref) :
  let p := state_of wordfile start target used tr in
  (forall hint, exists b a, forall k,
     solve_in_breadth wordfile (length wordfile + 2 + k) h0 p hint = Some (Ok (b, a))) /\
  (exists a, forall k,
     hint_by_breadth wordfile (length wordfile + 2 + k) h0 p = Some (Ok a)) /\
  (exists a, forall k,
     solve wordfile h0 (length wordfile + 2 + k) (WordLadder p) = Some (Ok a)).
Proof.
  intros p.
  assert (Hrun : forall hint, exists b a, forall k,
            solve_in_breadth wordfile (length wordfile + 2 + k) h0 p hint = Some (Ok (b, a))).
  { intros hint.
    destruct (bfs_loop_terminates wordfile h0 start target used tr hint
                (length wordfile + 2) _ (inv_init wordfile h0 start target used tr))
      as (b & a & Hrun & _).
    - rewrite potential_init. lia.
    - exists b, a. intros k. apply Hrun. lia. }
  split; [exact Hrun|]. split.
  - unfold hint_by_breadth. destruct (is_solved p).
    + eexists. intros k. reflexivity.
    + destruct (Hrun true) as (b & a & Hr).
      exists (if b then a else AStr no_extensions). intros k. rewrite Hr. cbn.
      now destruct b.
  - cbn [solve]. unfold solve_breadth. destruct (Hrun false) as (b & a & Hr).
    exists (if b then a else ANone). intros k. rewrite Hr. cbn. now destruct b.
Qed.

(** C1 (the code departs from the claim).  On a word ladder state that
    is already solved, [solve] returns [None], whatever the vocabulary,
    while [solve_complete] returns the state itself. *)
Theorem solve_misses_solved_ladder (wordfile : list string) (h0 : store)
    (word : string) (used : list string) (tr : tried_ref) (k : nat) :
  let p := WordLadder (state_of wordfile word word used tr) in
  Solver.is_solved p = Ok true /\
  solve wordfile h0 (length wordfile + 2 + k) p = Some (Ok ANone) /\
  solve_complete Solver.is_solved (Solver.extensions wordfile h0) (1 + k) p = Some (Ok [p]).
Proof.
  intros p.
  assert (Hs : Solver.is_solved p = Ok true).
  { cbn. unfold is_solved. rewrite state_of_start, state_of_target.
    now rewrite String.eqb_refl. }
  split; [exact Hs|]. split.
  - cbn [p solve]. unfold solve_breadth, solve_in_breadth. cbn [bfs_init alloc].
    destruct (bfs_loop_terminates wordfile h0 word word used tr false
                (length wordfile + 2) _ (inv_init wordfile h0 word word used tr))
      as (b & a & Hrun & Hsolved).
    + rewrite potential_init. lia.
    + rewrite Hrun by lia. injection (Hsolved eq_refl) as -> ->. reflexivity.
  - cbn [solve_complete Nat.add lift sbind]. rewrite Hs. reflexivity.
Qed.

End BreadthFacts.

(** ** Move history: insertion of a move *)

Module HistoryFacts.

Import Controller HistorySpec.

Section Facts.

Context {P : Type} `{!Inhabited P}.
Variable move : P -> string -> result P.
Variable str : P -> result string.
Variable is_solved : P -> result bool.

Local Abbreviation heap := (list (@tree P)).
Local Abbreviation display := (display str).
Local Abbreviation in_subtree_loop := (in_subtree_loop str).
Local Abbreviation _act_move := (_act_move move str is_solved).
Local Abbreviation step := (step move str is_solved).
Local Abbreviation steps := (steps move str is_solved).
Local Abbreviation reachable := (reachable move str is_solved).

Local Abbreviation shown := (shown str).
Local Abbreviation rendered := (rendered str).
Local Abbreviation good := (good str).

Lemma in_subtree_found (hp : heap) (kids : list loc) (p : P) (k : loc) :
  in_subtree_loop hp kids p = Ok (Some k) ->
  In k kids /\ exists d, display hp k = Ok d /\ str p = Ok d.
Proof.
  induction kids as [|a kids IH]; cbn; [discriminate|].
  unfold HistorySpec.display in *.
  destruct (str (_puzzle (node hp a))) as [da|] eqn:Ha; cbn; [|discriminate].
  destruct (str p) as [d|] eqn:Hp; cbn; [|discriminate].
  destruct (String.eqb_spec da d) as [->|Hne].
  - intros [= <-]. split; [now left|]. exists d. now split.
  - intros H. destruct (IH H) as [Hin Hd]. split; [now right | assumption].
Qed.

Lemma in_subtree_none (hp : heap) (kids : list loc) (p : P) :
  in_subtree_loop hp kids p = Ok None ->
  kids = [] \/
  exists d, str p = Ok d /\
            Forall (fun k => exists dk, display hp k = Ok dk /\ dk <> d) kids.
Proof.
  induction kids as [|a kids IH]; cbn; [now left|].
  unfold HistorySpec.display in *.
  destruct (str (_puzzle (node hp a))) as [da|] eqn:Ha; cbn; [|discriminate].
  destruct (str p) as [d|] eqn:Hp; cbn; [|discriminate].
  destruct (String.eqb_spec da d) as [->|Hne]; [discriminate|].
  intros H. right. exists d. split; [reflexivity|]. constructor.
  - exists da. now split.
  - destruct (IH H) as [->|(d' & [= <-] & HF)]; [constructor | assumption].
Qed.

(** Where every child is shown and no two are twins, the loop returns the
    child with the display string of the new state, if there is one. *)
Lemma in_subtree_shown (hp : heap) (kids : list loc) (p : P) (d : string) :
  shown hp kids -> List.NoDup (map (display hp) kids) -> str p = Ok d ->
  (forall k, In k kids -> display hp k = Ok d -> in_subtree_loop hp kids p = Ok (Some k)) /\
  ((forall k, In k kids -> display hp k <> Ok d) -> in_subtree_loop hp kids p = Ok None).
Proof.
  intros Hshown Hnd Hp. induction kids as [|a kids IH]; cbn.
  - split; [intros k [] | reflexivity].
  - inversion Hshown as [|? ? (da & Ha) Hshown']; subst.
    inversion Hnd as [|? ? Hnotin Hnd']; subst.
    destruct (IH Hshown' Hnd') as [IH1 IH2].
    unfold HistorySpec.display in Ha. rewrite Ha, Hp. cbn.
    destruct (String.eqb_spec da d) as [->|Hne]; split.
    + intros k [<-|Hk] Hd; [reflexivity|]. exfalso. apply Hnotin.
      apply in_map_iff. exists k. split; [|assumption].
      unfold HistorySpec.display at 2. now rewrite Ha.
    + intros H. exfalso. apply (H a); [now left | exact Ha].
    + intros k [<-|Hk] Hd.
      * unfold HistorySpec.display in Hd. rewrite Ha in Hd. congruence.
      * now apply IH1.
    + intros H. apply IH2. intros k Hk. apply H. now right.
Qed.

Lemma node_app (hp : heap) (x : tree) (l : loc) :
  l < length hp -> node (hp ++ [x]) l = node hp l.
Proof. intros H. unfold node. now rewrite app_nth1. Qed.

Lemma node_new (hp : heap) (x : tree) : node (hp ++ [x]) (length hp) = x.
Proof. unfold node. rewrite app_nth2 by lia. now rewrite Nat.sub_diag. Qed.

Lemma node_add_subtree (hp : heap) (cur n l : loc) :
  cur < length hp ->
  node (add_subtree hp cur n) l =
    if Nat.eqb l cur
    then {| _puzzle := _puzzle (node hp cur); _user_input := _user_input (node hp cur);
            _subtrees := _subtrees (node hp cur) ++ [n] |}
    else node hp l.
Proof. intros H. unfold add_subtree, node at 1. now rewrite nth_insert. Qed.

Lemma length_add_subtree (hp : heap) (cur n : loc) :
  length (add_subtree hp cur n) = length hp.
Proof. unfold add_subtree. apply length_insert. Qed.

Lemma grown_length (hp : heap) (cur : loc) (p : P) (action : string) :
  length (grown hp cur p action) = S (length hp).
Proof. unfold grown. rewrite length_add_subtree, length_app. simpl. lia. Qed.

Lemma grown_children (hp : heap) (cur : loc) (p : P) (action : string) (l : loc) :
  cur < length hp -> l < S (length hp) ->
  children (grown hp cur p action) l =
    if Nat.eqb l cur then children hp cur ++ [length hp]
    else if Nat.eqb l (length hp) then [] else children hp l.
Proof.
  intros Hcur Hl. unfold children, grown.
  rewrite node_add_subtree by (rewrite length_app; simpl; lia).
  destruct (Nat.eqb_spec l cur) as [->|Hne]; cbn [_subtrees].
  - now rewrite node_app.
  - destruct (Nat.eqb_spec l (length hp)) as [->|Hne'].
    + now rewrite node_new.
    + rewrite node_app by lia. reflexivity.
Qed.

Lemma grown_puzzle (hp : heap) (cur : loc) (p : P) (action : string) (l : loc) :
  cur < length hp -> l < S (length hp) ->
  _puzzle (node (grown hp cur p action) l) =
    if Nat.eqb l (length hp) then p else _puzzle (node hp l).
Proof.
  intros Hcur Hl. unfold grown.
  rewrite node_add_subtree by (rewrite length_app; simpl; lia).
  destruct (Nat.eqb_spec l cur) as [->|Hne]; cbn [_puzzle].
  - destruct (Nat.eqb_spec cur (length hp)); [lia|]. now rewrite node_app.
  - destruct (Nat.eqb_spec l (length hp)) as [->|Hne'].
    + now rewrite node_new.
    + rewrite node_app by lia. reflexivity.
Qed.

Lemma grown_display (hp : heap) (cur : loc) (p : P) (action : string) (kids : list loc) :
  cur < length hp -> Forall (fun k => k < length hp) kids ->
  map (display (grown hp cur p action)) kids = map (display hp) kids.
Proof.
  intros Hcur Hk. induction Hk as [|k kids Hlt _ IH]; [reflexivity|].
  cbn [map]. rewrite IH. f_equal. unfold HistorySpec.display.
  rewrite grown_puzzle by lia. destruct (Nat.eqb_spec k (length hp)); [lia | reflexivity].
Qed.

(** What [_act_move] does to the controller. *)
Lemma act_move_cases (c : t) (action : string) :
  match move (puzzle c) action with
  | Raise _ => snd (_act_move c action) = c
  | Ok p =>
      match in_subtree str (trees c) (_current_tree c) p with
      | Raise _ =>
          snd (_act_move c action) =
            {| puzzle := p; _tree := _tree c; _current_tree := _current_tree c;
               trees := trees c |}
      | Ok (Some k) =>
          snd (_act_move c action) =
            {| puzzle := p; _tree := _tree c; _current_tree := k; trees := trees c |}
      | Ok None =>
          snd (_act_move c action) =
            {| puzzle := p; _tree := _tree c; _current_tree := length (trees c);
               trees := grown (trees c) (_current_tree c) p action |}
      end
  end.
Proof.
  unfold Controller._act_move. destruct (move (puzzle c) action) as [p|e]; [|reflexivity].
  cbn [puzzle trees _current_tree _tree].
  destruct (in_subtree str (trees c) (_current_tree c) p) as [[k|]|e]; reflexivity.
Qed.

Lemma good_init (p0 : P) : good (__init__ p0).
Proof.
  unfold good, closed, closed_heap, no_twins, rendered. cbn.
  repeat split; try lia.
  - intros l Hl. assert (l = 0) by lia. subst. constructor.
  - intros l Hl. assert (l = 0) by lia. subst. constructor.
  - intros l Hl. assert (l = 0) by lia. subst. left. cbn. lia.
Qed.

Lemma good_act_move (c : t) (action : string) :
  good c -> good (snd (_act_move c action)).
Proof.
  intros Hgood. pose proof (act_move_cases c action) as Hcases.
  destruct (move (puzzle c) action) as [p|e]; [|now rewrite Hcases].
  destruct (in_subtree str (trees c) (_current_tree c) p) as [[k|]|e] eqn:Hsub;
    rewrite Hcases; clear Hcases.
  - destruct Hgood as ((Ht & Hc & Hcl) & Htw & Hr).
    split; [|split; assumption]. split; [assumption|]. split; [|assumption].
    cbn [_current_tree trees].
    apply in_subtree_found in Hsub as [Hin _].
    specialize (Hcl _ Hc). rewrite List.Forall_forall in Hcl. now apply Hcl.
  - destruct Hgood as ((Ht & Hc & Hcl) & Htw & Hr).
    set (hp := trees c) in *. set (cur := _current_tree c) in *.
    assert (Hkids : Forall (fun k => k < length hp) (children hp cur)) by now apply Hcl.
    split; [|split].
    + split; [|split]; cbn [_tree _current_tree trees].
      * rewrite grown_length. lia.
      * rewrite grown_length. lia.
      * intros l Hl. rewrite grown_length in Hl |- *.
        rewrite grown_children by assumption.
        destruct (Nat.eqb_spec l cur) as [->|Hne].
        -- apply Forall_app. split.
           ++ eapply List.Forall_impl; [|exact Hkids]. cbn. intros; lia.
           ++ constructor; [lia | constructor].
        -- destruct (Nat.eqb_spec l (length hp)); [constructor|].
           eapply List.Forall_impl; [|apply Hcl; lia]. cbn. intros; lia.
    + intros l Hl. cbn [trees] in *. rewrite grown_length in Hl.
      rewrite grown_children by assumption.
      destruct (Nat.eqb_spec l cur) as [->|Hne].
      * rewrite map_app, grown_display by assumption. cbn [map].
        unfold HistorySpec.display at 2. rewrite grown_puzzle by lia.
        rewrite Nat.eqb_refl.
        apply List.NoDup_app; [now apply Htw | constructor; [intros [] | constructor] |].
        intros d Hd [<-|[]].
        apply in_subtree_none in Hsub as [Hnil|(d' & Hp & HF)].
        -- unfold children in Hd. fold hp cur in Hnil. rewrite Hnil in Hd. destruct Hd.
        -- apply in_map_iff in Hd as (k & Hk & Hin).
           rewrite List.Forall_forall in HF. destruct (HF k Hin) as (dk & Hdk & Hne').
           rewrite Hdk, Hp in Hk. congruence.
      * destruct (Nat.eqb_spec l (length hp)); [constructor|].
        rewrite grown_display by (assumption || (apply Hcl; lia)). apply Htw. lia.
    + intros l Hl. cbn [trees] in *. rewrite grown_length in Hl.
      rewrite grown_children by assumption.
      destruct (Nat.eqb_spec l cur) as [->|Hne].
      * apply in_subtree_none in Hsub as [Hnil|(d' & Hp & HF)].
        -- left. unfold children. fold hp cur in Hnil. rewrite Hnil. cbn. lia.
        -- right. unfold shown. apply Forall_app. split.
           ++ apply List.Forall_forall. intros k Hk.
              rewrite List.Forall_forall in HF. destruct (HF k Hk) as (dk & Hdk & _).
              exists dk. unfold HistorySpec.display in *.
              rewrite grown_puzzle.
              ** rewrite List.Forall_forall in Hkids. specialize (Hkids k Hk).
                 destruct (Nat.eqb_spec k (length hp)); [lia | assumption].
              ** assumption.
              ** rewrite List.Forall_forall in Hkids. specialize (Hkids k Hk). lia.
           ++ constructor; [|constructor]. exists d'. unfold HistorySpec.display.
              rewrite grown_puzzle by lia. now rewrite Nat.eqb_refl.
      * destruct (Nat.eqb_spec l (length hp)); [left; cbn; lia|].
        destruct (Hr l ltac:(lia)) as [Hle|Hsh]; [now left | right].
        unfold shown in *. apply List.Forall_forall. intros k Hk.
        rewrite List.Forall_forall in Hsh. destruct (Hsh k Hk) as (dk & Hdk).
        exists dk. unfold HistorySpec.display in *.
        assert (Hklt : k < length hp).
        { specialize (Hcl l ltac:(lia)). rewrite List.Forall_forall in Hcl. now apply Hcl. }
        rewrite grown_puzzle by lia.
        destruct (Nat.eqb_spec k (length hp)); [lia | assumption].
  - destruct Hgood as ((Ht & Hc & Hcl) & Htw & Hr). repeat split; assumption.
Qed.

(** What [find_parent] returns is a node of the heap that has [self]
    among its children, with the state it holds. *)
Lemma find_parent_sound (hp : heap) (self : loc) (fuel : nat) :
  closed_heap hp ->
  forall (ft par : loc) (pz : P),
    ft < length hp ->
    find_parent fuel hp self ft = Some (Some (par, pz)) ->
    par < length hp /\ pz = _puzzle (node hp par) /\ In self (children hp par).
Proof.
  intros Hcl. induction fuel as [|fuel IH]; intros ft par pz Hft; [discriminate|].
  cbn [find_parent]. destruct (_user_input (node hp self)); [|discriminate].
  destruct (existsb (Nat.eqb self) (_subtrees (node hp ft))) eqn:Hex.
  - intros [= <- <-]. split; [assumption|]. split; [reflexivity|].
    apply existsb_exists in Hex as (k & Hk & E). apply Nat.eqb_eq in E. now subst.
  - clear Hex. specialize (Hcl ft Hft). unfold children in Hcl.
    induction Hcl as [|k kids Hk _ IHkids]; [discriminate|].
    destruct (find_parent fuel hp self k) as [[[par' pz']|]|] eqn:Hrec.
    + intros H. rewrite H in Hrec. now apply (IH k).
    + exact IHkids.
    + discriminate.
Qed.

Lemma good_act_undo (fuel : nat) (c c' : t) (r : result (string * bool)) :
  good c -> _act_undo str fuel c = Some (r, c') -> good c'.
Proof.
  intros Hgood. unfold _act_undo.
  destruct (find_parent fuel (trees c) (_current_tree c) (_tree c))
    as [[[par pz]|]|] eqn:Hfind; [| |discriminate].
  - intros [= _ <-]. destruct Hgood as ((Ht & Hc & Hcl) & Htw & Hr).
    apply (find_parent_sound _ _ _ Hcl) in Hfind as (Hpar & _); [|assumption].
    repeat split; assumption.
  - now intros [= _ <-].
Qed.

Lemma good_step (c c' : t) : good c -> step c c' -> good c'.
Proof.
  intros Hgood Hstep. revert Hgood.
  destruct Hstep as [c0 action r c1 Hmove | c0 fuel r c1 Hundo]; intros Hgood.
  - pose proof (good_act_move c0 action Hgood) as H. now rewrite Hmove in H.
  - now apply (good_act_undo fuel c0 c1 r).
Qed.

Lemma good_steps (c c' : t) : good c -> steps c c' -> good c'.
Proof. intros Hgood. induction 1; [assumption | eauto using good_step]. Qed.

Lemma reachable_good (p0 : P) (c : t) : reachable p0 c -> good c.
Proof. induction 1; [apply good_init | eauto using good_step]. Qed.

(** No reference of a reachable controller dangles. *)
Lemma reachable_closed (p0 : P) (c : t) : reachable p0 c -> closed c.
Proof. intros H. now apply reachable_good in H as [Hc _]. Qed.

Lemma grows_refl (hp : heap) : grows hp hp.
Proof.
  split; [lia|]. intros l _. split; [reflexivity|]. exists []. now rewrite app_nil_r.
Qed.

Lemma grows_trans (hp1 hp2 hp3 : heap) : grows hp1 hp2 -> grows hp2 hp3 -> grows hp1 hp3.
Proof.
  intros [Hl1 H1] [Hl2 H2]. split; [lia|]. intros l Hl.
  destruct (H1 l Hl) as [Hp1 (e1 & He1)]. destruct (H2 l ltac:(lia)) as [Hp2 (e2 & He2)].
  split; [congruence|]. exists (e1 ++ e2). now rewrite He2, He1, app_assoc.
Qed.

Lemma grows_step (c c' : t) : closed c -> step c c' -> grows (trees c) (trees c').
Proof.
  intros Hclosed Hstep. revert Hclosed.
  destruct Hstep as [c0 action r c1 Hmove | c0 fuel r c1 Hundo]; intros (Ht & Hc & Hcl).
  - pose proof (act_move_cases c0 action) as Hcases. rewrite Hmove in Hcases. cbn [snd] in Hcases.
    destruct (move (puzzle c0) action) as [p|e]; [|subst; apply grows_refl].
    destruct (in_subtree str (trees c0) (_current_tree c0) p) as [[k|]|e];
      subst c1; cbn [trees]; try apply grows_refl.
    split; [rewrite grown_length; lia|]. intros l Hl. split.
    + rewrite grown_puzzle by lia. destruct (Nat.eqb_spec l (length (trees c0))); [lia|reflexivity].
    + rewrite grown_children by lia.
      destruct (Nat.eqb_spec l (_current_tree c0)) as [->|Hne]; [eexists; reflexivity|].
      destruct (Nat.eqb_spec l (length (trees c0))); [lia|].
      exists []. now rewrite app_nil_r.
  - unfold _act_undo in Hundo.
    destruct (find_parent fuel (trees c0) (_current_tree c0) (_tree c0)) as [[[par pz]|]|];
      [| |discriminate]; injection Hundo as _ <-; apply grows_refl.
Qed.

Lemma grows_steps (c c' : t) : good c -> steps c c' -> grows (trees c) (trees c').
Proof.
  intros Hgood. induction 1 as [|c c' c'' Hsteps IH Hstep]; [apply grows_refl|].
  eapply grows_trans; [now apply IH|]. apply grows_step; [|assumption].
  now apply (good_steps c c' Hgood) in Hsteps as [Hc _].
Qed.

Lemma in_subtree_no_raise (hp : heap) (kids : list loc) (p : P) (d : string) :
  shown hp kids -> str p = Ok d -> exists r, in_subtree_loop hp kids p = Ok r.
Proof.
  intros Hshown Hp. induction Hshown as [|k kids (dk & Hk) _ (r & IH)]; cbn.
  - now exists None.
  - unfold HistorySpec.display in Hk. rewrite Hk, Hp. cbn.
    destruct (String.eqb dk d); [now eexists | now exists r].
Qed.

(** Committing a move that gives a state displayed as [d]: the cursor
    ends on a child of the node it was on, and that child holds a state
    displayed as [d]. *)
Lemma act_move_lands (c : t) (action : string) (p' : P) (d : string) :
  good c ->
  move (puzzle c) action = Ok p' -> str p' = Ok d ->
  shown (trees c) (children (trees c) (_current_tree c)) ->
  let c' := snd (_act_move c action) in
  In (_current_tree c') (children (trees c') (_current_tree c)) /\
  display (trees c') (_current_tree c') = Ok d /\
  _current_tree c' < length (trees c').
Proof.
  intros Hgood Hmove Hp Hshown c'. subst c'.
  pose proof (act_move_cases c action) as Hcases. rewrite Hmove in Hcases.
  destruct Hgood as ((Ht & Hc & Hcl) & Htw & Hr).
  destruct (in_subtree_no_raise _ _ p' d Hshown Hp) as (r & Hsub).
  unfold in_subtree in Hcases. fold (children (trees c) (_current_tree c)) in Hcases.
  rewrite Hsub in Hcases. destruct r as [k|]; rewrite Hcases; cbn [_current_tree trees].
  - apply in_subtree_found in Hsub as (Hin & d' & Hd' & Hp'). split; [assumption|].
    split; [congruence|].
    specialize (Hcl _ Hc). rewrite List.Forall_forall in Hcl. now apply Hcl.
  - rewrite grown_children, Nat.eqb_refl by lia. split; [apply in_or_app; right; now left|].
    unfold HistorySpec.display. rewrite grown_puzzle, Nat.eqb_refl by lia.
    split; [assumption|]. rewrite grown_length. lia.
Qed.

(** C10.  When a move is committed on a reachable controller whose
    current node has its children displayed, and the new state is
    displayed as [d]: if a child of the current node is displayed as [d],
    the cursor moves to it and the tree is unchanged; if none is, one
    node holding the new state and the move text is added as the last
    child of the current node, nothing else changes, and the cursor moves
    to it; no node has two children with equal display strings, before
    or after; and whenever the cursor is later back on the same node and
    a move gives a state displayed as [d] again, the cursor moves to the
    same child and the tree is unchanged. *)
Theorem history_insertion (p0 : P) (c : t) (action : string) (p' : P) (d : string) :
  reachable p0 c ->
  move (puzzle c) action = Ok p' -> str p' = Ok d ->
  shown (trees c) (children (trees c) (_current_tree c)) ->
  let cur := _current_tree c in
  let n := length (trees c) in
  let c' := snd (_act_move c action) in
  (forall k, In k (children (trees c) cur) -> display (trees c) k = Ok d ->
     c' = {| puzzle := p'; _tree := _tree c; _current_tree := k; trees := trees c |}) /\
  ((forall k, In k (children (trees c) cur) -> display (trees c) k <> Ok d) ->
     puzzle c' = p' /\ _tree c' = _tree c /\ _current_tree c' = n /\
     length (trees c') = S n /\
     node (trees c') n = {| _puzzle := p'; _user_input := Some action; _subtrees := [] |} /\
     children (trees c') cur = children (trees c) cur ++ [n] /\
     _puzzle (node (trees c') cur) = _puzzle (node (trees c) cur) /\
     _user_input (node (trees c') cur) = _user_input (node (trees c) cur) /\
     (forall l, l < n -> l <> cur -> node (trees c') l = node (trees c) l)) /\
  no_twins str (trees c) /\ no_twins str (trees c') /\
  (forall c2 action2 p2,
     steps c' c2 -> _current_tree c2 = cur ->
     move (puzzle c2) action2 = Ok p2 -> str p2 = Ok d ->
     snd (_act_move c2 action2) =
       {| puzzle := p2; _tree := _tree c2; _current_tree := _current_tree c';
          trees := trees c2 |}).
Proof.
  intros Hreach Hmove Hp Hshown cur n c'.
  pose proof (reachable_good p0 c Hreach) as Hgood.
  pose proof (good_act_move c action Hgood) as Hgood'. fold c' in Hgood'.
  pose proof Hgood as ((Ht & Hc & Hcl) & Htw & Hr).
  pose proof (act_move_cases c action) as Hcases. rewrite Hmove in Hcases.
  unfold in_subtree in Hcases. fold (children (trees c) (_current_tree c)) in Hcases.
  fold c' cur in Hcases.
  destruct (in_subtree_shown (trees c) (children (trees c) cur) p' d Hshown
              (Htw cur Hc) Hp) as [Hreuse Hnew].
  split; [|split; [|split; [|split]]].
  - intros k Hk Hd. now rewrite (Hreuse k Hk Hd) in Hcases.
  - intros Hnone. rewrite (Hnew Hnone) in Hcases. rewrite Hcases.
    cbn [puzzle _tree _current_tree trees]. fold n.
    split; [reflexivity|]. split; [reflexivity|]. split; [reflexivity|].
    split; [apply grown_length|]. unfold grown. fold n.
    split; [|split; [|split; [|split]]].
    + rewrite node_add_subtree by (rewrite length_app; simpl; lia).
      destruct (Nat.eqb_spec n cur); [lia|]. apply node_new.
    + pose proof (grown_children (trees c) cur p' action cur Hc ltac:(lia)) as Hg.
      rewrite Nat.eqb_refl in Hg. exact Hg.
    + rewrite node_add_subtree, Nat.eqb_refl by (rewrite length_app; simpl; lia).
      cbn [_puzzle]. now rewrite node_app.
    + rewrite node_add_subtree, Nat.eqb_refl by (rewrite length_app; simpl; lia).
      cbn [_user_input]. now rewrite node_app.
    + intros l Hl Hne. rewrite node_add_subtree by (rewrite length_app; simpl; lia).
      destruct (Nat.eqb_spec l cur); [contradiction|]. now apply node_app.
  - exact Htw.
  - apply Hgood'.
  - intros c2 action2 p2 Hsteps Hcur Hmove2 Hp2.
    destruct (act_move_lands c action p' d Hgood Hmove Hp Hshown) as (Hin & Hd & Hlt).
    fold c' cur in Hin, Hd, Hlt.
    pose proof (good_steps c' c2 Hgood' Hsteps) as ((_ & Hc2 & _) & Htw2 & Hr2).
    destruct (grows_steps c' c2 Hgood' Hsteps) as [Hlen Hgrow].
    assert (Hcur' : cur < length (trees c')).
    { pose proof (act_move_cases c action) as Hc'. rewrite Hmove in Hc'.
      destruct (in_subtree str (trees c) (_current_tree c) p') as [[k|]|e];
        fold c' in Hc'; rewrite Hc'; cbn [trees]; try assumption.
      rewrite grown_length. unfold cur. lia. }
    destruct (Hgrow cur Hcur') as [_ (extra & Hkids)].
    destruct (Hgrow _ Hlt) as [Hpz _].
    assert (Hin2 : In (_current_tree c') (children (trees c2) cur)).
    { rewrite Hkids. apply in_or_app. now left. }
    assert (Hd2 : display (trees c2) (_current_tree c') = Ok d).
    { unfold HistorySpec.display in *. now rewrite Hpz. }
    assert (Hshown2 : shown (trees c2) (children (trees c2) cur)).
    { rewrite Hcur in Hc2. destruct (Hr2 _ Hc2) as [Hle|Hs]; [|assumption].
      destruct (children (trees c2) cur) as [|k [|k' kids]]; [destruct Hin2 | | simpl in Hle; lia].
      destruct Hin2 as [->|[]]. constructor; [now exists d | constructor]. }
    pose proof (act_move_cases c2 action2) as Hcases2. rewrite Hmove2 in Hcases2.
    unfold in_subtree in Hcases2. rewrite Hcur in Hcases2.
    fold (children (trees c2) cur) in Hcases2.
    destruct (in_subtree_shown (trees c2) (children (trees c2) cur) p2 d Hshown2) as [Hre _].
    + apply Htw2. now rewrite <- Hcur.
    + assumption.
    + now rewrite (Hre _ Hin2 Hd2) in Hcases2.
Qed.

End Facts.

End HistoryFacts.

Module HistoryWitness.

Import Controller HistorySpec HistoryFacts HistorySamples.

Lemma history_insertion_witness :
  let c' := snd (@_act_move _ wl_inhabited ladder_move WordLadderPuzzle.__str__ ladder_solved
                   c_undone "hot") in
  _current_tree c_undone = 0 /\ children (trees c_undone) 0 = [1] /\
  _current_tree c' = 1 /\ trees c' = trees c_undone /\
  no_twins WordLadderPuzzle.__str__ (trees c').
Proof.
  assert (Hreach : @reachable _ wl_inhabited ladder_move WordLadderPuzzle.__str__ ladder_solved
                     ladder_start c_undone).
  { eapply (reach_step _ _ _ _ c_moved).
    - eapply (reach_step _ _ _ _ c_start); [apply reach_init|].
      eapply (step_move _ _ _ c_start "hot"). reflexivity.
    - eapply (step_undo _ _ _ c_moved 5). reflexivity. }
  destruct (@history_insertion _ wl_inhabited ladder_move WordLadderPuzzle.__str__ ladder_solved
              ladder_start c_undone "hot"
              (WordLadderPuzzle.__init__ Samples.vocab "hot" "cot" ["hit"])
              ("word chain: " +:+ String (ascii_of_nat 10) "hit -> hot"
                 +:+ String (ascii_of_nat 10) "target word: cot")
              Hreach eq_refl eq_refl)
    as (Hreuse & _ & _ & Htwins & _).
  { repeat constructor. eexists. reflexivity. }
  intros c'. split; [reflexivity|]. split; [reflexivity|].
  cbv zeta in Hreuse. fold c' in Hreuse, Htwins.
  rewrite (Hreuse 1 (or_introl eq_refl) eq_refl) in Htwins |- *.
  split; [reflexivity|]. split; [reflexivity|]. exact Htwins.
Defined.

End HistoryWitness.

(** ** Which methods change a state *)

Module MutationFacts.

Import PuzzleObjects MutationSpec.

Lemma strings_app (h made : heap) (l : loc) :
  l < length h -> strings (h ++ made) l = strings h l.
Proof. intros H. unfold strings. now rewrite lookup_app_l. Qed.

Lemma lists_app (h made : heap) (l : loc) :
  l < length h -> lists (h ++ made) l = lists h l.
Proof. intros H. unfold lists. now rewrite lookup_app_l. Qed.

Lemma class_of_app (h made : heap) (l : loc) :
  l < length h -> class_of (h ++ made) l = class_of h l.
Proof. intros H. unfold class_of. now rewrite lookup_app_l. Qed.

Lemma class_of_lt (h : heap) (l : loc) (c : class) : class_of h l = Some c -> l < length h.
Proof.
  unfold class_of. destruct (h !! l) eqn:E; [|discriminate].
  intros _. now apply lookup_lt_Some in E.
Qed.

Lemma closed_lookup (h : heap) (l : loc) (o : object) :
  closed h -> h !! l = Some o -> Forall (fun r => r < length h) (references o).
Proof.
  unfold closed. intros Hc Hl. exact (Forall_lookup_1 _ h l o Hc Hl).
Qed.

Lemma lists_closed (h : heap) (l : loc) :
  closed h -> Forall (fun r => r < length h) (lists h l).
Proof.
  intros Hc. unfold lists. destruct (h !! l) as [[| items | |]|] eqn:E; try constructor.
  exact (closed_lookup h l _ Hc E).
Qed.

Lemma grid_app (h made : heap) (grid : loc) :
  closed h -> grid < length h ->
  map (strings (h ++ made)) (lists (h ++ made) grid) = map (strings h) (lists h grid).
Proof.
  intros Hc Hg. rewrite lists_app by assumption.
  apply map_ext_in. intros r Hr. apply strings_app.
  pose proof (lists_closed h grid Hc) as Hall. rewrite List.Forall_forall in Hall.
  now apply Hall.
Qed.

(** Objects made later leave what a state holds as it was. *)
Lemma content_app (h made : heap) (p : loc) :
  closed h -> p < length h -> content_of (h ++ made) p = content_of h p.
Proof.
  intros Hc Hp. unfold content_of. rewrite lookup_app_l by assumption.
  destruct (h !! p) as [[| | n grid | words start target used tried]|] eqn:E;
    try reflexivity.
  - pose proof (closed_lookup h p _ Hc E) as Hrefs. cbn [references] in Hrefs.
    apply Forall_inv in Hrefs. now rewrite grid_app.
  - pose proof (closed_lookup h p _ Hc E) as Hrefs. cbn [references] in Hrefs.
    pose proof (Forall_inv Hrefs) as Hw.
    pose proof (Forall_inv (Forall_inv_tail Hrefs)) as Ht.
    now rewrite !strings_app.
Qed.

(** The methods read a state through what it holds. *)
Lemma sudoku_self_content (h h' : heap) (p p' : loc) :
  content_of h' p' = content_of h p -> class_of h p = Some SudokuPuzzleClass ->
  sudoku_self h' p' = sudoku_self h p.
Proof.
  unfold content_of, class_of, sudoku_self, rows_of.
  destruct (h !! p) as [[| | n grid | ]|]; try discriminate.
  destruct (h' !! p') as [[| | n' grid' | ]|]; try discriminate.
  now intros [= -> ->] _.
Qed.

Lemma ladder_self_content (h h' : heap) (p p' : loc) :
  content_of h' p' = content_of h p -> class_of h p = Some WordLadderPuzzleClass ->
  WordLadderPuzzle.__str__ (ladder_self h' p') = WordLadderPuzzle.__str__ (ladder_self h p) /\
  WordLadderPuzzle.is_solved (ladder_self h' p') = WordLadderPuzzle.is_solved (ladder_self h p) /\
  WordLadderPuzzle._start (ladder_self h' p') = WordLadderPuzzle._start (ladder_self h p) /\
  WordLadderPuzzle._target (ladder_self h' p') = WordLadderPuzzle._target (ladder_self h p) /\
  WordLadderPuzzle._used_words (ladder_self h' p')
  = WordLadderPuzzle._used_words (ladder_self h p) /\
  WordLadderPuzzle._possible_words (lists_of_str h') (ladder_self h' p')
  = WordLadderPuzzle._possible_words (lists_of_str h) (ladder_self h p).
Proof.
  unfold content_of, class_of, ladder_self.
  destruct (h !! p) as [[| | | words start target used tried]|]; try discriminate.
  destruct (h' !! p') as [[| | | words' start' target' used' tried']|]; try discriminate.
  intros [= Hw -> -> -> Ht] _. repeat split.
  unfold WordLadderPuzzle._possible_words, WordLadderPuzzle.tried.
  cbn [WordLadderPuzzle._tried_words WordLadderPuzzle._used_words WordLadderPuzzle._words
       WordLadderPuzzle._start].
  assert (Hd : forall k l, deref (lists_of_str k) l = strings k l).
  { intros k l. unfold deref, lists_of_str, strings.
    destruct (k !! l) as [o|] eqn:E.
    - rewrite (nth_lookup_Some _ l [] _ (list_lookup_fmap_Some_2 _ k l o E)).
      now destruct o.
    - apply nth_overflow. rewrite length_map. now apply lookup_ge_None in E. }
  now rewrite !Hd, Hw, Ht.
Qed.

Lemma lookup_map {A B : Type} (f : A -> B) (l : list A) (i : nat) :
  map f l !! i = option_map f (l !! i).
Proof. revert i. induction l as [|x l IH]; intros [|i]; cbn; auto. Qed.

Lemma insert_map {A B : Type} (f : A -> B) (l : list A) (i : nat) (x : A) :
  <[i := f x]> (map f l) = map f (<[i := x]> l).
Proof. revert i. induction l as [|y l IH]; intros [|i]; cbn; auto. now rewrite IH. Qed.

(** Copying rows appends the copies to the heap. *)
Lemma copy_rows_spec (rows : list loc) :
  forall h : heap,
    Forall (fun l => l < length h) rows ->
    copy_rows rows h =
      (Ok (seq (length h) (length rows)),
       h ++ map (fun r => ListOfStr (strings h r)) rows).
Proof.
  induction rows as [|r rows IH]; intros h Hall; cbn [copy_rows].
  - unfold ret. now rewrite app_nil_r.
  - inversion Hall as [|? ? Hr Hrows]; subst.
    unfold mbind at 1, reading. unfold mbind at 1, new. unfold mbind at 1.
    rewrite IH.
    + unfold ret. rewrite length_app. cbn [length map seq].
      replace (length h + 1) with (S (length h)) by lia.
      f_equal. rewrite <- app_assoc. cbn [app]. f_equal. f_equal.
      apply map_ext_in. intros l Hl.
      rewrite List.Forall_forall in Hrows. f_equal. apply strings_app. now apply Hrows.
    + eapply List.Forall_impl; [|exact Hrows]. cbn. intros l Hl.
      rewrite length_app. simpl. lia.
Qed.

(** [_extend] in one piece: the heap after it is the heap before it,
    followed by the copies of the rows, one of them with the cell
    assigned, the new grid and the new instance. *)
Lemma sudoku_extend_value (h : heap) (p : loc) (n : nat) (grid : loc)
    (letter : string) (ri ci : nat) :
  closed h -> h !! p = Some (SudokuObject n grid) ->
  let g := map (strings h) (lists h grid) in
  let k := length (lists h grid) in
  let a := length h in
  sudoku_extend p letter ri ci h =
    match (let* row := getitem g ri in setitem row ci letter) with
    | Raise e => (Raise e, h ++ map ListOfStr g ++ [ListOfLists (seq a k)])
    | Ok changed =>
        (Ok (a + k + 1),
         h ++ map ListOfStr (<[ri := changed]> g)
           ++ [ListOfLists (seq a k); SudokuObject k (a + k)])
    end.
Proof.
  intros Hc Hp g k a.
  unfold sudoku_extend. unfold mbind at 1, reading at 1.
  assert (Hrows : rows_of h p = lists h grid) by (unfold rows_of; now rewrite Hp).
  rewrite Hrows. unfold mbind at 1.
  rewrite (copy_rows_spec _ h (lists_closed h grid Hc)). fold k a.
  assert (Emap : map (fun r => ListOfStr (strings h r)) (lists h grid) = map ListOfStr g).
  { unfold g. now rewrite map_map. }
  rewrite Emap.
  assert (Hlen : length (map ListOfStr g) = k) by (unfold g, k; now rewrite !length_map).
  unfold mbind at 1, new at 1.
  assert (Hl2 : length (h ++ map ListOfStr g) = a + k) by (rewrite length_app; lia).
  rewrite Hl2.
  set (h2 := (h ++ map ListOfStr g) ++ [ListOfLists (seq a k)]).
  assert (Hgrid2 : lists h2 (a + k) = seq a k).
  { unfold lists, h2. rewrite lookup_app_r by lia. rewrite Hl2, Nat.sub_diag. reflexivity. }
  unfold mbind at 1, reading at 1. rewrite Hgrid2.
  assert (Hgl : length g = k) by (unfold g, k; now rewrite length_map).
  destruct (Nat.lt_ge_cases ri k) as [Hri|Hri].
  - rewrite (getitem_lt _ ri 0) by (now rewrite length_seq).
    rewrite (getitem_lt g ri []) by lia. cbn [rbind].
    rewrite seq_nth by assumption.
    assert (Hrow2 : strings h2 (a + ri) = nth ri g []).
    { unfold strings, h2. rewrite <- app_assoc, lookup_app_r by lia.
      replace (a + ri - length h) with ri by (unfold a; lia).
      rewrite lookup_app_l by lia. rewrite lookup_map.
      destruct (nth_lookup_or_length g ri []) as [E|E]; [now rewrite E | lia]. }
    unfold mbind at 1, reading at 1. rewrite Hrow2.
    destruct (setitem (nth ri g []) ci letter) as [changed|e] eqn:Hset.
    + unfold mbind at 1, assign. unfold sudoku_init, mbind, reading, new.
      set (h3 := <[a + ri := ListOfStr changed]> h2).
      assert (Hh3 : h3 = h ++ map ListOfStr (<[ri := changed]> g) ++ [ListOfLists (seq a k)]).
      { unfold h3, h2. rewrite <- app_assoc, insert_app_r_alt by (unfold a; lia).
        replace (a + ri - length h) with ri by (unfold a; lia).
        rewrite insert_app_l by lia. now rewrite insert_map. }
      assert (Hl3 : length h3 = a + k + 1).
      { unfold h3. rewrite length_insert. unfold h2. rewrite length_app, Hl2. cbn. lia. }
      assert (Hgrid3 : lists h3 (a + k) = seq a k).
      { rewrite Hh3. unfold lists. rewrite lookup_app_r by (unfold a; lia).
        rewrite lookup_app_r by (rewrite length_map, length_insert; unfold a; lia).
        rewrite length_map, length_insert.
        replace (a + k - length h - length g) with 0 by (unfold a; lia). reflexivity. }
      rewrite Hgrid3, length_seq, Hl3, Hh3. f_equal.
      rewrite <- !app_assoc. reflexivity.
    + unfold h2. now rewrite <- app_assoc.
  - assert (E1 : getitem (seq a k) ri = Raise IndexError).
    { unfold getitem. rewrite (proj2 (nth_error_None _ _)); [reflexivity|].
      now rewrite length_seq. }
    assert (E2 : getitem g ri = Raise IndexError).
    { unfold getitem. rewrite (proj2 (nth_error_None _ _)); [reflexivity | lia]. }
    rewrite E1, E2. cbn [rbind]. unfold h2. now rewrite <- app_assoc.
Qed.

Lemma nth_map {A B : Type} (f : A -> B) (l : list A) (i : nat) (d : B) (d' : A) :
  i < length l -> nth i (map f l) d = f (nth i l d').
Proof.
  revert i. induction l as [|x l IH]; intros [|i] H; simpl in *; try lia; [reflexivity|].
  apply IH. lia.
Qed.

Lemma closed_app (h made : heap) :
  closed h ->
  Forall (fun o => Forall (fun l => l < length h + length made) (references o)) made ->
  closed (h ++ made).
Proof.
  unfold closed. intros Hc Hm. rewrite length_app. apply Forall_app. split; [|exact Hm].
  eapply List.Forall_impl; [|exact Hc]. cbn. intros o Ho.
  eapply List.Forall_impl; [|exact Ho]. cbn. intros; lia.
Qed.

Lemma closed_rows (g : list (list string)) (b : nat) :
  Forall (fun o => Forall (fun l => l < b) (references o)) (map ListOfStr g).
Proof. apply List.Forall_forall. intros o Ho. apply in_map_iff in Ho as (x & <- & _). constructor. Qed.

(** The rows made by [_extend], read back. *)
Lemma rows_read_back (h rest : heap) (g : list (list string)) :
  map (strings (h ++ map ListOfStr g ++ rest)) (seq (length h) (length g)) = g.
Proof.
  apply (nth_ext _ _ [] []); [now rewrite length_map, length_seq|].
  intros i Hi. rewrite length_map, length_seq in Hi.
  rewrite (nth_map _ _ i _ 0) by (now rewrite length_seq).
  rewrite seq_nth by assumption. unfold strings.
  rewrite lookup_app_r by lia. replace (length h + i - length h) with i by lia.
  rewrite lookup_app_l by (now rewrite length_map). rewrite lookup_map.
  destruct (nth_lookup_or_length g i []) as [E|E]; [now rewrite E | lia].
Qed.

Lemma made_between_wider (h0 h h' h2 : heap) (o : loc) :
  length h0 <= length h -> parts (h' ++ h2) o = parts h' o ->
  class_of (h' ++ h2) o = class_of h' o ->
  made_between h h' o -> made_between h0 (h' ++ h2) o.
Proof.
  intros Hlen Hparts Hclass [Hc Hall]. split; [now rewrite Hclass|].
  rewrite Hparts. eapply List.Forall_impl; [|exact Hall]. cbn. intros l Hl.
  rewrite length_app. lia.
Qed.

Lemma parts_app (h made : heap) (o : loc) :
  closed h -> o < length h -> parts (h ++ made) o = parts h o.
Proof.
  intros Hc Ho. unfold parts. rewrite lookup_app_l by assumption.
  destruct (h !! o) as [[| | n grid | ]|] eqn:E; try reflexivity.
  pose proof (closed_lookup h o _ Hc E) as Hrefs. cbn [references] in Hrefs.
  apply Forall_inv in Hrefs. now rewrite lists_app.
Qed.

Lemma sudoku_self_value (h : heap) (p : loc) (n : nat) (grid : loc) :
  h !! p = Some (SudokuObject n grid) ->
  sudoku_self h p = {| SudokuPuzzle._n := n;
                       SudokuPuzzle._grid := map (strings h) (lists h grid) |}.
Proof. intros Hp. unfold sudoku_self, rows_of. now rewrite Hp. Qed.

Lemma class_sudoku (h : heap) (p : loc) :
  class_of h p = Some SudokuPuzzleClass -> exists n grid, h !! p = Some (SudokuObject n grid).
Proof.
  unfold class_of. destruct (h !! p) as [[| | n grid | ]|]; try discriminate. eauto.
Qed.

Lemma class_ladder (h : heap) (p : loc) :
  class_of h p = Some WordLadderPuzzleClass ->
  exists words start target used tried,
    h !! p = Some (WordLadderObject words start target used tried).
Proof.
  unfold class_of. destruct (h !! p) as [[| | | words start target used tried]|];
    try discriminate. eauto 6.
Qed.

(** [_extend] makes objects and assigns to one it made: the heap before
    it is still there, and the instance returned holds what [_extend]
    computes on the state read. *)
Lemma heap_sudoku_extend (h : heap) (p : loc) (letter : string) (ri ci : nat) :
  closed h -> class_of h p = Some SudokuPuzzleClass ->
  exists made,
    snd (sudoku_extend p letter ri ci h) = h ++ made /\ closed (h ++ made) /\
    match fst (sudoku_extend p letter ri ci h) with
    | Ok o =>
        exists s, SudokuPuzzle._extend (sudoku_self h p) letter ri ci = Ok s /\
                  content_of (h ++ made) o
                  = Some (holds_board s) /\
                  made_between h (h ++ made) o
    | Raise e => SudokuPuzzle._extend (sudoku_self h p) letter ri ci = Raise e
    end.
Proof.
  intros Hc Hclass. destruct (class_sudoku h p Hclass) as (n & grid & Hp).
  rewrite (sudoku_extend_value h p n grid letter ri ci Hc Hp).
  rewrite (sudoku_self_value h p n grid Hp). unfold SudokuPuzzle._extend.
  cbn [SudokuPuzzle._grid].
  set (g := map (strings h) (lists h grid)). set (k := length (lists h grid)).
  assert (Hgl : length g = k) by (unfold g, k; now rewrite length_map).
  destruct (getitem g ri) as [row|e] eqn:Hrow; cbn [rbind].
  2:{ eexists. split; [reflexivity|]. split; [|reflexivity].
      apply closed_app; [assumption|]. apply Forall_app. split; [apply closed_rows|].
      repeat constructor. cbn [references]. apply List.Forall_forall. intros l Hl.
      apply in_seq in Hl. rewrite length_app, length_map. cbn. lia. }
  destruct (setitem row ci letter) as [changed|e] eqn:Hset; cbn [rbind].
  2:{ eexists. split; [reflexivity|]. split; [|reflexivity].
      apply closed_app; [assumption|]. apply Forall_app. split; [apply closed_rows|].
      repeat constructor. cbn [references]. apply List.Forall_forall. intros l Hl.
      apply in_seq in Hl. rewrite length_app, length_map. cbn. lia. }
  assert (Hri : ri < k).
  { apply getitem_Ok in Hrow. rewrite <- Hgl. apply nth_error_Some. congruence. }
  assert (Hset2 : setitem g ri changed = Ok (<[ri := changed]> g)).
  { unfold setitem. destruct (Nat.ltb_spec ri (length g)); [reflexivity | lia]. }
  rewrite Hset2. cbn [rbind fst snd].
  set (g' := <[ri := changed]> g).
  assert (Hgl' : length g' = k) by (unfold g'; now rewrite length_insert).
  eexists. split; [reflexivity|].
  assert (Hlast : (h ++ map ListOfStr g' ++ [ListOfLists (seq (length h) k);
                                            SudokuObject k (length h + k)])
                  !! (length h + k + 1) = Some (SudokuObject k (length h + k))).
  { rewrite lookup_app_r by lia. rewrite lookup_app_r by (rewrite length_map; lia).
    rewrite length_map.
    replace (length h + k + 1 - length h - length g') with 1 by lia. reflexivity. }
  assert (Hgrid : lists (h ++ map ListOfStr g' ++ [ListOfLists (seq (length h) k);
                                                   SudokuObject k (length h + k)])
                    (length h + k) = seq (length h) k).
  { unfold lists. rewrite lookup_app_r by lia.
    rewrite lookup_app_r by (rewrite length_map; lia). rewrite length_map.
    replace (length h + k - length h - length g') with 0 by lia. reflexivity. }
  split; [|eexists; split; [reflexivity|]; split].
  - apply closed_app; [assumption|]. apply Forall_app. split; [apply closed_rows|].
    rewrite length_app, length_map. cbn [length].
    repeat constructor; cbn [references]; [|lia].
    apply List.Forall_forall. intros l Hl. apply in_seq in Hl. lia.
  - unfold content_of, holds_board. rewrite Hlast, Hgrid.
    cbn [SudokuPuzzle.__init__ SudokuPuzzle._n SudokuPuzzle._grid]. fold g'.
    rewrite Hgl'. f_equal. f_equal. rewrite <- Hgl'. apply rows_read_back.
  - split; [unfold class_of; now rewrite Hlast|].
    unfold parts. rewrite Hlast, Hgrid. rewrite !length_app, length_map. cbn [length].
    constructor; [lia|]. constructor; [lia|].
    apply List.Forall_forall. intros l Hl. apply in_seq in Hl. lia.
Qed.

Lemma made_between_lt (h h' : heap) (o : loc) : made_between h h' o -> o < length h'.
Proof. intros [_ Hall]. apply Forall_inv in Hall. lia. Qed.

Lemma made_between_later (h h1 made : heap) (o : loc) :
  closed h1 -> length h <= length h1 ->
  made_between h h1 o -> made_between h (h1 ++ made) o.
Proof.
  intros Hc Hlen Hm. pose proof (made_between_lt _ _ _ Hm) as Ho.
  apply (made_between_wider h h h1 made); try assumption; [lia | |].
  - now apply parts_app.
  - now apply class_of_app.
Qed.

Lemma made_between_earlier (h h1 h2 : heap) (o : loc) :
  length h <= length h1 -> made_between h1 h2 o -> made_between h h2 o.
Proof.
  intros Hlen [Hc Hall]. split; [assumption|].
  eapply List.Forall_impl; [|exact Hall]. cbn. intros; lia.
Qed.

Lemma sudoku_self_app (h made : heap) (p : loc) :
  closed h -> class_of h p = Some SudokuPuzzleClass ->
  sudoku_self (h ++ made) p = sudoku_self h p.
Proof.
  intros Hc Hclass. apply sudoku_self_content; [|assumption].
  apply content_app; [assumption|]. now apply (class_of_lt h p SudokuPuzzleClass).
Qed.

(** The list comprehension of [extensions]. *)
Lemma sudoku_extend_all (p : loc) (ri ci : nat) (letters : list string) :
  forall h : heap,
    closed h -> class_of h p = Some SudokuPuzzleClass ->
    exists made,
      snd (map_M (fun letter => sudoku_extend p letter ri ci) letters h) = h ++ made /\
      closed (h ++ made) /\
      match fst (map_M (fun letter => sudoku_extend p letter ri ci) letters h) with
      | Ok os =>
          exists ss,
            map_result (fun letter => SudokuPuzzle._extend (sudoku_self h p) letter ri ci)
              letters = Ok ss /\
            map (content_of (h ++ made)) os
            = map (fun s => Some (holds_board s)) ss /\
            Forall (made_between h (h ++ made)) os
      | Raise e =>
          map_result (fun letter => SudokuPuzzle._extend (sudoku_self h p) letter ri ci)
            letters = Raise e
      end.
Proof.
  induction letters as [|x letters IH]; intros h Hc Hclass; cbn [map_M map_result].
  - exists []. rewrite app_nil_r. cbn. split; [reflexivity|]. split; [assumption|].
    exists []. repeat split. constructor.
  - destruct (heap_sudoku_extend h p x ri ci Hc Hclass) as (made1 & Hh1 & Hc1 & Hr1).
    unfold mbind, ret.
    destruct (sudoku_extend p x ri ci h) as [[o|e] h1]; cbn [fst snd] in Hh1, Hr1; subst h1.
    2:{ exists made1. rewrite Hr1. cbn [fst snd rbind].
        split; [reflexivity|]. split; [assumption | reflexivity]. }
    destruct Hr1 as (s & Hs & Hcont & Hmade). rewrite Hs. cbn [rbind].
    assert (Hclass1 : class_of (h ++ made1) p = Some SudokuPuzzleClass).
    { rewrite class_of_app; [assumption | now apply (class_of_lt h p SudokuPuzzleClass)]. }
    destruct (IH (h ++ made1) Hc1 Hclass1) as (made2 & Hh2 & Hc2 & Hr2).
    rewrite (sudoku_self_app h made1 p Hc Hclass) in Hr2.
    destruct (map_M (fun letter => sudoku_extend p letter ri ci) letters (h ++ made1))
      as [[os|e] h2]; cbn [fst snd] in Hh2, Hr2; subst h2.
    2:{ exists (made1 ++ made2). rewrite Hr2. cbn [fst snd rbind]. rewrite app_assoc.
        split; [reflexivity|]. split; [assumption | reflexivity]. }
    destruct Hr2 as (ss & Hss & Hconts & Hmades). rewrite Hss. cbn [rbind].
    exists (made1 ++ made2). cbn [fst snd]. rewrite app_assoc.
    split; [reflexivity|]. split; [assumption|].
    exists (s :: ss). split; [reflexivity|]. split.
    + cbn [map]. rewrite Hconts. f_equal.
      rewrite content_app; [assumption | assumption | now apply (made_between_lt h)].
    + constructor.
      * apply made_between_later; [assumption | rewrite length_app; lia | assumption].
      * eapply List.Forall_impl; [|exact Hmades]. intros o2 Ho2.
        apply (made_between_earlier h (h ++ made1)); [rewrite length_app; lia | assumption].
Qed.

Lemma heap_sudoku_extensions (h : heap) (p : loc) :
  closed h -> class_of h p = Some SudokuPuzzleClass ->
  exists made,
    snd (sudoku_extensions p h) = h ++ made /\ closed (h ++ made) /\
    match fst (sudoku_extensions p h) with
    | Ok os =>
        exists ss,
          SudokuPuzzle.extensions (sudoku_self h p) = Ok ss /\
          map (content_of (h ++ made)) os = map (fun s => Some (holds_board s)) ss /\
          Forall (made_between h (h ++ made)) os
    | Raise e => SudokuPuzzle.extensions (sudoku_self h p) = Raise e
    end.
Proof.
  intros Hc Hclass. unfold sudoku_extensions, SudokuPuzzle.extensions, mbind, reading, ret.
  destruct (SudokuPuzzle.first_empty (sudoku_self h p)
              (range (SudokuPuzzle._n (sudoku_self h p)))) as [[[ri ci]|]|e]; cbn [rbind].
  - destruct (SudokuPuzzle._possible_letters (sudoku_self h p) ri ci) as [letters|e];
      cbn [rbind].
    + apply (sudoku_extend_all p ri ci letters h Hc Hclass).
    + exists []. rewrite app_nil_r. cbn [fst snd]. now repeat split.
  - exists []. rewrite app_nil_r. cbn [fst snd]. split; [reflexivity|].
    split; [assumption|]. exists []. repeat split. constructor.
  - exists []. rewrite app_nil_r. cbn [fst snd]. now repeat split.
Qed.

Lemma heap_sudoku_move (h : heap) (p : loc) (mv : string) :
  closed h -> class_of h p = Some SudokuPuzzleClass ->
  exists made,
    snd (sudoku_move p mv h) = h ++ made /\ closed (h ++ made) /\
    match fst (sudoku_move p mv h) with
    | Ok o =>
        exists s,
          SudokuPuzzle.move (sudoku_self h p) mv = Ok s /\
          content_of (h ++ made) o = Some (holds_board s) /\
          made_between h (h ++ made) o
    | Raise e => SudokuPuzzle.move (sudoku_self h p) mv = Raise e
    end.
Proof.
  intros Hc Hclass. unfold sudoku_move, SudokuPuzzle.move, mbind, reading.
  assert (Hstop : forall e : exn,
            exists made : heap,
              snd (@Raise loc e, h) = h ++ made /\ closed (h ++ made) /\
              match fst (@Raise loc e, h) with
              | Ok o => exists s : SudokuPuzzle.t,
                          @Raise SudokuPuzzle.t e = Ok s /\
                          content_of (h ++ made) o = Some (holds_board s) /\
                          made_between h (h ++ made) o
              | Raise e' => @Raise SudokuPuzzle.t e = Raise e'
              end).
  { intros e. exists []. rewrite app_nil_r. cbn [fst snd]. now repeat split. }
  destruct (str_getitem mv 1) as [c1|e]; cbn [rbind]; [|apply Hstop].
  destruct (int_of_char c1) as [ri|e]; cbn [rbind]; [|apply Hstop].
  destruct (str_getitem mv 4) as [c4|e]; cbn [rbind]; [|apply Hstop].
  destruct (int_of_char c4) as [ci|e]; cbn [rbind]; [|apply Hstop].
  destruct (str_last mv) as [letter|e]; cbn [rbind]; [|apply Hstop].
  destruct (SudokuPuzzle._possible_letters (sudoku_self h p) ri ci) as [pl|e];
    cbn [rbind]; [|apply Hstop].
  destruct (orb _ _); [apply Hstop|].
  destruct (negb (contains letter pl)); [apply Hstop|].
  destruct (getitem (SudokuPuzzle._grid (sudoku_self h p)) ri) as [row|e];
    cbn [rbind]; [|apply Hstop].
  destruct (getitem row ci) as [cell|e]; cbn [rbind]; [|apply Hstop].
  destruct (negb (String.eqb cell "")); [apply Hstop|].
  apply (heap_sudoku_extend h p letter ri ci Hc Hclass).
Qed.

(** [_extend] on a word ladder: three objects are made. *)
Lemma heap_ladder_extend (wordfile : list string) (h : heap) (p : loc) (word : string) :
  closed h ->
  exists made o,
    ladder_extend wordfile p word h = (Ok o, h ++ made) /\ closed (h ++ made) /\
    content_of (h ++ made) o
    = Some (holds_ladder [] (WordLadderPuzzle._extend wordfile (ladder_self h p) word)) /\
    made_between h (h ++ made) o.
Proof.
  intros Hc. unfold ladder_extend, mbind, reading, ladder_init.
  set (s := WordLadderPuzzle.__init__ wordfile word
              (WordLadderPuzzle._target (ladder_self h p))
              (WordLadderPuzzle._used_words (ladder_self h p))).
  set (made := [WordLadderObject (length h + 1) word
                  (WordLadderPuzzle._target (ladder_self h p))
                  (WordLadderPuzzle._used_words s) (length h + 2);
                ListOfStr (WordLadderPuzzle._words s); ListOfStr []]).
  exists made, (length h). split; [reflexivity|].
  assert (H0 : (h ++ made) !! length h
               = Some (WordLadderObject (length h + 1) word
                         (WordLadderPuzzle._target (ladder_self h p))
                         (WordLadderPuzzle._used_words s) (length h + 2)))
    by (rewrite lookup_app_r by lia; now rewrite Nat.sub_diag).
  assert (H1 : (h ++ made) !! (length h + 1) = Some (ListOfStr (WordLadderPuzzle._words s))).
  { rewrite lookup_app_r by lia. now replace (length h + 1 - length h) with 1 by lia. }
  assert (H2 : (h ++ made) !! (length h + 2) = Some (ListOfStr [])).
  { rewrite lookup_app_r by lia. now replace (length h + 2 - length h) with 2 by lia. }
  split; [|split].
  - apply closed_app; [assumption|]. unfold made. cbn [length].
    constructor; [|constructor; [constructor|]; constructor; constructor].
    cbn [references]. constructor; [lia|]. constructor; [lia | constructor].
  - unfold content_of, strings. rewrite H0, H1, H2. reflexivity.
  - split; [unfold class_of; rewrite H0; discriminate|].
    unfold parts. rewrite H0. rewrite length_app. unfold made. cbn [length].
    constructor; [lia|]. constructor; [lia|]. constructor; [lia | constructor].
Qed.

Lemma ladder_self_app (h made : heap) (p : loc) :
  closed h -> class_of h p = Some WordLadderPuzzleClass ->
  WordLadderPuzzle._target (ladder_self (h ++ made) p)
  = WordLadderPuzzle._target (ladder_self h p) /\
  WordLadderPuzzle._used_words (ladder_self (h ++ made) p)
  = WordLadderPuzzle._used_words (ladder_self h p).
Proof.
  intros Hc Hclass.
  destruct (ladder_self_content h (h ++ made) p p) as (_ & _ & _ & Ht & Hu & _);
    [|assumption|now split].
  apply content_app; [assumption|]. now apply (class_of_lt h p WordLadderPuzzleClass).
Qed.

Lemma ladder_extend_app (wordfile : list string) (h made : heap) (p : loc) (word : string) :
  closed h -> class_of h p = Some WordLadderPuzzleClass ->
  WordLadderPuzzle._extend wordfile (ladder_self (h ++ made) p) word
  = WordLadderPuzzle._extend wordfile (ladder_self h p) word.
Proof.
  intros Hc Hclass. destruct (ladder_self_app h made p Hc Hclass) as (Ht & Hu).
  unfold WordLadderPuzzle._extend. now rewrite Ht, Hu.
Qed.

(** The loop of [extensions] on a word ladder. *)
Lemma ladder_extend_all (wordfile : list string) (p : loc) (words : list string) :
  forall h : heap,
    closed h -> class_of h p = Some WordLadderPuzzleClass ->
    exists made os,
      map_M (fun word => ladder_extend wordfile p word) words h = (Ok os, h ++ made) /\
      closed (h ++ made) /\
      map (content_of (h ++ made)) os
      = map (fun word => Some (holds_ladder []
                                 (WordLadderPuzzle._extend wordfile (ladder_self h p) word)))
            words /\
      Forall (made_between h (h ++ made)) os.
Proof.
  induction words as [|w words IH]; intros h Hc Hclass; cbn [map_M map].
  - exists [], []. rewrite app_nil_r. repeat split; [assumption | constructor].
  - destruct (heap_ladder_extend wordfile h p w Hc) as (made1 & o & Hrun & Hc1 & Hcont & Hmade).
    assert (Hclass1 : class_of (h ++ made1) p = Some WordLadderPuzzleClass).
    { rewrite class_of_app; [assumption | now apply (class_of_lt h p WordLadderPuzzleClass)]. }
    destruct (IH (h ++ made1) Hc1 Hclass1) as (made2 & os & Hrun2 & Hc2 & Hconts & Hmades).
    unfold mbind, ret. rewrite Hrun, Hrun2.
    exists (made1 ++ made2), (o :: os). rewrite app_assoc.
    split; [reflexivity|]. split; [assumption|]. split.
    + cbn [map]. rewrite Hconts. f_equal.
      * rewrite content_app; [assumption | assumption | now apply (made_between_lt h)].
      * apply map_ext. intros word. now rewrite ladder_extend_app.
    + constructor.
      * apply made_between_later; [assumption | rewrite length_app; lia | assumption].
      * eapply List.Forall_impl; [|exact Hmades]. intros o2 Ho2.
        apply (made_between_earlier h (h ++ made1)); [rewrite length_app; lia | assumption].
Qed.

Lemma heap_ladder_extensions (wordfile : list string) (h : heap) (p : loc) :
  closed h -> class_of h p = Some WordLadderPuzzleClass ->
  exists made os,
    ladder_extensions wordfile p h = (Ok os, h ++ made) /\ closed (h ++ made) /\
    map (content_of (h ++ made)) os
    = map (fun s => Some (holds_ladder [] s))
          (WordLadderPuzzle.extensions wordfile (lists_of_str h) (ladder_self h p)) /\
    Forall (made_between h (h ++ made)) os.
Proof.
  intros Hc Hclass. unfold ladder_extensions, WordLadderPuzzle.extensions.
  unfold mbind at 1, reading at 1. rewrite map_map.
  apply (ladder_extend_all wordfile p _ h Hc Hclass).
Qed.

Lemma heap_ladder_move (wordfile : list string) (h : heap) (p : loc) (mv : string) :
  closed h -> class_of h p = Some WordLadderPuzzleClass ->
  exists made,
    snd (ladder_move wordfile p mv h) = h ++ made /\ closed (h ++ made) /\
    match fst (ladder_move wordfile p mv h) with
    | Ok o =>
        exists s,
          WordLadderPuzzle.move wordfile (lists_of_str h) (ladder_self h p) mv = Ok s /\
          content_of (h ++ made) o = Some (holds_ladder [] s) /\
          made_between h (h ++ made) o
    | Raise e =>
        WordLadderPuzzle.move wordfile (lists_of_str h) (ladder_self h p) mv = Raise e
    end.
Proof.
  intros Hc Hclass. unfold ladder_move, WordLadderPuzzle.move, mbind, reading.
  destruct (negb (contains mv _)).
  - exists []. rewrite app_nil_r. cbn [fst snd]. now repeat split.
  - destruct (heap_ladder_extend wordfile h p mv Hc) as (made & o & Hrun & Hc1 & Hcont & Hmade).
    rewrite Hrun. exists made. cbn [fst snd]. split; [reflexivity|]. split; [assumption|].
    eexists. split; [reflexivity|]. now split.
Qed.

(** What a state shows is read off what it holds. *)
Lemma sudoku_display (wordfile : list string) (h : heap) (p : loc) :
  class_of h p = Some SudokuPuzzleClass ->
  display wordfile h p = Some (SudokuPuzzle.__str__ (sudoku_self h p)).
Proof.
  intros Hclass. unfold display, call. rewrite Hclass.
  unfold returning, sudoku_str, mbind, reading, ret.
  now destruct (SudokuPuzzle.__str__ (sudoku_self h p)).
Qed.

Lemma ladder_display (wordfile : list string) (h : heap) (p : loc) :
  class_of h p = Some WordLadderPuzzleClass ->
  display wordfile h p = Some (WordLadderPuzzle.__str__ (ladder_self h p)).
Proof.
  intros Hclass. unfold display, call. rewrite Hclass.
  unfold returning, ladder_str, mbind, reading, ret.
  now destruct (WordLadderPuzzle.__str__ (ladder_self h p)).
Qed.

Lemma sudoku_successors (wordfile : list string) (h : heap) (p : loc) :
  closed h -> class_of h p = Some SudokuPuzzleClass ->
  successors wordfile h p =
    match SudokuPuzzle.extensions (sudoku_self h p) with
    | Ok ss => Some (Ok (map (fun s => Some (holds_board s)) ss))
    | Raise e => Some (Raise e)
    end.
Proof.
  intros Hc Hclass. unfold successors, call. rewrite Hclass.
  destruct (heap_sudoku_extensions h p Hc Hclass) as (made & Hh & _ & Hr).
  unfold returning, mbind, ret.
  destruct (sudoku_extensions p h) as [[os|e] h1]; cbn [fst snd] in Hh, Hr; subst h1.
  - destruct Hr as (ss & -> & Hconts & _). now rewrite Hconts.
  - now rewrite Hr.
Qed.

Lemma ladder_successors (wordfile : list string) (h : heap) (p : loc) :
  closed h -> class_of h p = Some WordLadderPuzzleClass ->
  successors wordfile h p =
    Some (Ok (map (fun s => Some (holds_ladder [] s))
                (WordLadderPuzzle.extensions wordfile (lists_of_str h) (ladder_self h p)))).
Proof.
  intros Hc Hclass. unfold successors, call. rewrite Hclass.
  destruct (heap_ladder_extensions wordfile h p Hc Hclass) as (made & os & Hrun & _ & Hconts & _).
  unfold returning, mbind, ret. rewrite Hrun. now rewrite Hconts.
Qed.

(** A state that holds the same shows the same. *)
Lemma unchanged_content (wordfile : list string) (h h' : heap) (p : loc) :
  closed h -> closed h' -> class_of h' p = class_of h p ->
  content_of h' p = content_of h p -> unchanged wordfile h h' p.
Proof.
  intros Hc Hc' Hclass Hcont. unfold unchanged.
  destruct (class_of h p) as [[|]|] eqn:Hk.
  - rewrite !sudoku_display, !sudoku_successors by assumption.
    now rewrite (sudoku_self_content h h' p p Hcont Hk).
  - rewrite !ladder_display, !ladder_successors by assumption.
    destruct (ladder_self_content h h' p p Hcont Hk) as (Hs & _ & _ & Ht & Hu & Hw).
    rewrite Hs. split; [reflexivity|]. unfold WordLadderPuzzle.extensions.
    rewrite Hw. do 3 f_equal. unfold WordLadderPuzzle._extend. now rewrite Ht, Hu.
  - unfold display, successors, call. now rewrite Hclass, Hk.
Qed.

Lemma closed_check (h : heap) :
  forallb (fun o => forallb (fun l => Nat.ltb l (length h)) (references o)) h = true ->
  closed h.
Proof.
  intros H. unfold closed. apply List.Forall_forall. intros o Ho.
  rewrite forallb_forall in H. specialize (H o Ho).
  apply List.Forall_forall. intros l Hl. rewrite forallb_forall in H.
  now apply Nat.ltb_lt, H.
Qed.

(** The frame of a call: every method but [add_tried_words] leaves the
    heap it is given in place and makes the instances it returns. *)
Lemma call_frame (wordfile : list string) (h h' : heap) (self : loc) (m : method)
    (r : result value) :
  closed h -> leaves_fields m = true ->
  call wordfile self m h = Some (r, h') ->
  exists made, h' = h ++ made /\ closed (h ++ made) /\
               Forall (made_between h (h ++ made)) (returned r).
Proof.
  intros Hc Hm. unfold call.
  assert (Hread : forall (A : Type) (f : A -> value) (g : heap -> result A),
            (forall a, returned (Ok (f a)) = []) ->
            Some (returning f (reading g) h) = Some (r, h') ->
            exists made, h' = h ++ made /\ closed (h ++ made) /\
                         Forall (made_between h (h ++ made)) (returned r)).
  { intros A f g Hf. unfold returning, reading, mbind, ret.
    destruct (g h) as [a|e]; intros [= <- <-]; exists []; rewrite app_nil_r;
      (split; [reflexivity|]); (split; [assumption|]); [rewrite Hf|]; constructor. }
  destruct (class_of h self) as [[|]|] eqn:Hclass; [| |discriminate].
  - destruct m as [| |mv|new_puzzle| |l]; try discriminate.
    + apply Hread. reflexivity.
    + intros [= E]. unfold returning, mbind, ret in E.
      destruct (heap_sudoku_extensions h self Hc Hclass) as (made & Hh & Hc' & Hr).
      destruct (sudoku_extensions self h) as [[os|e] h1]; cbn [fst snd] in Hh, Hr;
        injection E as <- <-; subst h1; exists made;
        (split; [reflexivity|]); (split; [assumption|]); [|constructor].
      now destruct Hr as (ss & _ & _ & Hmade).
    + intros [= E]. unfold returning, mbind, ret in E.
      destruct (heap_sudoku_move h self mv Hc Hclass) as (made & Hh & Hc' & Hr).
      destruct (sudoku_move self mv h) as [[o|e] h1]; cbn [fst snd] in Hh, Hr;
        injection E as <- <-; subst h1; exists made;
        (split; [reflexivity|]); (split; [assumption|]); [|constructor].
      destruct Hr as (s & _ & _ & Hmade). cbn [returned].
      constructor; [exact Hmade | constructor].
    + destruct (class_of h new_puzzle) as [[|]|]; try discriminate.
      apply Hread. reflexivity.
    + apply Hread. reflexivity.
  - destruct m as [| |mv|new_puzzle| |l]; try discriminate.
    + apply Hread. reflexivity.
    + intros [= E]. unfold returning, mbind, ret in E.
      destruct (heap_ladder_extensions wordfile h self Hc Hclass)
        as (made & os & Hrun & Hc' & _ & Hmade).
      rewrite Hrun in E. injection E as <- <-. exists made. now repeat split.
    + intros [= E]. unfold returning, mbind, ret in E.
      destruct (heap_ladder_move wordfile h self mv Hc Hclass) as (made & Hh & Hc' & Hr).
      destruct (ladder_move wordfile self mv h) as [[o|e] h1]; cbn [fst snd] in Hh, Hr;
        injection E as <- <-; subst h1; exists made;
        (split; [reflexivity|]); (split; [assumption|]); [|constructor].
      destruct Hr as (s & _ & _ & Hmade). cbn [returned].
      constructor; [exact Hmade | constructor].
    + destruct (class_of h new_puzzle) as [[|]|]; try discriminate.
      apply Hread. reflexivity.
    + apply Hread. reflexivity.
Qed.

End MutationFacts.

Module MutationClaims.

Import PuzzleObjects MutationSpec MutationFacts HeapSamples.




End MutationClaims.

(** ** Order on strings and sorted lists *)

Module OrderFacts.

Lemma ascii_compare_lt_trans (a b c : ascii) :
  Ascii.compare a b = Lt -> Ascii.compare b c = Lt -> Ascii.compare a c = Lt.
Proof.
  unfold Ascii.compare. rewrite !N.compare_lt_iff. lia.
Qed.

Lemma string_leb_trans (a b c : string) :
  String.leb a b = true -> String.leb b c = true -> String.leb a c = true.
Proof.
  unfold String.leb. revert b c.
  induction a as [|x a IH]; intros [|y b] [|z c]; cbn; try congruence.
  destruct (Ascii.compare x y) eqn:Exy; try congruence;
    destruct (Ascii.compare y z) eqn:Eyz; try congruence.
  - apply Ascii.compare_eq_iff in Exy, Eyz. subst.
    unfold Ascii.compare. rewrite N.compare_refl. apply IH.
  - apply Ascii.compare_eq_iff in Exy. subst. rewrite Eyz. reflexivity.
  - apply Ascii.compare_eq_iff in Eyz. subst. rewrite Exy. reflexivity.
  - rewrite (ascii_compare_lt_trans x y z Exy Eyz). reflexivity.
Qed.

Lemma string_ltb_leb (a b : string) : String.ltb a b = true -> String.leb a b = true.
Proof. unfold String.ltb, String.leb. destruct (String.compare a b); congruence. Qed.

Lemma sorted_perm_unique (l1 : list string) :
  forall l2,
    StronglySorted (fun x y => String.leb x y = true) l1 ->
    StronglySorted (fun x y => String.leb x y = true) l2 ->
    Permutation l1 l2 -> l1 = l2.
Proof.
  induction l1 as [|x l1 IH]; intros l2 H1 H2 HP.
  - apply Permutation_nil in HP. now subst.
  - destruct l2 as [|y l2]; [apply Permutation_sym, Permutation_nil in HP; discriminate|].
    apply StronglySorted_inv in H1 as [H1 Hx]. apply StronglySorted_inv in H2 as [H2 Hy].
    assert (x = y) as ->.
    { assert (Hxy : In x (y :: l2)) by (eapply Permutation_in; [exact HP | now left]).
      assert (Hyx : In y (x :: l1))
        by (eapply Permutation_in; [apply Permutation_sym; exact HP | now left]).
      destruct Hxy as [->|Hxy]; [reflexivity|].
      destruct Hyx as [->|Hyx]; [reflexivity|].
      apply String.leb_antisym.
      - rewrite List.Forall_forall in Hx. now apply Hx.
      - rewrite List.Forall_forall in Hy. now apply Hy. }
    f_equal. apply IH; try assumption. now apply Permutation_cons_inv in HP.
Qed.

Lemma sorted_strongly (l : list string) :
  StronglySorted (fun x y => String.leb x y = true) (sorted l).
Proof.
  apply Sorted_StronglySorted.
  - intros a b c. apply string_leb_trans.
  - apply StringSort.Sorted_sort.
Qed.

Lemma list_eqb_eq (l1 l2 : list string) : list_eqb l1 l2 = true <-> l1 = l2.
Proof.
  revert l2. induction l1 as [|x l1 IH]; intros [|y l2]; cbn; try (split; congruence).
  rewrite andb_true_iff, String.eqb_eq, IH. split; [intros [-> ->]; reflexivity|].
  intros E. inversion E. auto.
Qed.

Lemma StronglySorted_weaken {A : Type} (R R' : A -> A -> Prop) (l : list A) :
  (forall a b, R a b -> R' a b) -> StronglySorted R l -> StronglySorted R' l.
Proof.
  intros HR. induction 1 as [|a l Hl IH Ha]; constructor; [assumption|].
  eapply List.Forall_impl; [|exact Ha]. intros b. apply HR.
Qed.

End OrderFacts.

(** ** Sudoku: solved boards *)

Module SolvedFacts.

Import SudokuPuzzle SudokuSpec SudokuFacts OrderFacts.

(** [sorted(items) == list(CHARS[:n])] holds exactly when the items are
    the first [n] letters, each once, in any order. *)
Lemma is_perm_of_letters_spec (n : nat) (items : list string) :
  is_perm_of_letters n items = true <-> Permutation items (letters n).
Proof.
  unfold is_perm_of_letters. rewrite list_eqb_eq. split.
  - intros <-. apply StringSort.Permuted_sort.
  - intros HP. apply sorted_perm_unique.
    + apply sorted_strongly.
    + eapply StronglySorted_weaken; [|apply letters_sorted].
      intros a b. apply string_ltb_leb.
    + etransitivity; [apply Permutation_sym, StringSort.Permuted_sort | exact HP].
Qed.

Lemma all_pass_pure {A : Type} (check : A -> result bool) (p : A -> bool) (xs : list A) :
  (forall x, In x xs -> check x = Ok (p x)) ->
  all_pass check xs = Ok (forallb p xs).
Proof.
  induction xs as [|x xs IH]; intros H; [reflexivity|].
  cbn [all_pass forallb]. rewrite (H x) by now left. cbn [rbind].
  destruct (p x); [|reflexivity]. apply IH. intros y Hy. apply H. now right.
Qed.

Lemma map_result_pure {A B : Type} (f : A -> result B) (p : A -> B) (l : list A) :
  (forall x, In x l -> f x = Ok (p x)) -> map_result f l = Ok (map p l).
Proof.
  induction l as [|x l IH]; intros H; [reflexivity|].
  cbn [map_result map]. rewrite (H x) by now left. cbn [rbind].
  rewrite IH by (intros y Hy; apply H; now right). reflexivity.
Qed.

Lemma column_spec (g : grid) (m j : nat) :
  wf_grid g m = true -> j < m * m -> column (__init__ g) j = Ok (col_of g j).
Proof.
  intros Hwf Hj. pose proof (wf_grid_inv g m Hwf) as (Hm & Hn & Hrows).
  unfold column, col_of. cbn [__init__ _grid]. apply map_result_pure.
  intros row Hrow. apply getitem_lt.
  apply In_nth with (d := []) in Hrow as (i & Hi & <-). rewrite Hrows; lia.
Qed.

Lemma In_range_from (k s m x : nat) :
  In x (range_from k s m) <-> exists a, a < k /\ x = s + a * m.
Proof.
  revert s. induction k as [|k IH]; intros s; cbn [range_from].
  - split; [intros [] | intros (a & Ha & _); lia].
  - cbn [In]. rewrite IH. split.
    + intros [<-|(a & Ha & ->)]; [exists 0; lia | exists (S a); lia].
    + intros ([|a] & Ha & ->); [left; lia | right; exists a; lia].
Qed.

Lemma subsquare_spec (g : grid) (m a b : nat) :
  wf_grid g m = true -> a < m -> b < m ->
  subsquare (__init__ g) (a * m) (b * m) m = Ok (block_of g m (a * m) (b * m)).
Proof.
  intros Hwf Ha Hb. pose proof (wf_grid_inv g m Hwf) as (Hm & Hn & Hrows).
  unfold subsquare, block_of, range. cbn [__init__ _grid].
  rewrite !Nat.div_mul by lia.
  rewrite (map_result_pure _
             (fun i => map (fun j => cell g (a * m + i) (b * m + j)) (seq 0 m))).
  - cbn [rbind]. now rewrite flat_map_concat_map.
  - intros i Hi. apply in_seq in Hi. apply map_result_pure. intros j Hj. apply in_seq in Hj.
    assert (a * m + i < m * m) by nia. assert (b * m + j < m * m) by nia.
    rewrite (getitem_row g m _ Hwf) by assumption. cbn [rbind].
    now apply (getitem_cell g m).
Qed.

Lemma block_of_corner (g : grid) (m i j : nat) :
  0 < m -> block_of g m (i / m * m) (j / m * m) = block_of g m i j.
Proof. intros Hm. unfold block_of. now rewrite !Nat.div_mul by lia. Qed.

Lemma is_solved_value (g : grid) (m : nat) :
  wf_grid g m = true -> is_solved (__init__ g) = Ok (solved_b g m).
Proof.
  intros Hwf. pose proof (wf_grid_inv g m Hwf) as (Hm & Hn & Hrows).
  unfold is_solved, solved_b, range. cbn [__init__ _n _grid].
  change {| _n := length g; _grid := g |} with (__init__ g).
  rewrite Hn.
  rewrite (all_pass_pure _ (fun row => negb (contains "" row))) by reflexivity.
  cbn [rbind]. destruct (forallb _ g); [|reflexivity]. cbn [negb andb].
  rewrite (all_pass_pure _ (is_perm_of_letters (m * m))) by reflexivity.
  cbn [rbind]. destruct (forallb _ g); [|reflexivity]. cbn [negb andb].
  rewrite (all_pass_pure _ (fun j => is_perm_of_letters (m * m) (col_of g j))).
  2:{ intros j Hj. apply in_seq in Hj. rewrite (column_spec g m j Hwf) by lia. reflexivity. }
  cbn [rbind]. destruct (forallb _ (seq 0 (m * m))); [|reflexivity]. cbn [negb andb].
  unfold isqrt. rewrite Nat.sqrt_square.
  rewrite (range_step_square m Hm). cbn [rbind].
  apply all_pass_pure. intros x Hx. cbn [rbind].
  apply all_pass_pure. intros y Hy.
  apply In_range_from in Hx as (a & Ha & ->). apply In_range_from in Hy as (b & Hb & ->).
  cbn [Nat.add]. rewrite (subsquare_spec g m a b Hwf Ha Hb). reflexivity.
Qed.

Lemma solved_b_latin (g : grid) (m : nat) :
  wf_grid g m = true -> (solved_b g m = true <-> latin g m).
Proof.
  intros Hwf. pose proof (wf_grid_inv g m Hwf) as (Hm & Hn & Hrows).
  unfold solved_b, latin. rewrite !andb_true_iff, !forallb_forall. split.
  - intros (_ & Hr & Hc & Hb). split; [|split].
    + intros i Hi. apply is_perm_of_letters_spec, Hr. apply nth_In. lia.
    + intros j Hj. apply is_perm_of_letters_spec, Hc. apply in_seq. lia.
    + intros i j Hi Hj. rewrite <- (block_of_corner g m i j Hm).
      apply is_perm_of_letters_spec.
      assert (Hx : In (i / m * m) (range_from m 0 m)).
      { apply In_range_from. exists (i / m). split; [|lia].
        apply Nat.Div0.div_lt_upper_bound. lia. }
      assert (Hy : In (j / m * m) (range_from m 0 m)).
      { apply In_range_from. exists (j / m). split; [|lia].
        apply Nat.Div0.div_lt_upper_bound. lia. }
      specialize (Hb _ Hx). rewrite forallb_forall in Hb. now apply Hb.
  - intros (Hr & Hc & Hb).
    assert (Hrow : forall row, In row g -> Permutation row (letters (m * m))).
    { intros row Hrow. apply In_nth with (d := []) in Hrow as (i & Hi & <-).
      apply Hr. lia. }
    split; [|split; [|split]].
    + intros row Hin. apply negb_true_iff, contains_false. intros Hc0.
      apply (letters_nonempty (m * m) "" ); [|reflexivity].
      eapply Permutation_in; [apply Hrow; exact Hin | exact Hc0].
    + intros row Hin. apply is_perm_of_letters_spec. now apply Hrow.
    + intros j Hj. apply in_seq in Hj. apply is_perm_of_letters_spec, Hc. lia.
    + intros x Hx. apply forallb_forall. intros y Hy.
      apply In_range_from in Hx as (a & Ha & ->). apply In_range_from in Hy as (b & Hb' & ->).
      apply is_perm_of_letters_spec, Hb; nia.
Qed.

(** X1.  [is_solved] returns [True] exactly on the boards whose rows, columns
    and subsquares each hold every letter once. *)
Theorem is_solved_spec (g : grid) (m : nat) :
  wf_grid g m = true ->
  exists b, is_solved (__init__ g) = Ok b /\ (b = true <-> latin g m).
Proof.
  intros Hwf. exists (solved_b g m). split.
  - now apply is_solved_value.
  - now apply solved_b_latin.
Qed.

End SolvedFacts.

(** ** Sudoku: boards with one more cell filled *)

Module BoardFacts.

Import SudokuPuzzle SudokuSpec SudokuFacts OrderFacts SolvedFacts.

Lemma cell_set_cell (g : grid) (m i j a b : nat) (x : string) :
  wf_grid g m = true -> i < m * m -> j < m * m ->
  cell (set_cell g i j x) a b = if andb (Nat.eqb a i) (Nat.eqb b j) then x else cell g a b.
Proof.
  intros Hwf Hi Hj. pose proof (wf_grid_inv g m Hwf) as (Hm & Hn & Hrows).
  unfold cell, set_cell. rewrite nth_insert by lia.
  destruct (Nat.eqb_spec a i) as [->|]; cbn [andb]; [|reflexivity].
  unfold row_of. rewrite nth_insert by (rewrite Hrows; lia). reflexivity.
Qed.

Lemma row_set_cell (g : grid) (m i j a : nat) (x : string) :
  wf_grid g m = true -> i < m * m ->
  row_of (set_cell g i j x) a = if Nat.eqb a i then <[j := x]> (row_of g i) else row_of g a.
Proof.
  intros Hwf Hi. pose proof (wf_grid_inv g m Hwf) as (Hm & Hn & Hrows).
  unfold row_of, set_cell. now rewrite nth_insert by lia.
Qed.

Lemma wf_set_cell (g : grid) (m i j : nat) (x : string) :
  wf_grid g m = true -> wf_grid (set_cell g i j x) m = true.
Proof.
  intros Hwf. unfold set_cell.
  destruct (le_lt_dec (length g) i) as [Hge|Hlt];
    [now rewrite list_insert_ge by exact Hge|].
  pose proof Hwf as Hwf'. unfold wf_grid in Hwf |- *.
  apply andb_true_iff in Hwf as (Hm & Hwf). apply andb_true_iff in Hwf as (Hn & Hrows).
  rewrite Hm. cbn [andb]. rewrite length_insert, Hn. cbn [andb].
  rewrite forallb_forall in Hrows |- *. intros row Hrow.
  apply In_nth with (d := []) in Hrow as (a & Ha & <-). rewrite length_insert in Ha.
  rewrite nth_insert by exact Hlt.
  destruct (Nat.eqb_spec a i) as [->|Hne].
  - rewrite length_insert. apply Hrows. unfold row_of. now apply nth_In.
  - apply Hrows. now apply nth_In.
Qed.

Lemma extend_value (g : grid) (m i j : nat) (x : string) :
  wf_grid g m = true -> i < m * m -> j < m * m ->
  _extend (__init__ g) x i j = Ok (__init__ (set_cell g i j x)).
Proof.
  intros Hwf Hi Hj. pose proof (wf_grid_inv g m Hwf) as (Hm & Hn & Hrows).
  unfold _extend, set_cell. cbn [__init__ _grid].
  rewrite (getitem_row g m i Hwf Hi). cbn [rbind]. unfold setitem.
  assert (Hlen : length (row_of g i) = m * m) by (unfold row_of; now apply Hrows).
  rewrite Hlen, Hn.
  destruct (Nat.ltb_spec j (m * m)); [|lia].
  destruct (Nat.ltb_spec i (m * m)); [|lia]. reflexivity.
Qed.

Lemma index_nth (x : string) (l : list string) :
  contains x l = true -> exists j, index x l = Ok j /\ j < length l /\ nth j l "" = x.
Proof.
  induction l as [|y l IH]; cbn [contains existsb index]; [discriminate|].
  rewrite (String.eqb_sym x y).
  destruct (String.eqb_spec y x) as [->|Hne]; cbn [orb].
  - intros _. exists 0. cbn. split; [reflexivity | split; [lia | reflexivity]].
  - intros H. destruct (IH H) as (j & -> & Hj & Hn). exists (S j). cbn. repeat split; [lia | exact Hn].
Qed.

(** The search for the first empty cell ends on an empty cell of the
    board, or finds that there is none. *)
Lemma first_empty_cases (g : grid) (m : nat) :
  wf_grid g m = true ->
  (first_empty (__init__ g) (range (m * m)) = Ok None /\ no_empty_cell g = true) \/
  (exists i j, first_empty (__init__ g) (range (m * m)) = Ok (Some (i, j)) /\
               i < m * m /\ j < m * m /\ cell g i j = "").
Proof.
  intros Hwf. pose proof (wf_grid_inv g m Hwf) as (Hm & Hn & Hrows).
  assert (H : forall k s, s + k = m * m ->
    (first_empty (__init__ g) (seq s k) = Ok None /\
     forall a, s <= a -> a < m * m -> contains "" (row_of g a) = false) \/
    (exists i j, first_empty (__init__ g) (seq s k) = Ok (Some (i, j)) /\
                 i < m * m /\ j < m * m /\ cell g i j = "")).
  { induction k as [|k IH]; intros s Hs.
    - left. split; [reflexivity | intros; lia].
    - cbn [seq first_empty]. cbn [__init__ _grid].
      rewrite (getitem_row g m s Hwf) by lia. cbn [rbind].
      destruct (contains "" (row_of g s)) eqn:Hc.
      + right. destruct (index_nth "" _ Hc) as (j & -> & Hj & Hnth).
        exists s, j. cbn [rbind]. unfold row_of in Hj. rewrite Hrows in Hj by lia.
        repeat split; try lia. exact Hnth.
      + destruct (IH (S s) ltac:(lia)) as [(E & Hall)|Hsome].
        * left. split; [exact E|]. intros a Ha Ha'.
          destruct (Nat.eq_dec a s) as [->|]; [exact Hc | apply Hall; lia].
        * right. exact Hsome. }
  unfold range. destruct (H (m * m) 0 eq_refl) as [(E & Hall)|Hsome]; [left | right; exact Hsome].
  split; [exact E|]. unfold no_empty_cell. apply forallb_forall. intros row Hrow.
  apply In_nth with (d := []) in Hrow as (a & Ha & <-).
  apply negb_true_iff. apply (Hall a); lia.
Qed.

(** The successors, as a value: one board per candidate letter of the
    cell the search stops on. *)
Lemma extensions_value (g : grid) (m i j : nat) :
  wf_grid g m = true -> cols_distinct g m = true ->
  first_empty (__init__ g) (range (m * m)) = Ok (Some (i, j)) ->
  i < m * m -> j < m * m ->
  extensions (__init__ g)
  = Ok (map (fun x => __init__ (set_cell g i j x)) (candidates g m i j)).
Proof.
  intros Hwf Hcols Hfe Hi Hj. pose proof (wf_grid_inv g m Hwf) as (Hm & Hn & Hrows).
  unfold extensions. cbn [__init__ _n].
  change {| _n := length g; _grid := g |} with (__init__ g).
  rewrite Hn, Hfe. cbn [rbind].
  rewrite (possible_letters_spec g m i j Hwf Hi Hj).
  2:{ unfold cols_distinct in Hcols. rewrite forallb_forall in Hcols. apply Hcols, in_seq. lia. }
  cbn [rbind]. apply map_result_pure. intros x _. now apply (extend_value g m).
Qed.

Lemma count_empty_insert (l : list string) (j : nat) (x : string) :
  j < length l -> nth j l "" = "" -> x <> "" ->
  length (List.filter (String.eqb "") l)
  = S (length (List.filter (String.eqb "") (<[j := x]> l))).
Proof.
  revert j. induction l as [|y l IH]; intros [|j] Hj Hnth Hx; cbn [length] in Hj; try lia.
  - cbn in Hnth. subst y. change (<[0 := x]> ("" :: l)) with (x :: l).
    cbn [List.filter]. rewrite String.eqb_refl.
    destruct (String.eqb_spec "" x) as [E|_]; [now subst|]. reflexivity.
  - cbn in Hnth. cbn [List.filter]. change (<[S j := x]> (y :: l)) with (y :: <[j := x]> l).
    cbn [List.filter]. destruct (String.eqb "" y); cbn [length];
      rewrite (IH j) by (assumption || lia); reflexivity.
Qed.

Lemma list_sum_insert {A : Type} (f : A -> nat) (l : list A) (i : nat) (y d : A) :
  i < length l ->
  list_sum (map f (<[i := y]> l)) + f (nth i l d) = list_sum (map f l) + f y.
Proof.
  revert i. induction l as [|z l IH]; intros [|i] Hi; cbn [length] in Hi; try lia.
  - cbn. lia.
  - change (<[S i := y]> (z :: l)) with (z :: <[i := y]> l). cbn [map list_sum nth].
    specialize (IH i ltac:(lia)). unfold list_sum in *. cbn [fold_right]. lia.
Qed.

(** Filling an empty cell leaves one empty cell fewer. *)
Lemma empties_set_cell (g : grid) (m i j : nat) (x : string) :
  wf_grid g m = true -> i < m * m -> j < m * m -> cell g i j = "" -> x <> "" ->
  empties g = S (empties (set_cell g i j x)).
Proof.
  intros Hwf Hi Hj Hc Hx. pose proof (wf_grid_inv g m Hwf) as (Hm & Hn & Hrows).
  unfold empties, set_cell.
  pose proof (list_sum_insert (fun row => length (List.filter (String.eqb "") row))
                g i (<[j := x]> (row_of g i)) [] ltac:(lia)) as E.
  cbv beta in E.
  rewrite (count_empty_insert (nth i g []) j x) in E; try assumption.
  - unfold row_of in *. lia.
  - rewrite Hrows; lia.
Qed.

Lemma map_insert {A B : Type} (f : A -> B) (l : list A) (i : nat) (y : A) :
  map f (<[i := y]> l) = <[i := f y]> (map f l).
Proof.
  revert i. induction l as [|z l IH]; intros [|i]; try reflexivity.
  change (<[S i := y]> (z :: l)) with (z :: <[i := y]> l). cbn [map].
  now rewrite IH.
Qed.

Lemma insert_nth_same {A : Type} (l : list A) (i : nat) (d : A) :
  <[i := nth i l d]> l = l.
Proof.
  revert i. induction l as [|z l IH]; intros [|i]; try reflexivity.
  change (<[S i := nth (S i) (z :: l) d]> (z :: l)) with (z :: <[i := nth i l d]> l).
  now rewrite IH.
Qed.

Lemma col_set_cell (g : grid) (m i j b : nat) (x : string) :
  wf_grid g m = true -> i < m * m -> j < m * m ->
  col_of (set_cell g i j x) b = if Nat.eqb b j then <[i := x]> (col_of g j) else col_of g b.
Proof.
  intros Hwf Hi Hj. pose proof (wf_grid_inv g m Hwf) as (Hm & Hn & Hrows).
  unfold col_of, set_cell. rewrite map_insert.
  assert (Hlen : j < length (row_of g i)) by (unfold row_of; rewrite Hrows; lia).
  rewrite (nth_insert (row_of g i) j b x "" Hlen).
  destruct (Nat.eqb_spec b j) as [->|Hne]; [reflexivity|].
  unfold row_of.
  rewrite <- (map_nth (fun row => nth b row "") g [] i) at 1.
  cbn [nth]. replace (nth b [] "") with "" by now destruct b.
  apply insert_nth_same.
Qed.

Lemma contains_filled (x : string) (l : list string) :
  x <> "" -> contains x (filled l) = contains x l.
Proof.
  intros Hx. induction l as [|y l IH]; [reflexivity|].
  change (filled (y :: l)) with (if negb (String.eqb y "") then y :: filled l else filled l).
  change (contains x (y :: l)) with (orb (String.eqb x y) (contains x l)).
  destruct (String.eqb_spec y "") as [->|Hy]; cbn [negb].
  - destruct (String.eqb_spec x "") as [E|_]; [contradiction|]. exact IH.
  - change (contains x (y :: filled l)) with (orb (String.eqb x y) (contains x (filled l))).
    now rewrite IH.
Qed.

(** Assigning a letter that a group of cells does not hold keeps the
    letters of the group different. *)
Lemma distinct_insert (l : list string) (i : nat) (x : string) :
  x <> "" -> contains x l = false -> distinct (filled l) = true ->
  distinct (filled (<[i := x]> l)) = true.
Proof.
  intros Hx. revert i. induction l as [|y l IH]; intros i Hc Hd; [now destruct i|].
  change (contains x (y :: l)) with (orb (String.eqb x y) (contains x l)) in Hc.
  apply orb_false_iff in Hc as (Hxy & Hc).
  apply String.eqb_neq in Hxy.
  assert (Hd' : distinct (filled l) = true).
  { unfold filled in Hd |- *. cbn [List.filter] in Hd.
    destruct (negb (String.eqb y "")); [|exact Hd].
    cbn [distinct] in Hd. now apply andb_true_iff in Hd as (_ & Hd). }
  destruct i as [|i].
  - change (<[0 := x]> (y :: l)) with (x :: l). unfold filled. cbn [List.filter].
    destruct (String.eqb_spec x "") as [E|_]; [contradiction|]. cbn [negb distinct].
    fold (filled l). rewrite (contains_filled x l Hx), Hc. exact Hd'.
  - change (<[S i := x]> (y :: l)) with (y :: <[i := x]> l). unfold filled. cbn [List.filter].
    destruct (String.eqb_spec y "") as [Ey|Hy]; cbn [negb].
    + now apply IH.
    + cbn [distinct]. fold (filled (<[i := x]> l)). rewrite (IH i Hc Hd'), andb_true_r.
      apply negb_true_iff. rewrite (contains_filled y _ Hy).
      apply contains_false. intros Hin.
      unfold filled in Hd. cbn [List.filter] in Hd.
      destruct (String.eqb_spec y "") as [E|_]; [contradiction|]. cbn [negb distinct] in Hd.
      apply andb_true_iff in Hd as (Hd & _). apply negb_true_iff in Hd.
      fold (filled l) in Hd. rewrite (contains_filled y l Hy) in Hd.
      apply contains_false in Hd. apply Hd.
      clear -Hin Hxy. revert i Hin. induction l as [|z l IHl]; intros [|i] Hin;
        cbn in Hin; try contradiction.
      * destruct Hin as [E|Hin]; [congruence | now right].
      * destruct Hin as [E|Hin]; [now left | right; now apply (IHl i)].
Qed.

Lemma cols_distinct_set_cell (g : grid) (m i j : nat) (x : string) :
  wf_grid g m = true -> i < m * m -> j < m * m ->
  cols_distinct g m = true -> In x (candidates g m i j) ->
  cols_distinct (set_cell g i j x) m = true.
Proof.
  intros Hwf Hi Hj Hcols Hx. unfold cols_distinct in *.
  rewrite forallb_forall in Hcols |- *. intros b Hb.
  rewrite (col_set_cell g m i j b x Hwf Hi Hj).
  destruct (Nat.eqb_spec b j) as [->|Hne]; [|now apply Hcols].
  unfold candidates in Hx. apply filter_In in Hx as (Hl & Habs).
  unfold absent in Habs. apply andb_true_iff in Habs as (_ & Habs).
  apply andb_true_iff in Habs as (Hcol & _). apply negb_true_iff in Hcol.
  apply distinct_insert; [now apply (letters_nonempty (m * m)) | exact Hcol | now apply Hcols].
Qed.

Lemma row_of_cells (g : grid) (m i : nat) :
  wf_grid g m = true -> i < m * m ->
  map (fun j => cell g i j) (seq 0 (m * m)) = row_of g i.
Proof.
  intros Hwf Hi. pose proof (wf_grid_inv g m Hwf) as (Hm & Hn & Hrows).
  apply (nth_ext _ _ "" "").
  - rewrite length_map, length_seq. unfold row_of. now rewrite Hrows.
  - intros k Hk. rewrite length_map, length_seq in Hk.
    rewrite (MutationFacts.nth_map _ _ _ _ 0) by (rewrite length_seq; lia).
    rewrite seq_nth by lia. reflexivity.
Qed.

Lemma flat_map_prod {A B C : Type} (f : A -> B -> C) (la : list A) (lb : list B) :
  flat_map (fun a => map (f a) lb) la = map (fun p => f (fst p) (snd p)) (list_prod la lb).
Proof.
  induction la as [|a la IH]; [reflexivity|].
  cbn [flat_map list_prod]. rewrite map_app, map_map, IH. reflexivity.
Qed.

Lemma block_of_cells (g : grid) (m i j : nat) :
  block_of g m i j =
  map (fun p => cell g (i / m * m + fst p) (j / m * m + snd p))
      (list_prod (seq 0 m) (seq 0 m)).
Proof.
  unfold block_of.
  apply (flat_map_prod (fun a b => cell g (i / m * m + a) (j / m * m + b))).
Qed.

Lemma NoDup_map_inj_in {A B : Type} (f : A -> B) (l : list A) (a b : A) :
  List.NoDup (map f l) -> In a l -> In b l -> f a = f b -> a = b.
Proof.
  induction l as [|x l IH]; intros Hnd Ha Hb E; [contradiction|].
  cbn [map] in Hnd. apply List.NoDup_cons_iff in Hnd as (Hx & Hnd).
  destruct Ha as [->|Ha], Hb as [->|Hb]; try reflexivity.
  - exfalso. apply Hx. rewrite E. now apply in_map.
  - exfalso. apply Hx. rewrite <- E. now apply in_map.
  - now apply IH.
Qed.

(** In a group of cells that a solved board fills with different
    letters, the letter of a cell that is empty on [f] occurs nowhere in
    the group on [f]. *)
Lemma absent_in_group {A : Type} (f f' : A -> string) (ps : list A) (p0 : A) :
  List.NoDup (map f' ps) -> In p0 ps -> f p0 = "" -> f' p0 <> "" ->
  (forall p, In p ps -> f p <> "" -> f' p = f p) ->
  contains (f' p0) (map f ps) = false.
Proof.
  intros Hnd Hp0 Hempty Hx Hkeep. apply contains_false. intros Hin.
  apply in_map_iff in Hin as (p & Hp & Hin).
  assert (f' p = f p) by (apply Hkeep; [exact Hin | congruence]).
  assert (p = p0) by (apply (NoDup_map_inj_in f' ps); congruence).
  subst p. congruence.
Qed.

Lemma grid_ext (g g' : grid) (m : nat) :
  wf_grid g m = true -> wf_grid g' m = true ->
  (forall i j, i < m * m -> j < m * m -> cell g i j = cell g' i j) -> g = g'.
Proof.
  intros Hwf Hwf' Hcells.
  pose proof (wf_grid_inv g m Hwf) as (Hm & Hn & Hrows).
  pose proof (wf_grid_inv g' m Hwf') as (_ & Hn' & Hrows').
  apply (nth_ext _ _ [] []); [congruence|]. intros i Hi. rewrite Hn in Hi.
  apply (nth_ext _ _ "" ""); [rewrite Hrows, Hrows'; lia|].
  intros j Hj. rewrite Hrows in Hj by lia. now apply Hcells.
Qed.

Lemma letters_perm_NoDup (n : nat) (l : list string) :
  Permutation l (letters n) -> List.NoDup l.
Proof.
  intros HP. eapply Permutation_NoDup; [apply Permutation_sym; exact HP | apply letters_NoDup].
Qed.

Lemma latin_cell_letter (g : grid) (m i j : nat) :
  wf_grid g m = true -> latin g m -> i < m * m -> j < m * m ->
  In (cell g i j) (letters (m * m)).
Proof.
  intros Hwf (Hr & _) Hi Hj. pose proof (wf_grid_inv g m Hwf) as (Hm & Hn & Hrows).
  eapply Permutation_in; [apply (Hr i Hi)|].
  unfold cell, row_of. apply nth_In. rewrite Hrows; lia.
Qed.

(** The letter a solved board has in a cell that is still empty is a
    candidate for the cell. *)
Lemma completes_candidate (g g' : grid) (m i j : nat) :
  wf_grid g m = true -> completes g g' m ->
  i < m * m -> j < m * m -> cell g i j = "" ->
  In (cell g' i j) (candidates g m i j).
Proof.
  intros Hwf (Hwf' & Hlat & Hkeep) Hi Hj Hempty.
  pose proof (wf_grid_inv g m Hwf) as (Hm & Hn & Hrows).
  pose proof (wf_grid_inv g' m Hwf') as (_ & Hn' & Hrows').
  pose proof (latin_cell_letter g' m i j Hwf' Hlat Hi Hj) as Hx.
  pose proof (letters_nonempty _ _ Hx) as Hne.
  destruct Hlat as (Hr & Hc & Hb).
  apply filter_In. split; [exact Hx|].
  unfold absent. rewrite !andb_true_iff, !negb_true_iff. split; [|split].
  - rewrite <- (row_of_cells g m i Hwf Hi).
    apply (absent_in_group (fun b => cell g i b) (fun b => cell g' i b) _ j);
      try assumption.
    + rewrite (row_of_cells g' m i Hwf' Hi). eapply letters_perm_NoDup, Hr, Hi.
    + apply in_seq. lia.
    + intros b Hb' Hfilled. apply in_seq in Hb'. apply Hkeep; [assumption | lia | assumption].
  - rewrite <- (col_of_cells g j), Hn.
    apply (absent_in_group (fun a => cell g a j) (fun a => cell g' a j) _ i);
      try assumption.
    + rewrite <- Hn', (col_of_cells g' j). eapply letters_perm_NoDup, Hc, Hj.
    + apply in_seq. lia.
    + intros a Ha Hfilled. apply in_seq in Ha. apply Hkeep; [lia | assumption | assumption].
  - rewrite (block_of_cells g m i j).
    pose proof (Nat.div_mod_eq i m) as Ei. pose proof (Nat.div_mod_eq j m) as Ej.
    pose proof (Nat.mod_upper_bound i m ltac:(lia)) as Hmi.
    pose proof (Nat.mod_upper_bound j m ltac:(lia)) as Hmj.
    assert (Eci : i / m * m + i mod m = i) by lia.
    assert (Ecj : j / m * m + j mod m = j) by lia.
    pose proof (absent_in_group
                  (fun p => cell g (i / m * m + fst p) (j / m * m + snd p))
                  (fun p => cell g' (i / m * m + fst p) (j / m * m + snd p))
                  (list_prod (seq 0 m) (seq 0 m)) (i mod m, j mod m)) as H.
    cbn [fst snd] in H. rewrite Eci, Ecj in H. apply H; try assumption.
    + rewrite <- (block_of_cells g' m i j). eapply letters_perm_NoDup, Hb; assumption.
    + apply in_prod; apply in_seq; lia.
    + intros (a, b) Hp Hfilled. apply in_prod_iff in Hp as (Ha & Hb').
      apply in_seq in Ha, Hb'. cbn [fst snd] in *.
      apply Hkeep; [apply block_in_range | apply block_in_range | ]; assumption || lia.
Qed.

Lemma completes_set_cell (g g' : grid) (m i j : nat) :
  wf_grid g m = true -> completes g g' m ->
  i < m * m -> j < m * m ->
  completes (set_cell g i j (cell g' i j)) g' m.
Proof.
  intros Hwf (Hwf' & Hlat & Hkeep) Hi Hj. split; [exact Hwf'|]. split; [exact Hlat|].
  intros a b Ha Hb. rewrite (cell_set_cell g m i j a b _ Hwf Hi Hj).
  destruct (Nat.eqb_spec a i) as [->|]; cbn [andb]; [|now apply Hkeep].
  destruct (Nat.eqb_spec b j) as [->|]; [reflexivity | now apply Hkeep].
Qed.

Lemma completes_before (g g' : grid) (m i j : nat) (x : string) :
  wf_grid g m = true -> i < m * m -> j < m * m -> cell g i j = "" ->
  completes (set_cell g i j x) g' m -> completes g g' m.
Proof.
  intros Hwf Hi Hj Hempty (Hwf' & Hlat & Hkeep). split; [exact Hwf'|]. split; [exact Hlat|].
  intros a b Ha Hb Hfilled. specialize (Hkeep a b Ha Hb).
  rewrite (cell_set_cell g m i j a b _ Hwf Hi Hj) in Hkeep.
  destruct (Nat.eqb_spec a i) as [Ea|]; cbn [andb] in Hkeep; [|now apply Hkeep].
  destruct (Nat.eqb_spec b j) as [Eb|]; [congruence | now apply Hkeep].
Qed.

Lemma no_empty_cell_inv (g : grid) (m i j : nat) :
  wf_grid g m = true -> no_empty_cell g = true -> i < m * m -> j < m * m ->
  cell g i j <> "".
Proof.
  intros Hwf Hfull Hi Hj. pose proof (wf_grid_inv g m Hwf) as (Hm & Hn & Hrows).
  unfold no_empty_cell in Hfull. rewrite forallb_forall in Hfull.
  specialize (Hfull (nth i g []) ltac:(apply nth_In; lia)).
  apply negb_true_iff, contains_false in Hfull. intros E. apply Hfull.
  rewrite <- E. unfold cell. apply nth_In. rewrite Hrows; lia.
Qed.

Lemma completes_full (g g' : grid) (m : nat) :
  wf_grid g m = true -> no_empty_cell g = true -> completes g g' m -> g = g'.
Proof.
  intros Hwf Hfull (Hwf' & _ & Hkeep). apply (grid_ext g g' m Hwf Hwf').
  intros i j Hi Hj. symmetry. apply Hkeep; try assumption.
  now apply (no_empty_cell_inv g m).
Qed.

Lemma solved_no_empty (g : grid) (m : nat) :
  solved_b g m = true -> no_empty_cell g = true.
Proof. unfold solved_b, no_empty_cell. now intros (H & _)%andb_true_iff. Qed.

End BoardFacts.

(** ** Exhaustive search on states with a decreasing measure *)

Module SearchFacts.

Import Solver SearchSpec.

Section Exhaustive.

Context {S : Type}.
Variable is_solved : S -> result bool.
Variable extensions : S -> result (list S).

(** A class of states on which the two calls return, with a measure that
    every move decreases. *)
Variable Inv : S -> Prop.
Variable mu : S -> nat.
Hypothesis Inv_solved : forall s, Inv s -> exists b, is_solved s = Ok b.
Hypothesis Inv_extensions :
  forall s, Inv s -> is_solved s = Ok false ->
    exists es, extensions s = Ok es /\ forall e, In e es -> Inv e /\ mu e < mu s.

Local Abbreviation leads := (leads is_solved extensions).

(** On such states the two searches return: [solve_complete] the solved
    states the moves lead to, [solve_depth] the first of them. *)
Lemma exhaustive_search (fuel : nat) :
  forall s : S,
    Inv s -> mu s < fuel ->
    exists l,
      solve_complete is_solved extensions fuel s = Some (Ok l) /\
      solve_depth is_solved extensions fuel s = Some (Ok (List.hd_error l)) /\
      forall t, In t l <-> leads s t.
Proof.
  induction fuel as [|fuel IH]; intros s HI Hmu; [lia|].
  cbn [Solver.solve_depth Solver.solve_complete lift sbind].
  destruct (Inv_solved s HI) as ([|] & Hs); rewrite Hs; cbn [sbind sret].
  - exists [s]. split; [reflexivity|]. split; [reflexivity|].
    intros t. split.
    + intros [<-|[]]. now apply leads_here.
    + intros H. inversion H; subst; [now left | congruence].
  - destruct (Inv_extensions s HI Hs) as (es & He & Hes). rewrite He. cbn [sbind].
    set (loopd := fix loop (l : list S) : search (option S) :=
           match l with
           | [] => sret None
           | new_state :: l' =>
               let! state := Solver.solve_depth is_solved extensions fuel new_state in
               match state with
               | Some st => sret (Some st)
               | None => loop l'
               end
           end).
    set (loopc := fix loop (l solutions : list S) : search (list S) :=
           match l with
           | [] => sret solutions
           | new_state :: l' =>
               let! found := Solver.solve_complete is_solved extensions fuel new_state in
               match found with
               | [] => loop l' solutions
               | _ :: _ =>
                   let! again := Solver.solve_complete is_solved extensions fuel new_state in
                   loop l' (solutions ++ again)
               end
           end).
    assert (Hloop : forall l, (forall e, In e l -> Inv e /\ mu e < mu s) ->
      exists r,
        (forall sols, loopc l sols = Some (Ok (sols ++ r))) /\
        loopd l = Some (Ok (List.hd_error r)) /\
        forall t, In t r <-> exists e, In e l /\ leads e t).
    { induction l as [|e l IHl]; intros Hl.
      - exists []. split; [intros sols; cbn; now rewrite app_nil_r|].
        split; [reflexivity|]. intros t. split; [intros [] | intros (e & [] & _)].
      - destruct (Hl e ltac:(now left)) as (HIe & Hmue).
        destruct (IH e HIe ltac:(lia)) as (le & Hc & Hd & Hle).
        destruct (IHl ltac:(intros x Hx; apply Hl; now right)) as (r & Hrc & Hrd & Hr).
        exists (le ++ r). split; [|split].
        + intros sols.
          change (loopc (e :: l) sols) with
            (let! found := Solver.solve_complete is_solved extensions fuel e in
             match found with
             | [] => loopc l sols
             | _ :: _ =>
                 let! again := Solver.solve_complete is_solved extensions fuel e in
                 loopc l (sols ++ again)
             end).
          rewrite Hc. cbn [sbind]. destruct le as [|x le].
          * apply Hrc.
          * rewrite Hrc. now rewrite app_assoc.
        + change (loopd (e :: l)) with
            (let! state := Solver.solve_depth is_solved extensions fuel e in
             match state with
             | Some st => sret (Some st)
             | None => loopd l
             end).
          rewrite Hd. cbn [sbind]. destruct le as [|x le]; [exact Hrd | reflexivity].
        + intros t. rewrite in_app_iff, Hle, Hr. split.
          * intros [H|(x & Hx & H)]; [exists e; split; [now left | exact H]|].
            exists x. split; [now right | exact H].
          * intros (x & [<-|Hx] & H); [now left | right; now exists x]. }
    destruct (Hloop es Hes) as (r & Hrc & Hrd & Hr). exists r.
    split; [exact (Hrc [])|]. split; [exact Hrd|].
    intros t. rewrite Hr. split.
    + intros (e & Hin & H). eapply leads_move; eassumption.
    + intros H. inversion H; subst; [congruence|].
      match goal with Hx : extensions s = Ok ?l |- _ => rewrite He in Hx; injection Hx as <- end.
      now exists e.
Qed.

End Exhaustive.

End SearchFacts.

(** ** Sudoku: the depth-first search *)

Module SudokuSearch.

Import SudokuPuzzle SudokuSpec SudokuFacts SolvedFacts BoardFacts SearchSpec SearchFacts.

Lemma candidates_letter (g : grid) (m i j : nat) (x : string) :
  In x (candidates g m i j) -> x <> "".
Proof.
  intros H. apply filter_In in H as (H & _). now apply (letters_nonempty (m * m)).
Qed.

Lemma extensions_none (g : grid) (m : nat) :
  wf_grid g m = true ->
  first_empty (__init__ g) (range (m * m)) = Ok None -> extensions (__init__ g) = Ok [].
Proof.
  intros Hwf Hfe. pose proof (wf_grid_inv g m Hwf) as (Hm & Hn & Hrows).
  unfold extensions. cbn [__init__ _n].
  change {| _n := length g; _grid := g |} with (__init__ g).
  now rewrite Hn, Hfe.
Qed.

(** The successors of a board of the class: either none, or the board
    with one empty cell set to each of its candidate letters. *)
Lemma extensions_cases (g : grid) (m : nat) :
  wf_grid g m = true -> cols_distinct g m = true ->
  (no_empty_cell g = true /\ extensions (__init__ g) = Ok []) \/
  (exists i j, i < m * m /\ j < m * m /\ cell g i j = "" /\
     extensions (__init__ g)
     = Ok (map (fun x => __init__ (set_cell g i j x)) (candidates g m i j))).
Proof.
  intros Hwf Hcols. destruct (first_empty_cases g m Hwf) as [(Hfe & Hfull)|(i & j & Hfe & Hi & Hj & Hc)].
  - left. split; [exact Hfull | now apply (extensions_none g m)].
  - right. exists i, j. repeat split; try assumption.
    now apply extensions_value.
Qed.

Lemma board_inv_init (g : grid) (m : nat) :
  wf_grid g m = true -> cols_distinct g m = true -> board_inv m (__init__ g).
Proof. intros Hwf Hcols. now split. Qed.

Lemma board_inv_solved (m : nat) (s : SudokuPuzzle.t) :
  board_inv m s -> exists b, is_solved s = Ok b.
Proof.
  intros (-> & Hwf & _). exists (solved_b (_grid s) m). now apply is_solved_value.
Qed.

Lemma board_inv_extensions (m : nat) (s : SudokuPuzzle.t) :
  board_inv m s -> is_solved s = Ok false ->
  exists es, extensions s = Ok es /\
             forall e, In e es -> board_inv m e /\ board_mu e < board_mu s.
Proof.
  intros (Es & Hwf & Hcols) _. rewrite Es.
  destruct (extensions_cases _ m Hwf Hcols) as [(_ & ->)|(i & j & Hi & Hj & Hc & ->)].
  - exists []. split; [reflexivity | intros e []].
  - eexists. split; [reflexivity|]. intros e He.
    apply in_map_iff in He as (x & <- & Hx).
    unfold board_inv, board_mu. cbn [__init__ _grid]. split; [split; [reflexivity|split]|].
    + now apply wf_set_cell.
    + now apply cols_distinct_set_cell.
    + rewrite (empties_set_cell (_grid s) m i j x); try assumption; [lia|].
      now apply (candidates_letter (_grid s) m i j).
Qed.

Local Abbreviation leads := (leads is_solved extensions).

Lemma leads_completes (m : nat) (s t : SudokuPuzzle.t) :
  leads s t ->
  forall g, s = __init__ g -> wf_grid g m = true -> cols_distinct g m = true ->
    exists g', t = __init__ g' /\ completes g g' m.
Proof.
  induction 1 as [s Hs | s es e t Hs He Hin Hl IH]; intros g -> Hwf Hcols.
  - exists g. split; [reflexivity|].
    rewrite (is_solved_value g m Hwf) in Hs. injection Hs as Hs.
    split; [exact Hwf|]. split; [now apply solved_b_latin | reflexivity].
  - destruct (extensions_cases g m Hwf Hcols) as [(_ & E)|(i & j & Hi & Hj & Hc & E)];
      rewrite E in He; injection He as <-; [contradiction|].
    apply in_map_iff in Hin as (x & <- & Hx).
    destruct (IH (set_cell g i j x) eq_refl) as (g' & -> & Hcomp).
    + now apply wf_set_cell.
    + now apply cols_distinct_set_cell.
    + exists g'. split; [reflexivity|]. now apply (completes_before g g' m i j x).
Qed.

Lemma completes_leads (m : nat) (g' : grid) (k : nat) :
  forall g, empties g < k -> wf_grid g m = true -> cols_distinct g m = true ->
    completes g g' m -> leads (__init__ g) (__init__ g').
Proof.
  induction k as [|k IH]; intros g Hk Hwf Hcols Hcomp; [lia|].
  assert (Hfull : no_empty_cell g = true -> leads (__init__ g) (__init__ g')).
  { intros Hfull. rewrite <- (completes_full g g' m Hwf Hfull Hcomp).
    apply leads_here. rewrite (is_solved_value g m Hwf). f_equal.
    apply solved_b_latin; [exact Hwf|].
    rewrite (completes_full g g' m Hwf Hfull Hcomp). apply Hcomp. }
  destruct (solved_b g m) eqn:Hs; [apply Hfull; now apply (solved_no_empty g m)|].
  destruct (extensions_cases g m Hwf Hcols) as [(Hf & _)|(i & j & Hi & Hj & Hc & E)];
    [now apply Hfull|].
  pose proof (completes_candidate g g' m i j Hwf Hcomp Hi Hj Hc) as Hx.
  eapply leads_move.
  - rewrite (is_solved_value g m Hwf). now f_equal.
  - exact E.
  - apply in_map_iff. exists (cell g' i j). split; [reflexivity | exact Hx].
  - apply IH.
    + pose proof (empties_set_cell g m i j (cell g' i j) Hwf Hi Hj Hc
                    (candidates_letter g m i j _ Hx)). lia.
    + now apply wf_set_cell.
    + now apply cols_distinct_set_cell.
    + now apply completes_set_cell.
Qed.

Lemma no_conflict_cols (g : grid) (m : nat) :
  no_conflict g m = true -> cols_distinct g m = true.
Proof.
  unfold no_conflict, cols_distinct. intros H.
  apply andb_true_iff in H as (_ & H). now apply andb_true_iff in H as (H & _).
Qed.

(** X2.  The depth-first search on a Sudoku board returns: a solved board that
    keeps the letters of the given one, or nothing when there is no such
    board. *)
Theorem sudoku_solve_spec (wordfile : list string) (h : store) (g : grid) (m fuel : nat) :
  wf_grid g m = true -> cols_distinct g m = true -> empties g < fuel ->
  (exists g', Solver.solve wordfile h fuel (Solver.Sudoku (__init__ g))
              = Some (Ok (Solver.APuzzle (Solver.Sudoku (__init__ g'))))
              /\ completes g g' m) \/
  (Solver.solve wordfile h fuel (Solver.Sudoku (__init__ g)) = Some (Ok Solver.ANone) /\
   forall g', ~ completes g g' m).
Proof.
  intros Hwf Hcols Hfuel.
  destruct (exhaustive_search is_solved extensions (board_inv m) board_mu
              (board_inv_solved m) (board_inv_extensions m) fuel (__init__ g)
              (board_inv_init g m Hwf Hcols) Hfuel) as (l & _ & Hd & Hl).
  cbn [Solver.solve]. rewrite Hd. cbn [sbind]. destruct l as [|t l]; cbn [List.hd_error].
  - right. split; [reflexivity|]. intros g' Hcomp.
    apply (Hl (__init__ g')). apply (completes_leads m g' (S (empties g))); auto.
  - left. destruct (leads_completes m (__init__ g) t (proj1 (Hl t) ltac:(now left))
                      g eq_refl Hwf Hcols) as (g' & -> & Hcomp).
    exists g'. split; [reflexivity | exact Hcomp].
Qed.

(** X3.  [solve_complete] on a Sudoku board returns the solved boards that
    keep the letters of the given one, all of them. *)
Theorem sudoku_solve_complete_spec (g : grid) (m fuel : nat) :
  wf_grid g m = true -> cols_distinct g m = true -> empties g < fuel ->
  exists l,
    Solver.solve_complete is_solved extensions fuel (__init__ g) = Some (Ok l) /\
    forall t, In t l <-> exists g', t = __init__ g' /\ completes g g' m.
Proof.
  intros Hwf Hcols Hfuel.
  destruct (exhaustive_search is_solved extensions (board_inv m) board_mu
              (board_inv_solved m) (board_inv_extensions m) fuel (__init__ g)
              (board_inv_init g m Hwf Hcols) Hfuel) as (l & Hc & _ & Hl).
  exists l. split; [exact Hc|]. intros t. rewrite Hl. split.
  - intros H. now apply (leads_completes m (__init__ g) t H g).
  - intros (g' & -> & Hcomp). apply (completes_leads m g' (S (empties g))); auto.
Qed.

End SudokuSearch.

(** ** Sudoku: what the successors keep *)

Module SuccessorFacts.

Import SudokuPuzzle SudokuSpec SudokuFacts OrderFacts SolvedFacts BoardFacts SudokuSearch.

(** The letters of a group of cells stay different when one cell of the
    board is set to a letter the group does not hold, or to any letter
    when the cell is not in the group.  A group is given by the
    coordinates of its cells. *)
Lemma distinct_group_set_cell (g : grid) (m i j : nat) (x : string)
    (ps : list (nat * nat)) :
  wf_grid g m = true -> i < m * m -> j < m * m -> x <> "" ->
  List.NoDup ps ->
  (In (i, j) ps -> contains x (map (fun p => cell g (fst p) (snd p)) ps) = false) ->
  distinct (filled (map (fun p => cell g (fst p) (snd p)) ps)) = true ->
  distinct (filled (map (fun p => cell (set_cell g i j x) (fst p) (snd p)) ps)) = true.
Proof.
  intros Hwf Hi Hj Hx. induction ps as [|[a b] ps IH]; intros Hnd Habs Hd; [reflexivity|].
  apply List.NoDup_cons_iff in Hnd as (Hp & Hnd).
  cbn [map fst snd] in *.
  assert (Htail : distinct (filled (map (fun p => cell g (fst p) (snd p)) ps)) = true).
  { unfold filled in Hd |- *. cbn [List.filter] in Hd.
    destruct (negb (String.eqb (cell g a b) "")); [|exact Hd].
    cbn [distinct] in Hd. now apply andb_true_iff in Hd as (_ & Hd). }
  rewrite (cell_set_cell g m i j a b x Hwf Hi Hj).
  destruct (andb (Nat.eqb a i) (Nat.eqb b j)) eqn:Eab.
  - apply andb_true_iff in Eab as (Ea & Eb). apply Nat.eqb_eq in Ea, Eb. subst a b.
    assert (Hsame : map (fun p => cell (set_cell g i j x) (fst p) (snd p)) ps
                    = map (fun p => cell g (fst p) (snd p)) ps).
    { apply map_ext_in. intros [a b] Hin. cbn [fst snd].
      rewrite (cell_set_cell g m i j a b x Hwf Hi Hj).
      destruct (Nat.eqb_spec a i) as [->|]; [|reflexivity].
      destruct (Nat.eqb_spec b j) as [->|]; [contradiction | reflexivity]. }
    rewrite Hsame. unfold filled. cbn [List.filter].
    destruct (String.eqb_spec x "") as [E|_]; [contradiction|]. cbn [negb distinct].
    fold (filled (map (fun p => cell g (fst p) (snd p)) ps)).
    rewrite Htail, andb_true_r. apply negb_true_iff.
    rewrite (contains_filled x _ Hx).
    specialize (Habs ltac:(now left)).
    change (contains x (cell g i j :: map (fun p => cell g (fst p) (snd p)) ps))
      with (orb (String.eqb x (cell g i j))
                (contains x (map (fun p => cell g (fst p) (snd p)) ps))) in Habs.
    now apply orb_false_iff in Habs as (_ & Habs).
  - assert (Habs' : In (i, j) ps ->
              contains x (map (fun p => cell g (fst p) (snd p)) ps) = false).
    { intros Hin. specialize (Habs ltac:(now right)).
      change (contains x (cell g a b :: map (fun p => cell g (fst p) (snd p)) ps))
        with (orb (String.eqb x (cell g a b))
                  (contains x (map (fun p => cell g (fst p) (snd p)) ps))) in Habs.
      now apply orb_false_iff in Habs as (_ & Habs). }
    specialize (IH Hnd Habs' Htail).
    unfold filled. cbn [List.filter].
    destruct (String.eqb_spec (cell g a b) "") as [E|Hy]; cbn [negb]; [exact IH|].
    cbn [distinct]. fold (filled (map (fun p => cell (set_cell g i j x) (fst p) (snd p)) ps)).
    rewrite IH, andb_true_r. apply negb_true_iff.
    rewrite (contains_filled _ _ Hy). apply contains_false. intros Hin.
    apply in_map_iff in Hin as ([a' b'] & Hcell & Hin). cbn [fst snd] in Hcell.
    rewrite (cell_set_cell g m i j a' b' x Hwf Hi Hj) in Hcell.
    destruct (andb (Nat.eqb a' i) (Nat.eqb b' j)) eqn:Eab'.
    + apply andb_true_iff in Eab' as (Ea & Eb). apply Nat.eqb_eq in Ea, Eb. subst a' b'.
      specialize (Habs ltac:(now right)).
      change (contains x (cell g a b :: map (fun p => cell g (fst p) (snd p)) ps))
        with (orb (String.eqb x (cell g a b))
                  (contains x (map (fun p => cell g (fst p) (snd p)) ps))) in Habs.
      apply orb_false_iff in Habs as (Habs & _). apply String.eqb_neq in Habs. congruence.
    + unfold filled in Hd. cbn [List.filter] in Hd.
      destruct (String.eqb_spec (cell g a b) "") as [E|_]; [contradiction|].
      cbn [negb distinct] in Hd. apply andb_true_iff in Hd as (Hd & _).
      apply negb_true_iff in Hd.
      fold (filled (map (fun p => cell g (fst p) (snd p)) ps)) in Hd.
      rewrite (contains_filled _ _ Hy) in Hd. apply contains_false in Hd. apply Hd.
      apply in_map_iff. exists (a', b'). split; [exact Hcell | exact Hin].
Qed.

Lemma NoDup_map_inj {A B : Type} (f : A -> B) (l : list A) :
  (forall a b, In a l -> In b l -> f a = f b -> a = b) ->
  List.NoDup l -> List.NoDup (map f l).
Proof.
  intros Hinj. induction 1 as [|x l Hx Hnd IH]; [constructor|].
  cbn [map]. constructor.
  - intros Hin. apply in_map_iff in Hin as (y & E & Hy).
    assert (y = x) by (apply Hinj; [now right | now left | exact E]). now subst.
  - apply IH. intros a b Ha Hb. apply Hinj; now right.
Qed.

Lemma NoDup_list_prod {A B : Type} (la : list A) (lb : list B) :
  List.NoDup la -> List.NoDup lb -> List.NoDup (list_prod la lb).
Proof.
  intros Ha Hb. induction Ha as [|a la Hin Hnd IH]; [constructor|].
  cbn [list_prod]. apply List.NoDup_app.
  - apply NoDup_map_inj; [|exact Hb]. intros x y _ _ E. now injection E.
  - exact IH.
  - intros [a' b'] H1 H2. apply in_map_iff in H1 as (y & E & _). injection E as <- <-.
    apply in_prod_iff in H2 as (H2 & _). contradiction.
Qed.

Lemma absent_inv (g : grid) (m i j : nat) (x : string) :
  In x (candidates g m i j) ->
  x <> "" /\ contains x (row_of g i) = false /\ contains x (col_of g j) = false /\
  contains x (block_of g m i j) = false.
Proof.
  intros H. split; [now apply (candidates_letter g m i j)|].
  apply filter_In in H as (_ & H). unfold absent in H.
  rewrite !andb_true_iff, !negb_true_iff in H. tauto.
Qed.

(** Setting an empty cell to one of its candidate letters keeps the
    board free of conflicts. *)
Lemma no_conflict_set_cell (g : grid) (m i j : nat) (x : string) :
  wf_grid g m = true -> no_conflict g m = true -> i < m * m -> j < m * m ->
  In x (candidates g m i j) ->
  no_conflict (set_cell g i j x) m = true.
Proof.
  intros Hwf Hnc Hi Hj Hx.
  pose proof (wf_grid_inv g m Hwf) as (Hm & Hn & Hrows).
  pose proof (wf_set_cell g m i j x Hwf) as Hwf'.
  pose proof (wf_grid_inv _ m Hwf') as (_ & Hn' & _).
  destruct (absent_inv g m i j x Hx) as (Hne & Hrow & Hcol & Hblk).
  unfold no_conflict in Hnc |- *.
  apply andb_true_iff in Hnc as (Hr & Hnc). apply andb_true_iff in Hnc as (Hc & Hb).
  rewrite forallb_forall in Hr, Hc, Hb.
  rewrite !andb_true_iff, !forallb_forall. split; [|split].
  - intros a Ha. pose proof Ha as Ha'. apply in_seq in Ha'.
    rewrite <- (row_of_cells _ m a Hwf') by lia.
    rewrite <- (map_map (fun b => (a, b)) (fun p => cell (set_cell g i j x) (fst p) (snd p))).
    apply (distinct_group_set_cell g m i j x); try assumption.
    + apply NoDup_map_inj; [|apply seq_NoDup]. intros b b' _ _ E. now injection E.
    + intros Hin. apply in_map_iff in Hin as (b & E & _). injection E as E1 _.
      rewrite map_map. cbn [fst snd]. rewrite E1, (row_of_cells g m i Hwf Hi). exact Hrow.
    + rewrite map_map. cbn [fst snd]. rewrite (row_of_cells g m a Hwf) by lia.
      now apply Hr.
  - intros b Hb0. pose proof Hb0 as Hb'. apply in_seq in Hb'.
    rewrite <- (col_of_cells _ b), Hn'.
    rewrite <- (map_map (fun a => (a, b)) (fun p => cell (set_cell g i j x) (fst p) (snd p))).
    apply (distinct_group_set_cell g m i j x); try assumption.
    + apply NoDup_map_inj; [|apply seq_NoDup]. intros a a' _ _ E. now injection E.
    + intros Hin. apply in_map_iff in Hin as (a & E & _). injection E as _ E2.
      rewrite map_map. cbn [fst snd]. rewrite E2, <- Hn, (col_of_cells g j). exact Hcol.
    + rewrite map_map. cbn [fst snd]. rewrite <- Hn, (col_of_cells g b). now apply Hc.
  - intros a Ha. apply forallb_forall. intros b Hb0.
    pose proof Ha as Ha'. apply in_seq in Ha'. pose proof Hb0 as Hb'. apply in_seq in Hb'.
    rewrite (block_of_cells _ m a b).
    rewrite <- (map_map (fun p => (a / m * m + fst p, b / m * m + snd p))
                        (fun p => cell (set_cell g i j x) (fst p) (snd p))).
    apply (distinct_group_set_cell g m i j x); try assumption.
    + apply NoDup_map_inj; [|apply NoDup_list_prod; apply seq_NoDup].
      intros [p1 p2] [q1 q2] _ _ E. cbn [fst snd] in E. injection E as E1 E2.
      f_equal; lia.
    + intros Hin. apply in_map_iff in Hin as ([p1 p2] & E & Hp). cbn [fst snd] in E.
      injection E as E1 E2. apply in_prod_iff in Hp as (Hp1 & Hp2).
      apply in_seq in Hp1, Hp2.
      assert (Ea : a / m = i / m).
      { rewrite <- E1. rewrite Nat.div_add_l by lia. rewrite (Nat.div_small p1 m); lia. }
      assert (Eb : b / m = j / m).
      { rewrite <- E2. rewrite Nat.div_add_l by lia. rewrite (Nat.div_small p2 m); lia. }
      rewrite map_map. cbn [fst snd]. rewrite Ea, Eb.
      rewrite <- (block_of_cells g m i j). exact Hblk.
    + rewrite map_map. cbn [fst snd]. rewrite <- (block_of_cells g m a b).
      specialize (Hb a Ha). rewrite forallb_forall in Hb. now apply Hb.
Qed.

(** X4.  Every successor of a board without conflict is again such a board,
    with one empty cell fewer. *)
Theorem extensions_keep_no_conflict (g : grid) (m : nat) (es : list SudokuPuzzle.t) :
  wf_grid g m = true -> no_conflict g m = true ->
  extensions (__init__ g) = Ok es ->
  Forall (fun e => e = __init__ (_grid e) /\
                   wf_grid (_grid e) m = true /\ no_conflict (_grid e) m = true /\
                   S (empties (_grid e)) = empties g) es.
Proof.
  intros Hwf Hnc He.
  destruct (extensions_cases g m Hwf (no_conflict_cols g m Hnc))
    as [(_ & E)|(i & j & Hi & Hj & Hc & E)]; rewrite E in He; injection He as <-;
    [constructor|].
  apply List.Forall_forall. intros e Hin. apply in_map_iff in Hin as (x & <- & Hx).
  cbn [__init__ _grid]. split; [reflexivity|]. split; [now apply wf_set_cell|].
  split; [now apply no_conflict_set_cell|].
  symmetry. apply (empties_set_cell g m i j x); try assumption.
  now apply (candidates_letter g m i j).
Qed.

End SuccessorFacts.

(** ** Sudoku: moves, their text and the display *)

Module MoveFacts.

Import SudokuPuzzle SudokuSpec SudokuFacts OrderFacts SolvedFacts BoardFacts SudokuSearch.

(** X5.  A solved board has no successor. *)
Theorem solved_board_has_no_extensions (g : grid) :
  is_solved (__init__ g) = Ok true -> extensions (__init__ g) = Ok [].
Proof.
  intros Hs. unfold is_solved in Hs. cbn [__init__ _grid _n] in Hs.
  rewrite (all_pass_pure _ (fun row => negb (contains "" row))) in Hs by reflexivity.
  cbn [rbind] in Hs.
  destruct (forallb (fun row => negb (contains "" row)) g) eqn:Hfull; [|discriminate].
  unfold extensions, range. cbn [__init__ _n].
  change {| _n := length g; _grid := g |} with (__init__ g).
  now rewrite (first_empty_none g (length g) 0 Hfull) by lia.
Qed.

(** X6.  [move] on a cell of the board: the board with the cell set when the
    cell is empty and the letter one of its candidates, [ValueError]
    otherwise. *)
Theorem move_on_board_spec (g : grid) (m : nat) (mv letter : string) (r c : nat) :
  wf_grid g m = true -> cols_distinct g m = true ->
  (let* c1 := str_getitem mv 1 in int_of_char c1) = Ok r ->
  (let* c4 := str_getitem mv 4 in int_of_char c4) = Ok c ->
  str_last mv = Ok letter ->
  r < m * m -> c < m * m ->
  (cell g r c = "" -> In letter (candidates g m r c) ->
   move (__init__ g) mv = Ok (__init__ (set_cell g r c letter))) /\
  (cell g r c <> "" \/ ~ In letter (candidates g m r c) ->
   move (__init__ g) mv = Raise ValueError).
Proof.
  intros Hwf Hcols P1 P4 PL Hr Hc.
  assert (Hcol : distinct (filled (col_of g c)) = true).
  { unfold cols_distinct in Hcols. rewrite forallb_forall in Hcols. apply Hcols, in_seq. lia. }
  rewrite (move_on_board g m mv letter r c Hwf Hcol P1 P4 PL Hr Hc).
  split.
  - intros Hempty Hcand. apply contains_true in Hcand. rewrite Hcand, Hempty.
    cbn [negb String.eqb]. now apply (extend_value g m).
  - intros [Hfilled|Hnot].
    + destruct (contains letter (candidates g m r c)); [|reflexivity]. cbn [negb].
      apply String.eqb_neq in Hfilled. now rewrite Hfilled.
    + apply contains_false in Hnot. now rewrite Hnot.
Qed.

Lemma for_each_total {A S : Type} (P : A -> Prop) (body : S -> A -> result S) (l : list A) :
  (forall s x, P x -> exists s', body s x = Ok s') ->
  Forall P l -> forall s, exists s', for_each body l s = Ok s'.
Proof.
  intros Hbody. induction 1 as [|x l Hx Hl IH]; intros s; [now exists s|].
  cbn [for_each]. destruct (Hbody s x Hx) as (s1 & ->). cbn [rbind]. apply IH.
Qed.

(** [__str__] returns a string on every board of side [m * m]. *)
Lemma sudoku_str_total (g : grid) (m : nat) :
  wf_grid g m = true -> exists d, __str__ (__init__ g) = Ok d.
Proof.
  intros Hwf. pose proof (wf_grid_inv g m Hwf) as (Hm & Hn & Hrows).
  unfold __str__, range. cbn [__init__ _n _grid]. rewrite Hn.
  apply (for_each_total (fun i => i < m * m)).
  - intros s i Hi. cbv zeta.
    assert (Hrow : forall s0, exists s',
      for_each (fun s j =>
          let* row := getitem g i in
          let* cell := getitem row j in
          let s := if String.eqb cell "" then s +:+ " " else s +:+ cell in
          Ok (s +:+ divider (m * m) (isqrt (m * m)) j))
        (seq 0 (m * m)) s0 = Ok s').
    { apply (for_each_total (fun j => j < m * m)).
      - intros s0 j Hj. rewrite (getitem_row g m i Hwf Hi). cbn [rbind].
        rewrite (getitem_cell g m i j Hwf Hi Hj). cbn [rbind]. eexists. reflexivity.
      - apply List.Forall_forall. intros j Hj. apply in_seq in Hj. lia. }
    cbv zeta in Hrow.
    destruct (Hrow (s +:+ str_of_nat (i mod 10) +:+ "|")) as (s' & ->).
    cbn [rbind]. eexists. reflexivity.
  - apply List.Forall_forall. intros i Hi. apply in_seq in Hi. lia.
Qed.

Lemma first_diff_equal (row row' : list string) (n : nat) :
  forall j0, j0 + n <= length row -> j0 + n <= length row' ->
    (forall j, j0 <= j -> j < j0 + n -> nth j row "" = nth j row' "") ->
    first_diff row row' n j0 = Ok None.
Proof.
  induction n as [|n IH]; intros j0 Hl Hl' Heq; [reflexivity|].
  cbn [first_diff]. rewrite (getitem_lt row j0 "") by lia.
  rewrite (getitem_lt row' j0 "") by lia. cbn [rbind].
  rewrite (Heq j0) by lia. rewrite String.eqb_refl. cbn [negb].
  apply IH; try lia. intros j Hj Hj'. apply Heq; lia.
Qed.

Lemma first_diff_found (row row' : list string) (n : nat) :
  forall j0 j, j0 + n <= length row -> j0 + n <= length row' ->
    j0 <= j -> j < j0 + n -> nth j row "" <> nth j row' "" ->
    (forall j', j0 <= j' -> j' < j -> nth j' row "" = nth j' row' "") ->
    first_diff row row' n j0 = Ok (Some (j, nth j row' "")).
Proof.
  induction n as [|n IH]; intros j0 j Hl Hl' Hj0 Hj Hne Heq; [lia|].
  cbn [first_diff]. rewrite (getitem_lt row j0 "") by lia.
  rewrite (getitem_lt row' j0 "") by lia. cbn [rbind].
  destruct (Nat.eq_dec j j0) as [->|Hjne].
  - apply String.eqb_neq in Hne. now rewrite Hne.
  - rewrite (Heq j0) by lia. rewrite String.eqb_refl. cbn [negb].
    apply IH; try lia; [exact Hne|]. intros j' Hj' Hj''. apply Heq; lia.
Qed.

Lemma first_diff_total (row row' : list string) (n : nat) :
  forall j0, j0 + n <= length row -> j0 + n <= length row' ->
    exists d, first_diff row row' n j0 = Ok d.
Proof.
  induction n as [|n IH]; intros j0 Hl Hl'; [now exists None|].
  cbn [first_diff]. rewrite (getitem_lt row j0 "") by lia.
  rewrite (getitem_lt row' j0 "") by lia. cbn [rbind].
  destruct (negb (String.eqb (nth j0 row "") (nth j0 row' ""))); [eexists; reflexivity|].
  apply IH; lia.
Qed.

(** X7.  [generate_strings] names the first cell that differs in the last
    row that differs, with the letter of the new board; between two
    boards with the same cells it raises [UnboundLocalError]. *)
Theorem generate_strings_spec (g g' : grid) (m : nat) :
  wf_grid g m = true -> wf_grid g' m = true ->
  ((forall i j, i < m * m -> j < m * m -> cell g i j = cell g' i j) ->
   generate_strings (__init__ g) (__init__ g') = Raise UnboundLocalError) /\
  (forall i j, i < m * m -> j < m * m ->
     cell g i j <> cell g' i j ->
     (forall j', j' < j -> cell g i j' = cell g' i j') ->
     (forall i' j', i < i' -> i' < m * m -> j' < m * m -> cell g i' j' = cell g' i' j') ->
     generate_strings (__init__ g) (__init__ g')
     = Ok ("(" +:+ str_of_nat i +:+ ", " +:+ str_of_nat j +:+ ") -> " +:+ cell g' i j)).
Proof.
  intros Hwf Hwf'.
  pose proof (wf_grid_inv g m Hwf) as (Hm & Hn & Hrows).
  pose proof (wf_grid_inv g' m Hwf') as (_ & Hn' & Hrows').
  set (body := fun (acc : option (nat * nat * string)) a =>
        let* row := getitem g a in
        let* new_row := getitem g' a in
        let* d := first_diff row new_row (m * m) 0 in
        match d with
        | Some (j0, ch) => Ok (Some (a, j0, ch))
        | None => Ok acc
        end).
  assert (Hsame : forall k s acc, s + k <= m * m ->
            (forall a b, s <= a -> a < s + k -> b < m * m -> cell g a b = cell g' a b) ->
            for_each body (seq s k) acc = Ok acc).
  { induction k as [|k IH]; intros s acc Hk Heq; [reflexivity|].
    cbn [seq for_each]. unfold body at 1.
    rewrite (getitem_lt g s []), (getitem_lt g' s []) by lia. cbn [rbind].
    rewrite first_diff_equal; [| rewrite Hrows; lia | rewrite Hrows'; lia |].
    - cbn [rbind]. apply IH; [lia|]. intros a b Ha Ha'. apply Heq; lia.
    - intros b _ Hb. apply (Heq s b); lia. }
  assert (Htotal : forall acc a, a < m * m -> exists acc', body acc a = Ok acc').
  { intros acc a Ha. unfold body.
    rewrite (getitem_lt g a []), (getitem_lt g' a []) by lia. cbn [rbind].
    destruct (first_diff_total (nth a g []) (nth a g' []) (m * m) 0) as ([[j0 ch]|] & ->);
      [rewrite Hrows; lia | rewrite Hrows'; lia | |]; cbn [rbind]; eexists; reflexivity. }
  unfold generate_strings, range. cbn [__init__ _n _grid]. rewrite Hn. fold body.
  split.
  - intros Heq. rewrite (Hsame (m * m) 0 None) by (lia || (intros; apply Heq; lia)).
    reflexivity.
  - intros i j Hi Hj Hne Hbefore Hafter.
    assert (Hloop : forall k s acc, s + k = m * m -> s <= i ->
              for_each body (seq s k) acc = Ok (Some (i, j, cell g' i j))).
    { induction k as [|k IH]; intros s acc Hk Hs; [lia|].
      cbn [seq for_each]. destruct (Nat.eq_dec s i) as [->|Hsi].
      - unfold body at 1.
        rewrite (getitem_lt g i []), (getitem_lt g' i []) by lia. cbn [rbind].
        rewrite (first_diff_found _ _ (m * m) 0 j);
          [| rewrite Hrows; lia | rewrite Hrows'; lia | lia | lia | exact Hne
           | intros j' _ Hj'; now apply Hbefore ].
        cbn [rbind]. apply Hsame; [lia|]. intros a b Ha Ha' Hb. apply Hafter; lia.
      - destruct (Htotal acc s ltac:(lia)) as (acc' & ->). cbn [rbind].
        apply IH; lia. }
    rewrite (Hloop (m * m) 0 None) by lia. reflexivity.
Qed.

End MoveFacts.

(** ** Sudoku: a letter twice in a column *)

Module ColumnFacts.

Import SudokuPuzzle SudokuSpec SudokuFacts OrderFacts SolvedFacts BoardFacts.

(** The scan of one letter appends copies of the letter only: at least
    one for each cell of the column that holds it, when the row does
    not hold it. *)
Lemma scan_letter_appends (g : grid) (m i j : nat) (dl : list string) (letter : string) :
  wf_grid g m = true -> i < m * m -> j < m * m ->
  exists k,
    scan_letter (__init__ g) i j (i / m * m) (j / m * m) m dl letter
    = Ok (dl ++ repeat letter k) /\
    (contains letter (row_of g i) = false ->
     length (List.filter (String.eqb letter) (col_of g j)) <= k).
Proof.
  intros Hwf Hi Hj.
  pose proof (wf_grid_inv g m Hwf) as (Hm & Hn & Hrows).
  unfold scan_letter, __init__; cbn [_grid _n].
  rewrite (getitem_row g m i Hwf Hi). cbn [rbind].
  destruct (contains letter (row_of g i)) eqn:Hrow.
  { exists 1. split; [reflexivity | discriminate]. }
  rewrite for_each_ext with
    (g := fun dl i' => if String.eqb letter (cell g i' j) then Ok (dl ++ [letter]) else Ok dl).
  2:{ intros s' x Hx. apply in_seq in Hx.
      rewrite (getitem_row g m x Hwf) by lia. cbn [rbind].
      rewrite (getitem_cell g m x j Hwf) by lia. reflexivity. }
  rewrite (for_each_count (fun i' => String.eqb letter (cell g i' j))). cbn [rbind].
  rewrite (filter_map_length (String.eqb letter) (fun i' => cell g i' j)).
  unfold range. rewrite col_of_cells.
  set (k := length (List.filter (String.eqb letter) (col_of g j))) in *.
  rewrite for_each_ext with
    (g := fun dl a =>
            if andb (existsb (fun b => String.eqb letter (cell g (i / m * m + a) (j / m * m + b)))
                             (seq 0 m))
                    (negb (contains letter dl))
            then Ok (dl ++ [letter]) else Ok dl).
  2:{ intros s' a Ha. apply in_seq in Ha.
      rewrite for_each_ext with
        (g := fun dl b =>
                if andb (String.eqb letter (cell g (i / m * m + a) (j / m * m + b)))
                        (negb (contains letter dl))
                then Ok (dl ++ [letter]) else Ok dl).
      2:{ intros s'' b Hb. apply in_seq in Hb.
          rewrite (getitem_row g m (i / m * m + a) Hwf) by (apply block_in_range; lia).
          cbn [rbind].
          rewrite (getitem_cell g m (i / m * m + a) (j / m * m + b) Hwf)
            by (apply block_in_range; lia).
          reflexivity. }
      rewrite (for_each_once (fun b => String.eqb letter (cell g (i / m * m + a) (j / m * m + b)))).
      destruct (andb _ _); reflexivity. }
  rewrite (for_each_once
             (fun a => existsb (fun b => String.eqb letter (cell g (i / m * m + a) (j / m * m + b)))
                               (seq 0 m))).
  destruct (andb _ _).
  - exists (k + 1). split; [|intros _; lia].
    now rewrite repeat_app, app_assoc.
  - exists k. split; [reflexivity | intros _; lia].
Qed.

Lemma count_app (x : string) (l1 l2 : list string) :
  length (List.filter (String.eqb x) (l1 ++ l2))
  = length (List.filter (String.eqb x) l1) + length (List.filter (String.eqb x) l2).
Proof. now rewrite List.filter_app, length_app. Qed.

Lemma count_repeat_same (x : string) (k : nat) :
  length (List.filter (String.eqb x) (repeat x k)) = k.
Proof.
  induction k as [|k IH]; [reflexivity|].
  cbn [repeat List.filter]. rewrite String.eqb_refl. cbn [length]. now rewrite IH.
Qed.

(** The loop over the letters collects at least as many copies of a
    letter as the scan of that letter appends. *)
Lemma scan_all_appends (g : grid) (m i j : nat) (x : string) (L : list string) :
  wf_grid g m = true -> i < m * m -> j < m * m ->
  contains x (row_of g i) = false ->
  forall dl, exists dl',
    for_each (scan_letter (__init__ g) i j (i / m * m) (j / m * m) m) L dl = Ok dl' /\
    length (List.filter (String.eqb x) dl) <= length (List.filter (String.eqb x) dl') /\
    (In x L ->
     length (List.filter (String.eqb x) (col_of g j))
     <= length (List.filter (String.eqb x) dl')).
Proof.
  intros Hwf Hi Hj Hrow. induction L as [|y L IH]; intros dl.
  - exists dl. split; [reflexivity|]. split; [lia | intros []].
  - cbn [for_each].
    destruct (scan_letter_appends g m i j dl y Hwf Hi Hj) as (k & -> & Hk). cbn [rbind].
    destruct (IH (dl ++ repeat y k)) as (dl' & -> & Hmono & Hin).
    exists dl'. split; [reflexivity|]. rewrite count_app in Hmono.
    split; [lia|]. intros [->|HL]; [|now apply Hin].
    rewrite count_repeat_same in Hmono. specialize (Hk Hrow). lia.
Qed.

Lemma remove_cases (y : string) (l : list string) :
  remove y l = Raise ValueError \/
  exists l', remove y l = Ok l' /\ forall z, In z l' -> In z l.
Proof.
  induction l as [|a l IH]; [now left|].
  cbn [remove]. destruct (String.eqb a y).
  - right. exists l. split; [reflexivity | intros z Hz; now right].
  - destruct IH as [->|(l' & -> & Hl')]; [now left|].
    right. exists (a :: l'). split; [reflexivity|].
    intros z [->|Hz]; [now left | right; now apply Hl'].
Qed.

Lemma remove_NoDup (y : string) (l l' : list string) :
  List.NoDup l -> remove y l = Ok l' -> List.NoDup l' /\ ~ In y l'.
Proof.
  revert l'. induction l as [|a l IH]; intros l' Hnd H; [discriminate|].
  apply List.NoDup_cons_iff in Hnd as (Ha & Hnd).
  cbn [remove] in H. destruct (String.eqb_spec a y) as [->|Hne].
  - injection H as <-. now split.
  - destruct (remove_cases y l) as [E|(l1 & E & Hl1)]; rewrite E in H; [discriminate|].
    injection H as <-. destruct (IH l1 Hnd E) as (Hnd1 & Hy). split.
    + constructor; [|exact Hnd1]. intros Hin. apply Ha. now apply Hl1.
    + intros [E'|Hin]; [congruence | contradiction].
Qed.

Lemma for_each_remove_missing (x : string) (d : list string) :
  In x d -> forall l, ~ In x l ->
  for_each (fun pl y => remove y pl) d l = Raise ValueError.
Proof.
  induction d as [|y d IH]; intros Hin l Hx; [contradiction|].
  cbn [for_each]. destruct (remove_cases y l) as [->|(l' & E & Hl')]; [reflexivity|].
  rewrite E. cbn [rbind]. destruct Hin as [->|Hin].
  - exfalso. clear -E Hx. revert l' E. induction l as [|a l IHl]; intros l' E; [discriminate|].
    cbn [remove] in E. destruct (String.eqb_spec a x) as [->|Hne]; [apply Hx; now left|].
    destruct (remove x l) as [l1|] eqn:E1; [|discriminate].
    apply (IHl ltac:(intros H; apply Hx; now right) l1 eq_refl).
  - apply IH; [exact Hin|]. intros H. apply Hx. now apply Hl'.
Qed.

(** Removing the elements of a list that holds an element twice from a
    list without repetition fails. *)
Lemma for_each_remove_twice (x : string) (d : list string) :
  2 <= length (List.filter (String.eqb x) d) ->
  forall l, List.NoDup l ->
  for_each (fun pl y => remove y pl) d l = Raise ValueError.
Proof.
  induction d as [|y d IH]; intros Hc l Hnd; [cbn in Hc; lia|].
  cbn [for_each]. destruct (remove_cases y l) as [->|(l' & E & Hl')]; [reflexivity|].
  rewrite E. cbn [rbind]. destruct (remove_NoDup y l l' Hnd E) as (Hnd' & Hy).
  cbn [List.filter] in Hc. destruct (String.eqb_spec x y) as [->|Hne].
  - apply (for_each_remove_missing y); [|exact Hy].
    cbn [length] in Hc.
    destruct (List.filter (String.eqb y) d) as [|z zs] eqn:Ef; [cbn in Hc; lia|].
    assert (Hz : In z (List.filter (String.eqb y) d)) by (rewrite Ef; now left).
    apply filter_In in Hz as (Hz & Ez). apply String.eqb_eq in Ez. now subst.
  - now apply IH.
Qed.

(** X8.  On a board with a letter twice in a column, the candidates of a cell
    of that column cannot be computed when the row of the cell does not
    hold the letter: [_possible_letters] raises [ValueError], and so does
    [extensions] when the cell is the first empty one. *)
Theorem column_conflict_raises_ValueError (g : grid) (m i j : nat) (x : string) :
  wf_grid g m = true -> i < m * m -> j < m * m ->
  In x (letters (m * m)) -> contains x (row_of g i) = false ->
  2 <= length (List.filter (String.eqb x) (col_of g j)) ->
  _possible_letters (__init__ g) i j = Raise ValueError /\
  (is_first_empty g i j = true -> extensions (__init__ g) = Raise ValueError).
Proof.
  intros Hwf Hi Hj Hx Hrow Hcol.
  pose proof (wf_grid_inv g m Hwf) as (Hm & Hn & Hrows).
  assert (Hpl : _possible_letters (__init__ g) i j = Raise ValueError).
  { unfold _possible_letters.
    rewrite (find_subsquare_square g m i j Hm Hn).
    destruct (Nat.ltb_spec i (m * m)); [|lia]. destruct (Nat.ltb_spec j (m * m)); [|lia].
    cbn [andb rbind __init__ _n]. rewrite Hn.
    change {| _n := length g; _grid := g |} with (__init__ g).
    destruct (scan_all_appends g m i j x (letters (m * m)) Hwf Hi Hj Hrow [])
      as (dl & -> & _ & Hdl).
    cbn [rbind]. apply (for_each_remove_twice x); [|apply letters_NoDup].
    specialize (Hdl Hx). lia. }
  split; [exact Hpl|]. intros Hfe.
  unfold extensions, range. cbn [__init__ _n].
  change {| _n := length g; _grid := g |} with (__init__ g).
  rewrite (first_empty_scan g m i j (length g) 0) by (assumption || lia).
  cbn [rbind]. now rewrite Hpl.
Qed.

End ColumnFacts.

(** ** Bounded searches: a negative bound, and [valid_state] *)

Module BoundFacts.

Import Solver SearchSpec.

Section Facts.

Context {S : Type}.
Variable is_solved : S -> result bool.
Variable extensions : S -> result (list S).

(** X9.  With a negative bound [solve_in_depth] never meets its bound: it
    answers whether the unbounded search [solve_depth] finds a solved
    state, raises when that search raises, and runs as long. *)
Theorem solve_in_depth_negative_bound (fuel : nat) (s : S) (n : Z) :
  (n < 0)%Z ->
  solve_in_depth is_solved extensions fuel s n =
    match solve_depth is_solved extensions fuel s with
    | None => None
    | Some (Raise e) => Some (Raise e)
    | Some (Ok (Some _)) => Some (Ok true)
    | Some (Ok None) => Some (Ok false)
    end.
Proof.
  revert s n. induction fuel as [|fuel IH]; intros s n Hn; [reflexivity|].
  cbn [Solver.solve_in_depth Solver.solve_depth lift sbind].
  destruct (is_solved s) as [[|]|]; cbn [sbind sret]; try reflexivity.
  destruct (Z.eqb_spec n 0) as [E|_]; [lia|].
  destruct (extensions s) as [es|]; cbn [sbind]; [|reflexivity].
  induction es as [|e es IHes]; [reflexivity|].
  rewrite (IH e (n - 1)%Z) by lia.
  destruct (solve_depth is_solved extensions fuel e) as [[[t|]|]|]; cbn [sbind sret];
    try reflexivity.
  exact IHes.
Qed.

(** A class of states on which [extensions] returns. *)
Variable Inv : S -> Prop.
Variable mu : S -> nat.
Hypothesis Inv_ext :
  forall s, Inv s ->
    exists es, extensions s = Ok es /\ forall e, In e es -> Inv e /\ mu e < mu s.

Local Abbreviation plays := (plays extensions).

Lemma valid_state_bounded (k : nat) :
  forall (fuel : nat) (s : S),
    Inv s -> k < fuel ->
    exists b, valid_state extensions fuel s (Z.of_nat k) = Some (Ok b) /\
              (b = true <-> plays (Datatypes.S k) s).
Proof.
  induction k as [|k IH]; intros fuel s HI Hfuel;
    (destruct fuel as [|fuel]; [lia|]); cbn [Solver.valid_state];
    destruct (Inv_ext s HI) as (es & He & Hes); rewrite He; cbn [lift sbind].
  - cbn [Z.of_nat Z.eqb]. exists (Nat.ltb 0 (length es)). split.
    + now destruct (Nat.ltb 0 (length es)).
    + split.
      * intros Hlt. apply Nat.ltb_lt in Hlt. destruct es as [|e es]; [cbn in Hlt; lia|].
        eapply plays_move; [exact He | now left | constructor].
      * intros H. inversion H; subst.
        match goal with Hx : extensions s = Ok ?l |- _ => rewrite He in Hx; injection Hx as <- end.
        apply Nat.ltb_lt. destruct es; [contradiction | cbn; lia].
  - destruct (Z.eqb_spec (Z.of_nat (Datatypes.S k)) 0) as [E|_]; [lia|].
    replace (Z.of_nat (Datatypes.S k) - 1)%Z with (Z.of_nat k) by lia.
    assert (Hloop : exists b,
      (fix loop (l : list S) : search bool :=
         match l with
         | [] => sret false
         | extension :: l' =>
             let! sol := valid_state extensions fuel extension (Z.of_nat k) in
             if sol then sret sol else loop l'
         end) es = Some (Ok b) /\
      (b = true <-> exists e, In e es /\ plays (Datatypes.S k) e)).
    { clear He. induction es as [|e es IHes].
      - exists false. split; [reflexivity|]. split; [discriminate|]. intros (e & [] & _).
      - destruct (Hes e ltac:(now left)) as (HIe & _).
        destruct (IH fuel e HIe ltac:(lia)) as (b & Hb & Hbr). rewrite Hb. cbn [sbind].
        destruct b.
        + exists true. split; [reflexivity|]. split; [|reflexivity].
          intros _. exists e. split; [now left | now apply Hbr].
        + destruct (IHes ltac:(intros x Hx; apply Hes; now right)) as (b' & Hb' & Hbr').
          exists b'. split; [exact Hb'|]. rewrite Hbr'. split.
          * intros (x & Hx & Hr). exists x. split; [now right | assumption].
          * intros (x & [->|Hx] & Hr); [|now exists x].
            apply Hbr in Hr. discriminate. }
    destruct Hloop as (b & Hb & Hbr). exists b. split; [exact Hb|].
    rewrite Hbr. split.
    + intros (e & He' & Hr). eapply plays_move; eassumption.
    + intros H. inversion H; subst.
      match goal with Hx : extensions s = Ok ?l |- _ => rewrite He in Hx; injection Hx as <- end.
      now exists e.
Qed.

Lemma valid_state_negative (fuel : nat) :
  forall (s : S) (n : Z),
    (n < 0)%Z -> Inv s -> mu s < fuel ->
    valid_state extensions fuel s n = Some (Ok false).
Proof.
  induction fuel as [|fuel IH]; intros s n Hn HI Hmu; [lia|].
  cbn [Solver.valid_state].
  destruct (Z.eqb_spec n 0) as [E|_]; [lia|].
  destruct (Inv_ext s HI) as (es & -> & Hes). cbn [lift sbind].
  induction es as [|e es IHes]; [reflexivity|].
  destruct (Hes e ltac:(now left)) as (HIe & Hmue).
  rewrite (IH e (n - 1)%Z) by (assumption || lia). cbn [sbind].
  apply IHes. intros x Hx. apply Hes. now right.
Qed.

End Facts.

Import SudokuPuzzle SudokuSpec SudokuFacts BoardFacts SudokuSearch.

Lemma board_inv_ext (m : nat) (s : SudokuPuzzle.t) :
  board_inv m s ->
  exists es, extensions s = Ok es /\
             forall e, In e es -> board_inv m e /\ board_mu e < board_mu s.
Proof.
  intros (Es & Hwf & Hcols). rewrite Es.
  destruct (extensions_cases _ m Hwf Hcols) as [(_ & ->)|(i & j & Hi & Hj & Hc & ->)].
  - exists []. split; [reflexivity | intros e []].
  - eexists. split; [reflexivity|]. intros e He.
    apply in_map_iff in He as (x & <- & Hx).
    unfold board_inv, board_mu. cbn [__init__ _grid]. split; [split; [reflexivity|split]|].
    + now apply wf_set_cell.
    + now apply cols_distinct_set_cell.
    + rewrite (empties_set_cell (_grid s) m i j x); try assumption; [lia|].
      now apply (candidates_letter (_grid s) m i j).
Qed.

(** X10.  [valid_state] on a Sudoku board: with a bound [k >= 0] it answers
    whether [k + 1] moves in a row can be made; with a negative bound it
    answers [False]. *)
Theorem valid_state_sudoku (g : grid) (m : nat) :
  wf_grid g m = true -> cols_distinct g m = true ->
  (forall k fuel, k < fuel ->
     exists b, valid_state extensions fuel (__init__ g) (Z.of_nat k) = Some (Ok b) /\
               (b = true <-> plays extensions (Datatypes.S k) (__init__ g))) /\
  (forall n fuel, (n < 0)%Z -> empties g < fuel ->
     valid_state extensions fuel (__init__ g) n = Some (Ok false)).
Proof.
  intros Hwf Hcols. split.
  - intros k fuel Hk.
    apply (valid_state_bounded extensions (board_inv m) board_mu (board_inv_ext m) k);
      [now apply board_inv_init | exact Hk].
  - intros n fuel Hn Hfuel.
    apply (valid_state_negative extensions (board_inv m) board_mu (board_inv_ext m));
      [exact Hn | now apply board_inv_init | exact Hfuel].
Qed.

End BoundFacts.

(** ** Word ladder: moves and the ladders they build *)

Module LadderMoves.

Import WordLadderPuzzle LadderSpec LadderFacts BreadthSpec BreadthFacts SearchSpec SearchFacts.

Lemma move_accepts (wordfile : list string) (h : store)
    (start target : string) (used : list string) (tr : tried_ref) (w : string) :
  let self := state_of wordfile start target used tr in
  contains w wordfile = true -> is_candidate h self w = true ->
  move wordfile h self w = Ok (__init__ wordfile w target (used ++ [start])).
Proof.
  cbv zeta. set (self := state_of wordfile start target used tr). intros Hw Hc.
  unfold move. apply contains_true in Hw.
  assert (Hin : contains w (_possible_words h self) = true).
  { apply contains_true. unfold self. apply possible_words_candidate. now split. }
  rewrite Hin. unfold self. now destruct tr.
Qed.

(** X11.  [move] accepts exactly the entries of the vocabulary that are
    candidates, and returns the state with the word entered; it raises
    [ValueError] on every other text. *)
Theorem ladder_move_spec (wordfile : list string) (h : store)
    (start target : string) (used : list string) (tr : tried_ref) (w : string) :
  let self := state_of wordfile start target used tr in
  move wordfile h self w =
    (if andb (contains w wordfile) (is_candidate h self w)
     then Ok (__init__ wordfile w target (used ++ [start]))
     else Raise ValueError).
Proof.
  cbv zeta. set (self := state_of wordfile start target used tr).
  destruct (andb (contains w wordfile) (is_candidate h self w)) eqn:Hc.
  - apply andb_true_iff in Hc as (Hw & Hc). now apply move_accepts.
  - unfold move.
    assert (Hin : contains w (_possible_words h self) = false).
    { apply contains_false. intros Hin. unfold self in Hin.
      apply possible_words_candidate in Hin as (Hw & Hcand).
      apply contains_true in Hw. fold self in Hcand. rewrite Hw, Hcand in Hc. discriminate. }
    now rewrite Hin.
Qed.

Lemma last_nonempty_default (x : string) (ws : list string) (d d' : string) :
  List.last (x :: ws) d = List.last (x :: ws) d'.
Proof.
  revert x. induction ws as [|y ws IH]; intros x; [reflexivity|].
  change (List.last (x :: y :: ws) d) with (List.last (y :: ws) d).
  change (List.last (x :: y :: ws) d') with (List.last (y :: ws) d'). apply IH.
Qed.

Lemma last_cons_default (w d : string) (ws : list string) :
  List.last (w :: ws) d = List.last ws w.
Proof.
  destruct ws as [|x ws]; [reflexivity|].
  change (List.last (w :: x :: ws) d) with (List.last (x :: ws) d).
  apply last_nonempty_default.
Qed.

Lemma last_In (ws : list string) (w : string) : In (List.last ws w) (w :: ws).
Proof.
  revert w. induction ws as [|x ws IH]; intros w; [now left|].
  right. rewrite last_cons_default. apply IH.
Qed.

Lemma rungs_app (wordfile : list string) (prev : string) (ws : list string) (w : string) :
  rungs wordfile prev ws -> In w wordfile ->
  one_letter_apart w (List.last ws prev) = true ->
  rungs wordfile prev (ws ++ [w]).
Proof.
  revert prev. induction ws as [|x ws IH]; intros prev Hr Hw Hone.
  - cbn in *. auto.
  - cbn [rungs app] in *. destruct Hr as (Hx & Hxp & Hr). split; [exact Hx|].
    split; [exact Hxp|]. apply IH; [exact Hr | exact Hw|].
    now rewrite last_cons_default in Hone.
Qed.

Lemma last_app_one (ws : list string) (w d : string) : List.last (ws ++ [w]) d = w.
Proof. apply last_last. Qed.

Lemma NoDup_app_one (l : list string) (w : string) :
  List.NoDup l -> ~ In w l -> List.NoDup (l ++ [w]).
Proof.
  intros Hnd Hw. apply List.NoDup_app; [exact Hnd | repeat constructor; intros [] |].
  intros x Hx [<-|[]]. contradiction.
Qed.

Lemma move_inv (wordfile : list string) (h : store) (q q' : WordLadderPuzzle.t) (w : string) :
  move wordfile h q w = Ok q' ->
  In w (_possible_words h q) /\ q' = __init__ wordfile w (_target q) (_used_words q).
Proof.
  unfold move. destruct (contains w (_possible_words h q)) eqn:Hc; cbn [negb]; [|discriminate].
  intros [= <-]. split; [now apply contains_true | reflexivity].
Qed.

Lemma played_shape (wordfile : list string) (h : store)
    (start target : string) (used : list string) (tr : tried_ref) (q : WordLadderPuzzle.t) :
  played wordfile h (state_of wordfile start target used tr) q ->
  exists s u r ws,
    q = state_of wordfile s target u r /\
    u ++ [s] = (used ++ [start]) ++ ws /\
    rungs wordfile start ws /\
    s = List.last ws start /\
    (List.NoDup (used ++ [start]) -> List.NoDup (u ++ [s])).
Proof.
  induction 1 as [|q w q' Hq IH Hmv].
  - exists start, used, tr, []. rewrite app_nil_r. cbn [rungs List.last]. auto.
  - destruct IH as (s & u & r & ws & -> & Hu & Hr & Hs & Hnd).
    apply move_inv in Hmv as (Hw & ->).
    apply possible_words_candidate in Hw as (Hw & Hcand).
    rewrite state_of_target, state_of_used.
    exists w, (u ++ [s]), Own, (ws ++ [w]). split; [reflexivity|].
    split; [now rewrite Hu, app_assoc|]. split; [|split].
    + apply rungs_app; [exact Hr | exact Hw|]. rewrite <- Hs.
      unfold is_candidate in Hcand. rewrite state_of_start in Hcand.
      apply andb_true_iff in Hcand as (_ & Hcand). now apply andb_true_iff in Hcand as (_ & Hcand).
    + now rewrite last_last.
    + intros Hnd0. apply NoDup_app_one; [now apply Hnd|].
      apply is_candidate_inv in Hcand as (Hcand & _). now rewrite state_of_used in Hcand.
Qed.

(** X12.  What the moves keep: the words entered since [p] form a ladder
    from the word of [p] to the current word, no word of which was used
    before; the target never changes. *)
Theorem played_keeps_ladder (wordfile : list string) (h : store)
    (start target : string) (used : list string) (tr : tried_ref) (q : WordLadderPuzzle.t) :
  let p := state_of wordfile start target used tr in
  played wordfile h p q ->
  exists ws,
    _used_words q = _used_words p ++ ws /\
    rungs wordfile start ws /\
    _start q = List.last ws start /\
    _target q = target /\
    (List.NoDup (_used_words p) -> List.NoDup (_used_words q)).
Proof.
  intros p Hq. destruct (played_shape wordfile h start target used tr q Hq)
    as (s & u & r & ws & -> & Hu & Hr & Hs & Hnd).
  exists ws. unfold p. rewrite !state_of_used, state_of_start, state_of_target. auto.
Qed.

Lemma unrecorded_le (wordfile rec : list string) (w : string) :
  unrecorded wordfile (rec ++ [w]) <= unrecorded wordfile rec.
Proof.
  unfold unrecorded. apply filter_length_le. intros a _ Ha.
  apply negb_true_iff, contains_false in Ha. apply negb_true_iff, contains_false.
  intros Hin. apply Ha, in_or_app. now left.
Qed.

(** Entering an entry of the vocabulary that was not used leaves fewer
    entries unused. *)
Lemma unrecorded_lt (wordfile rec : list string) (w : string) :
  In w wordfile -> ~ In w rec ->
  unrecorded wordfile (rec ++ [w]) < unrecorded wordfile rec.
Proof.
  intros Hw Hrec. induction wordfile as [|a wordfile IH]; [contradiction|].
  pose proof (unrecorded_le wordfile rec w) as Hle.
  unfold unrecorded in *. cbn [List.filter].
  destruct (String.eqb_spec a w) as [->|Hne].
  - apply contains_false in Hrec. rewrite Hrec. cbn [negb length].
    assert (Hc : contains w (rec ++ [w]) = true)
      by (apply contains_true, in_or_app; right; now left).
    rewrite Hc. cbn [negb]. lia.
  - destruct Hw as [E|Hw]; [congruence|]. specialize (IH Hw).
    rewrite contains_app. cbn [contains existsb]. rewrite (String.eqb_sym a w).
    apply String.eqb_neq in Hne. rewrite String.eqb_sym in Hne. rewrite Hne, !orb_false_r.
    destruct (contains a rec); cbn [negb length]; lia.
Qed.

Section Complete.

Variable wordfile : list string.
Variable h : store.
Variable target : string.

Local Abbreviation solved := (fun q : WordLadderPuzzle.t => Ok (is_solved q)).
Local Abbreviation successors := (fun q : WordLadderPuzzle.t => Ok (extensions wordfile h q)).
Local Abbreviation leads := (leads solved successors).

(** The states [solve_complete] walks through on a word ladder, and the
    measure its moves decrease. *)
Local Abbreviation made := (fun q : WordLadderPuzzle.t =>
  exists s u, q = __init__ wordfile s target u).
Local Abbreviation unused := (fun q : WordLadderPuzzle.t =>
  unrecorded wordfile (_used_words q)).

Lemma made_solved (q : WordLadderPuzzle.t) : made q -> exists b, solved q = Ok b.
Proof. intros _. eexists. reflexivity. Qed.

Lemma extension_inv (s : string) (u : list string) (e : WordLadderPuzzle.t) :
  In e (extensions wordfile h (__init__ wordfile s target u)) ->
  exists w, e = __init__ wordfile w target (u ++ [s]) /\ In w wordfile /\
            ~ In w (u ++ [s]) /\ one_letter_apart w s = true.
Proof.
  unfold extensions. intros He. apply in_map_iff in He as (w & <- & Hw).
  apply (possible_words_candidate wordfile h s target u Own) in Hw as (Hw & Hcand).
  exists w. split; [reflexivity|]. split; [exact Hw|].
  unfold is_candidate in Hcand. cbn [state_of __init__ _used_words _start] in Hcand.
  apply andb_true_iff in Hcand as (Hu & Hcand). apply andb_true_iff in Hcand as (_ & Hone).
  split; [now apply contains_false, negb_true_iff | exact Hone].
Qed.

Lemma extension_intro (s : string) (u : list string) (w : string) :
  In w wordfile -> ~ In w (u ++ [s]) -> one_letter_apart w s = true ->
  In (__init__ wordfile w target (u ++ [s]))
     (extensions wordfile h (__init__ wordfile s target u)).
Proof.
  intros Hw Hu Hone. unfold extensions. apply in_map_iff. exists w. split; [reflexivity|].
  apply (possible_words_candidate wordfile h s target u Own). split; [exact Hw|].
  unfold is_candidate. cbn [state_of __init__ _used_words _start tried _tried_words].
  apply contains_false in Hu. rewrite Hu, Hone. reflexivity.
Qed.

Lemma made_extensions (q : WordLadderPuzzle.t) :
  made q -> solved q = Ok false ->
  exists es, successors q = Ok es /\ forall e, In e es -> made e /\ unused e < unused q.
Proof.
  intros (s & u & ->) _. eexists. split; [reflexivity|]. intros e He.
  apply extension_inv in He as (w & -> & Hw & Hu & _). split; [now exists w, (u ++ [s])|].
  cbn [__init__ _used_words]. now apply unrecorded_lt.
Qed.

Lemma climb_cons (q : WordLadderPuzzle.t) (w : string) (ws : list string) :
  climb wordfile q (w :: ws) = climb wordfile (_extend wordfile q w) ws.
Proof. reflexivity. Qed.

Lemma leads_ladder (q t : WordLadderPuzzle.t) :
  leads q t -> made q ->
  exists ws, t = climb wordfile q ws /\ simple_ladder wordfile q ws.
Proof.
  induction 1 as [q Hs | q es e t Hs He Hin Hl IH]; intros (s & u & ->).
  - exists []. split; [reflexivity|]. injection Hs as Hs. apply String.eqb_eq in Hs.
    unfold simple_ladder. cbn [rungs List.last]. repeat split; [constructor | constructor | exact Hs].
  - injection He as <-. apply extension_inv in Hin as (w & -> & Hw & Hu & Hone).
    destruct (IH ltac:(now exists w, (u ++ [s]))) as (ws & -> & Hr & Hnd & Hav & Hlast).
    cbn [__init__ _start _used_words _target] in *.
    exists (w :: ws). split; [reflexivity|].
    unfold simple_ladder. cbn [__init__ _start _used_words _target rungs].
    rewrite List.Forall_forall in Hav.
    split; [auto|]. split; [|split].
    + constructor; [|exact Hnd]. intros Hin. apply (Hav w Hin), in_or_app. right. now left.
    + constructor; [exact Hu|]. apply List.Forall_forall. intros x Hx Hin.
      apply (Hav x Hx), in_or_app. now left.
    + now rewrite last_cons_default.
Qed.

Lemma ladder_leads (ws : list string) :
  forall s u,
    simple_ladder wordfile (__init__ wordfile s target u) ws ->
    leads (__init__ wordfile s target u) (climb wordfile (__init__ wordfile s target u) ws).
Proof.
  induction ws as [|w ws IH]; intros s u (Hr & Hnd & Hav & Hlast);
    cbn [__init__ _start _used_words _target] in *.
  - apply leads_here. cbn in Hlast. unfold is_solved. cbn [__init__ _start _target].
    f_equal. now apply String.eqb_eq.
  - cbn [rungs] in Hr. destruct Hr as (Hw & Hone & Hr).
    apply List.NoDup_cons_iff in Hnd as (Hwws & Hnd).
    apply Forall_cons_iff in Hav as (Hwu & Hav).
    rewrite last_cons_default in Hlast.
    eapply leads_move.
    + unfold is_solved. cbn [__init__ _start _target]. f_equal.
      apply String.eqb_neq. intros Est.
      pose proof (last_In ws w) as Hin. rewrite Hlast, <- Est in Hin.
      destruct Hin as [E|Hin].
      * apply Hwu. rewrite E. apply in_or_app. right. now left.
      * rewrite List.Forall_forall in Hav. apply (Hav _ Hin).
        apply in_or_app. right. now left.
    + reflexivity.
    + apply (extension_intro s u w Hw Hwu Hone).
    + rewrite climb_cons. apply IH. unfold simple_ladder.
      cbn [__init__ _start _used_words _target]. split; [exact Hr|]. split; [exact Hnd|].
      split; [|exact Hlast]. apply List.Forall_forall. intros x Hx Hin.
      apply in_app_or in Hin as [Hin|[<-|[]]]; [|contradiction].
      rewrite List.Forall_forall in Hav. now apply (Hav x Hx).
Qed.

End Complete.

(** X13.  [solve_complete] on a word ladder returns, and what it returns are
    the states of the ladders that lead from the current word to the
    target without using a word twice, all of them. *)
Theorem ladder_solve_complete_spec (wordfile : list string) (h : store)
    (start target : string) (used : list string) (fuel : nat) :
  let p := __init__ wordfile start target used in
  unrecorded wordfile (_used_words p) < fuel ->
  exists l,
    Solver.solve_complete (fun q => Ok (is_solved q))
      (fun q => Ok (extensions wordfile h q)) fuel p = Some (Ok l) /\
    forall t, In t l <-> exists ws, t = climb wordfile p ws /\ simple_ladder wordfile p ws.
Proof.
  intros p Hfuel.
  destruct (exhaustive_search (fun q => Ok (is_solved q))
              (fun q => Ok (extensions wordfile h q))
              (fun q => exists s u, q = __init__ wordfile s target u)
              (fun q => unrecorded wordfile (_used_words q))
              (made_solved wordfile target) (made_extensions wordfile h target) fuel p
              ltac:(now exists start, used) Hfuel) as (l & Hc & _ & Hl).
  exists l. split; [exact Hc|]. intros t. rewrite Hl. split.
  - intros H. apply (leads_ladder wordfile h target p t H). now exists start, used.
  - intros (ws & -> & Hlad). now apply ladder_leads.
Qed.

End LadderMoves.

(** ** Breadth-first search: what it finds *)

Module WalkFacts.

Import Solver WordLadderPuzzle LadderSpec LadderFacts BreadthSpec BreadthFacts LadderMoves.

Lemma index_app_first (x : string) (l1 l2 : list string) :
  ~ In x l1 -> index x (l1 ++ x :: l2) = Ok (length l1).
Proof.
  induction l1 as [|y l1 IH]; intros Hx; cbn [app index length].
  - now rewrite String.eqb_refl.
  - destruct (String.eqb_spec y x) as [->|_]; [exfalso; apply Hx; now left|].
    rewrite IH by (intros H; apply Hx; now right). reflexivity.
Qed.

Lemma last_of_path (l ws : list string) (a s : string) (u : list string) :
  u ++ [s] = (l ++ [a]) ++ ws -> s = List.last ws a.
Proof.
  induction ws as [|w ws' _] using rev_ind.
  - rewrite app_nil_r. intros E. apply app_inj_tail in E as (_ & ->). reflexivity.
  - rewrite app_assoc. intros E. apply app_inj_tail in E as (_ & ->).
    now rewrite last_last.
Qed.

Section Facts.

Variable wordfile : list string.
Variable h0 : store.
Variables start target : string.
Variable used : list string.
Variable hint : bool.
Hypothesis first_start : hint = true -> ~ In start used.

Local Abbreviation p := (state_of wordfile start target used Own).
Local Abbreviation acc := (length h0).
Local Abbreviation st0 := ({| bs_store := h0 ++ [[]]; bs_queue := [p] |}).
Local Abbreviation step := (bfs_step wordfile p hint acc).
Local Abbreviation inv := (inv wordfile h0 start target).
Local Abbreviation potential := (potential wordfile h0).
Local Abbreviation recorded := (recorded h0).
Local Abbreviation edge := (edge wordfile start used).
Local Abbreviation path_state := (path_state wordfile h0 start target used).
Local Abbreviation walk_inv := (walk_inv wordfile h0 start target used).
Local Abbreviation walk_answer := (walk_answer wordfile start target used).
Local Abbreviation queued := (queued wordfile acc).

Local Abbreviation visit_answer := (visit_answer wordfile h0 start hint).

Lemma visit_full (q : WordLadderPuzzle.t) (pw : list string) :
  forall st : bfs_state,
    acc < length (bs_store st) ->
    exists pw1 pw2,
      pw = pw1 ++ pw2 /\ ~ In (_target q) pw1 /\
      let r := visit p hint acc (map (_extend wordfile q) pw) st in
      recorded (snd r) = recorded st ++ pw1 /\
      length (bs_store (snd r)) = length (bs_store st) /\
      bs_queue (snd r) = bs_queue st ++ map (queued q) pw1 /\
      match fst r with
      | Continue => pw2 = []
      | Return res => (exists rest, pw2 = _target q :: rest) /\ res = visit_answer q
      end.
Proof.
  induction pw as [|w pw IH]; intros st Hacc.
  - exists [], []. cbn. rewrite !app_nil_r. repeat split; auto.
  - cbn [map visit].
    change (is_solved (add_tried_words (_extend wordfile q w) acc))
      with (String.eqb w (_target q)).
    destruct (String.eqb_spec w (_target q)) as [E|E].
    + exists [], (w :: pw). split; [reflexivity|]. split; [intros []|].
      subst w. unfold BreadthSpec.visit_answer.
      destruct hint; cbn; rewrite !app_nil_r; repeat split; eauto.
    + set (st1 := {| bs_store := append (bs_store st) acc
                                   (generate_strings p (add_tried_words (_extend wordfile q w) acc));
                     bs_queue := bs_queue st ++ [add_tried_words (_extend wordfile q w) acc] |}).
      destruct (IH st1) as (pw1 & pw2 & Hpw & Hnt & Hd & Hl & Hq & Hr).
      { cbn. now rewrite length_append. }
      exists (w :: pw1), pw2. split; [now rewrite Hpw|].
      split; [intros [Hw|Hin]; [congruence | contradiction]|].
      cbn zeta in *. repeat split.
      * rewrite Hd. unfold BreadthSpec.recorded. cbn [st1 bs_store].
        rewrite deref_append by assumption.
        rewrite Nat.eqb_refl. cbn [generate_strings add_tried_words _extend __init__ _start].
        now rewrite <- app_assoc.
      * rewrite Hl. cbn [st1 bs_store]. apply length_append.
      * rewrite Hq. cbn [st1 bs_queue map]. now rewrite <- app_assoc.
      * exact Hr.
Qed.

Lemma recorded_init : recorded st0 = [].
Proof.
  unfold BreadthSpec.recorded, deref. cbn [bs_store].
  rewrite app_nth2 by lia. now rewrite Nat.sub_diag.
Qed.

Lemma walk_init : walk_inv st0.
Proof.
  unfold BreadthSpec.walk_inv. rewrite recorded_init. cbn [bs_queue]. split; [|split].
  - constructor; [|constructor]. exists []. split.
    + exists start, used, Own. split; [reflexivity|]. split; [now left | now rewrite app_nil_r].
    + cbn [rungs]. repeat split; constructor.
  - intros [].
  - intros u v [<-|[]] _. right. exists p. split; [now left | reflexivity].
Qed.

Lemma path_state_inv (q : WordLadderPuzzle.t) (ws : list string) :
  path_state q ws ->
  _start q = List.last ws start /\ _used_words q = (used ++ [start]) ++ ws /\
  _target q = target /\
  (forall h, tried h q = [] \/ tried h q = deref h acc) /\
  exists u r, q = state_of wordfile (List.last ws start) target u r.
Proof.
  intros (s & u & r & -> & Hr & Hu).
  pose proof (last_of_path used ws start s u Hu) as Hs.
  rewrite state_of_start, state_of_used, state_of_target.
  split; [exact Hs|]. split; [exact Hu|]. split; [reflexivity|]. split.
  - intros h. destruct Hr as [->| ->]; [left | right]; reflexivity.
  - exists u, r. now rewrite Hs.
Qed.

Lemma queued_path_state (q : WordLadderPuzzle.t) (ws : list string) (w : string) :
  path_state q ws -> path_state (queued q w) (ws ++ [w]).
Proof.
  intros (s & u & r & -> & Hr & Hu).
  exists w, (u ++ [s]), (Ref acc). split.
  - unfold BreadthSpec.queued, _extend. now rewrite state_of_target, state_of_used.
  - split; [now right|]. now rewrite Hu, app_assoc.
Qed.

(** The words a state of the queue can move to. *)
Lemma walk_candidate (h : store) (q : WordLadderPuzzle.t) (ws : list string) (w : string) :
  path_state q ws ->
  In w (_possible_words h q) <->
  In w wordfile /\ one_letter_apart w (List.last ws start) = true /\
  ~ In w ((used ++ [start]) ++ ws) /\ ~ In w (tried h q).
Proof.
  intros Hq. destruct (path_state_inv q ws Hq) as (Hs & Hu & _ & _ & u & r & E).
  rewrite E at 1. rewrite possible_words_candidate. rewrite <- E.
  unfold is_candidate. rewrite Hs, Hu, !andb_true_iff, !negb_true_iff.
  rewrite <- !contains_false. tauto.
Qed.

Lemma last_In_nonempty (ws : list string) (d : string) : ws <> [] -> In (List.last ws d) ws.
Proof.
  destruct ws as [|w ws]; [congruence|]. intros _.
  rewrite last_cons_default. apply last_In.
Qed.

(** When the queue is empty, every word that ladders from the first
    word reach is recorded: the target is not among them. *)
Lemma walk_closed (st : bfs_state) :
  walk_inv st -> bs_queue st = [] ->
  forall ws, ws <> [] -> ~ simple_ladder wordfile p ws.
Proof.
  intros (_ & HT & HJ) Hq ws Hne (Hr & _ & Hav & Hlast).
  rewrite state_of_start in Hr, Hlast. rewrite state_of_used in Hav.
  rewrite state_of_target in Hlast.
  assert (Hall : forall ws prev, In prev (start :: recorded st) ->
            rungs wordfile prev ws -> Forall (fun w => ~ In w (used ++ [start])) ws ->
            Forall (fun w => In w (start :: recorded st)) ws).
  { clear -HJ Hq. induction ws as [|w ws IH]; intros prev Hprev Hr Hav; [constructor|].
    cbn [rungs] in Hr. destruct Hr as (Hw & Hone & Hr).
    apply Forall_cons_iff in Hav as (Hwu & Hav).
    assert (Hd : In w (start :: recorded st)).
    { destruct (HJ prev w Hprev) as [Hd|(q & Hin & _)]; [now split | exact Hd|].
      rewrite Hq in Hin. destruct Hin. }
    constructor; [exact Hd|]. now apply (IH w). }
  specialize (Hall ws start ltac:(now left) Hr Hav).
  pose proof (last_In_nonempty ws start Hne) as Hin. rewrite Hlast in Hin.
  rewrite List.Forall_forall in Hall, Hav.
  destruct (Hall target Hin) as [E|Hrec]; [|contradiction].
  apply (Hav target Hin). apply in_or_app. right. now left.
Qed.

Lemma step_run (st : bfs_state) (q : WordLadderPuzzle.t) (rest : list WordLadderPuzzle.t) :
  inv st -> bs_queue st = q :: rest ->
  exists pw1 pw2,
    _possible_words (bs_store st) q = pw1 ++ pw2 /\ ~ In (_target q) pw1 /\
    recorded (snd (step st)) = recorded st ++ pw1 /\
    bs_queue (snd (step st)) = rest ++ map (queued q) pw1 /\
    match fst (step st) with
    | Continue => pw2 = []
    | Return res => (exists rest', pw2 = _target q :: rest') /\ res = visit_answer q
    end.
Proof.
  intros (Hacc & _) Hq. unfold bfs_step. rewrite Hq. unfold extensions.
  destruct (visit_full q (_possible_words (bs_store st) q)
              {| bs_store := bs_store st; bs_queue := rest |} Hacc)
    as (pw1 & pw2 & Hpw & Hnt & Hd & _ & Hqu & Hr).
  exists pw1, pw2. cbn zeta in *. cbn [bs_store bs_queue] in *. tauto.
Qed.

Lemma walk_step (st st' : bfs_state) :
  inv st -> walk_inv st -> step st = (Continue, st') -> walk_inv st'.
Proof.
  intros Hinv (HK & HT & HJ) Hstep. destruct (bs_queue st) as [|q rest] eqn:Hq.
  { unfold bfs_step in Hstep. rewrite Hq in Hstep. discriminate. }
  destruct (step_run st q rest Hinv Hq) as (pw & pw2 & Hpw & Hnt & Hd & Hqu & Hr).
  rewrite Hstep in *. cbn [fst snd] in *. subst pw2. rewrite app_nil_r in Hpw.
  apply Forall_cons_iff in HK as ((ws & Hps & Hrungs & Hnd & Hav & Hrec) & HK).
  destruct (path_state_inv q ws Hps) as (Hs & Hu & Ht & Htried & _).
  assert (Hcand : forall w, In w pw <->
            In w wordfile /\ one_letter_apart w (List.last ws start) = true /\
            ~ In w ((used ++ [start]) ++ ws) /\ ~ In w (tried (bs_store st) q)).
  { intros w. rewrite <- Hpw. now apply walk_candidate. }
  unfold BreadthSpec.walk_inv. rewrite Hd, Hqu. split; [|split].
  - apply Forall_app. split.
    + eapply List.Forall_impl; [|exact HK]. intros q' (ws' & H1 & H2 & H3 & H4 & H5).
      exists ws'. repeat split; try assumption.
      eapply List.Forall_impl; [|exact H5]. intros w Hw. apply in_or_app. now left.
    + apply List.Forall_forall. intros e He. apply in_map_iff in He as (w & <- & Hw).
      pose proof Hw as Hw0. apply Hcand in Hw as (Hwf & Hone & Hfresh & _).
      exists (ws ++ [w]). split; [now apply queued_path_state|].
      split; [now apply rungs_app|]. split; [|split].
      * apply NoDup_app_one; [exact Hnd|]. intros Hin. apply Hfresh, in_or_app. now right.
      * apply Forall_app. split; [exact Hav|]. constructor; [|constructor].
        intros Hin. apply Hfresh, in_or_app. now left.
      * apply Forall_app. split.
        -- eapply List.Forall_impl; [|exact Hrec]. intros x Hx. apply in_or_app. now left.
        -- constructor; [|constructor]. apply in_or_app. now right.
  - rewrite Ht in Hnt. intros Hin. apply in_app_or in Hin as [Hin|Hin]; contradiction.
  - intros u v Hu' Hedge.
    assert (Hold : In u (start :: recorded st) ->
              In v (start :: recorded st ++ pw) \/
              exists q', In q' (rest ++ map (queued q) pw) /\ _start q' = u).
    { intros Hin. destruct (HJ u v Hin Hedge) as [Hd'|(q' & Hq' & Hsq)].
      - left. destruct Hd' as [E|Hd']; [now left | right; apply in_or_app; now left].
      - destruct Hq' as [<-|Hq']; [|right; exists q'; split; [apply in_or_app; now left | exact Hsq]].
        left. destruct Hedge as (Hv & Hone & Hvu). rewrite <- Hsq, Hs in Hone.
        destruct (in_dec string_dec v ws) as [Hvw|Hvw].
        { right. apply in_or_app. left. rewrite List.Forall_forall in Hrec. now apply Hrec. }
        destruct (in_dec string_dec v (tried (bs_store st) q)) as [Hvt|Hvt].
        { right. apply in_or_app. left.
          destruct (Htried (bs_store st)) as [E|E]; rewrite E in Hvt; [destruct Hvt | exact Hvt]. }
        right. apply in_or_app. right. apply Hcand. repeat split; try assumption.
        intros Hin'. apply in_app_or in Hin' as [Hin'|Hin']; contradiction. }
    destruct Hu' as [<-|Hu']; [apply Hold; now left|].
    apply in_app_or in Hu' as [Hu'|Hu']; [apply Hold; now right|].
    right. exists (queued q u). split; [|reflexivity].
    apply in_or_app. right. now apply in_map.
Qed.

Lemma walk_return (st st' : bfs_state) (res : result (bool * answer)) :
  inv st -> walk_inv st -> step st = (Return res, st') ->
  (exists a, res = Ok (true, a) /\ walk_answer hint a) \/
  (res = Ok (false, ANone) /\ forall ws, ws <> [] -> ~ simple_ladder wordfile p ws).
Proof.
  intros Hinv Hwalk Hstep. destruct (bs_queue st) as [|q rest] eqn:Hq.
  { right. unfold bfs_step in Hstep. rewrite Hq in Hstep. injection Hstep as <- _.
    split; [reflexivity|]. now apply (walk_closed st). }
  left. destruct (step_run st q rest Hinv Hq) as (pw1 & pw2 & Hpw & Hnt & _ & _ & Hr).
  rewrite Hstep in Hr. cbn [fst] in Hr. destruct Hr as ((rest' & ->) & ->).
  destruct Hwalk as (HK & HT & _). rewrite Hq in HK.
  apply Forall_inv in HK as (ws & Hps & Hrungs & Hnd & Hav & Hrec).
  destruct (path_state_inv q ws Hps) as (Hs & Hu & Ht & _ & _).
  assert (Hcand : In target (_possible_words (bs_store st) q)).
  { rewrite Hpw, Ht. apply in_or_app. right. now left. }
  apply (walk_candidate (bs_store st) q ws target Hps) in Hcand as (Hw & Hone & Hfresh & _).
  assert (Hlad : simple_ladder wordfile p (ws ++ [target])).
  { unfold simple_ladder. rewrite state_of_start, state_of_used, state_of_target.
    split; [now apply rungs_app|]. split; [|split].
    - apply NoDup_app_one; [exact Hnd|]. intros Hin. apply Hfresh, in_or_app. now right.
    - apply Forall_app. split; [exact Hav|]. constructor; [|constructor].
      intros Hin. apply Hfresh, in_or_app. now left.
    - apply last_last. }
  unfold BreadthSpec.visit_answer, BreadthSpec.walk_answer. rewrite Ht, Hu.
  destruct hint eqn:Hh.
  - specialize (first_start eq_refl).
    rewrite <- !app_assoc. cbn [app].
    rewrite (index_app_first start used (ws ++ [target]) first_start). cbn [rbind].
    destruct (ws ++ [target]) as [|w1 ws1] eqn:Ews; [now destruct ws|].
    assert (Hget : getitem (used ++ start :: w1 :: ws1) (length used + 1) = Ok w1).
    { apply getitem_Ok. rewrite nth_error_app2 by lia.
      replace (length used + 1 - length used) with 1 by lia. reflexivity. }
    rewrite Hget. cbn [rbind]. exists (AStr w1). split; [reflexivity|].
    exists w1, ws1. split; [reflexivity | exact Hlad].
  - eexists. split; [reflexivity|].
    exists (add_tried_words (_extend wordfile q target) acc), (ws ++ [target]).
    split; [reflexivity|]. split; [now destruct ws|]. split.
    + unfold is_solved. cbn [add_tried_words _extend __init__ _start _target].
      rewrite Ht. apply String.eqb_refl.
    + split; [|exact Hlad].
      cbn [add_tried_words _extend __init__ _used_words state_of]. rewrite Hu.
      now rewrite app_assoc.
Qed.

(** The loop ends, with a ladder to the target when it answers [True],
    and only when there is no ladder when it answers [False]. *)
Lemma bfs_loop_walk (n : nat) :
  forall st : bfs_state,
    inv st -> walk_inv st -> potential st < n ->
    exists b a,
      (forall fuel, n <= fuel -> bfs_loop wordfile fuel p hint acc st = Some (Ok (b, a))) /\
      ((b = true /\ walk_answer hint a) \/
       (b = false /\ a = ANone /\ forall ws, ws <> [] -> ~ simple_ladder wordfile p ws)).
Proof.
  induction n as [|n IH]; intros st Hinv Hwalk Hpot; [lia|].
  destruct (step st) as [o st'] eqn:Hstep. destruct o as [res|].
  - destruct (walk_return st st' res Hinv Hwalk Hstep) as [(a & -> & Ha)|(-> & Hno)].
    + exists true, a. split; [|now left].
      intros [|fuel] Hfuel; [lia|]. cbn [bfs_loop]. now rewrite Hstep.
    + exists false, ANone. split; [|now right].
      intros [|fuel] Hfuel; [lia|]. cbn [bfs_loop]. now rewrite Hstep.
  - pose proof (potential_step wordfile h0 start target used Own hint st st' Hinv Hstep) as Hlt.
    pose proof (inv_step wordfile h0 start target used Own hint st Hinv) as Hinv'.
    rewrite Hstep in Hinv'. cbn [snd] in Hinv'.
    pose proof (walk_step st st' Hinv Hwalk Hstep) as Hwalk'.
    destruct (IH st' Hinv' Hwalk' ltac:(lia)) as (b & a & Hrun & Hpost).
    exists b, a. split; [|exact Hpost].
    intros [|fuel] Hfuel; [lia|]. cbn [bfs_loop]. rewrite Hstep. apply Hrun. lia.
Qed.

Lemma solve_in_breadth_walk :
  exists b a,
    (forall k, solve_in_breadth wordfile (length wordfile + 2 + k) h0 p hint
               = Some (Ok (b, a))) /\
    ((b = true /\ walk_answer hint a) \/
     (b = false /\ a = ANone /\ forall ws, ws <> [] -> ~ simple_ladder wordfile p ws)).
Proof.
  destruct (bfs_loop_walk (length wordfile + 2) st0
              (inv_init wordfile h0 start target used Own) walk_init) as (b & a & Hrun & Hpost).
  { rewrite (potential_init wordfile h0 start target used Own). lia. }
  exists b, a. split; [|exact Hpost].
  intros k. unfold solve_in_breadth, bfs_init, alloc. apply Hrun. lia.
Qed.

End Facts.

(** X14.  [solve] on a word ladder returns: the solved state of a ladder from
    the current word to the target that uses no word twice, or nothing
    when no such ladder of one word or more exists. *)
Theorem ladder_solve_spec (wordfile : list string) (h0 : store)
    (start target : string) (used : list string) :
  let p := WordLadderPuzzle.__init__ wordfile start target used in
  exists a,
    (forall k, solve wordfile h0 (length wordfile + 2 + k) (WordLadder p) = Some (Ok a)) /\
    ((exists e ws,
        a = APuzzle (WordLadder e) /\ ws <> [] /\ is_solved e = true /\
        _used_words e = _used_words p ++ ws /\ simple_ladder wordfile p ws) \/
     (a = ANone /\ forall ws, ws <> [] -> ~ simple_ladder wordfile p ws)).
Proof.
  intros p.
  destruct (solve_in_breadth_walk wordfile h0 start target used false ltac:(discriminate))
    as (b & a & Hrun & [(-> & Ha)|(-> & -> & Hno)]).
  - exists a. split; [|left; exact Ha].
    intros k. cbn [solve]. unfold solve_breadth. unfold p.
    change (WordLadderPuzzle.__init__ wordfile start target used)
      with (state_of wordfile start target used Own).
    rewrite (Hrun k). reflexivity.
  - exists ANone. split; [|right; now split].
    intros k. cbn [solve]. unfold solve_breadth. unfold p.
    change (WordLadderPuzzle.__init__ wordfile start target used)
      with (state_of wordfile start target used Own).
    rewrite (Hrun k). reflexivity.
Qed.

(** X15.  [hint_by_breadth] returns a text: the "already solved" text on a
    solved state; otherwise the first word of a ladder to the target,
    which [move] accepts, or the "no possible extensions" text when no
    ladder exists. *)
Theorem ladder_hint_spec (wordfile : list string) (h0 : store)
    (start target : string) (used : list string) :
  ~ In start used ->
  let p := WordLadderPuzzle.__init__ wordfile start target used in
  exists s,
    (forall k, hint_by_breadth wordfile (length wordfile + 2 + k) h0 p = Some (Ok (AStr s))) /\
    (start = target -> s = already_solved) /\
    (start <> target ->
     (exists ws, simple_ladder wordfile p (s :: ws) /\
                 move wordfile h0 p s
                 = Ok (WordLadderPuzzle.__init__ wordfile s target (used ++ [start]))) \/
     (s = no_extensions /\ forall ws, ws <> [] -> ~ simple_ladder wordfile p ws)).
Proof.
  intros Hstart p. unfold hint_by_breadth.
  change (is_solved p) with (String.eqb start target).
  destruct (String.eqb_spec start target) as [E|E].
  { exists already_solved. split; [reflexivity|]. split; [reflexivity | contradiction]. }
  destruct (solve_in_breadth_walk wordfile h0 start target used true ltac:(now intros _))
    as (b & a & Hrun & [(-> & (w & ws & -> & Hlad))|(-> & -> & Hno)]).
  - exists w. split; [|split; [contradiction|]].
    + intros k. unfold p.
      change (WordLadderPuzzle.__init__ wordfile start target used)
        with (state_of wordfile start target used Own).
      rewrite (Hrun k). reflexivity.
    + intros _. left. exists ws. split; [exact Hlad|].
      destruct Hlad as (Hr & _ & Hav & _). cbn [rungs] in Hr. destruct Hr as (Hw & Hone & _).
      apply Forall_inv in Hav.
      unfold p.
      change (WordLadderPuzzle.__init__ wordfile start target used)
        with (state_of wordfile start target used Own).
      apply (LadderMoves.move_accepts wordfile h0 start target used Own w);
        [now apply contains_true|].
      unfold is_candidate.
      cbn [state_of __init__ _used_words _start tried _tried_words] in *.
      apply contains_false in Hav. rewrite Hav, Hone. reflexivity.
  - exists no_extensions. split; [|split; [contradiction|]].
    + intros k. unfold p.
      change (WordLadderPuzzle.__init__ wordfile start target used)
        with (state_of wordfile start target used Own).
      rewrite (Hrun k). reflexivity.
    + intros _. right. now split.
Qed.

End WalkFacts.

(** ** Move history: the shape of the tree, and undo *)

Module TreeFacts.

Import Controller HistorySpec HistoryFacts.

Section Facts.

Context {P : Type} `{!Inhabited P}.
Variable move : P -> string -> result P.
Variable str : P -> result string.
Variable is_solved : P -> result bool.

Local Abbreviation heap := (list (@tree P)).
Local Abbreviation _act_move := (_act_move move str is_solved).
Local Abbreviation _act_undo := (_act_undo str).
Local Abbreviation step := (step move str is_solved).
Local Abbreviation reachable := (reachable move str is_solved).

Lemma children_in_range (hp : heap) (k l : loc) : In l (children hp k) -> k < length hp.
Proof.
  unfold children, node. intros Hin.
  destruct (Nat.lt_ge_cases k (length hp)) as [H|H]; [exact H|].
  rewrite nth_overflow in Hin by exact H. destruct Hin.
Qed.

Lemma grown_user_input (hp : heap) (cur : loc) (p : P) (action : string) (l : loc) :
  cur < length hp -> l < S (length hp) ->
  _user_input (node (grown hp cur p action) l) =
    if Nat.eqb l (length hp) then Some action else _user_input (node hp l).
Proof.
  intros Hcur Hl. unfold grown.
  rewrite node_add_subtree by (rewrite length_app; simpl; lia).
  destruct (Nat.eqb_spec l cur) as [->|Hne]; cbn [_user_input].
  - destruct (Nat.eqb_spec cur (length hp)); [lia|]. now rewrite node_app.
  - destruct (Nat.eqb_spec l (length hp)) as [->|Hne'].
    + now rewrite node_new.
    + rewrite node_app by lia. reflexivity.
Qed.

Lemma grown_children_old (hp : heap) (cur : loc) (p : P) (action : string) (k l : loc) :
  cur < length hp -> In l (children hp k) -> In l (children (grown hp cur p action) k).
Proof.
  intros Hcur Hin. pose proof (children_in_range hp k l Hin) as Hk.
  rewrite grown_children by lia.
  destruct (Nat.eqb_spec k cur) as [->|_]; [apply in_or_app; now left|].
  destruct (Nat.eqb_spec k (length hp)); [lia | exact Hin].
Qed.

Lemma descends_grown (hp : heap) (cur : loc) (p : P) (action : string) (k l : loc) :
  cur < length hp -> descends hp k l -> descends (grown hp cur p action) k l.
Proof.
  intros Hcur. induction 1 as [k l Hin | k c l Hin _ IH].
  - apply descends_child. now apply grown_children_old.
  - eapply descends_below; [|exact IH]. now apply grown_children_old.
Qed.

Lemma descends_snoc (hp : heap) (k c l : loc) :
  descends hp k c -> In l (children hp c) -> descends hp k l.
Proof.
  induction 1 as [k c Hin | k c' c Hin _ IH]; intros Hl.
  - eapply descends_below; [exact Hin | now apply descends_child].
  - eapply descends_below; [exact Hin | now apply IH].
Qed.

Lemma tree_shaped_init (p0 : P) : tree_shaped (__init__ p0).
Proof.
  unfold tree_shaped, tree_heap, __init__, new_tree. cbn [trees _tree length app].
  split; [reflexivity|]. split; [reflexivity|].
  split; [intros l Hl Hl'; lia|].
  split; [intros k l Hk Hin|split; [intros k k' l Hk Hk' Hin|intros l Hl Hl'; lia]].
  - destruct k as [|k]; [now cbn in Hin | lia].
  - destruct k as [|k]; [now cbn in Hin | lia].
Qed.

(** A new child keeps the tree a tree. *)
Lemma tree_shaped_grown (c : t) (p : P) (action : string) :
  closed c -> tree_shaped c ->
  tree_shaped {| puzzle := p; _tree := _tree c; _current_tree := length (trees c);
                 trees := grown (trees c) (_current_tree c) p action |}.
Proof.
  intros (Hroot & Hcur & Hcl) (Hr0 & Hth). unfold tree_heap in Hth.
  destruct Hth as (Hnone & Hsome & Hyoung & Huniq & Hdesc).
  unfold tree_shaped, tree_heap. cbn [trees _tree]. rewrite grown_length.
  set (hp := trees c) in *. set (cur := _current_tree c) in *.
  assert (Hn : 0 < length hp) by lia.
  assert (Hfresh : forall k, ~ In (length hp) (children hp k)).
  { intros k Hin. pose proof (children_in_range hp k (length hp) Hin) as Hk.
    specialize (Hcl k Hk). rewrite List.Forall_forall in Hcl. specialize (Hcl (length hp) Hin).
    lia. }
  assert (Hkids : forall k l, k < S (length hp) -> In l (children (grown hp cur p action) k) ->
            (k = cur /\ l = (length hp)) \/ (k < (length hp) /\ In l (children hp k))).
  { intros k l Hk Hin. rewrite grown_children in Hin by assumption.
    destruct (Nat.eqb_spec k cur) as [->|Hne].
    - apply in_app_or in Hin as [Hin|[<-|[]]]; [right | left]; auto.
    - destruct (Nat.eqb_spec k (length hp)) as [->|Hne']; [now cbn in Hin|].
      right. split; [lia | exact Hin]. }
  split; [exact Hr0|]. split; [|split; [|split; [|split]]].
  - rewrite grown_user_input by lia. destruct (Nat.eqb_spec 0 (length hp)); [lia | exact Hnone].
  - intros l Hl Hl'. rewrite grown_user_input by lia.
    destruct (Nat.eqb_spec l (length hp)) as [->|Hne]; [now exists action|].
    apply Hsome; lia.
  - intros k l Hk Hin. destruct (Hkids k l Hk Hin) as [(-> & ->)|(Hk' & Hin')]; [exact Hcur|].
    now apply Hyoung.
  - intros k k' l Hk Hk' Hin Hin'.
    destruct (Hkids k l Hk Hin) as [(Ek & El)|(Hk1 & Hin1)];
      destruct (Hkids k' l Hk' Hin') as [(Ek' & El')|(Hk2 & Hin2)].
    + congruence.
    + exfalso. rewrite El in Hin2. now apply (Hfresh k').
    + exfalso. rewrite El' in Hin1. now apply (Hfresh k).
    + now apply (Huniq k k' l).
  - intros l Hl Hl'. destruct (Nat.eq_dec l (length hp)) as [->|Hne].
    + assert (Hlast : In (length hp) (children (grown hp cur p action) cur)).
      { rewrite grown_children by lia. rewrite Nat.eqb_refl. apply in_or_app. right. now left. }
      destruct (Nat.eq_dec cur 0) as [E|E].
      * apply descends_child. rewrite <- E. exact Hlast.
      * apply (descends_snoc _ 0 cur (length hp)); [|exact Hlast].
        apply descends_grown; [exact Hcur|]. apply Hdesc; lia.
    + apply descends_grown; [exact Hcur|]. apply Hdesc; lia.
Qed.

Lemma tree_shaped_same_heap (c c' : @t P) :
  trees c' = trees c -> _tree c' = _tree c -> tree_shaped c -> tree_shaped c'.
Proof. unfold tree_shaped. intros -> ->. auto. Qed.

Lemma tree_shaped_act_move (c : t) (action : string) :
  closed c -> tree_shaped c -> tree_shaped (snd (_act_move c action)).
Proof.
  intros Hcl Hts. pose proof (act_move_cases move str is_solved c action) as H.
  destruct (move (puzzle c) action) as [p|e]; [|now rewrite H].
  destruct (in_subtree str (trees c) (_current_tree c) p) as [[k|]|e]; rewrite H.
  - now apply (tree_shaped_same_heap c).
  - now apply tree_shaped_grown.
  - now apply (tree_shaped_same_heap c).
Qed.

Lemma tree_shaped_act_undo (fuel : nat) (c c' : t) (r : result (string * bool)) :
  tree_shaped c -> _act_undo fuel c = Some (r, c') -> tree_shaped c'.
Proof.
  intros Hts. unfold Controller._act_undo.
  destruct (find_parent fuel (trees c) (_current_tree c) (_tree c))
    as [[[par pz]|]|]; [| |discriminate].
  - intros [= _ <-]. now apply (tree_shaped_same_heap c).
  - now intros [= _ <-].
Qed.

(** The history of every controller is a tree. *)
Lemma reachable_tree_shaped (p0 : P) (c : t) : reachable p0 c -> tree_shaped c.
Proof.
  induction 1 as [|c c' Hreach IH Hstep]; [apply tree_shaped_init|].
  pose proof (reachable_closed move str is_solved p0 c Hreach) as Hcl.
  revert IH Hcl. destruct Hstep as [c0 action r c1 Hmove | c0 fuel r c1 Hundo]; intros IH Hcl.
  - pose proof (tree_shaped_act_move c0 action Hcl IH) as H. now rewrite Hmove in H.
  - now apply (tree_shaped_act_undo fuel c0 c1 r).
Qed.

(** In a tree [find_parent] returns: the parent of [self] when [self]
    is below [family_tree], nothing otherwise. *)
Lemma find_parent_complete (hp : heap) (self : loc) :
  closed_heap hp -> tree_heap hp -> 0 < self -> self < length hp ->
  forall (d ft fuel : nat),
    length hp - ft <= d -> ft < length hp -> d < fuel ->
    exists r,
      find_parent fuel hp self ft = Some r /\
      match r with
      | Some (par, pz) => pz = _puzzle (node hp par) /\ In self (children hp par)
      | None => ~ descends hp ft self
      end.
Proof.
  intros Hcl (Hnone & Hsome & Hyoung & Huniq & Hdesc) Hself Hself'.
  destruct (Hsome self Hself Hself') as (a & Ha).
  induction d as [|d IH]; intros ft fuel Hd Hft Hfuel; [lia|].
  destruct fuel as [|fuel]; [lia|]. cbn [find_parent]. rewrite Ha.
  destruct (existsb (Nat.eqb self) (_subtrees (node hp ft))) eqn:Hex.
  - eexists. split; [reflexivity|]. split; [reflexivity|].
    apply existsb_exists in Hex as (k & Hk & E). apply Nat.eqb_eq in E. now subst.
  - assert (Hnot : ~ In self (children hp ft)).
    { intros Hin.
      assert (Htrue : existsb (Nat.eqb self) (_subtrees (node hp ft)) = true).
      { apply existsb_exists. exists self. split; [exact Hin | apply Nat.eqb_refl]. }
      congruence. }
    assert (Hloop : forall kids, (forall k, In k kids -> In k (children hp ft)) ->
      exists r,
        (fix loop (l : list loc) : option (option (loc * P)) :=
           match l with
           | [] => Some None
           | subtree :: l' =>
               match find_parent fuel hp self subtree with
               | None => None
               | Some (Some _) => find_parent fuel hp self subtree
               | Some None => loop l'
               end
           end) kids = Some r /\
        match r with
        | Some (par, pz) => pz = _puzzle (node hp par) /\ In self (children hp par)
        | None => forall k, In k kids -> ~ descends hp k self
        end).
    { induction kids as [|k kids IHk]; intros Hsub.
      - exists None. split; [reflexivity | intros k []].
      - assert (Hk : In k (children hp ft)) by (apply Hsub; now left).
        pose proof (Hyoung ft k Hft Hk) as Hlt.
        pose proof (Hcl ft Hft) as Hc. rewrite List.Forall_forall in Hc. specialize (Hc k Hk).
        destruct (IH k fuel ltac:(lia) Hc ltac:(lia)) as ([[par pz]|] & Hr & Hpost).
        + rewrite Hr. exists (Some (par, pz)). split; [reflexivity | exact Hpost].
        + rewrite Hr. destruct (IHk ltac:(intros x Hx; apply Hsub; now right))
            as (r & Hr' & Hpost').
          exists r. split; [exact Hr'|]. destruct r as [[par pz]|]; [exact Hpost'|].
          intros x [<-|Hx]; [exact Hpost | now apply Hpost']. }
    destruct (Hloop (children hp ft) (fun k Hk => Hk)) as (r & Hr & Hpost).
    exists r. split; [exact Hr|]. destruct r as [[par pz]|]; [exact Hpost|].
    intros Hdes. inversion Hdes as [k l Hin | k c l Hin Hbelow]; subst; [contradiction|].
    now apply (Hpost c).
Qed.

Lemma undo_to_parent (p0 : P) (c : t) (fuel : nat) :
  reachable p0 c -> length (trees c) < fuel -> _current_tree c <> 0 ->
  exists par,
    In (_current_tree c) (children (trees c) par) /\
    _act_undo fuel c =
      Some (let* s := str (_puzzle (node (trees c) par)) in Ok (s, false),
            {| puzzle := _puzzle (node (trees c) par); _tree := _tree c;
               _current_tree := par; trees := trees c |}).
Proof.
  intros Hreach Hfuel Hne.
  pose proof (reachable_closed move str is_solved p0 c Hreach) as (Hroot & Hcur & Hcl).
  pose proof (reachable_tree_shaped p0 c Hreach) as (Hr0 & Hth).
  unfold Controller._act_undo. rewrite Hr0.
  destruct (find_parent_complete (trees c) (_current_tree c) Hcl Hth ltac:(lia) Hcur
              (length (trees c)) 0 fuel ltac:(lia) ltac:(lia) Hfuel)
    as ([[par pz]|] & -> & Hpost).
  - destruct Hpost as (-> & Hin). exists par. split; [exact Hin | reflexivity].
  - exfalso. apply Hpost. destruct Hth as (_ & _ & _ & _ & Hdesc). apply Hdesc; lia.
Qed.

(** X16.  [:UNDO] on a controller of a game: at the root it reports that no
    move was made and changes nothing; elsewhere it moves the cursor to
    the parent of the current node and shows the state stored there. *)
Theorem undo_spec (p0 : P) (c : t) (fuel : nat) :
  reachable p0 c -> length (trees c) < fuel ->
  (_current_tree c = 0 ->
   _act_undo fuel c = Some (Ok ("You have not made any moves.", false), c)) /\
  (_current_tree c <> 0 ->
   exists par,
     In (_current_tree c) (children (trees c) par) /\
     _act_undo fuel c =
       Some (let* s := str (_puzzle (node (trees c) par)) in Ok (s, false),
             {| puzzle := _puzzle (node (trees c) par); _tree := _tree c;
                _current_tree := par; trees := trees c |})).
Proof.
  intros Hreach Hfuel. split.
  - pose proof (reachable_tree_shaped p0 c Hreach) as (Hr0 & Hnone & _).
    unfold Controller._act_undo. rewrite Hr0.
    intros ->. destruct fuel as [|fuel]; [lia|]. cbn [find_parent].
    now rewrite Hnone.
  - now apply (undo_to_parent p0).
Qed.

(** X17.  Undo after a move: the cursor is back on the node the move was made
    from, and the state shown is the one stored there. *)
Theorem undo_after_move (p0 : P) (c : t) (action : string) (p' : P) (d : string)
    (fuel : nat) :
  reachable p0 c ->
  move (puzzle c) action = Ok p' -> str p' = Ok d ->
  shown str (trees c) (children (trees c) (_current_tree c)) ->
  let c' := snd (_act_move c action) in
  length (trees c') < fuel ->
  _act_undo fuel c' =
    Some (let* s := str (_puzzle (node (trees c) (_current_tree c))) in Ok (s, false),
          {| puzzle := _puzzle (node (trees c) (_current_tree c)); _tree := _tree c;
             _current_tree := _current_tree c; trees := trees c' |}).
Proof.
  intros Hreach Hmove Hstr Hshown c' Hfuel.
  pose proof (reachable_good move str is_solved p0 c Hreach) as Hgood.
  pose proof (reachable_closed move str is_solved p0 c Hreach) as (Hroot & Hcur & Hcl).
  destruct (act_move_lands move str is_solved c action p' d Hgood Hmove Hstr Hshown)
    as (Hin & _ & Hlt). fold c' in Hin, Hlt.
  assert (Hreach' : reachable p0 c').
  { eapply reach_step; [exact Hreach|]. eapply step_move. apply surjective_pairing. }
  pose proof (reachable_closed move str is_solved p0 c' Hreach') as (_ & _ & Hcl').
  pose proof (reachable_tree_shaped p0 c' Hreach') as (Hr0' & Hth').
  pose proof Hth' as (_ & _ & Hyoung & Huniq & _).
  pose proof (children_in_range _ _ _ Hin) as Hcur'.
  pose proof (Hyoung _ _ Hcur' Hin) as Hpos.
  destruct (undo_to_parent p0 c' fuel Hreach' Hfuel ltac:(lia)) as (par & Hpar & ->).
  pose proof (children_in_range _ _ _ Hpar) as Hparlt.
  assert (par = _current_tree c) as -> by now apply (Huniq par (_current_tree c) (_current_tree c')).
  assert (Htree : _tree c' = _tree c).
  { unfold c'. pose proof (act_move_cases move str is_solved c action) as H.
    rewrite Hmove in H.
    destruct (in_subtree str (trees c) (_current_tree c) p') as [[k|]|e]; now rewrite H. }
  assert (Hpz : _puzzle (node (trees c') (_current_tree c)) = _puzzle (node (trees c) (_current_tree c))).
  { assert (Hgrows : grows (trees c) (trees c')).
    { apply (grows_step move str is_solved c c'); [now repeat split|].
      eapply step_move. apply surjective_pairing. }
    destruct Hgrows as (_ & Hg). now destruct (Hg _ Hcur) as (-> & _). }
  now rewrite Hpz, Htree.
Qed.

(** X18.  The representation invariant the source documents: in the history
    of a game only the root has no user input; and the history is a
    tree. *)
Theorem history_is_a_tree (p0 : P) (c : t) :
  reachable p0 c ->
  tree_shaped c /\
  forall l, l < length (trees c) ->
    (_user_input (node (trees c) l) = None <-> l = _tree c).
Proof.
  intros Hreach. pose proof (reachable_tree_shaped p0 c Hreach) as Hts.
  split; [exact Hts|]. destruct Hts as (-> & Hnone & Hsome & _).
  intros l Hl. split.
  - intros Hn. destruct l as [|l]; [reflexivity|].
    destruct (Hsome (S l) ltac:(lia) Hl) as (a & Ha). congruence.
  - intros ->. exact Hnone.
Qed.

End Facts.

End TreeFacts.

(** ** The actions of a game *)

Module ActionFacts.

Import Controller HistorySpec HistoryFacts TreeFacts GameSpec.

Section Facts.

Variable wordfile : list string.
Variable h : store.

Local Abbreviation game := (@Controller.t Solver.puzzle).
Local Abbreviation act := (act wordfile h).
Local Abbreviation move := (puzzle_move wordfile h).
Local Abbreviation reachable := (reachable move puzzle_str Solver.is_solved).

Lemma act_move_text (fuel : nat) (c : game) (action : string) :
  ~ In action commands ->
  act fuel c action =
    match _act_move move puzzle_str Solver.is_solved c action with
    | (Ok r, c') => Some (Done r, c', [])
    | (Raise ValueError, c') =>
        Some (Done ("Sorry, that is not a valid move. Please try again.", false), c', [])
    | (Raise e, c') => Some (Failed (PuzzleError e), c', [])
    end.
Proof.
  intros Hnot. unfold Controller.act.
  repeat match goal with
  | |- context [String.eqb action ?s] =>
      destruct (String.eqb_spec action s) as [E|_];
      [exfalso; apply Hnot; rewrite E; unfold commands; cbn; tauto|]
  end.
  reflexivity.
Qed.

Lemma get_short (s : string) (n : nat) : String.length s <= n -> String.get n s = None.
Proof.
  revert n. induction s as [|a s IH]; intros n Hn; [now destruct n|].
  destruct n as [|n]; cbn [String.length] in Hn; [lia|].
  cbn [String.get]. apply IH. lia.
Qed.

(** X20.  A Sudoku game does not survive a text of one character or less
    that is no command: [move] raises [IndexError], which [act] does not
    handle; the game is as before. *)
Theorem sudoku_game_short_text_fails (fuel : nat) (c : game) (s : SudokuPuzzle.t)
    (action : string) :
  puzzle c = Solver.Sudoku s -> ~ In action commands -> String.length action <= 1 ->
  act fuel c action = Some (Failed (PuzzleError IndexError), c, []).
Proof.
  intros Hp Hnot Hlen. rewrite (act_move_text fuel c action Hnot).
  unfold Controller._act_move. rewrite Hp. cbn [puzzle_move].
  unfold SudokuPuzzle.move, str_getitem. rewrite (get_short action 1 Hlen). reflexivity.
Qed.

Lemma ladder_str_ok (w : WordLadderPuzzle.t) :
  WordLadderPuzzle._used_words w <> [] -> exists d, WordLadderPuzzle.__str__ w = Ok d.
Proof.
  unfold WordLadderPuzzle.__str__. destruct (WordLadderPuzzle._used_words w); [congruence|].
  intros _. eexists. reflexivity.
Qed.

Lemma ladder_made_str (p : Solver.puzzle) : ladder_made p -> exists d, puzzle_str p = Ok d.
Proof. intros (w & -> & Hw). now apply ladder_str_ok. Qed.

Lemma ladder_move_cases (p : Solver.puzzle) (action : string) :
  ladder_made p ->
  move p action = Raise ValueError \/ exists p', move p action = Ok p' /\ ladder_made p'.
Proof.
  intros (w & -> & _). cbn [puzzle_move]. unfold WordLadderPuzzle.move.
  destruct (negb _); [now left|]. right. eexists. split; [reflexivity|].
  eexists. split; [reflexivity|].
  cbn [WordLadderPuzzle._extend WordLadderPuzzle.__init__ WordLadderPuzzle._used_words].
  now destruct (WordLadderPuzzle._used_words w).
Qed.

Lemma ladder_game_act_move (c : game) (action : string) :
  closed c -> ladder_game c ->
  ladder_game (snd (_act_move move puzzle_str Solver.is_solved c action)).
Proof.
  intros (_ & Hcur & _) (Hp & Hheap).
  pose proof (act_move_cases move puzzle_str Solver.is_solved c action) as H.
  destruct (ladder_move_cases (puzzle c) action Hp) as [E|(p' & E & Hp')];
    rewrite E in H; [now rewrite H|].
  destruct (in_subtree puzzle_str (trees c) (_current_tree c) p') as [[k|]|e]; rewrite H;
    try (split; [exact Hp' | exact Hheap]).
  split; [exact Hp'|]. cbn [trees]. intros l Hl. rewrite grown_length in Hl.
  rewrite grown_puzzle by lia.
  destruct (Nat.eqb_spec l (length (trees c))); [exact Hp' | apply Hheap; lia].
Qed.

Lemma ladder_game_act_undo (fuel : nat) (c c' : game) (r : result (string * bool)) :
  closed c -> ladder_game c -> _act_undo puzzle_str fuel c = Some (r, c') -> ladder_game c'.
Proof.
  intros (Hroot & _ & Hcl) (Hp & Hheap). unfold Controller._act_undo.
  destruct (find_parent fuel (trees c) (_current_tree c) (_tree c))
    as [[[par pz]|]|] eqn:Hfind; [| |discriminate].
  - intros [= _ <-].
    apply (find_parent_sound _ _ _ Hcl) in Hfind as (Hpar & -> & _); [|assumption].
    split; [now apply Hheap | exact Hheap].
  - intros [= _ <-]. now split.
Qed.

Lemma reachable_ladder_game (p0 : Solver.puzzle) (c : game) :
  ladder_made p0 -> reachable p0 c -> ladder_game c.
Proof.
  intros Hp0. induction 1 as [|c c' Hreach IH Hstep].
  - split; [exact Hp0|]. intros l Hl. cbn in Hl.
    destruct l as [|l]; [exact Hp0 | lia].
  - pose proof (reachable_closed move puzzle_str Solver.is_solved p0 c Hreach) as Hcl.
    revert IH Hcl. destruct Hstep as [c0 action r c1 Hmove | c0 fuel r c1 Hundo]; intros IH Hcl.
    + pose proof (ladder_game_act_move c0 action Hcl IH) as H. now rewrite Hmove in H.
    + now apply (ladder_game_act_undo fuel c0 c1 r).
Qed.

(** X21.  A game on a word ladder survives every text that is no command:
    [act] makes the move, or answers that the move is not valid and
    leaves the game as it is. *)
Theorem ladder_game_never_fails (start target : string) (used : list string)
    (fuel : nat) (c : game) (action : string) :
  reachable (Solver.WordLadder (WordLadderPuzzle.__init__ wordfile start target used)) c ->
  ~ In action commands ->
  (move (puzzle c) action = Raise ValueError /\
   act fuel c action
   = Some (Done ("Sorry, that is not a valid move. Please try again.", false), c, [])) \/
  (exists p' r c',
     move (puzzle c) action = Ok p' /\
     act fuel c action = Some (Done r, c', []) /\ puzzle c' = p').
Proof.
  intros Hreach Hnot. rewrite (act_move_text fuel c action Hnot).
  assert (Hgame : ladder_game c).
  { refine (reachable_ladder_game _ c _ Hreach).
    eexists. split; [reflexivity|]. cbn. now destruct used. }
  pose proof (reachable_good move puzzle_str Solver.is_solved _ c Hreach) as Hgood.
  pose proof Hgood as ((_ & Hcur & Hcl) & _ & _).
  destruct Hgame as (Hp & Hheap).
  destruct (ladder_move_cases (puzzle c) action Hp) as [E|(p' & E & Hp')].
  - left. split; [exact E|]. unfold Controller._act_move. now rewrite E.
  - right. exists p'. destruct (ladder_made_str p' Hp') as (d & Hd).
    assert (Hshown : shown puzzle_str (trees c) (children (trees c) (_current_tree c))).
    { apply List.Forall_forall. intros k Hk. apply ladder_made_str, Hheap.
      specialize (Hcl _ Hcur). rewrite List.Forall_forall in Hcl. now apply Hcl. }
    destruct (in_subtree_no_raise puzzle_str (trees c) _ p' d Hshown Hd) as (found & Hfound).
    unfold Controller._act_move. rewrite E. cbn [puzzle trees _current_tree _tree].
    unfold in_subtree. fold (children (trees c) (_current_tree c)). rewrite Hfound.
    destruct Hp' as (w' & -> & Hw'). cbn [Solver.is_solved rbind].
    unfold Controller.state.
    destruct found as [k|]; cbn [puzzle new_tree]; rewrite Hd; cbn [rbind];
      destruct (WordLadderPuzzle.is_solved w'); eexists; eexists;
      (split; [reflexivity|]); (split; [reflexivity|]); reflexivity.
Qed.

Lemma attempts_loop_done (hp : list (@tree Solver.puzzle)) (kids : list loc)
    (out : list string) :
  (forall k, In k kids ->
     ladder_made (_puzzle (node hp k)) /\ exists a, _user_input (node hp k) = Some a) ->
  exists out',
    attempts_loop (combine (map (fun l => _puzzle (node hp l)) kids)
                           (map (fun l => _user_input (node hp l)) kids)) out
    = (Done ("", false), out ++ out') /\ length out' = length kids.
Proof.
  revert out. induction kids as [|k kids IH]; intros out Hkids.
  - exists []. now rewrite app_nil_r.
  - destruct (Hkids k ltac:(now left)) as (Hmade & a & Ha).
    destruct (ladder_made_str _ Hmade) as (d & Hd).
    cbn [map combine attempts_loop]. rewrite Hd, Ha.
    destruct (IH (out ++ ["You attempted... " +:+ SudokuPuzzle.newline +:+ d
                          +:+ SudokuPuzzle.newline +:+ "Your move was '" +:+ a +:+ "'"
                          +:+ SudokuPuzzle.newline])
                ltac:(intros k' Hk'; apply Hkids; now right)) as (out' & E & Hlen).
    eexists (_ :: out'). rewrite E, <- app_assoc. split; [reflexivity|].
    cbn [length]. now rewrite Hlen.
Qed.

(** X22.  On a game on a word ladder, [:ATTEMPTS] never fails: it prints one
    line for every move tried from the current state and keeps the game;
    it says that the state was never reached when there is none. *)
Theorem ladder_game_attempts (start target : string) (used : list string)
    (fuel : nat) (c : game) :
  reachable (Solver.WordLadder (WordLadderPuzzle.__init__ wordfile start target used)) c ->
  exists msg out,
    act fuel c ":ATTEMPTS" = Some (Done (msg, false), c, out) /\
    length out = length (children (trees c) (_current_tree c)) /\
    (msg = "You have never reached this state before."
     <-> children (trees c) (_current_tree c) = []) /\
    (msg = "" <-> children (trees c) (_current_tree c) <> []).
Proof.
  intros Hreach.
  assert (Hgame : ladder_game c).
  { refine (reachable_ladder_game _ c _ Hreach).
    eexists. split; [reflexivity|]. cbn. now destruct used. }
  pose proof (reachable_closed move puzzle_str Solver.is_solved _ c Hreach)
    as (_ & Hcur & Hcl).
  pose proof (reachable_tree_shaped move puzzle_str Solver.is_solved _ c Hreach)
    as (_ & _ & Hsome & Hyoung & _).
  destruct Hgame as (_ & Hheap).
  assert (Hkids : forall k, In k (children (trees c) (_current_tree c)) ->
            ladder_made (_puzzle (node (trees c) k)) /\
            exists a, _user_input (node (trees c) k) = Some a).
  { intros k Hk. pose proof (Hcl _ Hcur) as Hin. rewrite List.Forall_forall in Hin.
    specialize (Hin k Hk). split; [now apply Hheap|].
    apply Hsome; [|exact Hin]. specialize (Hyoung _ _ Hcur Hk). lia. }
  cbn [Controller.act String.eqb Ascii.eqb Bool.eqb andb].
  unfold _act_attempts, return_subtrees. rewrite length_map.
  fold (children (trees c) (_current_tree c)) in *.
  destruct (children (trees c) (_current_tree c)) as [|k kids] eqn:Ekids.
  - cbn [length Nat.eqb]. do 2 eexists. split; [reflexivity|]. split; [reflexivity|].
    split; split; intros H; try reflexivity; congruence.
  - cbn [length Nat.eqb].
    destruct (attempts_loop_done (trees c) (k :: kids) [] Hkids) as (out' & E & Hlen).
    rewrite E. cbn [app]. do 2 eexists. split; [reflexivity|]. split; [exact Hlen|].
    split; split; intros H; try reflexivity; congruence.
Qed.

(** X23.  [:SOLVE] on a Sudoku game answers with the display of a solved
    board that keeps the letters of the current one, or says that there
    is no solution when there is no such board; the game is as before. *)
Theorem sudoku_game_solve (fuel : nat) (c : game) (g : SudokuPuzzle.grid) (m : nat) :
  puzzle c = Solver.Sudoku (SudokuPuzzle.__init__ g) ->
  SudokuSpec.wf_grid g m = true -> SudokuSpec.cols_distinct g m = true ->
  SudokuSpec.empties g < fuel ->
  (exists g' d,
     SudokuSpec.completes g g' m /\
     SudokuPuzzle.__str__ (SudokuPuzzle.__init__ g') = Ok d /\
     act fuel c ":SOLVE" = Some (Done (d, true), c, [])) \/
  ((forall g', ~ SudokuSpec.completes g g' m) /\
   act fuel c ":SOLVE" = Some (Done ("There are no solutions.", true), c, [])).
Proof.
  intros Hp Hwf Hcols Hfuel.
  destruct (SearchFacts.exhaustive_search SudokuPuzzle.is_solved SudokuPuzzle.extensions
              (SudokuSpec.board_inv m) SudokuSpec.board_mu
              (SudokuSearch.board_inv_solved m) (SudokuSearch.board_inv_extensions m)
              fuel (SudokuPuzzle.__init__ g)
              (SudokuSearch.board_inv_init g m Hwf Hcols) Hfuel) as (l & _ & Hd & Hl).
  cbn [Controller.act String.eqb Ascii.eqb Bool.eqb andb].
  unfold _act_solve. rewrite Hp. cbn [Solver.solve]. rewrite Hd. cbn [sbind].
  destruct l as [|t l]; cbn [List.hd_error].
  - right. split; [|reflexivity]. intros g' Hcomp.
    apply (Hl (SudokuPuzzle.__init__ g')).
    apply (SudokuSearch.completes_leads m g' (S (SudokuSpec.empties g))); auto.
  - left. destruct (SudokuSearch.leads_completes m (SudokuPuzzle.__init__ g) t
                      (proj1 (Hl t) ltac:(now left)) g eq_refl Hwf Hcols)
      as (g' & -> & Hcomp).
    destruct (MoveFacts.sudoku_str_total g' m (proj1 Hcomp)) as (d & Hstr).
    exists g', d. split; [exact Hcomp|]. split; [exact Hstr|].
    cbn [puzzle_str lift sbind sret]. now rewrite Hstr.
Qed.

End Facts.

End ActionFacts.

(** ** The properties on the sample boards *)

Module SudokuExamples.

Import SudokuPuzzle SudokuSpec Samples.
Import SolvedFacts BoardFacts SearchSpec SudokuSearch SuccessorFacts MoveFacts ColumnFacts BoundFacts.

Lemma is_solved_spec_witness :
  wf_grid g4_solved 2 = true /\
  exists b, is_solved (__init__ g4_solved) = Ok b /\ (b = true <-> latin g4_solved 2).
Proof.
  split; [reflexivity|]. apply (is_solved_spec g4_solved 2). reflexivity.
Defined.

Lemma sudoku_solve_spec_witness :
  (wf_grid g4 2 = true /\ cols_distinct g4 2 = true /\ empties g4 < 5) /\
  ((exists g', Solver.solve [] [] 5 (Solver.Sudoku (__init__ g4))
               = Some (Ok (Solver.APuzzle (Solver.Sudoku (__init__ g'))))
               /\ completes g4 g' 2) \/
   (Solver.solve [] [] 5 (Solver.Sudoku (__init__ g4)) = Some (Ok Solver.ANone) /\
    forall g', ~ completes g4 g' 2)).
Proof.
  assert (Hfuel : empties g4 < 5) by (vm_compute; lia).
  split; [split; [reflexivity | split; [reflexivity | exact Hfuel]]|].
  apply (sudoku_solve_spec [] [] g4 2 5 eq_refl eq_refl Hfuel).
Defined.

Lemma sudoku_solve_complete_spec_witness :
  (wf_grid g4 2 = true /\ cols_distinct g4 2 = true /\ empties g4 < 5) /\
  exists l,
    Solver.solve_complete is_solved extensions 5 (__init__ g4) = Some (Ok l) /\
    forall t, In t l <-> exists g', t = __init__ g' /\ completes g4 g' 2.
Proof.
  assert (Hfuel : empties g4 < 5) by (vm_compute; lia).
  split; [split; [reflexivity | split; [reflexivity | exact Hfuel]]|].
  apply (sudoku_solve_complete_spec g4 2 5 eq_refl eq_refl Hfuel).
Defined.

Lemma extensions_keep_no_conflict_witness :
  (wf_grid g4 2 = true /\ no_conflict g4 2 = true /\
   extensions (__init__ g4) = Ok [__init__ (set_cell g4 2 2 "D")]) /\
  Forall (fun e => e = __init__ (_grid e) /\
                   wf_grid (_grid e) 2 = true /\ no_conflict (_grid e) 2 = true /\
                   S (empties (_grid e)) = empties g4)
         [__init__ (set_cell g4 2 2 "D")].
Proof.
  split; [split; [reflexivity | split; reflexivity]|].
  apply (extensions_keep_no_conflict g4 2 _ eq_refl eq_refl eq_refl).
Defined.

Lemma solved_board_has_no_extensions_witness :
  is_solved (__init__ g4_solved) = Ok true /\ extensions (__init__ g4_solved) = Ok [].
Proof.
  split; [reflexivity|]. apply (solved_board_has_no_extensions g4_solved). reflexivity.
Defined.

Lemma move_on_board_spec_witness :
  (wf_grid g4 2 = true /\ cols_distinct g4 2 = true /\
   cell g4 2 2 = "" /\ In "D" (candidates g4 2 2 2) /\ ~ In "A" (candidates g4 2 2 2)) /\
  move (__init__ g4) "(2, 2) -> D" = Ok (__init__ (set_cell g4 2 2 "D")) /\
  move (__init__ g4) "(2, 2) -> A" = Raise ValueError.
Proof.
  assert (HD : In "D" (candidates g4 2 2 2)) by (vm_compute; now left).
  assert (HA : ~ In "A" (candidates g4 2 2 2)).
  { vm_compute. intros [H|[]]. discriminate H. }
  split; [repeat split; try reflexivity; assumption|]. split.
  - apply (proj1 (move_on_board_spec g4 2 "(2, 2) -> D" "D" 2 2 eq_refl eq_refl
                    eq_refl eq_refl eq_refl ltac:(lia) ltac:(lia)));
      [reflexivity | exact HD].
  - apply (proj2 (move_on_board_spec g4 2 "(2, 2) -> A" "A" 2 2 eq_refl eq_refl
                    eq_refl eq_refl eq_refl ltac:(lia) ltac:(lia))).
    now right.
Defined.

Lemma generate_strings_spec_witness :
  (wf_grid g4 2 = true /\ wf_grid (set_cell g4 2 2 "D") 2 = true) /\
  generate_strings (__init__ g4) (__init__ g4) = Raise UnboundLocalError /\
  generate_strings (__init__ g4) (__init__ (set_cell g4 2 2 "D")) = Ok "(2, 2) -> D".
Proof.
  split; [split; reflexivity|]. split.
  - apply (proj1 (generate_strings_spec g4 g4 2 eq_refl eq_refl)). reflexivity.
  - apply (proj2 (generate_strings_spec g4 (set_cell g4 2 2 "D") 2 eq_refl eq_refl) 2 2);
      try lia.
    + discriminate.
    + intros [|[|j']] Hj; [reflexivity | reflexivity | lia].
    + intros i' j' Hlo Hhi Hj.
      assert (i' = 3) as -> by lia.
      destruct j' as [|[|[|[|j']]]]; [reflexivity..|lia].
Defined.

Lemma column_conflict_witness :
  (wf_grid g4_clash 2 = true /\ In "C" (letters (2 * 2)) /\
   contains "C" (row_of g4_clash 2) = false /\
   2 <= length (List.filter (String.eqb "C") (col_of g4_clash 2)) /\
   is_first_empty g4_clash 2 2 = true) /\
  _possible_letters (__init__ g4_clash) 2 2 = Raise ValueError /\
  extensions (__init__ g4_clash) = Raise ValueError.
Proof.
  assert (HC : In "C" (letters (2 * 2))) by (vm_compute; auto).
  assert (Htwice : 2 <= length (List.filter (String.eqb "C") (col_of g4_clash 2)))
    by (vm_compute; lia).
  split; [repeat split; try reflexivity; assumption|].
  destruct (column_conflict_raises_ValueError g4_clash 2 2 2 "C" eq_refl
              ltac:(lia) ltac:(lia) HC eq_refl Htwice) as (Hletters & Hext).
  split; [exact Hletters | apply Hext; reflexivity].
Defined.

Lemma solve_in_depth_negative_bound_witness :
  (-1 < 0)%Z /\
  Solver.solve_in_depth is_solved extensions 5 (__init__ g4) (-1) =
    match Solver.solve_depth is_solved extensions 5 (__init__ g4) with
    | None => None
    | Some (Raise e) => Some (Raise e)
    | Some (Ok (Some _)) => Some (Ok true)
    | Some (Ok None) => Some (Ok false)
    end.
Proof.
  split; [lia|]. apply (solve_in_depth_negative_bound is_solved extensions 5 (__init__ g4)). lia.
Defined.

Lemma valid_state_sudoku_witness :
  (wf_grid g4 2 = true /\ cols_distinct g4 2 = true) /\
  (exists b, Solver.valid_state extensions 5 (__init__ g4) 1 = Some (Ok b) /\
             (b = true <-> plays extensions 2 (__init__ g4))) /\
  Solver.valid_state extensions 5 (__init__ g4) (-1) = Some (Ok false).
Proof.
  split; [split; reflexivity|].
  destruct (valid_state_sudoku g4 2 eq_refl eq_refl) as (Hplays & Hneg). split.
  - apply (Hplays 1 5). lia.
  - apply Hneg; [lia | vm_compute; lia].
Defined.

End SudokuExamples.

(** ** The properties on the sample ladder *)

Module LadderExamples.

Import WordLadderPuzzle LadderSpec BreadthSpec Samples.
Import LadderMoves WalkFacts.

Lemma played_keeps_ladder_witness :
  let p := state_of vocab "hit" "cot" [] Own in
  let q := __init__ vocab "cot" "cot" ["hit"; "hot"] in
  played vocab [] p q /\
  exists ws,
    _used_words q = _used_words p ++ ws /\
    rungs vocab "hit" ws /\
    _start q = List.last ws "hit" /\
    _target q = "cot" /\
    (List.NoDup (_used_words p) -> List.NoDup (_used_words q)).
Proof.
  intros p q.
  assert (Hplayed : played vocab [] p q).
  { eapply (played_move vocab [] p (__init__ vocab "hot" "cot" ["hit"]) "cot").
    - eapply (played_move vocab [] p p "hot"); [apply played_start | reflexivity].
    - reflexivity. }
  split; [exact Hplayed|].
  apply (played_keeps_ladder vocab [] "hit" "cot" [] Own q Hplayed).
Defined.

Lemma ladder_solve_complete_spec_witness :
  let p := __init__ vocab "hit" "cot" [] in
  unrecorded vocab (_used_words p) < 8 /\
  exists l,
    Solver.solve_complete (fun q => Ok (is_solved q))
      (fun q => Ok (extensions vocab [] q)) 8 p = Some (Ok l) /\
    forall t, In t l <-> exists ws, t = climb vocab p ws /\ simple_ladder vocab p ws.
Proof.
  intros p.
  assert (Hfuel : unrecorded vocab (_used_words p) < 8) by (vm_compute; lia).
  split; [exact Hfuel|].
  apply (ladder_solve_complete_spec vocab [] "hit" "cot" [] 8 Hfuel).
Defined.

Lemma ladder_hint_spec_witness :
  let p := __init__ vocab "hit" "cot" [] in
  ~ In "hit" [] /\
  exists s,
    (forall k, Solver.hint_by_breadth vocab (length vocab + 2 + k) [] p
               = Some (Ok (Solver.AStr s))) /\
    ("hit" = "cot" -> s = Solver.already_solved) /\
    ("hit" <> "cot" ->
     (exists ws, simple_ladder vocab p (s :: ws) /\
                 move vocab [] p s = Ok (__init__ vocab s "cot" ([] ++ ["hit"]))) \/
     (s = Solver.no_extensions /\ forall ws, ws <> [] -> ~ simple_ladder vocab p ws)).
Proof.
  intros p. split; [intros []|].
  apply (ladder_hint_spec vocab [] "hit" "cot" []). intros [].
Defined.

End LadderExamples.

(** ** The properties on the sample games *)

Module GameExamples.

Import Controller HistorySpec HistorySamples GameSamples Samples.
Import TreeFacts ActionFacts.

Lemma c_moved_reachable :
  @reachable _ wl_inhabited ladder_move WordLadderPuzzle.__str__ ladder_solved
    ladder_start c_moved.
Proof.
  eapply (reach_step _ _ _ _ c_start); [apply reach_init|].
  eapply (step_move _ _ _ c_start "hot"). reflexivity.
Qed.

Lemma undo_spec_witness :
  length (trees c_start) < 5 /\ length (trees c_moved) < 5 /\
  @_act_undo _ wl_inhabited WordLadderPuzzle.__str__ 5 c_start
  = Some (Ok ("You have not made any moves.", false), c_start) /\
  exists par,
    In (_current_tree c_moved) (children (trees c_moved) par) /\
    @_act_undo _ wl_inhabited WordLadderPuzzle.__str__ 5 c_moved =
      Some (let* s := WordLadderPuzzle.__str__ (_puzzle (node (trees c_moved) par)) in
            Ok (s, false),
            {| puzzle := _puzzle (node (trees c_moved) par); _tree := _tree c_moved;
               _current_tree := par; trees := trees c_moved |}).
Proof.
  assert (H0 : length (trees c_start) < 5) by (vm_compute; lia).
  assert (H1 : length (trees c_moved) < 5) by (vm_compute; lia).
  split; [exact H0|]. split; [exact H1|]. split.
  - apply (proj1 (@undo_spec _ wl_inhabited ladder_move WordLadderPuzzle.__str__
                    ladder_solved ladder_start c_start 5 (reach_init _ _ _ _) H0)).
    reflexivity.
  - apply (proj2 (@undo_spec _ wl_inhabited ladder_move WordLadderPuzzle.__str__
                    ladder_solved ladder_start c_moved 5 c_moved_reachable H1)).
    discriminate.
Defined.

Lemma undo_after_move_witness :
  let c' := snd (@_act_move _ wl_inhabited ladder_move WordLadderPuzzle.__str__ ladder_solved
                   c_start "hot") in
  length (trees c') < 5 /\
  @_act_undo _ wl_inhabited WordLadderPuzzle.__str__ 5 c' =
    Some (let* s := WordLadderPuzzle.__str__
                      (_puzzle (node (trees c_start) (_current_tree c_start))) in
          Ok (s, false),
          {| puzzle := _puzzle (node (trees c_start) (_current_tree c_start));
             _tree := _tree c_start;
             _current_tree := _current_tree c_start; trees := trees c' |}).
Proof.
  intros c'.
  assert (Hfuel : length (trees c') < 5) by (vm_compute; lia).
  split; [exact Hfuel|].
  apply (@undo_after_move _ wl_inhabited ladder_move WordLadderPuzzle.__str__ ladder_solved
           ladder_start c_start "hot"
           (WordLadderPuzzle.__init__ vocab "hot" "cot" ["hit"])
           ("word chain: " +:+ String (ascii_of_nat 10) "hit -> hot"
              +:+ String (ascii_of_nat 10) "target word: cot")
           5 (reach_init _ _ _ _) eq_refl eq_refl);
    [constructor | exact Hfuel].
Defined.

Lemma history_is_a_tree_witness :
  tree_shaped c_moved /\
  forall l, l < length (trees c_moved) ->
    (_user_input (node (trees c_moved) l) = None <-> l = _tree c_moved).
Proof.
  apply (@history_is_a_tree _ wl_inhabited ladder_move WordLadderPuzzle.__str__ ladder_solved
           ladder_start c_moved c_moved_reachable).
Defined.

Lemma ladder_play_reachable :
  reachable (puzzle_move vocab []) puzzle_str Solver.is_solved ladder_first ladder_play_hot.
Proof.
  eapply (reach_step _ _ _ _ ladder_play); [apply reach_init|].
  eapply (step_move _ _ _ ladder_play "hot"). apply surjective_pairing.
Qed.

Lemma not_a_command (action : string) :
  contains action commands = false -> ~ In action commands.
Proof. intros H. now apply contains_false. Qed.

Lemma sudoku_game_short_text_witness :
  (puzzle sudoku_game = Solver.Sudoku (SudokuPuzzle.__init__ g4) /\
   ~ In "x" commands /\ String.length "x" <= 1) /\
  act [] [] 0 sudoku_game "x" = Some (Failed (PuzzleError IndexError), sudoku_game, []).
Proof.
  assert (Hnot : ~ In "x" commands) by (apply not_a_command; reflexivity).
  split; [split; [reflexivity | split; [exact Hnot | cbn; lia]]|].
  apply (sudoku_game_short_text_fails [] [] 0 sudoku_game (SudokuPuzzle.__init__ g4) "x"
           eq_refl Hnot). cbn. lia.
Defined.

Lemma ladder_game_never_fails_witness :
  ~ In "hat" commands /\
  ((puzzle_move vocab [] (puzzle ladder_play_hot) "hat" = Raise ValueError /\
    act vocab [] 0 ladder_play_hot "hat"
    = Some (Done ("Sorry, that is not a valid move. Please try again.", false),
            ladder_play_hot, [])) \/
   (exists p' r c',
      puzzle_move vocab [] (puzzle ladder_play_hot) "hat" = Ok p' /\
      act vocab [] 0 ladder_play_hot "hat" = Some (Done r, c', []) /\ puzzle c' = p')).
Proof.
  assert (Hnot : ~ In "hat" commands) by (apply not_a_command; reflexivity).
  split; [exact Hnot|].
  apply (ladder_game_never_fails vocab [] "hit" "cot" [] 0 ladder_play_hot "hat"
           ladder_play_reachable Hnot).
Defined.

Lemma ladder_game_attempts_witness :
  exists msg out,
    act vocab [] 0 ladder_play_hot ":ATTEMPTS" = Some (Done (msg, false), ladder_play_hot, out) /\
    length out = length (children (trees ladder_play_hot) (_current_tree ladder_play_hot)) /\
    (msg = "You have never reached this state before."
     <-> children (trees ladder_play_hot) (_current_tree ladder_play_hot) = []) /\
    (msg = "" <-> children (trees ladder_play_hot) (_current_tree ladder_play_hot) <> []).
Proof.
  apply (ladder_game_attempts vocab [] "hit" "cot" [] 0 ladder_play_hot ladder_play_reachable).
Defined.

Lemma sudoku_game_solve_witness :
  (SudokuSpec.wf_grid g4 2 = true /\ SudokuSpec.cols_distinct g4 2 = true /\
   SudokuSpec.empties g4 < 5) /\
  ((exists g' d,
      SudokuSpec.completes g4 g' 2 /\
      SudokuPuzzle.__str__ (SudokuPuzzle.__init__ g') = Ok d /\
      act [] [] 5 sudoku_game ":SOLVE" = Some (Done (d, true), sudoku_game, [])) \/
   ((forall g', ~ SudokuSpec.completes g4 g' 2) /\
    act [] [] 5 sudoku_game ":SOLVE"
    = Some (Done ("There are no solutions.", true), sudoku_game, []))).
Proof.
  assert (Hfuel : SudokuSpec.empties g4 < 5) by (vm_compute; lia).
  split; [split; [reflexivity | split; [reflexivity | exact Hfuel]]|].
  apply (sudoku_game_solve [] [] 5 sudoku_game g4 2 eq_refl eq_refl eq_refl Hfuel).
Defined.

End GameExamples.
